(** * The maze generator and solver: a shallow embedding and its properties

    The repository holds several revisions of one program.  Two of them are
    embedded here:

    - [MazeGo]: [src/maze.go] (Rev 2.0), the sequential generator: grid
      initialisation, recursive look ahead ([check_directions]), the 1x1
      orphan test, path carving, the mid-wall opening pass, the solver and
      the search for the best openings, and the regeneration loop of [main].
    - [MazeMT]: the Rev 2.3 revision (atomic cell accessors, [setCell], the
      budgeted [checkDirections], [look], [findDirections]), in the
      execution of a single goroutine: every atomic load and swap is one
      step on the grid, and where a property speaks of another goroutine,
      its steps are given explicitly between the steps of this one.

    Conventions.  Go's [int] is 64 bits wide and [int32] 32 bits; every
    counter of the program stays far below either bound on the admitted
    grid sizes (height <= 100, width <= 300, depth <= 100), so integers are
    [Z] without wrap-around.  The grid is the global array
    [maze[MAX_X][MAX_Y]], zero-initialised by Go (zero is the Path code); it
    is a total function here, and an index outside the array, on which Go
    panics, is not represented.  Display code ([print_maze], the delay) is
    output only and is left out.  [rand.Intn] reads the next draw of an
    explicit stream, so a statement over all streams covers all seeds.
    Loops without a static bound take fuel and return [None] when it runs
    out. *)

From Stdlib Require Import ZArith List Bool Lia.
Import ListNotations.
Open Scope Z_scope.

(** ** Grids and loops shared by both revisions *)

Definition grid : Type := Z -> Z -> Z.

Definition grid_set (g : grid) (x y v : Z) : grid :=
  fun i j => if (i =? x) && (j =? y) then v else g i j.

(** [for i := lo; i < lo + n*step; i += step { s = body i s }] *)
Fixpoint for_loop {S : Type} (n : nat) (i step : Z) (body : Z -> S -> S) (s : S) : S :=
  match n with
  | O => s
  | Datatypes.S n' => for_loop n' (i + step) step body (body i s)
  end.

(** [for i := lo; i < hi; i++] *)
Definition for_range {S : Type} (lo hi : Z) (body : Z -> S -> S) (s : S) : S :=
  for_loop (Z.to_nat (hi - lo)) lo 1 body s.

(** [for i := lo; i < hi; i += 2] *)
Definition for_range2 {S : Type} (lo hi : Z) (body : Z -> S -> S) (s : S) : S :=
  for_loop (Z.to_nat ((hi - lo + 1) / 2)) lo 2 body s.

(** The indices [0, 1, ..., n-1] of a counting loop. *)
Definition zrange (n : Z) : list Z := map Z.of_nat (seq 0 (Z.to_nat n)).

(** The pairs a nested loop [for i < h { for j < w {...} }] visits, in order. *)
Definition index_pairs (h w : Z) : list (Z * Z) :=
  flat_map (fun i => map (fun j => (i, j)) (zrange w)) (zrange h).

Notation "x <- c ;; k" :=
  (match c with Some x => k | None => None end)
  (at level 61, c at next level, right associativity).
Notation "' p <- c ;; k" :=
  (match c with Some p => k | None => None end)
  (at level 61, p pattern, c at next level, right associativity).

(** Go's short-circuit [a || b] over calls that return a flag and a state. *)
Definition or_else {A : Type} (r : option (bool * A)) (k : A -> option (bool * A))
  : option (bool * A) :=
  match r with
  | Some (false, a) => k a
  | _ => r
  end.

(** ** src/maze.go *)

Module MazeGo.

Definition MAX_WIDTH  : Z := 300.
Definition MAX_HEIGHT : Z := 100.
Definition MAX_X : Z := (MAX_HEIGHT + 1) * 2 + 1.
Definition MAX_Y : Z := (MAX_WIDTH + 1) * 2 + 1.

Definition PATH   : Z := 0.
Definition WALL   : Z := 1.
Definition SOLVED : Z := 2.
Definition TRIED  : Z := 3.
Definition CHECK  : Z := 4.

Definition UP    : Z := 1.
Definition DOWN  : Z := 2.
Definition LEFT  : Z := 3.
Definition RIGHT : Z := 4.

Definition NO_SEARCH : bool := false.
Definition SEARCH    : bool := true.

(** [type dir_tbl_type struct { x, y, heading int }] *)
Record dir_tbl_type : Type := mkDir { dt_x : Z; dt_y : Z; dt_heading : Z }.

(** The package-level variables, with the state of the random generator. *)
Record state : Type := mkState {
  maze : grid;  (* maze[MAX_X][MAX_Y] byte *)
  dir_tbl : Z -> dir_tbl_type;  (* dir_tbl[4] *)
  max_x : Z;
  max_y : Z;
  beg_x : Z;
  end_x : Z;
  beg_y : Z;
  end_y : Z;
  width : Z;
  height : Z;
  min_len : Z;
  path_len : Z;
  maze_len : Z;
  turn_cnt : Z;
  solves : Z;
  depth : Z;
  path_depth : Z;
  num_checks : Z;
  max_checks : Z;
  num_paths : Z;
  num_solves : Z;
  num_wall_push : Z;
  max_path_length : Z;
  num_maze_created : Z;
  rand_src : nat -> Z;  (* the draws of math/rand after rand.Seed *)
  rand_pos : nat  (* how many draws were consumed *)
}.

Definition set_maze (st : state) (v : grid) : state :=
  {| maze := v; dir_tbl := dir_tbl st; max_x := max_x st; max_y := max_y st;
     beg_x := beg_x st; end_x := end_x st; beg_y := beg_y st; end_y := end_y st;
     width := width st; height := height st; min_len := min_len st; path_len := path_len st;
     maze_len := maze_len st; turn_cnt := turn_cnt st; solves := solves st; depth := depth st;
     path_depth := path_depth st; num_checks := num_checks st; max_checks := max_checks st; num_paths := num_paths st;
     num_solves := num_solves st; num_wall_push := num_wall_push st; max_path_length := max_path_length st; num_maze_created := num_maze_created st;
     rand_src := rand_src st; rand_pos := rand_pos st |}.

Definition set_dir_tbl (st : state) (v : Z -> dir_tbl_type) : state :=
  {| maze := maze st; dir_tbl := v; max_x := max_x st; max_y := max_y st;
     beg_x := beg_x st; end_x := end_x st; beg_y := beg_y st; end_y := end_y st;
     width := width st; height := height st; min_len := min_len st; path_len := path_len st;
     maze_len := maze_len st; turn_cnt := turn_cnt st; solves := solves st; depth := depth st;
     path_depth := path_depth st; num_checks := num_checks st; max_checks := max_checks st; num_paths := num_paths st;
     num_solves := num_solves st; num_wall_push := num_wall_push st; max_path_length := max_path_length st; num_maze_created := num_maze_created st;
     rand_src := rand_src st; rand_pos := rand_pos st |}.

Definition set_max_x (st : state) (v : Z) : state :=
  {| maze := maze st; dir_tbl := dir_tbl st; max_x := v; max_y := max_y st;
     beg_x := beg_x st; end_x := end_x st; beg_y := beg_y st; end_y := end_y st;
     width := width st; height := height st; min_len := min_len st; path_len := path_len st;
     maze_len := maze_len st; turn_cnt := turn_cnt st; solves := solves st; depth := depth st;
     path_depth := path_depth st; num_checks := num_checks st; max_checks := max_checks st; num_paths := num_paths st;
     num_solves := num_solves st; num_wall_push := num_wall_push st; max_path_length := max_path_length st; num_maze_created := num_maze_created st;
     rand_src := rand_src st; rand_pos := rand_pos st |}.

Definition set_max_y (st : state) (v : Z) : state :=
  {| maze := maze st; dir_tbl := dir_tbl st; max_x := max_x st; max_y := v;
     beg_x := beg_x st; end_x := end_x st; beg_y := beg_y st; end_y := end_y st;
     width := width st; height := height st; min_len := min_len st; path_len := path_len st;
     maze_len := maze_len st; turn_cnt := turn_cnt st; solves := solves st; depth := depth st;
     path_depth := path_depth st; num_checks := num_checks st; max_checks := max_checks st; num_paths := num_paths st;
     num_solves := num_solves st; num_wall_push := num_wall_push st; max_path_length := max_path_length st; num_maze_created := num_maze_created st;
     rand_src := rand_src st; rand_pos := rand_pos st |}.

Definition set_beg_x (st : state) (v : Z) : state :=
  {| maze := maze st; dir_tbl := dir_tbl st; max_x := max_x st; max_y := max_y st;
     beg_x := v; end_x := end_x st; beg_y := beg_y st; end_y := end_y st;
     width := width st; height := height st; min_len := min_len st; path_len := path_len st;
     maze_len := maze_len st; turn_cnt := turn_cnt st; solves := solves st; depth := depth st;
     path_depth := path_depth st; num_checks := num_checks st; max_checks := max_checks st; num_paths := num_paths st;
     num_solves := num_solves st; num_wall_push := num_wall_push st; max_path_length := max_path_length st; num_maze_created := num_maze_created st;
     rand_src := rand_src st; rand_pos := rand_pos st |}.

Definition set_end_x (st : state) (v : Z) : state :=
  {| maze := maze st; dir_tbl := dir_tbl st; max_x := max_x st; max_y := max_y st;
     beg_x := beg_x st; end_x := v; beg_y := beg_y st; end_y := end_y st;
     width := width st; height := height st; min_len := min_len st; path_len := path_len st;
     maze_len := maze_len st; turn_cnt := turn_cnt st; solves := solves st; depth := depth st;
     path_depth := path_depth st; num_checks := num_checks st; max_checks := max_checks st; num_paths := num_paths st;
     num_solves := num_solves st; num_wall_push := num_wall_push st; max_path_length := max_path_length st; num_maze_created := num_maze_created st;
     rand_src := rand_src st; rand_pos := rand_pos st |}.

Definition set_beg_y (st : state) (v : Z) : state :=
  {| maze := maze st; dir_tbl := dir_tbl st; max_x := max_x st; max_y := max_y st;
     beg_x := beg_x st; end_x := end_x st; beg_y := v; end_y := end_y st;
     width := width st; height := height st; min_len := min_len st; path_len := path_len st;
     maze_len := maze_len st; turn_cnt := turn_cnt st; solves := solves st; depth := depth st;
     path_depth := path_depth st; num_checks := num_checks st; max_checks := max_checks st; num_paths := num_paths st;
     num_solves := num_solves st; num_wall_push := num_wall_push st; max_path_length := max_path_length st; num_maze_created := num_maze_created st;
     rand_src := rand_src st; rand_pos := rand_pos st |}.

Definition set_end_y (st : state) (v : Z) : state :=
  {| maze := maze st; dir_tbl := dir_tbl st; max_x := max_x st; max_y := max_y st;
     beg_x := beg_x st; end_x := end_x st; beg_y := beg_y st; end_y := v;
     width := width st; height := height st; min_len := min_len st; path_len := path_len st;
     maze_len := maze_len st; turn_cnt := turn_cnt st; solves := solves st; depth := depth st;
     path_depth := path_depth st; num_checks := num_checks st; max_checks := max_checks st; num_paths := num_paths st;
     num_solves := num_solves st; num_wall_push := num_wall_push st; max_path_length := max_path_length st; num_maze_created := num_maze_created st;
     rand_src := rand_src st; rand_pos := rand_pos st |}.

Definition set_path_len (st : state) (v : Z) : state :=
  {| maze := maze st; dir_tbl := dir_tbl st; max_x := max_x st; max_y := max_y st;
     beg_x := beg_x st; end_x := end_x st; beg_y := beg_y st; end_y := end_y st;
     width := width st; height := height st; min_len := min_len st; path_len := v;
     maze_len := maze_len st; turn_cnt := turn_cnt st; solves := solves st; depth := depth st;
     path_depth := path_depth st; num_checks := num_checks st; max_checks := max_checks st; num_paths := num_paths st;
     num_solves := num_solves st; num_wall_push := num_wall_push st; max_path_length := max_path_length st; num_maze_created := num_maze_created st;
     rand_src := rand_src st; rand_pos := rand_pos st |}.

Definition set_maze_len (st : state) (v : Z) : state :=
  {| maze := maze st; dir_tbl := dir_tbl st; max_x := max_x st; max_y := max_y st;
     beg_x := beg_x st; end_x := end_x st; beg_y := beg_y st; end_y := end_y st;
     width := width st; height := height st; min_len := min_len st; path_len := path_len st;
     maze_len := v; turn_cnt := turn_cnt st; solves := solves st; depth := depth st;
     path_depth := path_depth st; num_checks := num_checks st; max_checks := max_checks st; num_paths := num_paths st;
     num_solves := num_solves st; num_wall_push := num_wall_push st; max_path_length := max_path_length st; num_maze_created := num_maze_created st;
     rand_src := rand_src st; rand_pos := rand_pos st |}.

Definition set_turn_cnt (st : state) (v : Z) : state :=
  {| maze := maze st; dir_tbl := dir_tbl st; max_x := max_x st; max_y := max_y st;
     beg_x := beg_x st; end_x := end_x st; beg_y := beg_y st; end_y := end_y st;
     width := width st; height := height st; min_len := min_len st; path_len := path_len st;
     maze_len := maze_len st; turn_cnt := v; solves := solves st; depth := depth st;
     path_depth := path_depth st; num_checks := num_checks st; max_checks := max_checks st; num_paths := num_paths st;
     num_solves := num_solves st; num_wall_push := num_wall_push st; max_path_length := max_path_length st; num_maze_created := num_maze_created st;
     rand_src := rand_src st; rand_pos := rand_pos st |}.

Definition set_solves (st : state) (v : Z) : state :=
  {| maze := maze st; dir_tbl := dir_tbl st; max_x := max_x st; max_y := max_y st;
     beg_x := beg_x st; end_x := end_x st; beg_y := beg_y st; end_y := end_y st;
     width := width st; height := height st; min_len := min_len st; path_len := path_len st;
     maze_len := maze_len st; turn_cnt := turn_cnt st; solves := v; depth := depth st;
     path_depth := path_depth st; num_checks := num_checks st; max_checks := max_checks st; num_paths := num_paths st;
     num_solves := num_solves st; num_wall_push := num_wall_push st; max_path_length := max_path_length st; num_maze_created := num_maze_created st;
     rand_src := rand_src st; rand_pos := rand_pos st |}.

Definition set_path_depth (st : state) (v : Z) : state :=
  {| maze := maze st; dir_tbl := dir_tbl st; max_x := max_x st; max_y := max_y st;
     beg_x := beg_x st; end_x := end_x st; beg_y := beg_y st; end_y := end_y st;
     width := width st; height := height st; min_len := min_len st; path_len := path_len st;
     maze_len := maze_len st; turn_cnt := turn_cnt st; solves := solves st; depth := depth st;
     path_depth := v; num_checks := num_checks st; max_checks := max_checks st; num_paths := num_paths st;
     num_solves := num_solves st; num_wall_push := num_wall_push st; max_path_length := max_path_length st; num_maze_created := num_maze_created st;
     rand_src := rand_src st; rand_pos := rand_pos st |}.

Definition set_num_checks (st : state) (v : Z) : state :=
  {| maze := maze st; dir_tbl := dir_tbl st; max_x := max_x st; max_y := max_y st;
     beg_x := beg_x st; end_x := end_x st; beg_y := beg_y st; end_y := end_y st;
     width := width st; height := height st; min_len := min_len st; path_len := path_len st;
     maze_len := maze_len st; turn_cnt := turn_cnt st; solves := solves st; depth := depth st;
     path_depth := path_depth st; num_checks := v; max_checks := max_checks st; num_paths := num_paths st;
     num_solves := num_solves st; num_wall_push := num_wall_push st; max_path_length := max_path_length st; num_maze_created := num_maze_created st;
     rand_src := rand_src st; rand_pos := rand_pos st |}.

Definition set_max_checks (st : state) (v : Z) : state :=
  {| maze := maze st; dir_tbl := dir_tbl st; max_x := max_x st; max_y := max_y st;
     beg_x := beg_x st; end_x := end_x st; beg_y := beg_y st; end_y := end_y st;
     width := width st; height := height st; min_len := min_len st; path_len := path_len st;
     maze_len := maze_len st; turn_cnt := turn_cnt st; solves := solves st; depth := depth st;
     path_depth := path_depth st; num_checks := num_checks st; max_checks := v; num_paths := num_paths st;
     num_solves := num_solves st; num_wall_push := num_wall_push st; max_path_length := max_path_length st; num_maze_created := num_maze_created st;
     rand_src := rand_src st; rand_pos := rand_pos st |}.

Definition set_num_paths (st : state) (v : Z) : state :=
  {| maze := maze st; dir_tbl := dir_tbl st; max_x := max_x st; max_y := max_y st;
     beg_x := beg_x st; end_x := end_x st; beg_y := beg_y st; end_y := end_y st;
     width := width st; height := height st; min_len := min_len st; path_len := path_len st;
     maze_len := maze_len st; turn_cnt := turn_cnt st; solves := solves st; depth := depth st;
     path_depth := path_depth st; num_checks := num_checks st; max_checks := max_checks st; num_paths := v;
     num_solves := num_solves st; num_wall_push := num_wall_push st; max_path_length := max_path_length st; num_maze_created := num_maze_created st;
     rand_src := rand_src st; rand_pos := rand_pos st |}.

Definition set_num_solves (st : state) (v : Z) : state :=
  {| maze := maze st; dir_tbl := dir_tbl st; max_x := max_x st; max_y := max_y st;
     beg_x := beg_x st; end_x := end_x st; beg_y := beg_y st; end_y := end_y st;
     width := width st; height := height st; min_len := min_len st; path_len := path_len st;
     maze_len := maze_len st; turn_cnt := turn_cnt st; solves := solves st; depth := depth st;
     path_depth := path_depth st; num_checks := num_checks st; max_checks := max_checks st; num_paths := num_paths st;
     num_solves := v; num_wall_push := num_wall_push st; max_path_length := max_path_length st; num_maze_created := num_maze_created st;
     rand_src := rand_src st; rand_pos := rand_pos st |}.

Definition set_num_wall_push (st : state) (v : Z) : state :=
  {| maze := maze st; dir_tbl := dir_tbl st; max_x := max_x st; max_y := max_y st;
     beg_x := beg_x st; end_x := end_x st; beg_y := beg_y st; end_y := end_y st;
     width := width st; height := height st; min_len := min_len st; path_len := path_len st;
     maze_len := maze_len st; turn_cnt := turn_cnt st; solves := solves st; depth := depth st;
     path_depth := path_depth st; num_checks := num_checks st; max_checks := max_checks st; num_paths := num_paths st;
     num_solves := num_solves st; num_wall_push := v; max_path_length := max_path_length st; num_maze_created := num_maze_created st;
     rand_src := rand_src st; rand_pos := rand_pos st |}.

Definition set_max_path_length (st : state) (v : Z) : state :=
  {| maze := maze st; dir_tbl := dir_tbl st; max_x := max_x st; max_y := max_y st;
     beg_x := beg_x st; end_x := end_x st; beg_y := beg_y st; end_y := end_y st;
     width := width st; height := height st; min_len := min_len st; path_len := path_len st;
     maze_len := maze_len st; turn_cnt := turn_cnt st; solves := solves st; depth := depth st;
     path_depth := path_depth st; num_checks := num_checks st; max_checks := max_checks st; num_paths := num_paths st;
     num_solves := num_solves st; num_wall_push := num_wall_push st; max_path_length := v; num_maze_created := num_maze_created st;
     rand_src := rand_src st; rand_pos := rand_pos st |}.

Definition set_num_maze_created (st : state) (v : Z) : state :=
  {| maze := maze st; dir_tbl := dir_tbl st; max_x := max_x st; max_y := max_y st;
     beg_x := beg_x st; end_x := end_x st; beg_y := beg_y st; end_y := end_y st;
     width := width st; height := height st; min_len := min_len st; path_len := path_len st;
     maze_len := maze_len st; turn_cnt := turn_cnt st; solves := solves st; depth := depth st;
     path_depth := path_depth st; num_checks := num_checks st; max_checks := max_checks st; num_paths := num_paths st;
     num_solves := num_solves st; num_wall_push := num_wall_push st; max_path_length := max_path_length st; num_maze_created := v;
     rand_src := rand_src st; rand_pos := rand_pos st |}.

Definition set_rand_src (st : state) (v : nat -> Z) : state :=
  {| maze := maze st; dir_tbl := dir_tbl st; max_x := max_x st; max_y := max_y st;
     beg_x := beg_x st; end_x := end_x st; beg_y := beg_y st; end_y := end_y st;
     width := width st; height := height st; min_len := min_len st; path_len := path_len st;
     maze_len := maze_len st; turn_cnt := turn_cnt st; solves := solves st; depth := depth st;
     path_depth := path_depth st; num_checks := num_checks st; max_checks := max_checks st; num_paths := num_paths st;
     num_solves := num_solves st; num_wall_push := num_wall_push st; max_path_length := max_path_length st; num_maze_created := num_maze_created st;
     rand_src := v; rand_pos := rand_pos st |}.

Definition set_rand_pos (st : state) (v : nat) : state :=
  {| maze := maze st; dir_tbl := dir_tbl st; max_x := max_x st; max_y := max_y st;
     beg_x := beg_x st; end_x := end_x st; beg_y := beg_y st; end_y := end_y st;
     width := width st; height := height st; min_len := min_len st; path_len := path_len st;
     maze_len := maze_len st; turn_cnt := turn_cnt st; solves := solves st; depth := depth st;
     path_depth := path_depth st; num_checks := num_checks st; max_checks := max_checks st; num_paths := num_paths st;
     num_solves := num_solves st; num_wall_push := num_wall_push st; max_path_length := max_path_length st; num_maze_created := num_maze_created st;
     rand_src := rand_src st; rand_pos := v |}.

Definition rd (st : state) (x y : Z) : Z := maze st x y.

Definition wr (st : state) (x y v : Z) : state :=
  set_maze st (grid_set (maze st) x y v).

Definition tbl_set (t : Z -> dir_tbl_type) (n : Z) (d : dir_tbl_type) : Z -> dir_tbl_type :=
  fun k => if k =? n then d else t k.

(** [rand.Intn(n)]: a value in [0, n), for [n > 0]. *)
Definition rand_Intn (n : Z) (st : state) : Z * state :=
  (rand_src st (rand_pos st) mod n, set_rand_pos st (S (rand_pos st))).

Definition initialize_maze (st : state) : (Z * Z) * state :=
  let st := set_max_x st (2 * (height st + 1) + 1) in
  let st := set_max_y st (2 * (width st + 1) + 1) in
  let st := for_range 1 (max_x st - 1)
              (fun i s => for_range 1 (max_y s - 1) (fun j s' => wr s' i j WALL) s) st in
  let st := for_range 0 (max_x st)
              (fun i s => wr (wr s i 0 PATH) i (2 * (width s + 1)) PATH) st in
  let st := for_range 0 (max_y st)
              (fun j s => wr (wr s 0 j PATH) (2 * (height s + 1)) j PATH) st in
  let '(r1, st) := rand_Intn (height st) st in
  let '(r2, st) := rand_Intn (width st) st in
  let st := set_beg_x st 2 in
  let st := set_end_x st (2 * height st) in
  ((2 * (r1 + 1), 2 * (r2 + 1)), st).

Definition restore_maze (st : state) : state :=
  for_range 0 (max_x st)
    (fun i s => for_range 0 (max_y s)
       (fun j s' => if (rd s' i j =? SOLVED) || (rd s' i j =? TRIED)
                    then wr s' i j PATH else s') s) st.

(** One disjunct of the look ahead of [check_directions]:
    [maze[hx][hy] == val && maze[fx][fy] == val && check_directions(fx, fy, ...)],
    where [rec] is the recursive call and [cs] holds [*checks] and the state. *)
Definition probe_dir (rec : Z -> Z -> Z -> state -> option (bool * (Z * state)))
    (val hx hy fx fy : Z) (cs : Z * state) : option (bool * (Z * state)) :=
  if (rd (snd cs) hx hy =? val) && (rd (snd cs) fx fy =? val)
  then rec fx fy (fst cs) (snd cs)
  else Some (false, cs).

(** [check_directions]: the recursion is on [depth] while the shared counter
    [*checks] stays below 500000; [fuel] bounds the nesting of calls. *)
Fixpoint check_directions (fuel : nat) (x y val depth checks : Z) (st : state)
  : option (bool * (Z * state)) :=
  if negb (depth =? 0) && (checks <? 500000) then
    match fuel with
    | O => None
    | S fuel' =>
        let checks := checks + 1 in
        let st := set_num_checks st (num_checks st + 1) in
        let st := if max_checks st <? num_checks st
                  then set_max_checks st (num_checks st) else st in
        let st := wr st x y CHECK in
        let rec := fun fx fy c s => check_directions fuel' fx fy val (depth - 1) c s in
        ' (m, (c, s)) <-
          or_else (or_else (or_else
            (probe_dir rec val (x - 1) y (x - 2) y (checks, st))    (* look left *)
            (probe_dir rec val (x + 1) y (x + 2) y))                (* look right *)
            (probe_dir rec val x (y - 1) x (y - 2)))                (* look up *)
            (probe_dir rec val x (y + 1) x (y + 2)) ;;              (* look down *)
        Some (m, (c, wr s x y val))
    end
  else Some (true, (checks, st)).

Definition orphan_1x1 (st : state) (x y : Z) : bool :=
  (x >? 1) && (y >? 1) &&
  (rd st (x - 1) y =? WALL) && (rd st (x - 2) y =? PATH) &&
  (rd st (x + 1) y =? WALL) && (rd st (x + 2) y =? PATH) &&
  (rd st x (y - 1) =? WALL) && (rd st x (y - 2) =? PATH) &&
  (rd st x (y + 1) =? WALL) && (rd st x (y + 2) =? PATH).

Definition check_orphan (x y dx dy depth : Z) (st : state) : bool * state :=
  if negb (depth =? 0) then
    let st := wr st (x + Z.quot dx 2) (y + Z.quot dy 2) PATH in
    let st := wr st (x + dx) (y + dy) PATH in
    let orphan := orphan_1x1 st (x + dx - 2) (y + dy) ||
                  orphan_1x1 st (x + dx + 2) (y + dy) ||
                  orphan_1x1 st (x + dx) (y + dy - 2) ||
                  orphan_1x1 st (x + dx) (y + dy + 2) in
    let st := wr st (x + dx) (y + dy) WALL in
    let st := wr st (x + Z.quot dx 2) (y + Z.quot dy 2) WALL in
    (orphan, st)
  else (false, st).

Definition look (fuel : nat) (heading x y dx dy num val depth : Z) (st : state)
  : option (Z * state) :=
  let check := 0 in
  if (rd st (x + Z.quot dx 2) (y + Z.quot dy 2) =? val) && (rd st (x + dx) (y + dy) =? val)
  then
    let '(orphan, st) := check_orphan x y dx dy depth st in
    if negb orphan then
      ' (m, (_, st)) <- check_directions fuel (x + dx) (y + dy) val depth check st ;;
      if m then Some (1, set_dir_tbl st (tbl_set (dir_tbl st) num (mkDir dx dy heading)))
      else Some (0, st)
    else Some (0, st)
  else Some (0, st).

Fixpoint find_directions_loop (fuel n : nat) (x y val : Z) (search : bool)
    (num search_depth : Z) (st : state) : option (Z * state) :=
  match n with
  | O => None
  | S n' =>
      let search_depth := if search then path_depth st else search_depth in
      ' (r, st) <- look fuel LEFT  x y (-2) 0 num val search_depth st ;;
      let num := num + r in
      ' (r, st) <- look fuel RIGHT x y 2 0 num val search_depth st ;;
      let num := num + r in
      ' (r, st) <- look fuel UP    x y 0 (-2) num val search_depth st ;;
      let num := num + r in
      ' (r, st) <- look fuel DOWN  x y 0 2 num val search_depth st ;;
      let num := num + r in
      if negb (num =? 0) || negb search || (path_depth st =? 0)
      then Some (num, st)
      else find_directions_loop fuel n' x y val search num search_depth
             (set_path_depth st (path_depth st - 1))
  end.

Definition find_directions (fuel : nat) (x y val : Z) (search : bool) (st : state)
  : option (Z * state) :=
  find_directions_loop fuel fuel x y val search 0 0 (set_num_checks st 0).

Definition straight_thru (st : state) (x y val : Z) : bool :=
  ((rd st (x - 1) y =? val) && (rd st (x - 2) y =? val) &&
   (rd st (x + 1) y =? val) && (rd st (x + 2) y =? val)) ||
  ((rd st x (y - 1) =? val) && (rd st x (y - 2) =? val) &&
   (rd st x (y + 1) =? val) && (rd st x (y + 2) =? val)).

(** The two nested [for] loops of [find_path_start], with their early
    [return true]; [*x] and [*y] are assigned at every room visited. *)
Fixpoint scan_path_start (fuel : nat) (cells : list (Z * Z)) (x_start y_start x y : Z)
    (st : state) : option (bool * ((Z * Z) * state)) :=
  match cells with
  | [] => Some (false, ((x, y), st))
  | (i, j) :: rest =>
      let x := 2 * (Z.rem (x_start + i) (height st) + 1) in
      let y := 2 * (Z.rem (y_start + j) (width st) + 1) in
      if (rd st x y =? PATH) && negb (straight_thru st x y PATH) then
        ' (n, st) <- find_directions fuel x y WALL NO_SEARCH st ;;
        if negb (n =? 0) then Some (true, ((x, y), st))
        else scan_path_start fuel rest x_start y_start x y st
      else scan_path_start fuel rest x_start y_start x y st
  end.

Fixpoint find_path_start_loop (fuel n : nat) (x y : Z) (st : state)
  : option (bool * ((Z * Z) * state)) :=
  match n with
  | O => None
  | S n' =>
      let '(x_start, st) := rand_Intn (height st) st in
      let '(y_start, st) := rand_Intn (width st) st in
      ' (found, ((x, y), st)) <-
        scan_path_start fuel (index_pairs (height st) (width st)) x_start y_start x y st ;;
      if found then Some (true, ((x, y), st))
      else if path_depth st =? 0 then Some (false, ((x, y), st))
      else find_path_start_loop fuel n' x y (set_path_depth st (path_depth st - 1))
  end.

Definition find_path_start (fuel : nat) (x y : Z) (st : state)
  : option (bool * ((Z * Z) * state)) :=
  find_path_start_loop fuel fuel x y (set_path_depth st (depth st)).

Definition mark_cell (st : state) (x y val : Z) : state :=
  if negb (rd st x y =? val) then wr st x y val else st.

Fixpoint carve_path_loop (fuel n : nat) (x y : Z) (st : state) : option ((Z * Z) * state) :=
  match n with
  | O => None
  | S n' =>
      ' (num, st) <- find_directions fuel x y WALL SEARCH st ;;
      if num =? 0 then Some ((x, y), st)
      else
        let '(dir, st) := rand_Intn num st in
        let d := dir_tbl st dir in
        let st := mark_cell st (x + Z.quot (dt_x d) 2) (y + Z.quot (dt_y d) 2) PATH in
        let st := mark_cell st (x + dt_x d) (y + dt_y d) PATH in
        carve_path_loop fuel n' (x + dt_x d) (y + dt_y d)
          (set_maze_len st (maze_len st + 1))
  end.

Definition carve_path (fuel : nat) (x y : Z) (st : state) : option ((Z * Z) * state) :=
  let st := set_path_depth st (depth st) in
  let st := mark_cell st x y PATH in
  carve_path_loop fuel fuel x y st.

Fixpoint follow_path_loop (fuel n : nat) (last_dir x y : Z) (st : state)
  : option ((Z * Z) * state) :=
  match n with
  | O => None
  | S n' =>
      if (beg_x st <=? x) && (x <=? end_x st) then
        ' (num, st) <- find_directions fuel x y PATH NO_SEARCH st ;;
        if negb (num =? 0) then
          let d := dir_tbl st 0 in
          let st := mark_cell st (x + Z.quot (dt_x d) 2) (y + Z.quot (dt_y d) 2) SOLVED in
          let st := mark_cell st (x + dt_x d) (y + dt_y d) SOLVED in
          let st := set_path_len st (path_len st + 1) in
          if negb (last_dir =? dt_heading d)
          then follow_path_loop fuel n' (dt_heading d) (x + dt_x d) (y + dt_y d)
                 (set_turn_cnt st (turn_cnt st + 1))
          else follow_path_loop fuel n' last_dir (x + dt_x d) (y + dt_y d) st
        else Some ((x, y), st)
      else Some ((x, y), st)
  end.

Definition follow_path (fuel : nat) (x y : Z) (st : state)
  : option (bool * ((Z * Z) * state)) :=
  let st := set_path_depth st 0 in
  let st := mark_cell st x y SOLVED in
  ' ((x, y), st) <- follow_path_loop fuel fuel 0 x y st ;;
  Some (x >? end_x st, ((x, y), st)).

Fixpoint back_track_path_loop (fuel n : nat) (last_dir x y : Z) (st : state)
  : option ((Z * Z) * state) :=
  match n with
  | O => None
  | S n' =>
      ' (np, st) <- find_directions fuel x y PATH NO_SEARCH st ;;
      if np =? 0 then
        ' (ns, st) <- find_directions fuel x y SOLVED NO_SEARCH st ;;
        if negb (ns =? 0) then
          let d := dir_tbl st 0 in
          let st := mark_cell st (x + Z.quot (dt_x d) 2) (y + Z.quot (dt_y d) 2) TRIED in
          let st := mark_cell st (x + dt_x d) (y + dt_y d) TRIED in
          let st := set_path_len st (path_len st - 1) in
          if negb (last_dir =? dt_heading d)
          then back_track_path_loop fuel n' (dt_heading d) (x + dt_x d) (y + dt_y d)
                 (set_turn_cnt st (turn_cnt st - 1))
          else back_track_path_loop fuel n' last_dir (x + dt_x d) (y + dt_y d) st
        else Some ((x, y), st)
      else Some ((x, y), st)
  end.

Definition back_track_path (fuel : nat) (x y : Z) (st : state) : option ((Z * Z) * state) :=
  let st := set_path_depth st 0 in
  let st := mark_cell st x y TRIED in
  back_track_path_loop fuel fuel 0 x y st.

Fixpoint solve_maze_loop (fuel n : nat) (x y : Z) (st : state) : option ((Z * Z) * state) :=
  match n with
  | O => None
  | S n' =>
      ' (done, ((x, y), st)) <- follow_path fuel x y st ;;
      if done then Some ((x, y), st)
      else
        ' ((x, y), st) <- back_track_path fuel x y st ;;
        solve_maze_loop fuel n' x y st
  end.

Definition solve_maze (fuel : nat) (x y : Z) (st : state) : option ((Z * Z) * state) :=
  let st := set_path_len st 0 in
  let st := set_turn_cnt st 0 in
  let st := wr st (beg_x st - 1) (beg_y st) SOLVED in
  ' ((x, y), st) <- solve_maze_loop fuel fuel x y st ;;
  let st := wr st (end_x st + 1) (end_y st) SOLVED in
  Some ((x, y), set_solves st (solves st + 1)).

Definition create_openings (x y : Z) (st : state) : (Z * Z) * state :=
  let st := set_beg_y st x in
  let st := set_end_y st y in
  let st := wr st (beg_x st - 1) (beg_y st) PATH in
  let st := wr st (end_x st + 1) (end_y st) PATH in
  ((beg_x st, beg_y st), st).

Definition delete_openings (st : state) : state :=
  let st := wr st (beg_x st - 1) (beg_y st) WALL in
  wr st (end_x st + 1) (end_y st) WALL.

(** The local variables of [search_best_openings]. *)
Record best : Type := mkBest {
  best_path_len : Z; best_turn_cnt : Z; best_start : Z; best_finish : Z
}.

(** The two [continue] tests of the loop body: the pair is solved unless
    both cells beside the entrance room, or both beside the exit room, are
    not walls. *)
Definition evaluated (st : state) (start finish : Z) : bool :=
  negb (negb (rd st (beg_x st) (start - 1) =? WALL) && negb (rd st (beg_x st) (start + 1) =? WALL))
  && negb (negb (rd st (end_x st) (finish - 1) =? WALL) && negb (rd st (end_x st) (finish + 1) =? WALL)).

(** One iteration of the inner loop of [search_best_openings]. *)
Definition search_step (fuel : nat) (i j : Z) (b : best) (st : state)
  : option (best * ((Z * Z) * state)) :=
  let start := 2 * (i + 1) in
  let finish := 2 * (j + 1) in
  if negb (rd st (beg_x st) (start - 1) =? WALL) && negb (rd st (beg_x st) (start + 1) =? WALL)
  then Some (b, ((start, finish), st))
  else if negb (rd st (end_x st) (finish - 1) =? WALL) && negb (rd st (end_x st) (finish + 1) =? WALL)
  then Some (b, ((start, finish), st))
  else
    let '((x, y), st) := create_openings start finish st in
    ' ((x, y), st) <- solve_maze fuel x y st ;;
    let '(b, st) :=
      if (path_len st >? best_path_len b) ||
         ((path_len st =? best_path_len b) && (turn_cnt st >? best_turn_cnt b))
      then (mkBest (path_len st) (turn_cnt st) start finish,
            set_max_path_length st (path_len st))
      else (b, st) in
    let st := restore_maze st in
    let st := delete_openings st in
    Some (b, ((x, y), set_num_solves st (num_solves st + 1))).

Fixpoint search_loop (fuel : nat) (pairs : list (Z * Z)) (b : best) (x y : Z) (st : state)
  : option (best * ((Z * Z) * state)) :=
  match pairs with
  | [] => Some (b, ((x, y), st))
  | (i, j) :: rest =>
      ' (b, ((x, y), st)) <- search_step fuel i j b st ;;
      search_loop fuel rest b x y st
  end.

Definition search_best_openings (fuel : nat) (x y : Z) (st : state)
  : option ((Z * Z) * state) :=
  ' (b, (_, st)) <-
    search_loop fuel (index_pairs (width st) (width st)) (mkBest 0 0 2 2) x y st ;;
  Some (create_openings (best_start b) (best_finish b) st).

Definition mid_wall_opening (st : state) (x y : Z) : bool :=
  (rd st x y =? PATH) &&
  negb (rd st (x - 1) (y - 1) =? WALL) &&
  negb (rd st (x - 1) (y + 1) =? WALL) &&
  negb (rd st (x + 1) (y - 1) =? WALL) &&
  negb (rd st (x + 1) (y + 1) =? WALL).

Definition is_odd (x : Z) : bool := negb (Z.land x 1 =? 0).
Definition is_even (x : Z) : bool := Z.land x 1 =? 0.

(** One call of [push_mid_wall_openings]: the moves made and the state. *)
Definition push_mid_wall_openings (st : state) : Z * state :=
  for_range 1 (2 * (height st + 1))
    (fun i ms => for_range2 (Z.land i 1 + 1) (2 * (width (snd ms) + 1))
       (fun j ms' =>
          let '(moves, s) := ms' in
          if mid_wall_opening s i j then
            let s := mark_cell s i j WALL in
            let s := if is_odd i then mark_cell s i (j + 2) PATH    (* push right *)
                     else mark_cell s (i + 2) j PATH in              (* push down *)
            (moves + 1, set_num_wall_push s (num_wall_push s + 1))
          else (moves, s)) ms)
    (0, st).

(** [for {num_paths++; carve_path(x, y); if !find_path_start(x, y) {break}}] *)
Fixpoint carve_all (fuel n : nat) (x y : Z) (st : state) : option ((Z * Z) * state) :=
  match n with
  | O => None
  | S n' =>
      let st := set_num_paths st (num_paths st + 1) in
      ' ((x, y), st) <- carve_path fuel x y st ;;
      ' (found, ((x, y), st)) <- find_path_start fuel x y st ;;
      if found then carve_all fuel n' x y st else Some ((x, y), st)
  end.

(** [for ; push_mid_wall_openings() != 0 ; {}] *)
Fixpoint push_all (n : nat) (st : state) : option state :=
  match n with
  | O => None
  | S n' =>
      let '(moves, st) := push_mid_wall_openings st in
      if negb (moves =? 0) then push_all n' st else Some st
  end.

(** The carving phase of [create_maze]: everything before the first
    [push_mid_wall_openings]. *)
Definition carve_phase (fuel : nat) (st : state) : option ((Z * Z) * state) :=
  let st := set_max_checks st 0 in
  let st := set_maze_len st 0 in
  let st := set_num_paths st 0 in
  let '((x, y), st) := initialize_maze st in
  carve_all fuel fuel x y st.

Definition create_maze (fuel : nat) (st : state) : option ((Z * Z) * state) :=
  ' ((x, y), st) <- carve_phase fuel st ;;
  st <- push_all fuel st ;;
  search_best_openings fuel x y st.

Definition min (x y : Z) : Z := if x <? y then x else y.

(** The flags of [main] that the maze depends on. *)
Record flags : Type := mkFlags {
  flag_depth : Z; flag_height : Z; flag_width : Z; flag_min_len : Z
}.

(** The clamps of [main] on the parsed flags, for a console of [rows] by
    [cols].  [int(math.Sqrt(float64(n)))] is the integer square root for
    the values of [height * width], which are below 2^52. *)
Definition clamp_flags (rows cols : Z) (f : flags) : flags :=
  let max_height := min MAX_HEIGHT (Z.quot (rows - 3) 2) in
  let max_width := min MAX_WIDTH (Z.quot (cols - 1) 4) in
  let depth := flag_depth f in
  let height := flag_height f in
  let width := flag_width f in
  let min_len := flag_min_len f in
  let depth := if (depth <? 0) || (depth >? 100) then 100 else depth in
  let height := if (height <=? 0) || (height >? max_height) then max_height else height in
  let width := if (width <=? 0) || (width >? max_width) then max_width else width in
  let min_len := if (min_len <? 0) || (min_len >=? height * width) then 0 else min_len in
  let min_len :=
    if min_len =? 0
    then min (Z.quot (height * width) 2) (Z.sqrt (height * width) * 10)
    else min_len in
  mkFlags depth height width min_len.

(** The loop of [main], after the flags are read and clamped.  [draws k] is
    the stream that [rand.Seed] installs at the k-th round (the seed of every
    round but the first is read from the clock). *)
Fixpoint main_loop (fuel n : nat) (draws : nat -> nat -> Z) (k : nat) (st : state)
  : option state :=
  match n with
  | O => None
  | S n' =>
      let st := set_num_maze_created st (num_maze_created st + 1) in
      let st := set_rand_pos (set_rand_src st (draws k)) O in
      ' ((x, y), st) <- create_maze fuel st ;;
      ' (_, st) <- solve_maze fuel x y st ;;
      if max_path_length st >=? min_len st then Some st
      else main_loop fuel n' draws (S k) st
  end.

End MazeGo.

(** ** The Rev 2.3 revision: atomic cells and the budgeted look ahead *)

Module MazeMT.

Definition path   : Z := 0.
Definition wall   : Z := 1.
Definition solved : Z := 2.
Definition tried  : Z := 3.
Definition check  : Z := 4.

Definition up    : Z := 1.
Definition down  : Z := 2.
Definition left  : Z := 3.
Definition right : Z := 4.

(** [type dirTable struct { x, y, heading int }] *)
Record dirTable : Type := mkDir { dt_x : Z; dt_y : Z; dt_heading : Z }.

Definition stdDirection (i : Z) : dirTable :=
  if i =? 0 then mkDir 2 0 down
  else if i =? 1 then mkDir (-2) 0 up
  else if i =? 2 then mkDir 0 2 right
  else mkDir 0 (-2) left.

(** The package-level variables read or written by the functions below,
    with the state of the random generator. *)
Record state : Type := mkState {
  maze : grid;  (* maze[maxXSize][maxYSize] int32 *)
  width : Z;
  height : Z;
  threads : Z;
  maxX : Z;
  maxY : Z;
  begX : Z;
  endX : Z;
  begY : Z;
  endY : Z;
  depth : Z;
  checkFlag : Z;
  solvedFlag : Z;
  mazeLen : Z;
  pathLen : Z;
  turnCnt : Z;
  numPaths : Z;
  numSolves : Z;
  numThreads : Z;
  numWallPush : Z;
  numCheckExceeded : Z;
  maxChecks : Z;
  dspLength : Z;
  solveLength : Z;
  sumsolveLength : Z;
  rand_src : nat -> Z;  (* the draws of math/rand after rand.Seed *)
  rand_pos : nat  (* how many draws were consumed *)
}.

Definition set_maze (st : state) (v : grid) : state :=
  {| maze := v; width := width st; height := height st; threads := threads st;
     maxX := maxX st; maxY := maxY st; begX := begX st; endX := endX st;
     begY := begY st; endY := endY st; depth := depth st; checkFlag := checkFlag st;
     solvedFlag := solvedFlag st; mazeLen := mazeLen st; pathLen := pathLen st; turnCnt := turnCnt st;
     numPaths := numPaths st; numSolves := numSolves st; numThreads := numThreads st; numWallPush := numWallPush st;
     numCheckExceeded := numCheckExceeded st; maxChecks := maxChecks st; dspLength := dspLength st; solveLength := solveLength st;
     sumsolveLength := sumsolveLength st; rand_src := rand_src st; rand_pos := rand_pos st |}.

Definition set_maxX (st : state) (v : Z) : state :=
  {| maze := maze st; width := width st; height := height st; threads := threads st;
     maxX := v; maxY := maxY st; begX := begX st; endX := endX st;
     begY := begY st; endY := endY st; depth := depth st; checkFlag := checkFlag st;
     solvedFlag := solvedFlag st; mazeLen := mazeLen st; pathLen := pathLen st; turnCnt := turnCnt st;
     numPaths := numPaths st; numSolves := numSolves st; numThreads := numThreads st; numWallPush := numWallPush st;
     numCheckExceeded := numCheckExceeded st; maxChecks := maxChecks st; dspLength := dspLength st; solveLength := solveLength st;
     sumsolveLength := sumsolveLength st; rand_src := rand_src st; rand_pos := rand_pos st |}.

Definition set_maxY (st : state) (v : Z) : state :=
  {| maze := maze st; width := width st; height := height st; threads := threads st;
     maxX := maxX st; maxY := v; begX := begX st; endX := endX st;
     begY := begY st; endY := endY st; depth := depth st; checkFlag := checkFlag st;
     solvedFlag := solvedFlag st; mazeLen := mazeLen st; pathLen := pathLen st; turnCnt := turnCnt st;
     numPaths := numPaths st; numSolves := numSolves st; numThreads := numThreads st; numWallPush := numWallPush st;
     numCheckExceeded := numCheckExceeded st; maxChecks := maxChecks st; dspLength := dspLength st; solveLength := solveLength st;
     sumsolveLength := sumsolveLength st; rand_src := rand_src st; rand_pos := rand_pos st |}.

Definition set_begX (st : state) (v : Z) : state :=
  {| maze := maze st; width := width st; height := height st; threads := threads st;
     maxX := maxX st; maxY := maxY st; begX := v; endX := endX st;
     begY := begY st; endY := endY st; depth := depth st; checkFlag := checkFlag st;
     solvedFlag := solvedFlag st; mazeLen := mazeLen st; pathLen := pathLen st; turnCnt := turnCnt st;
     numPaths := numPaths st; numSolves := numSolves st; numThreads := numThreads st; numWallPush := numWallPush st;
     numCheckExceeded := numCheckExceeded st; maxChecks := maxChecks st; dspLength := dspLength st; solveLength := solveLength st;
     sumsolveLength := sumsolveLength st; rand_src := rand_src st; rand_pos := rand_pos st |}.

Definition set_endX (st : state) (v : Z) : state :=
  {| maze := maze st; width := width st; height := height st; threads := threads st;
     maxX := maxX st; maxY := maxY st; begX := begX st; endX := v;
     begY := begY st; endY := endY st; depth := depth st; checkFlag := checkFlag st;
     solvedFlag := solvedFlag st; mazeLen := mazeLen st; pathLen := pathLen st; turnCnt := turnCnt st;
     numPaths := numPaths st; numSolves := numSolves st; numThreads := numThreads st; numWallPush := numWallPush st;
     numCheckExceeded := numCheckExceeded st; maxChecks := maxChecks st; dspLength := dspLength st; solveLength := solveLength st;
     sumsolveLength := sumsolveLength st; rand_src := rand_src st; rand_pos := rand_pos st |}.

Definition set_begY (st : state) (v : Z) : state :=
  {| maze := maze st; width := width st; height := height st; threads := threads st;
     maxX := maxX st; maxY := maxY st; begX := begX st; endX := endX st;
     begY := v; endY := endY st; depth := depth st; checkFlag := checkFlag st;
     solvedFlag := solvedFlag st; mazeLen := mazeLen st; pathLen := pathLen st; turnCnt := turnCnt st;
     numPaths := numPaths st; numSolves := numSolves st; numThreads := numThreads st; numWallPush := numWallPush st;
     numCheckExceeded := numCheckExceeded st; maxChecks := maxChecks st; dspLength := dspLength st; solveLength := solveLength st;
     sumsolveLength := sumsolveLength st; rand_src := rand_src st; rand_pos := rand_pos st |}.

Definition set_endY (st : state) (v : Z) : state :=
  {| maze := maze st; width := width st; height := height st; threads := threads st;
     maxX := maxX st; maxY := maxY st; begX := begX st; endX := endX st;
     begY := begY st; endY := v; depth := depth st; checkFlag := checkFlag st;
     solvedFlag := solvedFlag st; mazeLen := mazeLen st; pathLen := pathLen st; turnCnt := turnCnt st;
     numPaths := numPaths st; numSolves := numSolves st; numThreads := numThreads st; numWallPush := numWallPush st;
     numCheckExceeded := numCheckExceeded st; maxChecks := maxChecks st; dspLength := dspLength st; solveLength := solveLength st;
     sumsolveLength := sumsolveLength st; rand_src := rand_src st; rand_pos := rand_pos st |}.

Definition set_depth (st : state) (v : Z) : state :=
  {| maze := maze st; width := width st; height := height st; threads := threads st;
     maxX := maxX st; maxY := maxY st; begX := begX st; endX := endX st;
     begY := begY st; endY := endY st; depth := v; checkFlag := checkFlag st;
     solvedFlag := solvedFlag st; mazeLen := mazeLen st; pathLen := pathLen st; turnCnt := turnCnt st;
     numPaths := numPaths st; numSolves := numSolves st; numThreads := numThreads st; numWallPush := numWallPush st;
     numCheckExceeded := numCheckExceeded st; maxChecks := maxChecks st; dspLength := dspLength st; solveLength := solveLength st;
     sumsolveLength := sumsolveLength st; rand_src := rand_src st; rand_pos := rand_pos st |}.

Definition set_checkFlag (st : state) (v : Z) : state :=
  {| maze := maze st; width := width st; height := height st; threads := threads st;
     maxX := maxX st; maxY := maxY st; begX := begX st; endX := endX st;
     begY := begY st; endY := endY st; depth := depth st; checkFlag := v;
     solvedFlag := solvedFlag st; mazeLen := mazeLen st; pathLen := pathLen st; turnCnt := turnCnt st;
     numPaths := numPaths st; numSolves := numSolves st; numThreads := numThreads st; numWallPush := numWallPush st;
     numCheckExceeded := numCheckExceeded st; maxChecks := maxChecks st; dspLength := dspLength st; solveLength := solveLength st;
     sumsolveLength := sumsolveLength st; rand_src := rand_src st; rand_pos := rand_pos st |}.

Definition set_solvedFlag (st : state) (v : Z) : state :=
  {| maze := maze st; width := width st; height := height st; threads := threads st;
     maxX := maxX st; maxY := maxY st; begX := begX st; endX := endX st;
     begY := begY st; endY := endY st; depth := depth st; checkFlag := checkFlag st;
     solvedFlag := v; mazeLen := mazeLen st; pathLen := pathLen st; turnCnt := turnCnt st;
     numPaths := numPaths st; numSolves := numSolves st; numThreads := numThreads st; numWallPush := numWallPush st;
     numCheckExceeded := numCheckExceeded st; maxChecks := maxChecks st; dspLength := dspLength st; solveLength := solveLength st;
     sumsolveLength := sumsolveLength st; rand_src := rand_src st; rand_pos := rand_pos st |}.

Definition set_mazeLen (st : state) (v : Z) : state :=
  {| maze := maze st; width := width st; height := height st; threads := threads st;
     maxX := maxX st; maxY := maxY st; begX := begX st; endX := endX st;
     begY := begY st; endY := endY st; depth := depth st; checkFlag := checkFlag st;
     solvedFlag := solvedFlag st; mazeLen := v; pathLen := pathLen st; turnCnt := turnCnt st;
     numPaths := numPaths st; numSolves := numSolves st; numThreads := numThreads st; numWallPush := numWallPush st;
     numCheckExceeded := numCheckExceeded st; maxChecks := maxChecks st; dspLength := dspLength st; solveLength := solveLength st;
     sumsolveLength := sumsolveLength st; rand_src := rand_src st; rand_pos := rand_pos st |}.

Definition set_pathLen (st : state) (v : Z) : state :=
  {| maze := maze st; width := width st; height := height st; threads := threads st;
     maxX := maxX st; maxY := maxY st; begX := begX st; endX := endX st;
     begY := begY st; endY := endY st; depth := depth st; checkFlag := checkFlag st;
     solvedFlag := solvedFlag st; mazeLen := mazeLen st; pathLen := v; turnCnt := turnCnt st;
     numPaths := numPaths st; numSolves := numSolves st; numThreads := numThreads st; numWallPush := numWallPush st;
     numCheckExceeded := numCheckExceeded st; maxChecks := maxChecks st; dspLength := dspLength st; solveLength := solveLength st;
     sumsolveLength := sumsolveLength st; rand_src := rand_src st; rand_pos := rand_pos st |}.

Definition set_turnCnt (st : state) (v : Z) : state :=
  {| maze := maze st; width := width st; height := height st; threads := threads st;
     maxX := maxX st; maxY := maxY st; begX := begX st; endX := endX st;
     begY := begY st; endY := endY st; depth := depth st; checkFlag := checkFlag st;
     solvedFlag := solvedFlag st; mazeLen := mazeLen st; pathLen := pathLen st; turnCnt := v;
     numPaths := numPaths st; numSolves := numSolves st; numThreads := numThreads st; numWallPush := numWallPush st;
     numCheckExceeded := numCheckExceeded st; maxChecks := maxChecks st; dspLength := dspLength st; solveLength := solveLength st;
     sumsolveLength := sumsolveLength st; rand_src := rand_src st; rand_pos := rand_pos st |}.

Definition set_numPaths (st : state) (v : Z) : state :=
  {| maze := maze st; width := width st; height := height st; threads := threads st;
     maxX := maxX st; maxY := maxY st; begX := begX st; endX := endX st;
     begY := begY st; endY := endY st; depth := depth st; checkFlag := checkFlag st;
     solvedFlag := solvedFlag st; mazeLen := mazeLen st; pathLen := pathLen st; turnCnt := turnCnt st;
     numPaths := v; numSolves := numSolves st; numThreads := numThreads st; numWallPush := numWallPush st;
     numCheckExceeded := numCheckExceeded st; maxChecks := maxChecks st; dspLength := dspLength st; solveLength := solveLength st;
     sumsolveLength := sumsolveLength st; rand_src := rand_src st; rand_pos := rand_pos st |}.

Definition set_numSolves (st : state) (v : Z) : state :=
  {| maze := maze st; width := width st; height := height st; threads := threads st;
     maxX := maxX st; maxY := maxY st; begX := begX st; endX := endX st;
     begY := begY st; endY := endY st; depth := depth st; checkFlag := checkFlag st;
     solvedFlag := solvedFlag st; mazeLen := mazeLen st; pathLen := pathLen st; turnCnt := turnCnt st;
     numPaths := numPaths st; numSolves := v; numThreads := numThreads st; numWallPush := numWallPush st;
     numCheckExceeded := numCheckExceeded st; maxChecks := maxChecks st; dspLength := dspLength st; solveLength := solveLength st;
     sumsolveLength := sumsolveLength st; rand_src := rand_src st; rand_pos := rand_pos st |}.

Definition set_numThreads (st : state) (v : Z) : state :=
  {| maze := maze st; width := width st; height := height st; threads := threads st;
     maxX := maxX st; maxY := maxY st; begX := begX st; endX := endX st;
     begY := begY st; endY := endY st; depth := depth st; checkFlag := checkFlag st;
     solvedFlag := solvedFlag st; mazeLen := mazeLen st; pathLen := pathLen st; turnCnt := turnCnt st;
     numPaths := numPaths st; numSolves := numSolves st; numThreads := v; numWallPush := numWallPush st;
     numCheckExceeded := numCheckExceeded st; maxChecks := maxChecks st; dspLength := dspLength st; solveLength := solveLength st;
     sumsolveLength := sumsolveLength st; rand_src := rand_src st; rand_pos := rand_pos st |}.

Definition set_numWallPush (st : state) (v : Z) : state :=
  {| maze := maze st; width := width st; height := height st; threads := threads st;
     maxX := maxX st; maxY := maxY st; begX := begX st; endX := endX st;
     begY := begY st; endY := endY st; depth := depth st; checkFlag := checkFlag st;
     solvedFlag := solvedFlag st; mazeLen := mazeLen st; pathLen := pathLen st; turnCnt := turnCnt st;
     numPaths := numPaths st; numSolves := numSolves st; numThreads := numThreads st; numWallPush := v;
     numCheckExceeded := numCheckExceeded st; maxChecks := maxChecks st; dspLength := dspLength st; solveLength := solveLength st;
     sumsolveLength := sumsolveLength st; rand_src := rand_src st; rand_pos := rand_pos st |}.

Definition set_numCheckExceeded (st : state) (v : Z) : state :=
  {| maze := maze st; width := width st; height := height st; threads := threads st;
     maxX := maxX st; maxY := maxY st; begX := begX st; endX := endX st;
     begY := begY st; endY := endY st; depth := depth st; checkFlag := checkFlag st;
     solvedFlag := solvedFlag st; mazeLen := mazeLen st; pathLen := pathLen st; turnCnt := turnCnt st;
     numPaths := numPaths st; numSolves := numSolves st; numThreads := numThreads st; numWallPush := numWallPush st;
     numCheckExceeded := v; maxChecks := maxChecks st; dspLength := dspLength st; solveLength := solveLength st;
     sumsolveLength := sumsolveLength st; rand_src := rand_src st; rand_pos := rand_pos st |}.

Definition set_maxChecks (st : state) (v : Z) : state :=
  {| maze := maze st; width := width st; height := height st; threads := threads st;
     maxX := maxX st; maxY := maxY st; begX := begX st; endX := endX st;
     begY := begY st; endY := endY st; depth := depth st; checkFlag := checkFlag st;
     solvedFlag := solvedFlag st; mazeLen := mazeLen st; pathLen := pathLen st; turnCnt := turnCnt st;
     numPaths := numPaths st; numSolves := numSolves st; numThreads := numThreads st; numWallPush := numWallPush st;
     numCheckExceeded := numCheckExceeded st; maxChecks := v; dspLength := dspLength st; solveLength := solveLength st;
     sumsolveLength := sumsolveLength st; rand_src := rand_src st; rand_pos := rand_pos st |}.

Definition set_dspLength (st : state) (v : Z) : state :=
  {| maze := maze st; width := width st; height := height st; threads := threads st;
     maxX := maxX st; maxY := maxY st; begX := begX st; endX := endX st;
     begY := begY st; endY := endY st; depth := depth st; checkFlag := checkFlag st;
     solvedFlag := solvedFlag st; mazeLen := mazeLen st; pathLen := pathLen st; turnCnt := turnCnt st;
     numPaths := numPaths st; numSolves := numSolves st; numThreads := numThreads st; numWallPush := numWallPush st;
     numCheckExceeded := numCheckExceeded st; maxChecks := maxChecks st; dspLength := v; solveLength := solveLength st;
     sumsolveLength := sumsolveLength st; rand_src := rand_src st; rand_pos := rand_pos st |}.

Definition set_solveLength (st : state) (v : Z) : state :=
  {| maze := maze st; width := width st; height := height st; threads := threads st;
     maxX := maxX st; maxY := maxY st; begX := begX st; endX := endX st;
     begY := begY st; endY := endY st; depth := depth st; checkFlag := checkFlag st;
     solvedFlag := solvedFlag st; mazeLen := mazeLen st; pathLen := pathLen st; turnCnt := turnCnt st;
     numPaths := numPaths st; numSolves := numSolves st; numThreads := numThreads st; numWallPush := numWallPush st;
     numCheckExceeded := numCheckExceeded st; maxChecks := maxChecks st; dspLength := dspLength st; solveLength := v;
     sumsolveLength := sumsolveLength st; rand_src := rand_src st; rand_pos := rand_pos st |}.

Definition set_sumsolveLength (st : state) (v : Z) : state :=
  {| maze := maze st; width := width st; height := height st; threads := threads st;
     maxX := maxX st; maxY := maxY st; begX := begX st; endX := endX st;
     begY := begY st; endY := endY st; depth := depth st; checkFlag := checkFlag st;
     solvedFlag := solvedFlag st; mazeLen := mazeLen st; pathLen := pathLen st; turnCnt := turnCnt st;
     numPaths := numPaths st; numSolves := numSolves st; numThreads := numThreads st; numWallPush := numWallPush st;
     numCheckExceeded := numCheckExceeded st; maxChecks := maxChecks st; dspLength := dspLength st; solveLength := solveLength st;
     sumsolveLength := v; rand_src := rand_src st; rand_pos := rand_pos st |}.

Definition set_rand_pos (st : state) (v : nat) : state :=
  {| maze := maze st; width := width st; height := height st; threads := threads st;
     maxX := maxX st; maxY := maxY st; begX := begX st; endX := endX st;
     begY := begY st; endY := endY st; depth := depth st; checkFlag := checkFlag st;
     solvedFlag := solvedFlag st; mazeLen := mazeLen st; pathLen := pathLen st; turnCnt := turnCnt st;
     numPaths := numPaths st; numSolves := numSolves st; numThreads := numThreads st; numWallPush := numWallPush st;
     numCheckExceeded := numCheckExceeded st; maxChecks := maxChecks st; dspLength := dspLength st; solveLength := solveLength st;
     sumsolveLength := sumsolveLength st; rand_src := rand_src st; rand_pos := v |}.

(** [atomic.SwapInt32(&maze[x][y], v)]: the prior value and the new grid. *)
Definition setMaze (x y v : Z) (st : state) : Z * state :=
  (maze st x y, set_maze st (grid_set (maze st) x y v)).

(** [atomic.LoadInt32(&maze[x][y])] *)
Definition getMaze (st : state) (x y : Z) : Z := maze st x y.

Definition getBool (v : Z) : bool := negb (v =? 0).

Definition rand_Intn (n : Z) (st : state) : Z * state :=
  (rand_src st (rand_pos st) mod n, set_rand_pos st (S (rand_pos st))).

Definition tbl_set (t : Z -> dirTable) (n : Z) (d : dirTable) : Z -> dirTable :=
  fun k => if k =? n then d else t k.

(** [setCell] from its atomic swap on: what it does with the prior value the
    swap returns, whatever the cell held at that moment. *)
Definition setCell_swap (x y value : Z) (st : state) : bool * state :=
  let '(priorValue, st) := setMaze x y value st in
  if priorValue =? check then
    let '(_, st) := setMaze x y check st in
    (false, st)
  else if priorValue =? value then (false, st)
  else (true, st).

(** [setCell]: the two loads that guard the swap, then the swap.  The
    display update at its end is output only. *)
Definition setCell (x y value : Z) (st : state) : bool * state :=
  if (getMaze st x y =? check) || (getMaze st x y =? value) then (false, st)
  else setCell_swap x y value st.

(** The values behind the pointers [length], [minLength], [checks] and
    [numChecks] of [checkDirections]. *)
Record probe : Type := mkProbe {
  p_length : Z; p_minLength : Z; p_checks : Z; p_numChecks : Z
}.

(** A [for] loop over directions that stops at the first match ([break]). *)
Fixpoint try_dirs {A : Type} (f : dirTable -> A -> option (bool * A))
    (ds : list dirTable) (a : A) : option (bool * A) :=
  match ds with
  | [] => Some (false, a)
  | d :: ds' =>
      match f d a with
      | None => None
      | Some (true, a') => Some (true, a')
      | Some (false, a') => try_dirs f ds' a'
      end
  end.

(** [stdDirection[(i + offset) % 4]] for i = 0, 1, 2, 3 *)
Definition rotated (offset : Z) : list dirTable :=
  map (fun i => stdDirection (Z.rem (i + offset) 4)) [0; 1; 2; 3].

(** The body of the direction loop of [checkDirections] at the cell
    (cx, cy) = (x + dx, y + dy): [rec] is the recursive call, [ps] holds the
    values behind the four pointers and the state.  [dirLength] starts as
    [*length]; a call that fails leaves [*length] as it was, but not the
    three shared counters. *)
Definition probe_dir (rec : Z -> Z -> probe -> state -> option (bool * (probe * state)))
    (cx cy value : Z) (dir : dirTable) (ps : probe * state)
  : option (bool * (probe * state)) :=
  let '(p, st) := ps in
  if (getMaze st (cx + Z.quot (dt_x dir) 2) (cy + Z.quot (dt_y dir) 2) =? value) &&
     (getMaze st (cx + dt_x dir) (cy + dt_y dir) =? value)
  then
    ' (m, (q, st)) <- rec (dt_x dir) (dt_y dir) p st ;;
    if m then Some (true, (q, st))
    else Some (false, (mkProbe (p_length p) (p_minLength q) (p_checks q) (p_numChecks q), st))
  else Some (false, (p, st)).

Fixpoint checkDirections (fuel : nat) (x y dx dy limit value : Z) (p : probe) (st : state)
  : option (bool * (probe * state)) :=
  if p_length p <? 0 then Some (true, (p, st))
  else if p_checks p >=? limit then
    Some (false, (p, set_numCheckExceeded st (numCheckExceeded st + 1)))
  else if (x + dx <? 0) || (y + dy <? 0) || negb (getMaze st (x + dx) (y + dy) =? value)
  then Some (false, (p, st))
  else
    let '(ok, st) := setCell (x + Z.quot dx 2) (y + Z.quot dy 2) check st in
    if negb ok then Some (false, (p, st))
    else
      let '(ok, st) := setCell (x + dx) (y + dy) check st in
      if negb ok then
        let '(_, st) := setMaze (x + Z.quot dx 2) (y + Z.quot dy 2) value st in
        Some (false, (p, st))
      else
        match fuel with
        | O => None
        | S fuel' =>
            let p := mkProbe (p_length p - 1) (p_minLength p) (p_checks p + 1)
                             (p_numChecks p + 1) in
            let '(offset, st) := rand_Intn 4 st in
            ' (match_, (p, st)) <-
              try_dirs
                (probe_dir (fun dx' dy' p st =>
                              checkDirections fuel' (x + dx) (y + dy) dx' dy' limit value p st)
                           (x + dx) (y + dy) value)
                (rotated offset) (p, st) ;;
            let p := if p_minLength p >? p_length p
                     then mkProbe (p_length p) (p_length p) (p_checks p) (p_numChecks p)
                     else p in
            let p := mkProbe (p_length p + 1) (p_minLength p) (p_checks p) (p_numChecks p) in
            let '(_, st) := setMaze (x + dx) (y + dy) value st in
            let '(_, st) := setMaze (x + Z.quot dx 2) (y + Z.quot dy 2) value st in
            Some (match_, (p, st))
        end.

Definition orphan1x1 (st : state) (x y : Z) : bool :=
  (x >? 1) && (y >? 1) &&
  (getMaze st (x + 1) y =? wall) && (getMaze st (x + 2) y =? path) &&
  (getMaze st (x - 1) y =? wall) && (getMaze st (x - 2) y =? path) &&
  (getMaze st x (y + 1) =? wall) && (getMaze st x (y + 2) =? path) &&
  (getMaze st x (y - 1) =? wall) && (getMaze st x (y - 2) =? path).

Definition checkOrphan (x y dx dy length : Z) (st : state) : bool * state :=
  if (x >? 1) && (y >? 1) && (length >? 0) && (length =? depth st) &&
     (getMaze st (x + dx) (y + dy) =? wall) &&
     (getMaze st (x + Z.quot dx 2) (y + Z.quot dy 2) =? wall)
  then
    let '(ok, st) := setCell (x + dx) (y + dy) path st in
    if ok then
      let '(ok, st) := setCell (x + Z.quot dx 2) (y + Z.quot dy 2) path st in
      if ok then
        let orphan := orphan1x1 st (x + dx + 2) (y + dy) ||
                      orphan1x1 st (x + dx - 2) (y + dy) ||
                      orphan1x1 st (x + dx) (y + dy + 2) ||
                      orphan1x1 st (x + dx) (y + dy - 2) in
        let '(_, st) := setMaze (x + dx) (y + dy) wall st in
        let '(_, st) := setMaze (x + Z.quot dx 2) (y + Z.quot dy 2) wall st in
        (orphan, st)
      else (false, st)
    else (false, st)
  else (false, st).

(** [look]: [length] and [minLength] are the cells [dirLength[i]] and
    [minLength[i]] of the caller; [checks] is a fresh local counter. *)
Definition look (fuel : nat) (heading x y dx dy num value : Z) (directions : Z -> dirTable)
    (length minLength numChecks : Z) (st : state)
  : option (Z * ((Z -> dirTable) * (Z * Z * Z) * state)) :=
  let checks := 0 in
  if (x >? 1) && (y >? 1) &&
     (getMaze st (x + Z.quot dx 2) (y + Z.quot dy 2) =? value) &&
     (getMaze st (x + dx) (y + dy) =? value)
  then
    let '(orphan, st) := checkOrphan x y dx dy length st in
    if negb orphan then
      ' (m, (p, st)) <-
        checkDirections fuel x y dx dy (10 * (depth st + 1)) value
          (mkProbe length minLength checks numChecks) st ;;
      let out := (p_length p, p_minLength p, p_numChecks p) in
      if m then Some (1, (tbl_set directions num (mkDir dx dy heading), out, st))
      else Some (0, (directions, out, st))
    else Some (0, (directions, (length, minLength, numChecks), st))
  else Some (0, (directions, (length, minLength, numChecks), st)).

(** The four calls of [look] inside one round of [findDirections]:
    [mins] is the array [minLength], [i] the loop index. *)
Fixpoint look_all (fuel : nat) (x y value len offset : Z) (idx : list Z)
    (num : Z) (directions : Z -> dirTable) (mins : Z -> Z) (numChecks : Z) (st : state)
  : option (Z * ((Z -> dirTable) * (Z -> Z) * Z * state)) :=
  match idx with
  | [] => Some (num, (directions, mins, numChecks, st))
  | i :: rest =>
      let dir := stdDirection (Z.rem (i + offset) 4) in
      ' (r, (directions, (_, m, numChecks), st)) <-
        look fuel (dt_heading dir) x y (dt_x dir) (dt_y dir) num value directions
          len (mins i) numChecks st ;;
      look_all fuel x y value len offset rest (num + r) directions
        (fun k => if k =? i then m else mins k) numChecks st
  end.

Fixpoint findDirections_loop (fuel n : nat) (x y value len : Z)
    (num : Z) (directions : Z -> dirTable) (mins : Z -> Z) (numChecks : Z) (st : state)
  : option (Z * Z * ((Z -> dirTable) * Z * state)) :=
  match n with
  | O => None
  | S n' =>
      let st := set_dspLength st len in
      let '(offset, st) := rand_Intn 4 st in
      ' (num, (directions, mins, numChecks, st)) <-
        look_all fuel x y value len offset [0; 1; 2; 3] num directions mins numChecks st ;;
      if (num >? 0) || (len <? 0) then Some (num, len, (directions, numChecks, st))
      else
        let minLength := Z.min (Z.min (mins 0) (mins 1)) (Z.min (mins 2) (mins 3)) in
        let minLength := if minLength <=? 0 then 1 else minLength in
        findDirections_loop fuel n' x y value (len - minLength) num directions mins
          numChecks st
  end.

(** [findDirections]: the count of directions, the new [*length], the
    direction table, and the state. *)
Definition findDirections (fuel : nat) (x y length value : Z) (directions : Z -> dirTable)
    (st : state) : option (Z * Z * ((Z -> dirTable) * state)) :=
  let num := 0 in
  let numChecks := 0 in
  let '(entered, st) :=
    if negb (value =? wall) then (true, st)
    else if getMaze st x y =? path then setCell x y check st
    else (false, st) in
  ' (num, length, (directions, numChecks, st)) <-
    (if entered : bool then
       ' (num, len, (directions, numChecks, st)) <-
         findDirections_loop fuel fuel x y value length num directions
           (fun _ => length) numChecks st ;;
       let len := if (len =? length) && (len <? depth st) then len + 1 else len in
       let st := if getMaze st x y =? check then snd (setMaze x y path st) else st in
       Some (num, len, (directions, numChecks, st))
     else Some (num, length, (directions, numChecks, st))) ;;
  let st := if maxChecks st <? numChecks then set_maxChecks st numChecks else st in
  Some (num, length, (directions, st)).

End MazeMT.

(** * Specifications *)

(** ** src/maze.go *)

Module GoSpec.
Import MazeGo.

Definition same_maze (st st' : state) : Prop := forall i j, maze st' i j = maze st i j.

(** What the look ahead may change besides the grid: the counters of
    [check_directions], the direction table and [path_depth]. *)
Definition fixed (st : state) : state :=
  set_maze (set_dir_tbl (set_path_depth (set_num_checks (set_max_checks st 0) 0) 0)
    (fun _ => mkDir 0 0 0)) (fun _ _ => 0).

Definition frame (st st' : state) : Prop := fixed st' = fixed st.

(** Both cells of the step (dx, dy) from (x, y) hold [val]. *)
Definition open_dir (st : state) (x y val dx dy : Z) : Prop :=
  maze st (x + Z.quot dx 2) (y + Z.quot dy 2) = val /\ maze st (x + dx) (y + dy) = val.

Definition is_step (dx dy : Z) : Prop :=
  (dx = -2 /\ dy = 0) \/ (dx = 2 /\ dy = 0) \/ (dx = 0 /\ dy = -2) \/ (dx = 0 /\ dy = 2).

Definition valid_entry (st : state) (x y val : Z) (d : dir_tbl_type) : Prop :=
  is_step (dt_x d) (dt_y d) /\ open_dir st x y val (dt_x d) (dt_y d).

(** The entries [0 .. num-1] of the direction table are steps that are
    open in the grid. *)
Definition table_ok (st : state) (x y val num : Z) (s : state) : Prop :=
  frame st s /\ same_maze st s /\ 0 <= num /\
  forall k, 0 <= k < num -> valid_entry st x y val (dir_tbl s k).

(** Rooms of an [h] by [w] maze: even coordinates inside the border. *)
Definition room (h w x y : Z) : Prop :=
  exists a b, 1 <= a <= h /\ 1 <= b <= w /\ x = 2 * a /\ y = 2 * b.

(** The cells of the outermost ring. *)
Definition on_border (h w i j : Z) : Prop :=
  0 <= i <= 2 * (h + 1) /\ 0 <= j <= 2 * (w + 1) /\
  (i = 0 \/ i = 2 * (h + 1) \/ j = 0 \/ j = 2 * (w + 1)).

Definition border_path (h w : Z) (g : grid) : Prop :=
  forall i j, on_border h w i j -> g i j = PATH.

(** The state of the grid while paths are carved.  [rk] numbers the rooms
    in the order in which they were carved and [n] is the next number. *)
Record carving (h w : Z) (rk : Z -> Z -> Z) (n : Z) (g : grid) : Prop := {
  cv_border : border_path h w g;
  cv_rooms : forall x y, room h w x y -> g x y = WALL \/ g x y = PATH;
  cv_edge : forall x y dx dy, room h w x y -> is_step dx dy ->
      ~ room h w (x + dx) (y + dy) -> g (x + Z.quot dx 2) (y + Z.quot dy 2) = WALL;
  cv_ends : forall x y dx dy, room h w x y -> is_step dx dy ->
      g (x + Z.quot dx 2) (y + Z.quot dy 2) = PATH ->
      g x y = PATH /\ g (x + dx) (y + dy) = PATH;
  cv_next : 0 <= n;
  cv_rank : forall x y, room h w x y -> g x y = PATH -> 0 <= rk x y < n;
  cv_distinct : forall x y dx dy, room h w x y -> is_step dx dy ->
      g (x + Z.quot dx 2) (y + Z.quot dy 2) = PATH -> rk x y <> rk (x + dx) (y + dy);
  cv_parent : forall x y dx dy ex ey, room h w x y -> is_step dx dy -> is_step ex ey ->
      (dx, dy) <> (ex, ey) ->
      g (x + Z.quot dx 2) (y + Z.quot dy 2) = PATH ->
      g (x + Z.quot ex 2) (y + Z.quot ey 2) = PATH ->
      ~ (rk (x + dx) (y + dy) < rk x y /\ rk (x + ex) (y + ey) < rk x y);
  cv_joined : forall x y, room h w x y -> g x y = PATH ->
      (exists dx dy, is_step dx dy /\ g (x + Z.quot dx 2) (y + Z.quot dy 2) = PATH) \/
      (forall x' y', room h w x' y' -> g x' y' = PATH -> x' = x /\ y' = y);
  cv_cells : forall i j, 1 <= i <= 2 * h + 1 -> 1 <= j <= 2 * w + 1 ->
      g i j = WALL \/ g i j = PATH;
  cv_pillar : forall a b, 0 <= a <= h -> 0 <= b <= w -> g (2 * a + 1) (2 * b + 1) = WALL;
  cv_some : exists x y, room h w x y /\ g x y = PATH
}.

(** The ranks after the room (x, y) was carved as number [n]. *)
Definition rank_next (rk : Z -> Z -> Z) (x y n : Z) : Z -> Z -> Z :=
  fun i j => if (i =? x) && (j =? y) then n else rk i j.

(** The configuration and the geometry: what only [initialize_maze] and
    [create_openings] write. *)
Definition geom (st : state) : Z * Z * Z * Z * (Z * Z) * (Z * Z) * (Z * Z) :=
  (height st, width st, depth st, min_len st, (max_x st, max_y st),
   (beg_x st, end_x st), (beg_y st, end_y st)).

Definition same_geom (st st' : state) : Prop := geom st' = geom st.

Definition carved (h w : Z) (g : grid) : Prop := exists rk n, carving h w rk n g.

(** The grid as [initialize_maze] leaves it. *)
Definition blank (h w : Z) (g : grid) : Prop :=
  border_path h w g /\
  forall i j, 1 <= i <= 2 * h + 1 -> 1 <= j <= 2 * w + 1 -> g i j = WALL.

(** No room that could start a new path is left: every room that is a path
    and not straight through has no step into walls. *)
Definition no_path_start (h w : Z) (st : state) : Prop :=
  forall x y, room h w x y -> maze st x y = PATH -> straight_thru st x y PATH = false ->
  forall dx dy, is_step dx dy -> ~ open_dir st x y WALL dx dy.

(** The test of [orphan_1x1] at a room, as a proposition. *)
Definition orphan_at (g : grid) (x y : Z) : Prop :=
  g (x - 1) y = WALL /\ g (x - 2) y = PATH /\ g (x + 1) y = WALL /\ g (x + 2) y = PATH /\
  g x (y - 1) = WALL /\ g x (y - 2) = PATH /\ g x (y + 1) = WALL /\ g x (y + 2) = PATH.

(** A change of the grid alone. *)
Definition lift (f : grid -> grid) (s : state) : state := set_maze s (f (maze s)).

(** The cells [push_mid_wall_openings] tests: row [i] from 1 to
    2*(height+1)-1 and, in it, every second column from [(i & 1) + 1]. *)
Definition scanned (h w i j : Z) : Prop :=
  1 <= i < 2 * (h + 1) /\
  exists k, 0 <= k /\ j = Z.land i 1 + 1 + 2 * k /\ j < 2 * (w + 1).

(** The passage cells inside the border: exactly one odd coordinate. *)
Definition passage (h w i j : Z) : Prop :=
  1 <= i <= 2 * h + 1 /\ 1 <= j <= 2 * w + 1 /\ Z.odd i = negb (Z.odd j).

(** One test of the inner loop of [push_mid_wall_openings]. *)
Definition push_cell (i j : Z) (ms : Z * state) : Z * state :=
  let '(moves, s) := ms in
  if mid_wall_opening s i j then
    let s := mark_cell s i j WALL in
    let s := if is_odd i then mark_cell s i (j + 2) PATH
             else mark_cell s (i + 2) j PATH in
    (moves + 1, set_num_wall_push s (num_wall_push s + 1))
  else (moves, s).

(** The cells just inside the border: the outer walls of the maze. *)
Definition on_ring (h w i j : Z) : Prop :=
  1 <= i <= 2 * h + 1 /\ 1 <= j <= 2 * w + 1 /\
  (i = 1 \/ i = 2 * h + 1 \/ j = 1 \/ j = 2 * w + 1).

(** A finished maze without openings: what [search_best_openings] starts
    from and returns to after every trial. *)
Record ready (h w : Z) (st : state) : Prop := {
  rd_height : height st = h;
  rd_width : width st = w;
  rd_max_x : max_x st = 2 * (h + 1) + 1;
  rd_max_y : max_y st = 2 * (w + 1) + 1;
  rd_beg_x : beg_x st = 2;
  rd_end_x : end_x st = 2 * h;
  rd_border : border_path h w (maze st);
  rd_ring : forall i j, on_ring h w i j -> maze st i j = WALL;
  rd_cells : forall i j, 1 <= i <= 2 * h + 1 -> 1 <= j <= 2 * w + 1 ->
      maze st i j = WALL \/ maze st i j = PATH;
  rd_rooms : forall x y, room h w x y -> maze st x y = PATH;
  rd_rows : 1 <= h;
  rd_cols : 1 <= w
}.

Definition in_grid (h w i j : Z) : Prop :=
  0 <= i <= 2 * (h + 1) /\ 0 <= j <= 2 * (w + 1).

(** [g] is [g0] with some of its path cells marked Solved or Tried. *)
Definition marked (h w : Z) (g0 g : grid) : Prop :=
  forall i j, g i j = g0 i j \/
    (in_grid h w i j /\ g0 i j = PATH /\ (g i j = SOLVED \/ g i j = TRIED)).

(** A finished maze with the openings above room (2, s) and below room
    (2h, e): the grid [solve_maze] starts from. *)
Record arena (h w s e : Z) (g0 : grid) : Prop := {
  ar_start : room h w 2 s;
  ar_finish : room h w (2 * h) e;
  ar_border : border_path h w g0;
  ar_ring : forall i j, on_ring h w i j ->
      (i = 1 /\ j = s) \/ (i = 2 * h + 1 /\ j = e) \/ g0 i j = WALL;
  ar_cells : forall i j, 1 <= i <= 2 * h + 1 -> 1 <= j <= 2 * w + 1 ->
      g0 i j = WALL \/ g0 i j = PATH;
  ar_rooms : forall x y, room h w x y -> g0 x y = PATH;
  ar_entry : g0 1 s = PATH;
  ar_exit : g0 (2 * h + 1) e = PATH
}.

Definition placed (h w s e : Z) (st : state) : Prop :=
  height st = h /\ width st = w /\
  max_x st = 2 * (h + 1) + 1 /\ max_y st = 2 * (w + 1) + 1 /\
  beg_x st = 2 /\ end_x st = 2 * h /\ beg_y st = s /\ end_y st = e.

(** The solver at room (x, y), before it has left the maze. *)
Record solving (h w s e : Z) (g0 : grid) (st : state) (x y : Z) : Prop := {
  sv_placed : placed h w s e st;
  sv_marked : marked h w g0 (maze st);
  sv_entry : maze st 1 s = SOLVED;
  sv_exit : maze st (2 * h + 1) e = PATH;
  sv_border : border_path h w (maze st);
  sv_room : room h w x y
}.

Definition finished (h w s e : Z) (g0 : grid) (st : state) : Prop :=
  placed h w s e st /\ marked h w g0 (maze st).

(** The body of the loops of [restore_maze], on the grid. *)
Definition restore_cell (i j : Z) (g : grid) : grid :=
  if (g i j =? SOLVED) || (g i j =? TRIED) then grid_set g i j PATH else g.

Definition is_mark (v : Z) : bool := (v =? SOLVED) || (v =? TRIED).

(** The test that replaces the best pair in [search_best_openings]. *)
Definition better (b : best) (pl tc : Z) : bool :=
  (pl >? best_path_len b) || ((pl =? best_path_len b) && (tc >? best_turn_cnt b)).

Definition record_trial (b : best) (start finish pl tc : Z) : best :=
  if better b pl tc then mkBest pl tc start finish else b.

(** The state a trial of the pair (start, finish) leaves, from the state
    [s1] in which its [solve_maze] returned. *)
Definition after_trial (b : best) (s1 : state) : state :=
  let s2 := if better b (path_len s1) (turn_cnt s1)
            then set_max_path_length s1 (path_len s1) else s1 in
  let s3 := delete_openings (restore_maze s2) in
  set_num_solves s3 (num_solves s3 + 1).

(** Path length first, turn count second. *)
Definition lex_le (a b : Z * Z) : Prop :=
  fst a < fst b \/ (fst a = fst b /\ snd a <= snd b).

Definition lex_lt (a b : Z * Z) : Prop :=
  fst a < fst b \/ (fst a = fst b /\ snd a < snd b).

Definition metrics (b : best) : Z * Z := (best_path_len b, best_turn_cnt b).

(** The trials of a run of the loop of [search_best_openings]: for every
    pair that was solved, its opening columns and the path length and turn
    count that [solve_maze] left. *)
Fixpoint search_log (fuel : nat) (pairs : list (Z * Z)) (b : best) (st : state)
  : list ((Z * Z) * (Z * Z)) :=
  match pairs with
  | [] => []
  | (i, j) :: rest =>
      match search_step fuel i j b st with
      | Some (b', (_, st')) =>
          (if evaluated st (2 * (i + 1)) (2 * (j + 1))
           then [((2 * (i + 1), 2 * (j + 1)), (path_len st', turn_cnt st'))]
           else []) ++ search_log fuel rest b' st'
      | None => []
      end
  end.

(** The pair a [best] record names, with its metrics. *)
Definition entry (b : best) : (Z * Z) * (Z * Z) :=
  ((best_start b, best_finish b), metrics b).

Definition in_range (w : Z) (pairs : list (Z * Z)) : Prop :=
  forall i j, In (i, j) pairs -> 0 <= i < w /\ 0 <= j < w.

Definition names_rooms (w : Z) (b : best) : Prop :=
  exists i j, 0 <= i < w /\ 0 <= j < w /\
    best_start b = 2 * (i + 1) /\ best_finish b = 2 * (j + 1).

(** One round of the loop of [main]: a new seed, [create_maze] and
    [solve_maze]. *)
Definition round (fuel : nat) (r : nat -> Z) (st : state) : option state :=
  let st := set_num_maze_created st (num_maze_created st + 1) in
  let st := set_rand_pos (set_rand_src st r) O in
  ' ((x, y), st) <- create_maze fuel st ;;
  ' (_, st) <- solve_maze fuel x y st ;;
  Some st.

(** [m] rounds, whatever their path lengths. *)
Fixpoint rounds (fuel m : nat) (draws : nat -> nat -> Z) (k : nat) (st : state) : option state :=
  match m with
  | O => Some st
  | S m' =>
      match round fuel (draws k) st with
      | Some st1 => rounds fuel m' draws (S k) st1
      | None => None
      end
  end.

(** The state at program start, with the flags read. *)
Definition init_state (h w d ml : Z) (r : nat -> Z) : state :=
  {| maze := fun _ _ => 0; dir_tbl := fun _ => mkDir 0 0 0; max_x := 0; max_y := 0;
     beg_x := 0; end_x := 0; beg_y := 0; end_y := 0;
     width := w; height := h; min_len := ml; path_len := 0;
     maze_len := 0; turn_cnt := 0; solves := 0; depth := d;
     path_depth := 0; num_checks := 0; max_checks := 0; num_paths := 0;
     num_solves := 0; num_wall_push := 0; max_path_length := 0; num_maze_created := 0;
     rand_src := r; rand_pos := O |}.

(** Draws that carve a comb in a 2 by 3 maze. *)
Definition comb_draws : nat -> Z := fun n => if (n <? 2)%nat then 1 else 0.

Definition zero_draws : nat -> Z := fun _ => 0.


(** The maze after carving and normalizing, before the openings are
    searched. *)
Definition carved_state (fuel : nat) (st0 : state) : state :=
  match carve_phase fuel st0 with
  | Some (_, s) => match push_all fuel s with Some s' => s' | None => st0 end
  | None => st0
  end.

(** The number of rooms of the maze that hold [v]. *)
Definition count_rooms (h w : Z) (g : grid) (v : Z) : Z :=
  Z.of_nat (length (filter (fun ij => g (2 * (fst ij + 1)) (2 * (snd ij + 1)) =? v)
                      (index_pairs h w))).

(** What the solver may change besides what the look ahead changes: the
    path length, the turn count and the number of solves. *)
Definition solver_fixed (st : state) : state :=
  set_path_len (set_turn_cnt (set_solves (fixed st) 0) 0) 0.

(** The search has not recorded a pair yet, or [max_path_length] is the
    path length of its best record. *)
Definition best_recorded (b : best) (st : state) : Prop :=
  b = mkBest 0 0 2 2 \/ max_path_length st = best_path_len b.

(** The look ahead of one call: what [check_directions] leaves behind. *)
Record cd_post (x y val : Z) (st st' : state) : Prop := {
  cd_maze : maze st x y = val -> same_maze st st';
  cd_frame : frame st st';
  cd_tbl : dir_tbl st' = dir_tbl st;
  cd_depth : path_depth st' = path_depth st
}.

End GoSpec.

(** ** Rev 2.3 *)

Module MTSpec.
Import MazeMT.

Definition same_maze (st st' : state) : Prop := forall i j, maze st' i j = maze st i j.

(** What the look ahead may change besides the grid: the random generator's
    position and the counters. *)
Definition fixed (st : state) : state :=
  set_maze (set_rand_pos (set_numCheckExceeded (set_dspLength (set_maxChecks st 0) 0) 0) O)
    (fun _ _ => 0).

Definition frame (st st' : state) : Prop := fixed st' = fixed st.

(** What a call of [checkDirections] leaves behind. *)
Record cd_post (limit : Z) (p : probe) (st : state) (m : bool) (p' : probe) (st' : state)
  : Prop := {
  cd_frame : frame st st';
  cd_length : p_length p' = p_length p;
  cd_min : p_minLength p' <= p_minLength p;
  cd_checks : p_checks p <= p_checks p';
  cd_bound : p_checks p <= limit -> p_checks p' <= limit;
  cd_count : p_numChecks p' - p_numChecks p = p_checks p' - p_checks p;
  cd_exceeded : numCheckExceeded st <= numCheckExceeded st';
  cd_failed : numCheckExceeded st < numCheckExceeded st' ->
              m = false /\ limit <= p_checks p' /\ 0 <= p_length p;
  cd_spent : limit <= p_checks p -> 0 <= p_length p -> m = false
}.

(** The invariant of the direction loop inside [checkDirections]: [p] and
    [st] are the probe and the state at the call, [s2] the state when the
    loop starts. *)
Definition cd_loop_inv (limit : Z) (p : probe) (st s2 : state) (a : probe * state) : Prop :=
  frame st (snd a) /\ same_maze s2 (snd a) /\
  p_length (fst a) = p_length p - 1 /\
  p_minLength (fst a) <= p_minLength p /\
  p_checks p + 1 <= p_checks (fst a) /\
  (p_checks p + 1 <= limit -> p_checks (fst a) <= limit) /\
  p_numChecks (fst a) - p_numChecks p = p_checks (fst a) - p_checks p /\
  numCheckExceeded st <= numCheckExceeded (snd a) /\
  (numCheckExceeded st < numCheckExceeded (snd a) ->
   limit <= p_checks (fst a) /\ 0 <= p_length p - 1).

(** A state whose grid is all walls, with look ahead depth [d]. *)
Definition all_walls (d : Z) : state :=
  {| maze := fun _ _ => wall; width := 3; height := 3; threads := 1;
     maxX := 9; maxY := 9; begX := 2; endX := 6; begY := 2; endY := 2;
     depth := d; checkFlag := 0; solvedFlag := 0; mazeLen := 0; pathLen := 0; turnCnt := 0;
     numPaths := 0; numSolves := 0; numThreads := 0; numWallPush := 0;
     numCheckExceeded := 0; maxChecks := 0; dspLength := 0; solveLength := 0;
     sumsolveLength := 0; rand_src := fun _ => 0; rand_pos := O |}.

End MTSpec.

(** * Proofs *)

Lemma grid_set_eq g x y v : grid_set g x y v x y = v.
Proof. unfold grid_set. now rewrite !Z.eqb_refl. Qed.

Lemma grid_set_neq g x y v i j : i <> x \/ j <> y -> grid_set g x y v i j = g i j.
Proof.
  unfold grid_set. intros H.
  destruct (Z.eqb_spec i x), (Z.eqb_spec j y); simpl; try reflexivity.
  lia.
Qed.

Lemma grid_set_cases g x y v i j :
  (i = x /\ j = y /\ grid_set g x y v i j = v) \/
  ((i <> x \/ j <> y) /\ grid_set g x y v i j = g i j).
Proof.
  unfold grid_set.
  destruct (Z.eqb_spec i x), (Z.eqb_spec j y); simpl; auto.
Qed.

Lemma cell_dec (i j a b : Z) : (i = a /\ j = b) \/ (i <> a \/ j <> b).
Proof. destruct (Z.eq_dec i a), (Z.eq_dec j b); auto. Qed.

Lemma for_loop_inv {S : Type} (P : nat -> S -> Prop) (body : Z -> S -> S) step n :
  forall i s,
    P O s ->
    (forall k t, (k < n)%nat -> P k t -> P (Datatypes.S k) (body (i + Z.of_nat k * step) t)) ->
    P n (for_loop n i step body s).
Proof.
  revert P. induction n as [|n IH]; intros P i s H0 Hstep; simpl.
  - exact H0.
  - apply (IH (fun k t => P (Datatypes.S k) t)).
    + specialize (Hstep O s (Nat.lt_0_succ n) H0).
      replace (i + Z.of_nat 0 * step) with i in Hstep by lia. exact Hstep.
    + intros k t Hk Hp.
      replace (i + step + Z.of_nat k * step) with (i + Z.of_nat (Datatypes.S k) * step) by lia.
      apply Hstep; [lia|exact Hp].
Qed.

Lemma or_else_inv {A : Type} (P : A -> Prop) (r : option (bool * A)) k m a :
  or_else r k = Some (m, a) ->
  (forall m' a', r = Some (m', a') -> P a') ->
  (forall a1 m' a', P a1 -> k a1 = Some (m', a') -> P a') ->
  P a.
Proof.
  unfold or_else. intros H Hr Hk.
  destruct r as [[[] a0]|]; try discriminate.
  - inversion H; subst. eapply Hr; eauto.
  - eapply Hk; eauto.
Qed.

Module GoProofs.
Import MazeGo GoSpec.

Lemma same_maze_refl st : same_maze st st.
Proof. intros i j; reflexivity. Qed.

Lemma same_maze_trans st1 st2 st3 : same_maze st1 st2 -> same_maze st2 st3 -> same_maze st1 st3.
Proof. intros H1 H2 i j. now rewrite H2, H1. Qed.

Lemma frame_refl st : frame st st.
Proof. reflexivity. Qed.

Lemma frame_trans st1 st2 st3 : frame st1 st2 -> frame st2 st3 -> frame st1 st3.
Proof. unfold frame. congruence. Qed.

Lemma probe_dir_post rec val hx hy fx fy cs m cs' (P : state -> Prop) :
  probe_dir rec val hx hy fx fy cs = Some (m, cs') ->
  P (snd cs) ->
  (forall m cs', rec fx fy (fst cs) (snd cs) = Some (m, cs') ->
                 maze (snd cs) fx fy = val -> P (snd cs')) ->
  P (snd cs').
Proof.
  unfold probe_dir, rd. intros H Hs Hrec.
  destruct (maze (snd cs) hx hy =? val); simpl in H.
  - destruct (Z.eqb_spec (maze (snd cs) fx fy) val); simpl in H.
    + eapply Hrec; eauto.
    + inversion H; subst; exact Hs.
  - inversion H; subst; exact Hs.
Qed.

Lemma check_directions_post fuel :
  forall x y val depth checks st m c st',
    check_directions fuel x y val depth checks st = Some (m, (c, st')) ->
    cd_post x y val st st'.
Proof.
  induction fuel as [|fuel IH]; intros x y val depth checks st m c st' H; simpl in H.
  - destruct (negb (depth =? 0) && (checks <? 500000)); [discriminate|].
    inversion H; subst. split; auto using same_maze_refl, frame_refl.
  - destruct (negb (depth =? 0) && (checks <? 500000)); cycle 1.
    { inversion H; subst. split; auto using same_maze_refl, frame_refl. }
    match type of H with
    | match ?r with _ => _ end = _ => destruct r as [[m1 [c1 s1]]|] eqn:E; [|discriminate]
    end.
    inversion H; subst; clear H.
    set (st2 := wr _ x y CHECK) in E.
    pose (P := fun s => same_maze st2 s /\ frame st s /\ dir_tbl s = dir_tbl st /\
                   path_depth s = path_depth st).
    assert (Hrec : forall fx fy cs, P (snd cs) ->
              forall m cs', check_directions fuel fx fy val (depth - 1) (fst cs) (snd cs) = Some (m, cs') ->
              maze (snd cs) fx fy = val -> P (snd cs')).
    { intros fx fy cs (Hm & Hf & Ht & Hd) m0 [c' s'] Hc Hv.
      destruct (IH _ _ _ _ _ _ _ _ _ Hc) as [Hm' Hf' Ht' Hd'].
      repeat split; simpl.
      - eapply same_maze_trans; eauto.
      - eapply frame_trans; eauto.
      - congruence.
      - congruence. }
    assert (P0 : P st2).
    { unfold P, st2. destruct (max_checks st <? num_checks st + 1); repeat split. }
    assert (P1 : P (snd (c, s1))).
    { eapply or_else_inv with (P := fun a => P (snd a)); [exact E| |].
      - intros m' a' E1.
        eapply or_else_inv with (P := fun a => P (snd a)); [exact E1| |].
        + intros m'' a'' E2.
          eapply or_else_inv with (P := fun a => P (snd a)); [exact E2| |].
          * intros m3 a3 E3; cbv beta.
            eapply probe_dir_post; [exact E3|exact P0|intros m0 cs0 Hc Hv; exact (Hrec _ _ (checks + 1, st2) P0 _ _ Hc Hv)].
          * intros a1 m3 a3 Pa E3; cbv beta.
            eapply probe_dir_post; [exact E3|exact Pa|intros m0 cs0 Hc Hv; exact (Hrec _ _ a1 Pa _ _ Hc Hv)].
        + intros a1 m3 a3 Pa E3; cbv beta.
          eapply probe_dir_post; [exact E3|exact Pa|intros m0 cs0 Hc Hv; exact (Hrec _ _ a1 Pa _ _ Hc Hv)].
      - intros a1 m3 a3 Pa E3; cbv beta.
        eapply probe_dir_post; [exact E3|exact Pa|intros m0 cs0 Hc Hv; exact (Hrec _ _ a1 Pa _ _ Hc Hv)]. }
    destruct P1 as (Hm & Hf & Ht & Hd); simpl in *.
    split.
    + intros Hxy i j. unfold wr; simpl. 
      destruct (grid_set_cases (maze s1) x y val i j) as [(-> & -> & ->)|(Hn & ->)].
      * now rewrite Hxy.
      * rewrite Hm. unfold st2, wr; simpl.
        destruct (max_checks st <? num_checks st + 1); simpl; now rewrite grid_set_neq.
    + unfold frame in *. rewrite <- Hf. reflexivity.
    + exact Ht.
    + exact Hd.
Qed.

Lemma frame_height st st' : frame st st' -> height st' = height st.
Proof. intros H. change (height (fixed st') = height (fixed st)). now rewrite H. Qed.

Lemma frame_width st st' : frame st st' -> width st' = width st.
Proof. intros H. change (width (fixed st') = width (fixed st)). now rewrite H. Qed.

Lemma frame_depth st st' : frame st st' -> depth st' = depth st.
Proof. intros H. change (depth (fixed st') = depth (fixed st)). now rewrite H. Qed.

Lemma frame_rand_pos st st' : frame st st' -> rand_pos st' = rand_pos st.
Proof. intros H. change (rand_pos (fixed st') = rand_pos (fixed st)). now rewrite H. Qed.

Lemma frame_rand_src st st' : frame st st' -> rand_src st' = rand_src st.
Proof. intros H. change (rand_src (fixed st') = rand_src (fixed st)). now rewrite H. Qed.

Lemma check_directions_zero fuel x y val checks st :
  check_directions fuel x y val 0 checks st = Some (true, (checks, st)).
Proof. destruct fuel; reflexivity. Qed.

Lemma check_orphan_post x y dx dy depth st o st' :
  check_orphan x y dx dy depth st = (o, st') ->
  frame st st' /\ dir_tbl st' = dir_tbl st /\ path_depth st' = path_depth st /\
  (depth = 0 -> st' = st /\ o = false) /\
  (open_dir st x y WALL dx dy -> same_maze st st').
Proof.
  unfold check_orphan. destruct (Z.eqb_spec depth 0) as [->|Hd]; simpl; intros H.
  - inversion H; subst. repeat split; auto using same_maze_refl.
  - inversion H; subst; clear H. repeat split; try lia.
    intros [Hh Hf] i j. unfold wr; simpl.
    destruct (grid_set_cases
      (grid_set (grid_set (grid_set (maze st) (x + dx ÷ 2) (y + dy ÷ 2) PATH) (x + dx) (y + dy) PATH)
         (x + dx) (y + dy) WALL) (x + dx ÷ 2) (y + dy ÷ 2) WALL i j) as [(-> & -> & ->)|(Hn & ->)].
    + now rewrite Hh.
    + destruct (grid_set_cases
        (grid_set (grid_set (maze st) (x + dx ÷ 2) (y + dy ÷ 2) PATH) (x + dx) (y + dy) PATH)
        (x + dx) (y + dy) WALL i j) as [(-> & -> & ->)|(Hn' & ->)].
      * now rewrite Hf.
      * rewrite !grid_set_neq by assumption. reflexivity.
Qed.

(** What one call of [look] does. *)
Lemma look_post fuel heading x y dx dy num val depth st r st' :
  look fuel heading x y dx dy num val depth st = Some (r, st') ->
  frame st st' /\ path_depth st' = path_depth st /\
  (val = WALL \/ depth = 0 -> same_maze st st') /\
  ((r = 0 /\ dir_tbl st' = dir_tbl st) \/
   (r = 1 /\ dir_tbl st' = tbl_set (dir_tbl st) num (mkDir dx dy heading) /\
    open_dir st x y val dx dy)) /\
  (depth = 0 -> open_dir st x y val dx dy -> r = 1).
Proof.
  unfold look, rd. intros H.
  destruct (Z.eqb_spec (maze st (x + dx ÷ 2) (y + dy ÷ 2)) val) as [Hh|Hh]; simpl in H.
  2:{ inversion H; subst. repeat split; auto using same_maze_refl.
      intros _ [? _]; contradiction. }
  destruct (Z.eqb_spec (maze st (x + dx) (y + dy)) val) as [Hf|Hf]; simpl in H.
  2:{ inversion H; subst. repeat split; auto using same_maze_refl.
      intros _ [_ ?]; contradiction. }
  destruct (check_orphan x y dx dy depth st) as [o s1] eqn:Eo.
  destruct (check_orphan_post _ _ _ _ _ _ _ _ Eo) as (Fo & To & Do & Zo & Mo).
  assert (Hm1 : val = WALL \/ depth = 0 -> same_maze st s1).
  { intros [->| ->].
    - apply Mo. split; assumption.
    - destruct (Zo eq_refl) as [-> _]. apply same_maze_refl. }
  destruct o; simpl in H.
  - inversion H; subst. repeat split; auto.
    intros Hd _. destruct (Zo Hd); discriminate.
  - destruct (check_directions fuel (x + dx) (y + dy) val depth 0 s1)
      as [[m [c s2]]|] eqn:Ec; [|discriminate].
    destruct (check_directions_post _ _ _ _ _ _ _ _ _ _ Ec) as [Mc Fc Tc Dc].
    assert (Hm2 : val = WALL \/ depth = 0 -> same_maze st s2).
    { intros Hv. eapply same_maze_trans; [apply Hm1; exact Hv|].
      apply Mc. rewrite (Hm1 Hv). exact Hf. }
    destruct m; inversion H; subst; clear H.
    + repeat split; simpl.
      * eapply frame_trans; [exact Fo|]. eapply frame_trans; [exact Fc|]. reflexivity.
      * congruence.
      * intros Hv i j. simpl. apply Hm2; exact Hv.
      * right. repeat split; try assumption. simpl. congruence.
    + repeat split.
      * eapply frame_trans; eauto.
      * congruence.
      * exact Hm2.
      * left. split; congruence.
      * intros Hd _. subst depth. destruct (Zo eq_refl) as [-> _].
        rewrite check_directions_zero in Ec. discriminate.
Qed.

Lemma open_dir_same st s x y val dx dy :
  same_maze st s -> open_dir s x y val dx dy <-> open_dir st x y val dx dy.
Proof. intros H. unfold open_dir. now rewrite !H. Qed.

Lemma look_step st x y val num s fuel heading dx dy d r s' :
  table_ok st x y val num s ->
  is_step dx dy ->
  (val = WALL \/ d = 0) ->
  look fuel heading x y dx dy num val d s = Some (r, s') ->
  table_ok st x y val (num + r) s' /\ path_depth s' = path_depth s /\
  (r = 0 \/ r = 1) /\
  (d = 0 -> open_dir st x y val dx dy -> r = 1).
Proof.
  intros (Hf & Hm & Hn & Ht) Hs Hv H.
  destruct (look_post _ _ _ _ _ _ _ _ _ _ _ _ H) as (F & D & M & R & C).
  specialize (M Hv).
  assert (Hm' : same_maze st s') by (eapply same_maze_trans; eauto).
  unfold table_ok. repeat apply conj.
  - eapply frame_trans; eauto.
  - exact Hm'.
  - destruct R as [[-> _]|[-> _]]; lia.
  - intros k Hk. destruct R as [[-> T]|(-> & T & O)].
    + rewrite T. apply Ht. lia.
    + rewrite T. unfold tbl_set. destruct (Z.eqb_spec k num) as [->|Hne].
      * split; [exact Hs|]. simpl. apply (open_dir_same st s); assumption.
      * apply Ht. lia.
  - exact D.
  - destruct R as [[-> _]|[-> _]]; auto.
  - intros Hd Ho. apply C; [exact Hd|]. apply (open_dir_same st s); assumption.
Qed.

Ltac next_look H r s E :=
  match type of H with
  | context [look ?a ?b ?c ?d ?e ?f ?g ?h ?i ?j] =>
      destruct (look a b c d e f g h i j) as [[r s]|] eqn:E; [|discriminate]
  end.

Lemma find_directions_loop_post fuel n :
  forall x y val search sd st num' st',
    find_directions_loop fuel n x y val search 0 sd st = Some (num', st') ->
    (val = WALL \/ (search = false /\ sd = 0)) ->
    table_ok st x y val num' st' /\ num' <= 4 /\
    (search = false -> path_depth st' = path_depth st) /\
    (search = false -> sd = 0 -> num' = 0 ->
     forall dx dy, is_step dx dy -> ~ open_dir st x y val dx dy).
Proof.
  induction n as [|n IH]; intros x y val search sd st num' st' H Hv; [discriminate|].
  simpl in H.
  set (d := if search then path_depth st else sd) in H.
  assert (Hd : val = WALL \/ d = 0).
  { destruct Hv as [->|[-> ->]]; [now left|now right]. }
  assert (T0 : table_ok st x y val 0 st).
  { repeat split; auto using same_maze_refl; try lia. }
  assert (SL : is_step (-2) 0) by (unfold is_step; lia).
  assert (SR : is_step 2 0) by (unfold is_step; lia).
  assert (SU : is_step 0 (-2)) by (unfold is_step; lia).
  assert (SD : is_step 0 2) by (unfold is_step; lia).
  next_look H r1 s1 E1.
  destruct (look_step _ _ _ _ _ _ _ _ _ _ _ _ _ T0 SL Hd E1)
    as (T1 & D1 & R1 & C1).
  next_look H r2 s2 E2.
  destruct (look_step _ _ _ _ _ _ _ _ _ _ _ _ _ T1 SR Hd E2)
    as (T2 & D2 & R2 & C2).
  next_look H r3 s3 E3.
  destruct (look_step _ _ _ _ _ _ _ _ _ _ _ _ _ T2 SU Hd E3)
    as (T3 & D3 & R3 & C3).
  next_look H r4 s4 E4.
  destruct (look_step _ _ _ _ _ _ _ _ _ _ _ _ _ T3 SD Hd E4)
    as (T4 & D4 & R4 & C4).
  change (r1 + r2) with (0 + r1 + r2) in *.
  destruct (negb (0 + r1 + r2 + r3 + r4 =? 0) || negb search || (path_depth s4 =? 0)) eqn:Ex.
  - inversion H; subst; clear H.
    split; [exact T4|]. split; [lia|]. split; [intros _; congruence|].
    intros Hs Hsd Hz dx dy Hstep Ho.
    assert (d = 0) as Hd0 by (unfold d; rewrite Hs; exact Hsd).
    destruct Hstep as [[-> ->]|[[-> ->]|[[-> ->]|[-> ->]]]].
    + specialize (C1 Hd0 Ho). lia.
    + specialize (C2 Hd0 Ho). lia.
    + specialize (C3 Hd0 Ho). lia.
    + specialize (C4 Hd0 Ho). lia.
  - apply orb_false_iff in Ex. destruct Ex as [Ex Ex3].
    apply orb_false_iff in Ex. destruct Ex as [Ex1 Ex2].
    apply negb_false_iff in Ex1, Ex2. apply Z.eqb_eq in Ex1.
    rewrite Ex1 in H.
    assert (Hv' : val = WALL \/ search = false /\ d = 0).
    { destruct Hv as [->|[-> _]]; [now left|discriminate]. }
    destruct (IH _ _ _ _ _ _ _ _ H Hv') as ((F & M & N & V) & L & P & _).
    destruct T4 as (F4 & M4 & _ & _).
    assert (Ms : same_maze st st').
    { eapply same_maze_trans; [exact M4|]. intros i j. rewrite M. reflexivity. }
    split; [|split; [exact L|split; intros Hs; rewrite Hs in Ex2; discriminate]].
    unfold table_ok. repeat apply conj; try assumption.
    + eapply frame_trans; [exact F4|]. eapply frame_trans; [|exact F]. reflexivity.
    + intros k Hk. destruct (V k Hk) as [Vs Vo]. split; [exact Vs|].
      apply (open_dir_same st (set_path_depth s4 (path_depth s4 - 1))); [|exact Vo].
      intros i j. apply M4.
Qed.

Lemma find_directions_post fuel x y val search st num st' :
  find_directions fuel x y val search st = Some (num, st') ->
  (val = WALL \/ search = false) ->
  table_ok st x y val num st' /\ num <= 4 /\
  (search = false -> path_depth st' = path_depth st) /\
  (search = false -> num = 0 ->
   forall dx dy, is_step dx dy -> ~ open_dir st x y val dx dy).
Proof.
  unfold find_directions. intros H Hv.
  apply find_directions_loop_post in H; [|destruct Hv; auto].
  destruct H as (T & L & P & C).
  split; [exact T|]. split; [exact L|]. split; [exact P|].
  intros Hs Hz. apply (C Hs eq_refl Hz).
Qed.

Ltac quot2 :=
  change (- (-2)) with 2 in *; change (- (2)) with (-2) in *; change (- 0) with 0 in *;
  change (Z.quot (-2) 2) with (-1) in *; change (Z.quot 2 2) with 1 in *;
  change (Z.quot 0 2) with 0 in *.

Ltac step_cases H :=
  destruct H as [[? ?]|[[? ?]|[[? ?]|[? ?]]]]; subst; quot2.

Lemma step_quot dx dy : is_step dx dy -> dx = 2 * Z.quot dx 2 /\ dy = 2 * Z.quot dy 2.
Proof. intros H. step_cases H; simpl; lia. Qed.

Lemma room_step_cases h w x y dx dy :
  room h w x y -> is_step dx dy ->
  room h w (x + dx) (y + dy) \/ on_border h w (x + dx) (y + dy).
Proof.
  intros (a & b & Ha & Hb & -> & ->) Hs. unfold room, on_border.
  step_cases Hs.
  - destruct (Z.eq_dec a 1); [right; lia|left; exists (a - 1), b; lia].
  - destruct (Z.eq_dec a h); [right; lia|left; exists (a + 1), b; lia].
  - destruct (Z.eq_dec b 1); [right; lia|left; exists a, (b - 1); lia].
  - destruct (Z.eq_dec b w); [right; lia|left; exists a, (b + 1); lia].
Qed.

Lemma room_dec h w x y : room h w x y \/ ~ room h w x y.
Proof.
  unfold room.
  destruct (Z.eq_dec x (2 * (x / 2))) as [Hx|Hx]; cycle 1.
  { right. intros (a & b & _ & _ & -> & _). apply Hx.
    rewrite (Z.mul_comm 2 a), Z.div_mul; lia. }
  destruct (Z.eq_dec y (2 * (y / 2))) as [Hy|Hy]; cycle 1.
  { right. intros (a & b & _ & _ & _ & ->). apply Hy.
    rewrite (Z.mul_comm 2 b), Z.div_mul; lia. }
  destruct (Z_le_dec 1 (x / 2)), (Z_le_dec (x / 2) h), (Z_le_dec 1 (y / 2)), (Z_le_dec (y / 2) w);
    try (right; intros (a & b & ? & ? & ? & ?); lia).
  left. exists (x / 2), (y / 2). lia.
Qed.

Lemma room_not_border h w x y : room h w x y -> ~ on_border h w x y.
Proof. intros (a & b & Ha & Hb & -> & ->) (_ & _ & H). lia. Qed.

(** A passage cell lies between exactly two rooms. *)
Lemma passage_unique h w x y dx dy x' y' dx' dy' :
  room h w x y -> room h w x' y' -> is_step dx dy -> is_step dx' dy' ->
  x' + Z.quot dx' 2 = x + Z.quot dx 2 -> y' + Z.quot dy' 2 = y + Z.quot dy 2 ->
  (x' = x /\ y' = y /\ dx' = dx /\ dy' = dy) \/
  (x' = x + dx /\ y' = y + dy /\ dx' = - dx /\ dy' = - dy).
Proof.
  intros (a & b & _ & _ & -> & ->) (a' & b' & _ & _ & -> & ->) Hs Hs' E1 E2.
  step_cases Hs; step_cases Hs'; lia.
Qed.

Lemma passage_not_room h w x y dx dy x' y' :
  room h w x y -> room h w x' y' -> is_step dx dy ->
  x' = x + Z.quot dx 2 -> y' = y + Z.quot dy 2 -> False.
Proof.
  intros (a & b & _ & _ & -> & ->) (a' & b' & _ & _ & -> & ->) Hs E1 E2.
  step_cases Hs; lia.
Qed.

Lemma step_opp dx dy : is_step dx dy -> is_step (- dx) (- dy).
Proof. intros H; step_cases H; unfold is_step; lia. Qed.

Lemma step_opp_quot dx dy :
  is_step dx dy -> dx + Z.quot (- dx) 2 = Z.quot dx 2 /\ dy + Z.quot (- dy) 2 = Z.quot dy 2.
Proof. intros H; step_cases H; simpl; lia. Qed.

Lemma step_nonzero dx dy : is_step dx dy -> dx <> 0 \/ dy <> 0.
Proof. intros H; step_cases H; lia. Qed.

Section CarveStep.
Variables (h w : Z) (rk : Z -> Z -> Z) (n : Z) (g g' : grid) (x y dx dy : Z).
Hypothesis C : carving h w rk n g.
Hypothesis Hr : room h w x y.
Hypothesis Hp : g x y = PATH.
Hypothesis Hs : is_step dx dy.
Hypothesis Hh : g (x + Z.quot dx 2) (y + Z.quot dy 2) = WALL.
Hypothesis Hf : g (x + dx) (y + dy) = WALL.
Hypothesis Hh' : g' (x + Z.quot dx 2) (y + Z.quot dy 2) = PATH.
Hypothesis Hf' : g' (x + dx) (y + dy) = PATH.
Hypothesis Hg : forall i j,
  (i <> x + Z.quot dx 2 \/ j <> y + Z.quot dy 2) -> (i <> x + dx \/ j <> y + dy) ->
  g' i j = g i j.

Lemma carved_room : room h w (x + dx) (y + dy).
Proof.
  destruct (room_step_cases _ _ _ _ _ _ Hr Hs) as [|B]; [assumption|].
  rewrite (cv_border _ _ _ _ _ C _ _ B) in Hf. discriminate.
Qed.

Lemma carved_cases i j :
  (i = x + Z.quot dx 2 /\ j = y + Z.quot dy 2 /\ g' i j = PATH) \/
  (i = x + dx /\ j = y + dy /\ g' i j = PATH) \/
  ((i <> x + Z.quot dx 2 \/ j <> y + Z.quot dy 2) /\ (i <> x + dx \/ j <> y + dy) /\
   g' i j = g i j).
Proof.
  destruct (cell_dec i j (x + Z.quot dx 2) (y + Z.quot dy 2)) as [[-> ->]|N1]; [left; auto|].
  destruct (cell_dec i j (x + dx) (y + dy)) as [[-> ->]|N2]; [right; left; auto|].
  right; right; auto.
Qed.

Lemma carved_keeps_path i j : g i j = PATH -> g' i j = PATH.
Proof.
  intros H. destruct (carved_cases i j) as [(_ & _ & E)|[(_ & _ & E)|(_ & _ & E)]]; congruence.
Qed.

(** A room other than the new one holds in [g'] what it held in [g]. *)
Lemma carved_room_same x' y' :
  room h w x' y' -> (x' <> x + dx \/ y' <> y + dy) -> g' x' y' = g x' y'.
Proof.
  intros R Hne. apply Hg; [|exact Hne].
  destruct (Z.eq_dec x' (x + Z.quot dx 2)), (Z.eq_dec y' (y + Z.quot dy 2)); auto.
  exfalso. eapply (passage_not_room h w x y dx dy x' y'); eauto.
Qed.

(** A room's neighbour across a passage that is not a wall is a room. *)
Lemma open_passage_room x' y' dx' dy' :
  room h w x' y' -> is_step dx' dy' ->
  g (x' + Z.quot dx' 2) (y' + Z.quot dy' 2) <> WALL -> room h w (x' + dx') (y' + dy').
Proof.
  intros R S' P.
  destruct (room_dec h w (x' + dx') (y' + dy')) as [|NR]; [assumption|].
  elim P. eapply cv_edge; eauto.
Qed.

(** A passage that is a path in [g'] is the new one or was a path in [g]. *)
Lemma carved_passage x' y' dx' dy' :
  room h w x' y' -> is_step dx' dy' ->
  g' (x' + Z.quot dx' 2) (y' + Z.quot dy' 2) = PATH ->
  (x' = x /\ y' = y /\ dx' = dx /\ dy' = dy) \/
  (x' = x + dx /\ y' = y + dy /\ dx' = - dx /\ dy' = - dy) \/
  (g (x' + Z.quot dx' 2) (y' + Z.quot dy' 2) = PATH /\ g x' y' = PATH /\
   g (x' + dx') (y' + dy') = PATH /\ room h w (x' + dx') (y' + dy') /\
   (x' <> x + dx \/ y' <> y + dy) /\ (x' + dx' <> x + dx \/ y' + dy' <> y + dy)).
Proof.
  intros R S' P.
  destruct (carved_cases (x' + Z.quot dx' 2) (y' + Z.quot dy' 2))
    as [(E1 & E2 & _)|[(E1 & E2 & _)|(_ & _ & E)]].
  - destruct (passage_unique _ _ _ _ _ _ _ _ _ _ Hr R Hs S' E1 E2); auto.
  - exfalso. eapply (passage_not_room h w x' y' dx' dy' (x + dx) (y + dy)); eauto using carved_room.
  - right; right. rewrite E in P.
    destruct (cv_ends _ _ _ _ _ C _ _ _ _ R S' P) as [P1 P2].
    assert (R2 : room h w (x' + dx') (y' + dy')).
    { apply open_passage_room; auto. rewrite P. discriminate. }
    repeat split; auto.
    + destruct (Z.eq_dec x' (x + dx)), (Z.eq_dec y' (y + dy)); auto.
      subst. rewrite Hf in P1. discriminate.
    + destruct (Z.eq_dec (x' + dx') (x + dx)), (Z.eq_dec (y' + dy') (y + dy)); auto.
      rewrite e, e0 in P2. rewrite Hf in P2. discriminate.
Qed.

Lemma rank_next_new : rank_next rk (x + dx) (y + dy) n (x + dx) (y + dy) = n.
Proof. unfold rank_next. now rewrite !Z.eqb_refl. Qed.

Lemma rank_next_old i j :
  (i <> x + dx \/ j <> y + dy) -> rank_next rk (x + dx) (y + dy) n i j = rk i j.
Proof.
  unfold rank_next. intros H.
  destruct (Z.eqb_spec i (x + dx)), (Z.eqb_spec j (y + dy)); simpl; auto. lia.
Qed.

Lemma origin_not_new : x <> x + dx \/ y <> y + dy.
Proof. destruct (step_nonzero _ _ Hs); lia. Qed.

Lemma carving_step : carving h w (rank_next rk (x + dx) (y + dy) n) (n + 1) g'.
Proof.
  pose proof carved_room as Rn.
  pose proof origin_not_new as On.
  pose proof (cv_rank _ _ _ _ _ C _ _ Hr Hp) as Rx.
  constructor.
  - (* border *)
    intros i j B. apply carved_keeps_path. apply (cv_border _ _ _ _ _ C _ _ B).
  - (* rooms *)
    intros x' y' R.
    destruct (carved_cases x' y') as [(_ & _ & E)|[(_ & _ & E)|(_ & _ & E)]]; auto.
    rewrite E. apply (cv_rooms _ _ _ _ _ C _ _ R).
  - (* edge *)
    intros x' y' dx' dy' R S' NR.
    destruct (carved_cases (x' + Z.quot dx' 2) (y' + Z.quot dy' 2))
      as [(E1 & E2 & _)|[(E1 & E2 & _)|(_ & _ & E)]].
    + exfalso. apply NR.
      destruct (passage_unique _ _ _ _ _ _ _ _ _ _ Hr R Hs S' E1 E2)
        as [(-> & -> & -> & ->)|(-> & -> & -> & ->)]; [exact Rn|].
      replace (x + dx + - dx) with x by lia. replace (y + dy + - dy) with y by lia. exact Hr.
    + exfalso. eapply (passage_not_room h w x' y' dx' dy' (x + dx) (y + dy)); eauto.
    + rewrite E. eapply cv_edge; eauto.
  - (* ends *)
    intros x' y' dx' dy' R S' P.
    destruct (carved_passage _ _ _ _ R S' P)
      as [(-> & -> & -> & ->)|[(-> & -> & -> & ->)|(P0 & P1 & P2 & _)]].
    + split; [apply carved_keeps_path; exact Hp|exact Hf'].
    + split; [exact Hf'|].
      replace (x + dx + - dx) with x by lia. replace (y + dy + - dy) with y by lia.
      apply carved_keeps_path; exact Hp.
    + split; apply carved_keeps_path; assumption.
  - (* next *)
    pose proof (cv_next _ _ _ _ _ C). lia.
  - (* rank *)
    intros x' y' R P.
    destruct (Z.eq_dec x' (x + dx)) as [->|Nx].
    + destruct (Z.eq_dec y' (y + dy)) as [->|Ny].
      * rewrite rank_next_new. pose proof (cv_next _ _ _ _ _ C). lia.
      * rewrite rank_next_old by auto. rewrite carved_room_same in P by auto.
        pose proof (cv_rank _ _ _ _ _ C _ _ R P). lia.
    + rewrite rank_next_old by auto. rewrite carved_room_same in P by auto.
      pose proof (cv_rank _ _ _ _ _ C _ _ R P). lia.
  - (* distinct *)
    intros x' y' dx' dy' R S' P.
    destruct (carved_passage _ _ _ _ R S' P)
      as [(-> & -> & -> & ->)|[(-> & -> & -> & ->)|(P0 & P1 & P2 & R2 & N1 & N2)]].
    + rewrite rank_next_new, rank_next_old by exact On. lia.
    + replace (x + dx + - dx) with x by lia. replace (y + dy + - dy) with y by lia.
      rewrite rank_next_new, rank_next_old by exact On. lia.
    + rewrite !rank_next_old by assumption. eapply cv_distinct; eauto.
  - (* parent *)
    intros x' y' dx' dy' ex ey R S' Se Hne Pd Pe.
    destruct (carved_passage _ _ _ _ R S' Pd)
      as [(-> & -> & -> & ->)|[(-> & -> & -> & ->)|(D0 & D1 & D2 & D3 & D4 & D5)]].
    + rewrite rank_next_new, (rank_next_old x y) by exact On. lia.
    + destruct (carved_passage _ _ _ _ Rn Se Pe)
        as [(E1 & E2 & _)|[(_ & _ & -> & ->)|(_ & E1 & _)]].
      * exfalso. lia.
      * elim Hne. reflexivity.
      * rewrite Hf in E1. discriminate.
    + destruct (carved_passage _ _ _ _ R Se Pe)
        as [(-> & -> & -> & ->)|[(-> & -> & -> & ->)|(E0 & E1 & E2 & E3 & E4 & E5)]].
      * rewrite rank_next_new, (rank_next_old x y) by exact On. lia.
      * exfalso. lia.
      * rewrite !rank_next_old by assumption. eapply cv_parent; eauto.
  - (* joined *)
    intros x' y' R P.
    destruct (Z.eq_dec x' (x + dx)) as [Ex|Nx]; [destruct (Z.eq_dec y' (y + dy)) as [Ey|Ny]|].
    + left. exists (- dx), (- dy). split; [apply step_opp; exact Hs|].
      destruct (step_opp_quot _ _ Hs) as [Q1 Q2]. subst x' y'.
      replace (x + dx + Z.quot (- dx) 2) with (x + Z.quot dx 2) by lia.
      replace (y + dy + Z.quot (- dy) 2) with (y + Z.quot dy 2) by lia. exact Hh'.
    + rewrite carved_room_same in P by auto.
      destruct (cv_joined _ _ _ _ _ C _ _ R P) as [(ex & ey & Se & Pe)|Only].
      * left. exists ex, ey. split; [exact Se|apply carved_keeps_path; exact Pe].
      * destruct (Only _ _ Hr Hp) as [-> ->]. left. exists dx, dy. auto.
    + rewrite carved_room_same in P by auto.
      destruct (cv_joined _ _ _ _ _ C _ _ R P) as [(ex & ey & Se & Pe)|Only].
      * left. exists ex, ey. split; [exact Se|apply carved_keeps_path; exact Pe].
      * destruct (Only _ _ Hr Hp) as [-> ->]. left. exists dx, dy. auto.
  - (* cells *)
    intros i j Hi Hj.
    destruct (carved_cases i j) as [(_ & _ & E)|[(_ & _ & E)|(_ & _ & E)]]; auto.
    rewrite E. apply (cv_cells _ _ _ _ _ C); assumption.
  - (* pillar *)
    intros a b Ha Hb.
    destruct (carved_cases (2 * a + 1) (2 * b + 1)) as [(E1 & E2 & _)|[(E1 & E2 & _)|(_ & _ & E)]].
    + exfalso. destruct Hr as (a' & b' & _ & _ & -> & ->). clear - E1 E2 Hs.
      step_cases Hs; lia.
    + exfalso. destruct Rn as (a' & b' & _ & _ & Ea & Eb). lia.
    + rewrite E. apply (cv_pillar _ _ _ _ _ C); assumption.
  - (* some *)
    exists x, y. split; [exact Hr|apply carved_keeps_path; exact Hp].
Qed.

End CarveStep.

Lemma same_geom_refl st : same_geom st st.
Proof. reflexivity. Qed.

Lemma same_geom_trans st1 st2 st3 : same_geom st1 st2 -> same_geom st2 st3 -> same_geom st1 st3.
Proof. unfold same_geom. congruence. Qed.

Lemma frame_geom st st' : frame st st' -> same_geom st st'.
Proof. intros H. change (geom (fixed st') = geom (fixed st)). now rewrite H. Qed.

Lemma geom_height st st' : same_geom st st' -> height st' = height st.
Proof. unfold same_geom, geom. intros H. now inversion H. Qed.

Lemma geom_width st st' : same_geom st st' -> width st' = width st.
Proof. unfold same_geom, geom. intros H. now inversion H. Qed.

Lemma geom_depth st st' : same_geom st st' -> depth st' = depth st.
Proof. unfold same_geom, geom. intros H. now inversion H. Qed.

Lemma carving_ext h w rk n g g' :
  (forall i j, g' i j = g i j) -> carving h w rk n g -> carving h w rk n g'.
Proof.
  intros E C. constructor.
  - intros i j B. rewrite E. eapply cv_border; eauto.
  - intros x y R. rewrite E. eapply cv_rooms; eauto.
  - intros x y dx dy R S N. rewrite E. eapply cv_edge; eauto.
  - intros x y dx dy R S P. rewrite !E in *. eapply cv_ends; eauto.
  - eapply cv_next; eauto.
  - intros x y R P. rewrite E in P. eapply cv_rank; eauto.
  - intros x y dx dy R S P. rewrite E in P. eapply cv_distinct; eauto.
  - intros x y dx dy ex ey R S S' N P P'. rewrite E in P, P'. eapply cv_parent; eauto.
  - intros x y R P. rewrite E in P.
    destruct (cv_joined _ _ _ _ _ C _ _ R P) as [(dx & dy & S & Q)|O].
    + left. exists dx, dy. rewrite E. auto.
    + right. intros x' y' R' P'. rewrite E in P'. auto.
  - intros i j Hi Hj. rewrite !E. eapply cv_cells; eauto.
  - intros a b Ha Hb. rewrite E. eapply cv_pillar; eauto.
  - destruct (cv_some _ _ _ _ _ C) as (x & y & R & P). exists x, y. rewrite E. auto.
Qed.

Lemma carved_ext h w g g' : (forall i j, g' i j = g i j) -> carved h w g -> carved h w g'.
Proof. intros E (rk & n & C). exists rk, n. eapply carving_ext; eauto. Qed.

Lemma room_interior h w x y : room h w x y -> 1 <= x <= 2 * h + 1 /\ 1 <= y <= 2 * w + 1.
Proof. intros (a & b & ? & ? & -> & ->). lia. Qed.

Lemma passage_interior h w x y dx dy :
  room h w x y -> is_step dx dy ->
  1 <= x + Z.quot dx 2 <= 2 * h + 1 /\ 1 <= y + Z.quot dy 2 <= 2 * w + 1.
Proof. intros (a & b & ? & ? & -> & ->) S. step_cases S; lia. Qed.

(** The first room of a maze: marking it in the blank grid. *)
Lemma carving_start h w g g' x y :
  blank h w g -> room h w x y -> g' x y = PATH ->
  (forall i j, (i <> x \/ j <> y) -> g' i j = g i j) ->
  carving h w (fun _ _ => 0) 1 g'.
Proof.
  intros [B W] R P E.
  assert (Wp : forall x' y' dx dy, room h w x' y' -> is_step dx dy ->
               g' (x' + Z.quot dx 2) (y' + Z.quot dy 2) = WALL).
  { intros x' y' dx dy R' S. rewrite E.
    - destruct (passage_interior _ _ _ _ _ _ R' S). apply W; lia.
    - destruct (cell_dec (x' + Z.quot dx 2) (y' + Z.quot dy 2) x y) as [[E1 E2]|N]; [|exact N].
      exfalso. eapply (passage_not_room h w x' y' dx dy x y); eauto. }
  assert (Wr : forall x' y', room h w x' y' -> g' x' y' = PATH -> x' = x /\ y' = y).
  { intros x' y' R' P'.
    destruct (cell_dec x' y' x y) as [|N]; [assumption|].
    rewrite E in P' by exact N. destruct (room_interior _ _ _ _ R').
    rewrite W in P' by lia. discriminate. }
  constructor.
  - intros i j Bd. destruct (cell_dec i j x y) as [[-> ->]|N]; [exact P|].
    rewrite E by exact N. apply B; exact Bd.
  - intros x' y' R'. destruct (cell_dec x' y' x y) as [[-> ->]|N]; [auto|].
    rewrite E by exact N. left. destruct (room_interior _ _ _ _ R'). apply W; lia.
  - intros x' y' dx dy R' S _. apply Wp; assumption.
  - intros x' y' dx dy R' S Q. rewrite Wp in Q by assumption. discriminate.
  - lia.
  - intros; lia.
  - intros x' y' dx dy R' S Q. rewrite Wp in Q by assumption. discriminate.
  - intros x' y' dx dy ex ey R' S S' _ Q. rewrite Wp in Q by assumption. discriminate.
  - intros x' y' R' P'. right. destruct (Wr _ _ R' P') as [-> ->]. exact Wr.
  - intros i j Hi Hj. destruct (cell_dec i j x y) as [[-> ->]|N]; [auto|].
    rewrite E by exact N. left. apply W; assumption.
  - intros a b Ha Hb. rewrite E.
    + apply W; lia.
    + destruct R as (a' & b' & _ & _ & -> & ->). lia.
  - exists x, y. auto.
Qed.

Lemma grid_set_ext g g' x y v i j :
  (forall i j, g i j = g' i j) -> grid_set g x y v i j = grid_set g' x y v i j.
Proof. intros E. unfold grid_set. destruct (_ && _); auto. Qed.

Lemma mark_cell_maze st x y v i j :
  maze (mark_cell st x y v) i j = grid_set (maze st) x y v i j.
Proof.
  unfold mark_cell, rd. destruct (Z.eqb_spec (maze st x y) v) as [E|E]; simpl; [|reflexivity].
  destruct (grid_set_cases (maze st) x y v i j) as [(-> & -> & ->)|(_ & ->)]; auto.
Qed.

Lemma mark_cell_geom st x y v : same_geom st (mark_cell st x y v).
Proof. unfold mark_cell. destruct (negb _); reflexivity. Qed.

Lemma mark_cell_height st x y v : height (mark_cell st x y v) = height st.
Proof. apply (geom_height _ _ (mark_cell_geom st x y v)). Qed.

Lemma mark_cell_width st x y v : width (mark_cell st x y v) = width st.
Proof. apply (geom_width _ _ (mark_cell_geom st x y v)). Qed.

Lemma mark_cell_rand st x y v :
  rand_src (mark_cell st x y v) = rand_src st /\ rand_pos (mark_cell st x y v) = rand_pos st.
Proof. unfold mark_cell. destruct (negb _); split; reflexivity. Qed.

Lemma rand_Intn_bound n st : 0 < n -> 0 <= fst (rand_Intn n st) < n.
Proof. intros H. unfold rand_Intn; simpl. apply Z.mod_pos_bound; exact H. Qed.

(** The carving loop keeps the grid carved. *)
Lemma carve_path_loop_carved fuel n :
  forall x y st xy st',
    carve_path_loop fuel n x y st = Some (xy, st') ->
    room (height st) (width st) x y -> maze st x y = PATH ->
    carved (height st) (width st) (maze st) ->
    same_geom st st' /\ carved (height st) (width st) (maze st').
Proof.
  induction n as [|n IH]; intros x y st xy st' H R P C; [discriminate|].
  simpl in H.
  destruct (find_directions fuel x y WALL SEARCH st) as [[num s1]|] eqn:F; [|discriminate].
  destruct (find_directions_post _ _ _ _ _ _ _ _ F (or_introl eq_refl))
    as ((Fr & M & N0 & V) & N4 & _ & _).
  pose proof (frame_geom _ _ Fr) as G1.
  destruct (Z.eqb_spec num 0) as [->|Nz].
  - inversion H; subst; clear H. split; [exact G1|].
    eapply carved_ext; [|exact C]. exact M.
  - set (dir := rand_src s1 (rand_pos s1) mod num) in H.
    assert (Hd : 0 <= dir < num) by (apply Z.mod_pos_bound; lia).
    destruct (V dir Hd) as [S [Oh Of]].
    simpl dir_tbl in H. simpl rand_Intn in H.
    set (d := dir_tbl s1 dir) in *.
    match type of H with
    | carve_path_loop _ _ _ _ ?s = _ => set (s3 := s) in H
    end.
    assert (G3 : same_geom st s3).
    { eapply same_geom_trans; [exact G1|]. unfold s3.
      eapply same_geom_trans; [|eapply same_geom_trans; [apply mark_cell_geom|]].
      2:{ eapply same_geom_trans; [apply mark_cell_geom|]. reflexivity. }
      reflexivity. }
    pose proof (geom_height _ _ G3) as Hh. pose proof (geom_width _ _ G3) as Hw.
    destruct C as (rk & k & C).
    assert (M3 : forall i j, maze s3 i j =
              grid_set (grid_set (maze st) (x + Z.quot (dt_x d) 2) (y + Z.quot (dt_y d) 2) PATH)
                       (x + dt_x d) (y + dt_y d) PATH i j).
    { intros i j. unfold s3.
      change (maze (set_maze_len ?s ?v)) with (maze s).
      rewrite mark_cell_maze. apply grid_set_ext. clear i j. intros i j.
      rewrite mark_cell_maze. apply grid_set_ext. clear i j. intros i j.
      apply M. }
    assert (Rn : room (height st) (width st) (x + dt_x d) (y + dt_y d)).
    { eapply carved_room; eauto. }
    assert (C3 : carving (height st) (width st)
                   (rank_next rk (x + dt_x d) (y + dt_y d) k)
                   (k + 1) (maze s3)).
    { eapply carving_step with (g := maze st); eauto.
      - rewrite M3. destruct (cell_dec (x + Z.quot (dt_x d) 2) (y + Z.quot (dt_y d) 2)
                                (x + dt_x d) (y + dt_y d)) as [[E1 E2]|Ne].
        + rewrite E1, E2. apply grid_set_eq.
        + rewrite grid_set_neq by exact Ne. apply grid_set_eq.
      - rewrite M3. apply grid_set_eq.
      - intros i j N1 N2. rewrite M3. rewrite !grid_set_neq by assumption. reflexivity. }
    destruct (IH _ _ _ _ _ H) as (G' & C').
    + rewrite Hh, Hw. exact Rn.
    + rewrite M3. apply grid_set_eq.
    + rewrite Hh, Hw. eexists _, _. exact C3.
    + split; [eapply same_geom_trans; eauto|]. rewrite Hh, Hw in C'. exact C'.
Qed.

Lemma carve_path_carved fuel x y st xy st' :
  carve_path fuel x y st = Some (xy, st') ->
  room (height st) (width st) x y ->
  blank (height st) (width st) (maze st) \/
  (carved (height st) (width st) (maze st) /\ maze st x y = PATH) ->
  same_geom st st' /\ carved (height st) (width st) (maze st').
Proof.
  unfold carve_path. intros H R Pre.
  apply carve_path_loop_carved in H.
  - rewrite mark_cell_height, mark_cell_width in H.
    destruct H as [G C]. split; [|exact C].
    eapply same_geom_trans; [|exact G].
    eapply same_geom_trans; [|apply mark_cell_geom]. reflexivity.
  - rewrite mark_cell_height, mark_cell_width. exact R.
  - rewrite mark_cell_maze. apply grid_set_eq.
  - rewrite mark_cell_height, mark_cell_width.
    change (height (set_path_depth st (depth st))) with (height st).
    change (width (set_path_depth st (depth st))) with (width st).
    destruct Pre as [B|[C P]].
    + exists (fun _ _ => 0), 1. eapply carving_start; eauto.
      * rewrite mark_cell_maze. apply grid_set_eq.
      * intros i j N. rewrite mark_cell_maze. apply grid_set_neq; exact N.
    + eapply carved_ext; [|exact C].
      intros i j. rewrite mark_cell_maze.
      destruct (grid_set_cases (maze (set_path_depth st (depth st))) x y PATH i j)
        as [(-> & -> & ->)|(_ & ->)]; [symmetry; exact P|reflexivity].
Qed.

Lemma in_zrange n i : In i (zrange n) <-> 0 <= i < n.
Proof.
  unfold zrange. rewrite in_map_iff. split.
  - intros (k & <- & Hk). apply in_seq in Hk. lia.
  - intros H. exists (Z.to_nat i). split; [lia|]. apply in_seq. lia.
Qed.

Lemma in_index_pairs h w i j : In (i, j) (index_pairs h w) <-> 0 <= i < h /\ 0 <= j < w.
Proof.
  unfold index_pairs. rewrite in_flat_map. split.
  - intros (i' & Hi & Hj). apply in_map_iff in Hj. destruct Hj as (j' & E & Hj).
    inversion E; subst. apply in_zrange in Hi, Hj. auto.
  - intros [Hi Hj]. exists i. split; [apply in_zrange; exact Hi|].
    apply in_map_iff. exists j. split; [reflexivity|apply in_zrange; exact Hj].
Qed.

Lemma straight_thru_same st s x y v :
  same_maze st s -> straight_thru s x y v = straight_thru st x y v.
Proof. intros M. unfold straight_thru, rd. now rewrite !M. Qed.

Lemma scan_room h w xs i ys j :
  1 <= h -> 1 <= w -> 0 <= xs -> 0 <= ys -> 0 <= i -> 0 <= j ->
  room h w (2 * (Z.rem (xs + i) h + 1)) (2 * (Z.rem (ys + j) w + 1)).
Proof.
  intros. exists (Z.rem (xs + i) h + 1), (Z.rem (ys + j) w + 1).
  rewrite !Z.rem_mod_nonneg by lia.
  pose proof (Z.mod_pos_bound (xs + i) h). pose proof (Z.mod_pos_bound (ys + j) w). lia.
Qed.

Lemma scan_path_start_cons fuel i j rest xs ys x y st :
  scan_path_start fuel ((i, j) :: rest) xs ys x y st =
  let x := 2 * (Z.rem (xs + i) (height st) + 1) in
  let y := 2 * (Z.rem (ys + j) (width st) + 1) in
  if (rd st x y =? PATH) && negb (straight_thru st x y PATH) then
    match find_directions fuel x y WALL NO_SEARCH st with
    | Some (n, st) =>
        if negb (n =? 0) then Some (true, ((x, y), st))
        else scan_path_start fuel rest xs ys x y st
    | None => None
    end
  else scan_path_start fuel rest xs ys x y st.
Proof. reflexivity. Qed.

Lemma scan_path_start_post fuel cells :
  forall xs ys x y st found x' y' st',
    scan_path_start fuel cells xs ys x y st = Some (found, ((x', y'), st')) ->
    1 <= height st -> 1 <= width st -> 0 <= xs -> 0 <= ys ->
    (forall i j, In (i, j) cells -> 0 <= i /\ 0 <= j) ->
    same_maze st st' /\ frame st st' /\ path_depth st' = path_depth st /\
    (found = true -> room (height st) (width st) x' y' /\ maze st x' y' = PATH) /\
    (found = false -> forall i j, In (i, j) cells ->
       maze st (2 * (Z.rem (xs + i) (height st) + 1)) (2 * (Z.rem (ys + j) (width st) + 1)) = PATH ->
       straight_thru st (2 * (Z.rem (xs + i) (height st) + 1))
                        (2 * (Z.rem (ys + j) (width st) + 1)) PATH = false ->
       forall dx dy, is_step dx dy ->
       ~ open_dir st (2 * (Z.rem (xs + i) (height st) + 1))
                     (2 * (Z.rem (ys + j) (width st) + 1)) WALL dx dy).
Proof.
  induction cells as [|[i j] rest IH]; intros xs ys x y st found x' y' st' H Hh Hw Hxs Hys Hc.
  - simpl in H. inversion H; subst.
    repeat apply conj; auto using same_maze_refl, frame_refl; try discriminate;
      try (intros _ i j []).
  - rewrite scan_path_start_cons in H. cbv zeta in H.
    set (rx := 2 * (Z.rem (xs + i) (height st) + 1)) in *.
    set (ry := 2 * (Z.rem (ys + j) (width st) + 1)) in *.
    assert (Hij : 0 <= i /\ 0 <= j) by (apply Hc; left; reflexivity).
    assert (Hrest : forall i j, In (i, j) rest -> 0 <= i /\ 0 <= j)
      by (intros; apply Hc; right; assumption).
    assert (Rr : room (height st) (width st) rx ry) by (apply scan_room; lia).
    unfold rd in H.
    destruct (Z.eqb_spec (maze st rx ry) PATH) as [Ep|Ep]; simpl in H.
    + destruct (straight_thru st rx ry PATH) eqn:Es; simpl in H.
      * destruct (IH _ _ _ _ _ _ _ _ _ H Hh Hw Hxs Hys Hrest) as (M & F & D & T & N).
        repeat apply conj; auto.
        intros Hf i' j' [E|Hin]; [|apply N; assumption].
        inversion E; subst i' j'. fold rx ry. intros _ Hst. congruence.
      * destruct (find_directions fuel rx ry WALL NO_SEARCH st) as [[n s1]|] eqn:Fd; [|discriminate].
        destruct (find_directions_post _ _ _ _ _ _ _ _ Fd (or_introl eq_refl))
          as ((Fr & M1 & _ & _) & _ & D1 & C1).
        destruct (Z.eqb_spec n 0) as [->|Nz]; simpl in H.
        -- pose proof (frame_height _ _ Fr) as Hh1. pose proof (frame_width _ _ Fr) as Hw1.
           rewrite <- Hh1 in Hh. rewrite <- Hw1 in Hw.
           destruct (IH _ _ _ _ _ _ _ _ _ H Hh Hw Hxs Hys Hrest) as (M & F & D & T & N).
           rewrite Hh1, Hw1 in *.
           assert (M' : same_maze st st') by (eapply same_maze_trans; eauto).
           repeat apply conj.
           ++ exact M'.
           ++ eapply frame_trans; eauto.
           ++ rewrite D. apply D1. reflexivity.
           ++ intros Hf. destruct (T Hf) as [T1 T2]. split; [exact T1|]. rewrite <- M1. exact T2.
           ++ intros Hf i' j' [E|Hin].
              ** inversion E; subst i' j'. fold rx ry. intros _ _. apply C1; reflexivity.
              ** intros P' S' dx dy St O.
                 eapply (N Hf i' j' Hin); eauto.
                 --- rewrite M1. exact P'.
                 --- rewrite (straight_thru_same st s1); auto.
                 --- apply (open_dir_same st s1); eauto.
        -- inversion H; subst.
           repeat apply conj; auto; try discriminate; try (apply D1; reflexivity).
    + destruct (IH _ _ _ _ _ _ _ _ _ H Hh Hw Hxs Hys Hrest) as (M & F & D & T & N).
      repeat apply conj; auto.
      intros Hf i' j' [E|Hin]; [|apply N; assumption].
      inversion E; subst i' j'. fold rx ry. intros Hp. contradiction.
Qed.

Lemma lift_id s : lift (fun g => g) s = s.
Proof. destruct s; reflexivity. Qed.

Lemma for_loop_lift n :
  forall i step (body : Z -> state -> state) (f : Z -> grid -> grid) (I : state -> Prop) s,
    I s ->
    (forall k s, I s -> body k s = lift (f k) s) ->
    (forall s f, I s -> I (lift f s)) ->
    for_loop n i step body s = lift (for_loop n i step f) s.
Proof.
  induction n as [|n IH]; intros i step body f I s Hs Hb HI; simpl.
  - destruct s; reflexivity.
  - rewrite (Hb i s Hs).
    rewrite (IH (i + step) step body f I (lift (f i) s)); auto.
Qed.

(** Grid-level loops. *)
Ltac bdestr :=
  repeat match goal with
  | |- context [Z.eqb ?a ?b] => destruct (Z.eqb_spec a b)
  | |- context [Z.leb ?a ?b] => destruct (Z.leb_spec a b)
  | |- context [Z.ltb ?a ?b] => destruct (Z.ltb_spec a b)
  end; simpl.

Ltac gdestr :=
  repeat match goal with
  | |- context [grid_set ?g ?x ?y ?v ?a ?b] =>
      destruct (grid_set_cases g x y v a b) as [(? & ? & ->)|(? & ->)]
  end.

Ltac grid_tac := gdestr; bdestr; try reflexivity; try lia.

Lemma fill_row n : forall lo i v g a b,
  for_loop n lo 1 (fun j g => grid_set g i j v) g a b =
  if (a =? i) && (lo <=? b) && (b <? lo + Z.of_nat n) then v else g a b.
Proof.
  induction n as [|n IH]; intros lo i v g a b.
  - simpl. grid_tac.
  - cbn [for_loop]. rewrite IH. grid_tac.
Qed.

Lemma fill_block n : forall lo m v g a b,
  for_loop n lo 1 (fun i g => for_range 1 m (fun j g' => grid_set g' i j v) g) g a b =
  if (lo <=? a) && (a <? lo + Z.of_nat n) && (1 <=? b) && (b <? m) then v else g a b.
Proof.
  induction n as [|n IH]; intros lo m v g a b.
  - simpl. grid_tac.
  - cbn [for_loop]. rewrite IH. unfold for_range. rewrite fill_row. grid_tac.
Qed.

Lemma fill_cols n : forall lo c v g a b,
  for_loop n lo 1 (fun i g => grid_set (grid_set g i 0 v) i c v) g a b =
  if (lo <=? a) && (a <? lo + Z.of_nat n) && ((b =? 0) || (b =? c)) then v else g a b.
Proof.
  induction n as [|n IH]; intros lo c v g a b.
  - simpl. grid_tac.
  - cbn [for_loop]. rewrite IH. grid_tac.
Qed.

Lemma fill_rows n : forall lo c v g a b,
  for_loop n lo 1 (fun j g => grid_set (grid_set g 0 j v) c j v) g a b =
  if (lo <=? b) && (b <? lo + Z.of_nat n) && ((a =? 0) || (a =? c)) then v else g a b.
Proof.
  induction n as [|n IH]; intros lo c v g a b.
  - simpl. grid_tac.
  - cbn [for_loop]. rewrite IH. grid_tac.
Qed.

Lemma to_nat_range lo hi : Z.of_nat (Z.to_nat (hi - lo)) = Z.max 0 (hi - lo).
Proof. lia. Qed.

Lemma range_row lo hi i v g a b :
  for_range lo hi (fun j g => grid_set g i j v) g a b =
  if (a =? i) && (lo <=? b) && (b <? hi) then v else g a b.
Proof.
  unfold for_range. rewrite fill_row.
  pose proof (to_nat_range lo hi). bdestr; try reflexivity; lia.
Qed.

Lemma range_block lo hi m v g a b :
  for_range lo hi (fun i g => for_range 1 m (fun j g' => grid_set g' i j v) g) g a b =
  if (lo <=? a) && (a <? hi) && (1 <=? b) && (b <? m) then v else g a b.
Proof.
  unfold for_range at 1. rewrite fill_block.
  pose proof (to_nat_range lo hi). bdestr; try reflexivity; lia.
Qed.

Lemma range_cols lo hi c v g a b :
  for_range lo hi (fun i g => grid_set (grid_set g i 0 v) i c v) g a b =
  if (lo <=? a) && (a <? hi) && ((b =? 0) || (b =? c)) then v else g a b.
Proof.
  unfold for_range. rewrite fill_cols.
  pose proof (to_nat_range lo hi). bdestr; try reflexivity; lia.
Qed.

Lemma range_rows lo hi c v g a b :
  for_range lo hi (fun j g => grid_set (grid_set g 0 j v) c j v) g a b =
  if (lo <=? b) && (b <? hi) && ((a =? 0) || (a =? c)) then v else g a b.
Proof.
  unfold for_range. rewrite fill_rows.
  pose proof (to_nat_range lo hi). bdestr; try reflexivity; lia.
Qed.

Lemma init_block_lift s :
  for_range 1 (max_x s - 1)
    (fun i s => for_range 1 (max_y s - 1) (fun j s' => wr s' i j WALL) s) s =
  lift (for_range 1 (max_x s - 1)
          (fun i g => for_range 1 (max_y s - 1) (fun j g' => grid_set g' i j WALL) g)) s.
Proof.
  unfold for_range at 1 3.
  apply for_loop_lift with (I := fun t => max_y t = max_y s); auto.
  intros k t Ht. rewrite Ht. unfold for_range.
  apply for_loop_lift with (I := fun _ => True); auto.
Qed.

Lemma init_cols_lift s :
  for_range 0 (max_x s) (fun i s => wr (wr s i 0 PATH) i (2 * (width s + 1)) PATH) s =
  lift (for_range 0 (max_x s)
          (fun i g => grid_set (grid_set g i 0 PATH) i (2 * (width s + 1)) PATH)) s.
Proof.
  unfold for_range.
  apply for_loop_lift with (I := fun t => width t = width s); auto.
  intros k t Ht. rewrite <- Ht. reflexivity.
Qed.

Lemma init_rows_lift s :
  for_range 0 (max_y s) (fun j s => wr (wr s 0 j PATH) (2 * (height s + 1)) j PATH) s =
  lift (for_range 0 (max_y s)
          (fun j g => grid_set (grid_set g 0 j PATH) (2 * (height s + 1)) j PATH)) s.
Proof.
  unfold for_range.
  apply for_loop_lift with (I := fun t => height t = height s); auto.
  intros k t Ht. rewrite <- Ht. reflexivity.
Qed.

Lemma initialize_maze_eq st :
  initialize_maze st =
  let st1 := set_max_y (set_max_x st (2 * (height st + 1) + 1)) (2 * (width st + 1) + 1) in
  let g :=
    for_range 0 (max_y st1)
      (fun j g => grid_set (grid_set g 0 j PATH) (2 * (height st + 1)) j PATH)
      (for_range 0 (max_x st1)
         (fun i g => grid_set (grid_set g i 0 PATH) i (2 * (width st + 1)) PATH)
         (for_range 1 (max_x st1 - 1)
            (fun i g => for_range 1 (max_y st1 - 1) (fun j g' => grid_set g' i j WALL) g)
            (maze st))) in
  let st2 := set_maze st1 g in
  let r1 := rand_Intn (height st) st2 in
  let r2 := rand_Intn (width st) (snd r1) in
  ((2 * (fst r1 + 1), 2 * (fst r2 + 1)),
   set_end_x (set_beg_x (snd r2) 2) (2 * height st)).
Proof.
  unfold initialize_maze. cbv zeta.
  rewrite init_block_lift.
  rewrite init_cols_lift.
  rewrite init_rows_lift.
  reflexivity.
Qed.

Ltac bool_lia :=
  repeat match goal with
  | H : _ && _ = true |- _ => apply andb_true_iff in H; destruct H
  | H : _ || _ = false |- _ => apply orb_false_iff in H; destruct H
  | H : _ && _ = false |- _ => apply andb_false_iff in H
  | H : _ || _ = true |- _ => apply orb_true_iff in H
  | H : (_ <=? _) = true |- _ => apply Z.leb_le in H
  | H : (_ <=? _) = false |- _ => apply Z.leb_gt in H
  | H : (_ <? _) = true |- _ => apply Z.ltb_lt in H
  | H : (_ <? _) = false |- _ => apply Z.ltb_ge in H
  | H : (_ =? _) = true |- _ => apply Z.eqb_eq in H
  | H : (_ =? _) = false |- _ => apply Z.eqb_neq in H
  | H : _ \/ _ |- _ => destruct H
  end; try lia.

Ltac if_cases :=
  repeat match goal with
  | |- context [if ?c then _ else _] => destruct c eqn:?
  end.

Lemma initialize_maze_maze st :
  0 <= height st -> 0 <= width st ->
  let g := maze (snd (initialize_maze st)) in
  (forall a b, on_border (height st) (width st) a b -> g a b = PATH) /\
  (forall a b, 1 <= a <= 2 * height st + 1 -> 1 <= b <= 2 * width st + 1 -> g a b = WALL) /\
  (forall a b, ~ (0 <= a <= 2 * (height st + 1) /\ 0 <= b <= 2 * (width st + 1)) ->
               g a b = maze st a b).
Proof.
  intros Hh Hw. rewrite initialize_maze_eq.
  cbv zeta. unfold rand_Intn.
  cbn [snd fst maze set_end_x set_beg_x set_rand_pos set_maze max_x max_y set_max_x set_max_y].
  repeat split; intros a b.
  - intros (Bi & Bj & B). rewrite range_rows, range_cols, range_block.
    if_cases; try reflexivity; exfalso; bool_lia.
  - intros Hi Hj. rewrite range_rows, range_cols, range_block.
    if_cases; try reflexivity; exfalso; bool_lia.
  - intros Ho. rewrite range_rows, range_cols, range_block.
    if_cases; try reflexivity; exfalso; bool_lia.
Qed.

Lemma initialize_maze_fields st :
  let st' := snd (initialize_maze st) in
  height st' = height st /\ width st' = width st /\ depth st' = depth st /\
  min_len st' = min_len st /\
  max_x st' = 2 * (height st + 1) + 1 /\ max_y st' = 2 * (width st + 1) + 1 /\
  beg_x st' = 2 /\ end_x st' = 2 * height st /\
  rand_src st' = rand_src st.
Proof.
  rewrite initialize_maze_eq. cbv zeta. repeat split.
Qed.

Lemma initialize_maze_room st :
  1 <= height st -> 1 <= width st ->
  room (height st) (width st) (fst (fst (initialize_maze st))) (snd (fst (initialize_maze st))).
Proof.
  intros Hh Hw. rewrite initialize_maze_eq. cbv zeta. cbn [fst snd].
  unfold rand_Intn. cbn [fst snd].
  match goal with
  | |- room _ _ (2 * (?r1 mod _ + 1)) (2 * (?r2 mod _ + 1)) =>
      pose proof (Z.mod_pos_bound r1 (height st)); pose proof (Z.mod_pos_bound r2 (width st));
      exists (r1 mod height st + 1), (r2 mod width st + 1)
  end.
  lia.
Qed.

Lemma initialize_maze_blank st :
  0 <= height st -> 0 <= width st ->
  blank (height st) (width st) (maze (snd (initialize_maze st))).
Proof.
  intros Hh Hw. destruct (initialize_maze_maze st Hh Hw) as (B & W & _). split; assumption.
Qed.

Lemma no_path_start_same h w st s :
  same_maze st s -> no_path_start h w s -> no_path_start h w st.
Proof.
  intros M N x y R P S dx dy St O.
  eapply (N x y R); eauto.
  - rewrite M. exact P.
  - rewrite (straight_thru_same st s); auto.
  - apply (open_dir_same st s); auto.
Qed.

Lemma find_path_start_loop_S fuel n x y st :
  find_path_start_loop fuel (S n) x y st =
  let '(x_start, st) := rand_Intn (height st) st in
  let '(y_start, st) := rand_Intn (width st) st in
  match scan_path_start fuel (index_pairs (height st) (width st)) x_start y_start x y st with
  | Some (found, ((x, y), st)) =>
      if found then Some (true, ((x, y), st))
      else if path_depth st =? 0 then Some (false, ((x, y), st))
      else find_path_start_loop fuel n x y (set_path_depth st (path_depth st - 1))
  | None => None
  end.
Proof. reflexivity. Qed.

Lemma scan_covers h w xs ys a b :
  1 <= h -> 1 <= w -> 0 <= xs -> 0 <= ys -> 1 <= a <= h -> 1 <= b <= w ->
  exists i j, In (i, j) (index_pairs h w) /\
    2 * (Z.rem (xs + i) h + 1) = 2 * a /\ 2 * (Z.rem (ys + j) w + 1) = 2 * b.
Proof.
  intros Hh Hw Hxs Hys Ha Hb.
  exists ((a - 1 - xs) mod h), ((b - 1 - ys) mod w).
  pose proof (Z.mod_pos_bound (a - 1 - xs) h ltac:(lia)).
  pose proof (Z.mod_pos_bound (b - 1 - ys) w ltac:(lia)).
  split; [apply in_index_pairs; lia|].
  rewrite !Z.rem_mod_nonneg by lia.
  rewrite !Z.add_mod_idemp_r by lia.
  replace (xs + (a - 1 - xs)) with (a - 1) by lia.
  replace (ys + (b - 1 - ys)) with (b - 1) by lia.
  rewrite !Z.mod_small by lia. lia.
Qed.

Lemma find_path_start_loop_post fuel n :
  forall x y st found x' y' st',
    find_path_start_loop fuel n x y st = Some (found, ((x', y'), st')) ->
    1 <= height st -> 1 <= width st ->
    same_maze st st' /\ same_geom st st' /\
    (found = true -> room (height st) (width st) x' y' /\ maze st x' y' = PATH) /\
    (found = false -> no_path_start (height st) (width st) st).
Proof.
  induction n as [|n IH]; intros x y st found x' y' st' H Hh Hw; [discriminate|].
  rewrite find_path_start_loop_S in H. unfold rand_Intn in H.
  cbn [height width set_rand_pos rand_pos rand_src] in H.
  set (xs := rand_src st (rand_pos st) mod height st) in H.
  set (ys := rand_src st (S (rand_pos st)) mod width st) in H.
  set (s2 := set_rand_pos (set_rand_pos st (S (rand_pos st))) (S (S (rand_pos st)))) in H.
  assert (Hxs : 0 <= xs < height st) by (apply Z.mod_pos_bound; lia).
  assert (Hys : 0 <= ys < width st) by (apply Z.mod_pos_bound; lia).
  destruct (scan_path_start fuel (index_pairs (height st) (width st)) xs ys x y s2)
    as [[f [[x1 y1] s3]]|] eqn:Sc; [|discriminate].
  assert (Hc : forall i j, In (i, j) (index_pairs (height st) (width st)) -> 0 <= i /\ 0 <= j).
  { intros i j Hin. apply in_index_pairs in Hin. lia. }
  destruct (scan_path_start_post _ _ _ _ _ _ _ _ _ _ _ Sc Hh Hw ltac:(lia) ltac:(lia) Hc)
    as (M & F & D & T & N).
  change (height s2) with (height st) in *. change (width s2) with (width st) in *.
  assert (M0 : same_maze st s3) by (intros i j; apply M).
  assert (G0 : same_geom st s3).
  { eapply same_geom_trans; [|apply frame_geom; exact F]. reflexivity. }
  assert (NP : f = false -> no_path_start (height st) (width st) st).
  { intros Hf a b (a0 & b0 & Ha & Hb & -> & ->) P St dx dy Sd O.
    destruct (scan_covers (height st) (width st) xs ys a0 b0) as (i & j & Hin & E1 & E2); try lia.
    specialize (N Hf i j Hin). rewrite E1, E2 in N. eapply N; eauto. }
  destruct f.
  - inversion H; subst. repeat apply conj; auto; try discriminate.
  - destruct (path_depth s3 =? 0).
    + inversion H; subst. repeat apply conj; auto; try discriminate.
    + assert (Hh3 : 1 <= height (set_path_depth s3 (path_depth s3 - 1)))
        by (change (1 <= height s3); rewrite (geom_height _ _ G0); exact Hh).
      assert (Hw3 : 1 <= width (set_path_depth s3 (path_depth s3 - 1)))
        by (change (1 <= width s3); rewrite (geom_width _ _ G0); exact Hw).
      apply IH in H; [|exact Hh3|exact Hw3].
      change (height (set_path_depth s3 (path_depth s3 - 1))) with (height s3) in H.
      change (width (set_path_depth s3 (path_depth s3 - 1))) with (width s3) in H.
      rewrite (geom_height _ _ G0), (geom_width _ _ G0) in H.
      destruct H as (M' & G' & T' & N').
      repeat apply conj.
      * eapply same_maze_trans; [exact M0|]. exact M'.
      * eapply same_geom_trans; [exact G0|]. eapply same_geom_trans; [|exact G']. reflexivity.
      * intros Hf. destruct (T' Hf) as [R' P']. split; [exact R'|]. rewrite <- M0. exact P'.
      * intros _. apply NP. reflexivity.
Qed.

Lemma find_path_start_post fuel x y st found x' y' st' :
  find_path_start fuel x y st = Some (found, ((x', y'), st')) ->
  1 <= height st -> 1 <= width st ->
  same_maze st st' /\ same_geom st st' /\
  (found = true -> room (height st) (width st) x' y' /\ maze st x' y' = PATH) /\
  (found = false -> no_path_start (height st) (width st) st).
Proof.
  unfold find_path_start. intros H Hh Hw.
  apply find_path_start_loop_post in H; auto.
Qed.

Lemma carve_all_S fuel n x y st :
  carve_all fuel (S n) x y st =
  match carve_path fuel x y (set_num_paths st (num_paths st + 1)) with
  | Some ((x, y), st) =>
      match find_path_start fuel x y st with
      | Some (found, ((x, y), st)) =>
          if found then carve_all fuel n x y st else Some ((x, y), st)
      | None => None
      end
  | None => None
  end.
Proof. reflexivity. Qed.

(** The carving phase ends in a carved grid where no room can start a path. *)
Lemma carve_all_post fuel n :
  forall x y st xy st',
    carve_all fuel n x y st = Some (xy, st') ->
    1 <= height st -> 1 <= width st ->
    room (height st) (width st) x y ->
    blank (height st) (width st) (maze st) \/
    (carved (height st) (width st) (maze st) /\ maze st x y = PATH) ->
    same_geom st st' /\ carved (height st) (width st) (maze st') /\
    no_path_start (height st) (width st) st'.
Proof.
  induction n as [|n IH]; intros x y st xy st' H Hh Hw R Pre; [discriminate|].
  rewrite carve_all_S in H.
  destruct (carve_path fuel x y (set_num_paths st (num_paths st + 1)))
    as [[[x1 y1] s1]|] eqn:Cp; [|discriminate].
  apply carve_path_carved in Cp; [|exact R|exact Pre].
  change (height (set_num_paths st (num_paths st + 1))) with (height st) in Cp.
  change (width (set_num_paths st (num_paths st + 1))) with (width st) in Cp.
  destruct Cp as [G1 C1].
  assert (G1' : same_geom st s1) by (eapply same_geom_trans; [|exact G1]; reflexivity).
  pose proof (geom_height _ _ G1') as Hh1. pose proof (geom_width _ _ G1') as Hw1.
  destruct (find_path_start fuel x1 y1 s1) as [[f [[x2 y2] s2]]|] eqn:Fp; [|discriminate].
  apply find_path_start_post in Fp; [|lia|lia].
  rewrite Hh1, Hw1 in Fp. destruct Fp as (M2 & G2 & T2 & N2).
  assert (G2' : same_geom st s2) by (eapply same_geom_trans; eauto).
  pose proof (geom_height _ _ G2') as Hh2. pose proof (geom_width _ _ G2') as Hw2.
  assert (C2 : carved (height st) (width st) (maze s2)).
  { eapply carved_ext; [|exact C1]. exact M2. }
  destruct f.
  - destruct (T2 eq_refl) as [R2 P2].
    apply IH in H; try lia.
    + rewrite Hh2, Hw2 in H. destruct H as (G3 & C3 & N3).
      split; [eapply same_geom_trans; eauto|]. split; assumption.
    + rewrite Hh2, Hw2. exact R2.
    + right. rewrite Hh2, Hw2. split; [exact C2|]. rewrite M2. exact P2.
  - inversion H; subst. split; [exact G2'|]. split; [exact C2|].
    intros a b Ra Pa Sa dx dy Sd O.
    eapply (N2 eq_refl a b Ra); eauto.
    + rewrite <- M2. exact Pa.
    + rewrite <- (straight_thru_same s1 st'); auto.
    + apply (open_dir_same s1 st'); auto.
Qed.

Ltac qlia := quot2; lia.

(** Reading a cell through equal coordinates. *)
Lemma cell_at (g : grid) a b a' b' v : g a b = v -> a' = a -> b' = b -> g a' b' = v.
Proof. intros H E1 E2. rewrite E1, E2. exact H. Qed.

Section Orphan.
Variables (h w : Z) (rk : Z -> Z -> Z) (n : Z) (st : state).
Hypothesis C : carving h w rk n (maze st).
Hypothesis T : no_path_start h w st.

(** A room that is a path and has a wall with a wall room behind it is
    straight through. *)
Lemma beside_wall_room x y dx dy px py rx ry :
  room h w x y -> maze st x y = PATH -> is_step dx dy ->
  px = x + Z.quot dx 2 -> py = y + Z.quot dy 2 -> rx = x + dx -> ry = y + dy ->
  maze st px py = WALL -> maze st rx ry = WALL ->
  straight_thru st x y PATH = true.
Proof.
  intros R P S -> -> -> -> W1 W2.
  destruct (straight_thru st x y PATH) eqn:E; [reflexivity|].
  exfalso. apply (T x y R P E dx dy S). split; assumption.
Qed.

Lemma straight_cases x y :
  straight_thru st x y PATH = true ->
  (maze st (x - 1) y = PATH /\ maze st (x - 2) y = PATH /\ maze st (x + 1) y = PATH /\ maze st (x + 2) y = PATH) \/
  (maze st x (y - 1) = PATH /\ maze st x (y - 2) = PATH /\ maze st x (y + 1) = PATH /\ maze st x (y + 2) = PATH).
Proof.
  unfold straight_thru, rd. intros H.
  apply orb_true_iff in H. destruct H as [H|H]; [left|right];
    repeat (apply andb_true_iff in H; destruct H as [H ?]);
    repeat match goal with H : (_ =? _) = true |- _ => apply Z.eqb_eq in H end; auto.
Qed.

Lemma neighbour_room x y dx dy px py rx ry :
  room h w x y -> is_step dx dy ->
  px = x + Z.quot dx 2 -> py = y + Z.quot dy 2 -> rx = x + dx -> ry = y + dy ->
  maze st px py = PATH -> room h w rx ry.
Proof.
  intros R S -> -> -> -> P.
  destruct (room_dec h w (x + dx) (y + dy)) as [|NR]; [assumption|].
  pose proof (cv_edge _ _ _ _ _ C _ _ _ _ R S NR) as W. rewrite P in W. discriminate.
Qed.

Lemma rank_parent x y dx dy ex ey px py qx qy nx ny mx my :
  room h w x y -> is_step dx dy -> is_step ex ey -> (dx, dy) <> (ex, ey) ->
  px = x + Z.quot dx 2 -> py = y + Z.quot dy 2 -> qx = x + Z.quot ex 2 -> qy = y + Z.quot ey 2 ->
  nx = x + dx -> ny = y + dy -> mx = x + ex -> my = y + ey ->
  maze st px py = PATH -> maze st qx qy = PATH ->
  ~ (rk nx ny < rk x y /\ rk mx my < rk x y).
Proof. intros; subst; eapply cv_parent; eauto. Qed.

Lemma rank_distinct x y dx dy px py nx ny :
  room h w x y -> is_step dx dy ->
  px = x + Z.quot dx 2 -> py = y + Z.quot dy 2 -> nx = x + dx -> ny = y + dy ->
  maze st px py = PATH -> rk x y <> rk nx ny.
Proof. intros; subst; eapply cv_distinct; eauto. Qed.

Ltac clash H1 H2 :=
  exfalso;
  match type of H1 with
  | _ ?a ?b = ?v1 =>
      match type of H2 with
      | _ ?a' ?b' = ?v2 =>
          let E1 := fresh in let E2 := fresh in
          assert (E1 : a' = a) by qlia; assert (E2 : b' = b) by qlia;
          try rewrite E1 in H2; try rewrite E2 in H2;
          let X := fresh in pose proof (eq_trans (eq_sym H1) H2) as X; discriminate X
      end
  end.

Ltac side :=
  first [ eassumption | (unfold is_step; lia) | qlia
        | (let E := fresh in intros E; inversion E) ].

(** A wall room whose four passages are walls and whose four neighbours are
    paths: each neighbour that is a room is a corridor running past it. *)
Lemma past_the_wall x y dx dy :
  room h w x y -> is_step dx dy -> maze st x y = WALL ->
  maze st (x + Z.quot dx 2) (y + Z.quot dy 2) = WALL -> maze st (x + dx) (y + dy) = PATH ->
  room h w (x + dx) (y + dy) ->
  maze st (x + dx + Z.quot dy 2) (y + dy + Z.quot dx 2) = PATH /\
  maze st (x + dx + dy) (y + dy + dx) = PATH /\
  maze st (x + dx - Z.quot dy 2) (y + dy - Z.quot dx 2) = PATH /\
  maze st (x + dx - dy) (y + dy - dx) = PATH.
Proof.
  intros R S Rw W P RN.
  assert (St : straight_thru st (x + dx) (y + dy) PATH = true).
  { apply (beside_wall_room (x + dx) (y + dy) (- dx) (- dy)
             (x + Z.quot dx 2) (y + Z.quot dy 2) x y); auto.
    - apply step_opp; exact S.
    - destruct (step_opp_quot _ _ S); lia.
    - destruct (step_opp_quot _ _ S); lia.
    - lia.
    - lia. }
  destruct (straight_cases _ _ St) as [(A1 & A2 & A3 & A4)|(A1 & A2 & A3 & A4)];
    step_cases S.
  - clash W A3.
  - clash W A1.
  - repeat split; [(eapply cell_at; [exact A1|lia|lia])
                  |(eapply cell_at; [exact A2|lia|lia])
                  |(eapply cell_at; [exact A3|lia|lia])
                  |(eapply cell_at; [exact A4|lia|lia])].
  - repeat split; [(eapply cell_at; [exact A3|lia|lia])
                  |(eapply cell_at; [exact A4|lia|lia])
                  |(eapply cell_at; [exact A1|lia|lia])
                  |(eapply cell_at; [exact A2|lia|lia])].
  - repeat split; [(eapply cell_at; [exact A1|lia|lia])
                  |(eapply cell_at; [exact A2|lia|lia])
                  |(eapply cell_at; [exact A3|lia|lia])
                  |(eapply cell_at; [exact A4|lia|lia])].
  - repeat split; [(eapply cell_at; [exact A3|lia|lia])
                  |(eapply cell_at; [exact A4|lia|lia])
                  |(eapply cell_at; [exact A1|lia|lia])
                  |(eapply cell_at; [exact A2|lia|lia])].
  - clash W A3.
  - clash W A1.
Qed.

Ltac canon H :=
  eapply cell_at; [exact H|qlia|qlia].

Lemma room_bounds x y : room h w x y -> 2 <= x <= 2 * h /\ 2 <= y <= 2 * w.
Proof. intros (a & b & ? & ? & -> & ->). lia. Qed.

Lemma room_shift x y dx dy :
  room h w x y -> is_step dx dy ->
  2 <= x + dx <= 2 * h -> 2 <= y + dy <= 2 * w -> room h w (x + dx) (y + dy).
Proof.
  intros (a & b & ? & ? & -> & ->) S B1 B2. step_cases S.
  - exists (a - 1), b; lia.
  - exists (a + 1), b; lia.
  - exists a, (b - 1); lia.
  - exists a, (b + 1); lia.
Qed.

(** The four cells of a corridor that runs past a wall room, in the
    direction (dx, dy) from it. *)
Lemma corridor x y dx dy px py nx ny :
  room h w x y -> is_step dx dy -> maze st x y = WALL ->
  px = x + Z.quot dx 2 -> py = y + Z.quot dy 2 -> nx = x + dx -> ny = y + dy ->
  maze st px py = WALL -> maze st nx ny = PATH -> room h w nx ny ->
  maze st (nx + Z.quot dy 2) (ny + Z.quot dx 2) = PATH /\
  maze st (nx + dy) (ny + dx) = PATH /\
  maze st (nx - Z.quot dy 2) (ny - Z.quot dx 2) = PATH /\
  maze st (nx - dy) (ny - dx) = PATH /\
  room h w (nx + dy) (ny + dx) /\ room h w (nx - dy) (ny - dx).
Proof.
  intros R S Rw -> -> -> -> W P RN.
  destruct (past_the_wall x y dx dy R S Rw W P RN) as (A & B & A' & B').
  repeat split; auto.
  - apply (neighbour_room (x + dx) (y + dy) dy dx
             (x + dx + Z.quot dy 2) (y + dy + Z.quot dx 2)); auto; try lia;
      step_cases S; unfold is_step; lia.
  - apply (neighbour_room (x + dx) (y + dy) (- dy) (- dx)
             (x + dx - Z.quot dy 2) (y + dy - Z.quot dx 2)); auto; try lia;
      step_cases S; unfold is_step; lia.
Qed.

Lemma no_orphan x y :
  1 <= h -> 1 <= w -> ~ (h = 1 /\ w = 1) -> room h w x y -> ~ orphan_at (maze st) x y.
Proof.
  intros Hh Hw Hn R (W1 & P1 & W2 & P2 & W3 & P3 & W4 & P4).
  pose proof (room_bounds _ _ R) as [Bx By].
  pose proof R as (a & b & Ha & Hb & Ex & Ey).
  assert (SU : is_step (-2) 0) by (unfold is_step; lia).
  assert (SD : is_step 2 0) by (unfold is_step; lia).
  assert (SL : is_step 0 (-2)) by (unfold is_step; lia).
  assert (SR : is_step 0 2) by (unfold is_step; lia).
  destruct (cv_rooms _ _ _ _ _ C _ _ R) as [Rw|Rp].
  2:{ destruct (cv_joined _ _ _ _ _ C _ _ R Rp) as [(dx & dy & S & Q)|Only].
      - step_cases S; [clash W1 Q|clash W2 Q|clash W3 Q|clash W4 Q].
      - assert (x > 2 \/ x < 2 * h \/ y > 2 \/ y < 2 * w) as [K|[K|[K|K]]] by lia.
        + assert (RN : room h w (x + -2) (y + 0)) by (apply room_shift; auto; lia).
          destruct (Only _ _ RN); [canon P1|lia].
        + assert (RN : room h w (x + 2) (y + 0)) by (apply room_shift; auto; lia).
          destruct (Only _ _ RN); [canon P2|lia].
        + assert (RN : room h w (x + 0) (y + -2)) by (apply room_shift; auto; lia).
          destruct (Only _ _ RN); [canon P3|lia].
        + assert (RN : room h w (x + 0) (y + 2)) by (apply room_shift; auto; lia).
          destruct (Only _ _ RN); [canon P4|lia]. }
  assert (U : x > 2 -> 2 < y < 2 * w /\
              maze st (x - 2) (y - 1) = PATH /\ maze st (x - 2) (y - 2) = PATH /\
              maze st (x - 2) (y + 1) = PATH /\ maze st (x - 2) (y + 2) = PATH).
  { intros K.
    assert (RN : room h w (x + -2) (y + 0)) by (apply room_shift; auto; lia).
    destruct (corridor x y (-2) 0 (x - 1) y (x + -2) (y + 0) R SU Rw)
      as (A1 & A2 & A3 & A4 & R1 & R2); try qlia; auto; [canon P1|].
    apply room_bounds in R1, R2. quot2.
    split; [lia|]. repeat split; [canon A1|canon A2|canon A3|canon A4]. }
  assert (D : x < 2 * h -> 2 < y < 2 * w /\
              maze st (x + 2) (y - 1) = PATH /\ maze st (x + 2) (y - 2) = PATH /\
              maze st (x + 2) (y + 1) = PATH /\ maze st (x + 2) (y + 2) = PATH).
  { intros K.
    assert (RN : room h w (x + 2) (y + 0)) by (apply room_shift; auto; lia).
    destruct (corridor x y 2 0 (x + 1) y (x + 2) (y + 0) R SD Rw)
      as (A1 & A2 & A3 & A4 & R1 & R2); try qlia; auto; [canon P2|].
    apply room_bounds in R1, R2. quot2.
    split; [lia|]. repeat split; [canon A3|canon A4|canon A1|canon A2]. }
  assert (L : y > 2 -> 2 < x < 2 * h /\
              maze st (x - 1) (y - 2) = PATH /\ maze st (x - 2) (y - 2) = PATH /\
              maze st (x + 1) (y - 2) = PATH /\ maze st (x + 2) (y - 2) = PATH).
  { intros K.
    assert (RN : room h w (x + 0) (y + -2)) by (apply room_shift; auto; lia).
    destruct (corridor x y 0 (-2) x (y - 1) (x + 0) (y + -2) R SL Rw)
      as (A1 & A2 & A3 & A4 & R1 & R2); try qlia; auto; [canon P3|].
    apply room_bounds in R1, R2. quot2.
    split; [lia|]. repeat split; [canon A1|canon A2|canon A3|canon A4]. }
  assert (Rt : y < 2 * w -> 2 < x < 2 * h /\
              maze st (x - 1) (y + 2) = PATH /\ maze st (x - 2) (y + 2) = PATH /\
              maze st (x + 1) (y + 2) = PATH /\ maze st (x + 2) (y + 2) = PATH).
  { intros K.
    assert (RN : room h w (x + 0) (y + 2)) by (apply room_shift; auto; lia).
    destruct (corridor x y 0 2 x (y + 1) (x + 0) (y + 2) R SR Rw)
      as (A1 & A2 & A3 & A4 & R1 & R2); try qlia; auto; [canon P4|].
    apply room_bounds in R1, R2. quot2.
    split; [lia|]. repeat split; [canon A3|canon A4|canon A1|canon A2]. }
  assert (In : 2 < x < 2 * h /\ 2 < y < 2 * w).
  { assert (x > 2 \/ x < 2 * h \/ y > 2 \/ y < 2 * w) as [K|[K|[K|K]]] by lia.
    - destruct (U K) as [B _]. destruct (L ltac:(lia)) as [B' _]. lia.
    - destruct (D K) as [B _]. destruct (L ltac:(lia)) as [B' _]. lia.
    - destruct (L K) as [B _]. destruct (U ltac:(lia)) as [B' _]. lia.
    - destruct (Rt K) as [B _]. destruct (U ltac:(lia)) as [B' _]. lia. }
  destruct (U ltac:(lia)) as (_ & U1 & U2 & U3 & U4).
  destruct (D ltac:(lia)) as (_ & D1 & D2 & D3 & D4).
  destruct (L ltac:(lia)) as (_ & L1 & _ & L3 & _).
  destruct (Rt ltac:(lia)) as (_ & R1 & _ & R3 & _).
  clear U D L Rt.
  assert (RR : forall i j, -1 <= i <= 1 -> -1 <= j <= 1 -> room h w (x + 2 * i) (y + 2 * j)).
  { intros i j Hi Hj. exists (a + i), (b + j). lia. }
  assert (RA : forall i j x' y', -1 <= i <= 1 -> -1 <= j <= 1 ->
               x' = x + 2 * i -> y' = y + 2 * j -> room h w x' y').
  { intros i j x' y' Hi Hj -> ->. apply RR; assumption. }
  assert (C1 : room h w (x - 2) (y - 2)) by (apply (RA (-1) (-1)); lia).
  assert (C2 : room h w (x - 2) y) by (apply (RA (-1) 0); lia).
  assert (C3 : room h w (x - 2) (y + 2)) by (apply (RA (-1) 1); lia).
  assert (C4 : room h w x (y + 2)) by (apply (RA 0 1); lia).
  assert (C5 : room h w (x + 2) (y + 2)) by (apply (RA 1 1); lia).
  assert (C6 : room h w (x + 2) y) by (apply (RA 1 0); lia).
  assert (C7 : room h w (x + 2) (y - 2)) by (apply (RA 1 (-1)); lia).
  assert (C8 : room h w x (y - 2)) by (apply (RA 0 (-1)); lia).
  (* every room of the ring is reached from a ring room carved before it *)
  pose proof (rank_parent (x - 2) (y - 2) 0 2 2 0 (x - 2) (y - 1) (x - 1) (y - 2)
                (x - 2) y x (y - 2) C1 SR SD ltac:(side) ltac:(side) ltac:(side) ltac:(side)
                ltac:(side) ltac:(side) ltac:(side) ltac:(side) ltac:(side) U1 L1) as K1.
  pose proof (rank_parent (x - 2) y 0 (-2) 0 2 (x - 2) (y - 1) (x - 2) (y + 1)
                (x - 2) (y - 2) (x - 2) (y + 2) C2 SL SR ltac:(side) ltac:(side) ltac:(side)
                ltac:(side) ltac:(side) ltac:(side) ltac:(side) ltac:(side) ltac:(side) U1 U3) as K2.
  pose proof (rank_parent (x - 2) (y + 2) 0 (-2) 2 0 (x - 2) (y + 1) (x - 1) (y + 2)
                (x - 2) y x (y + 2) C3 SL SD ltac:(side) ltac:(side) ltac:(side) ltac:(side)
                ltac:(side) ltac:(side) ltac:(side) ltac:(side) ltac:(side) U3 R1) as K3.
  pose proof (rank_parent x (y + 2) (-2) 0 2 0 (x - 1) (y + 2) (x + 1) (y + 2)
                (x - 2) (y + 2) (x + 2) (y + 2) C4 SU SD ltac:(side) ltac:(side) ltac:(side)
                ltac:(side) ltac:(side) ltac:(side) ltac:(side) ltac:(side) ltac:(side) R1 R3) as K4.
  pose proof (rank_parent (x + 2) (y + 2) 0 (-2) (-2) 0 (x + 2) (y + 1) (x + 1) (y + 2)
                (x + 2) y x (y + 2) C5 SL SU ltac:(side) ltac:(side) ltac:(side) ltac:(side)
                ltac:(side) ltac:(side) ltac:(side) ltac:(side) ltac:(side) D3 R3) as K5.
  pose proof (rank_parent (x + 2) y 0 (-2) 0 2 (x + 2) (y - 1) (x + 2) (y + 1)
                (x + 2) (y - 2) (x + 2) (y + 2) C6 SL SR ltac:(side) ltac:(side) ltac:(side)
                ltac:(side) ltac:(side) ltac:(side) ltac:(side) ltac:(side) ltac:(side) D1 D3) as K6.
  pose proof (rank_parent (x + 2) (y - 2) 0 2 (-2) 0 (x + 2) (y - 1) (x + 1) (y - 2)
                (x + 2) y x (y - 2) C7 SR SU ltac:(side) ltac:(side) ltac:(side) ltac:(side)
                ltac:(side) ltac:(side) ltac:(side) ltac:(side) ltac:(side) D1 L3) as K7.
  pose proof (rank_parent x (y - 2) (-2) 0 2 0 (x - 1) (y - 2) (x + 1) (y - 2)
                (x - 2) (y - 2) (x + 2) (y - 2) C8 SU SD ltac:(side) ltac:(side) ltac:(side)
                ltac:(side) ltac:(side) ltac:(side) ltac:(side) ltac:(side) ltac:(side) L1 L3) as K8.
  pose proof (rank_distinct (x - 2) (y - 2) 0 2 (x - 2) (y - 1) (x - 2) y C1 SR
                ltac:(side) ltac:(side) ltac:(side) ltac:(side) U1) as N1.
  pose proof (rank_distinct (x - 2) y 0 2 (x - 2) (y + 1) (x - 2) (y + 2) C2 SR
                ltac:(side) ltac:(side) ltac:(side) ltac:(side) U3) as N2.
  pose proof (rank_distinct (x - 2) (y + 2) 2 0 (x - 1) (y + 2) x (y + 2) C3 SD
                ltac:(side) ltac:(side) ltac:(side) ltac:(side) R1) as N3.
  pose proof (rank_distinct x (y + 2) 2 0 (x + 1) (y + 2) (x + 2) (y + 2) C4 SD
                ltac:(side) ltac:(side) ltac:(side) ltac:(side) R3) as N4.
  pose proof (rank_distinct (x + 2) y 0 2 (x + 2) (y + 1) (x + 2) (y + 2) C6 SR
                ltac:(side) ltac:(side) ltac:(side) ltac:(side) D3) as N5.
  pose proof (rank_distinct (x + 2) (y - 2) 0 2 (x + 2) (y - 1) (x + 2) y C7 SR
                ltac:(side) ltac:(side) ltac:(side) ltac:(side) D1) as N6.
  pose proof (rank_distinct x (y - 2) 2 0 (x + 1) (y - 2) (x + 2) (y - 2) C8 SD
                ltac:(side) ltac:(side) ltac:(side) ltac:(side) L3) as N7.
  pose proof (rank_distinct (x - 2) (y - 2) 2 0 (x - 1) (y - 2) x (y - 2) C1 SD
                ltac:(side) ltac:(side) ltac:(side) ltac:(side) L1) as N8.
  clear - K1 K2 K3 K4 K5 K6 K7 K8 N1 N2 N3 N4 N5 N6 N7 N8.
  generalize dependent (rk (x - 2) (y - 2)). intros r1.
  generalize dependent (rk (x - 2) y). intros r2.
  generalize dependent (rk (x - 2) (y + 2)). intros r3.
  generalize dependent (rk x (y + 2)). intros r4.
  generalize dependent (rk (x + 2) (y + 2)). intros r5.
  generalize dependent (rk (x + 2) y). intros r6.
  generalize dependent (rk (x + 2) (y - 2)). intros r7.
  generalize dependent (rk x (y - 2)). intros r8.
  intros. lia.
Qed.

End Orphan.

Lemma orphan_1x1_at st x y : orphan_1x1 st x y = true -> orphan_at (maze st) x y.
Proof.
  unfold orphan_1x1, orphan_at, rd. intros H.
  repeat (apply andb_true_iff in H; destruct H as [H ?]).
  repeat match goal with H : (_ =? _) = true |- _ => apply Z.eqb_eq in H end.
  repeat split; assumption.
Qed.

Lemma carve_phase_post fuel st xy st' :
  carve_phase fuel st = Some (xy, st') ->
  1 <= height st -> 1 <= width st ->
  height st' = height st /\ width st' = width st /\ depth st' = depth st /\
  max_x st' = 2 * (height st + 1) + 1 /\ max_y st' = 2 * (width st + 1) + 1 /\
  beg_x st' = 2 /\ end_x st' = 2 * height st /\
  carved (height st) (width st) (maze st') /\
  no_path_start (height st) (width st) st'.
Proof.
  unfold carve_phase. intros H Hh Hw.
  set (s0 := set_num_paths (set_maze_len (set_max_checks st 0) 0) 0) in H.
  pose proof (initialize_maze_fields s0) as F.
  pose proof (initialize_maze_room s0 Hh Hw) as R.
  pose proof (initialize_maze_blank s0 ltac:(simpl; lia) ltac:(simpl; lia)) as B.
  destruct (initialize_maze s0) as [[x y] s1]. cbn [fst snd] in *.
  cbv zeta in F. destruct F as (F1 & F2 & F3 & F4 & F5 & F6 & F7 & F8 & F9).
  change (height s0) with (height st) in *. change (width s0) with (width st) in *.
  change (depth s0) with (depth st) in *.
  apply carve_all_post in H; rewrite ?F1, ?F2 in *; auto.
  destruct H as (G & C & N).
  unfold same_geom, geom in G. inversion G.
  repeat split; try congruence; assumption.
Qed.

Lemma push_mid_wall_openings_eq st :
  push_mid_wall_openings st =
  for_range 1 (2 * (height st + 1))
    (fun i ms => for_range2 (Z.land i 1 + 1) (2 * (width (snd ms) + 1)) (push_cell i) ms)
    (0, st).
Proof. reflexivity. Qed.

Lemma push_cell_moves i j m s :
  fst (push_cell i j (m, s)) = m /\ push_cell i j (m, s) = (m, s) /\ mid_wall_opening s i j = false
  \/ fst (push_cell i j (m, s)) = m + 1 /\ mid_wall_opening s i j = true.
Proof.
  unfold push_cell. destruct (mid_wall_opening s i j); [right|left]; auto.
Qed.

(** A loop over [push_cell] that makes no move changes nothing and found no
    mid-wall opening. *)
Lemma push_row_none i n :
  forall lo m0 s0,
    let r := for_loop n lo 2 (push_cell i) (m0, s0) in
    m0 <= fst r /\
    (fst r = m0 -> r = (m0, s0) /\
       forall k, 0 <= k < Z.of_nat n -> mid_wall_opening s0 i (lo + 2 * k) = false).
Proof.
  induction n as [|n IH]; intros lo m0 s0; cbn [for_loop].
  - cbn. split; [lia|]. intros _. split; [reflexivity|]. intros; lia.
  - cbv zeta. destruct (push_cell_moves i lo m0 s0) as [(E1 & E2 & E3)|(E1 & E3)].
    + rewrite E2. pose proof (IH (lo + 2) m0 s0) as R0. cbv zeta in R0.
      destruct R0 as [L Z0]. split; [exact L|].
      intros Hz. destruct (Z0 Hz) as [R K]. split; [exact R|].
      intros k Hk. destruct (Z.eq_dec k 0) as [->|Nz].
      * replace (lo + 2 * 0) with lo by lia. exact E3.
      * replace (lo + 2 * k) with (lo + 2 + 2 * (k - 1)) by lia. apply K. lia.
    + destruct (push_cell i lo (m0, s0)) as [m1 s1]. cbn [fst] in E1. subst m1.
      pose proof (IH (lo + 2) (m0 + 1) s1) as R0. cbv zeta in R0.
      destruct R0 as [L _]. split; [lia|]. intros; lia.
Qed.

Lemma push_rows_none n :
  forall lo m0 s0,
    let r := for_loop n lo 1
               (fun i ms => for_range2 (Z.land i 1 + 1) (2 * (width (snd ms) + 1)) (push_cell i) ms)
               (m0, s0) in
    m0 <= fst r /\
    (fst r = m0 -> r = (m0, s0) /\
       forall i k, lo <= i < lo + Z.of_nat n ->
         0 <= k < Z.of_nat (Z.to_nat ((2 * (width s0 + 1) - (Z.land i 1 + 1) + 1) / 2)) ->
         mid_wall_opening s0 i (Z.land i 1 + 1 + 2 * k) = false).
Proof.
  induction n as [|n IH]; intros lo m0 s0; cbn [for_loop].
  - cbn. split; [lia|]. intros _. split; [reflexivity|]. intros; lia.
  - cbv zeta. cbn [snd].
    set (r1 := for_range2 _ _ _ (m0, s0)).
    pose proof (push_row_none lo
                  (Z.to_nat ((2 * (width s0 + 1) - (Z.land lo 1 + 1) + 1) / 2))
                  (Z.land lo 1 + 1) m0 s0) as R. cbv zeta in R.
    change (for_loop _ (Z.land lo 1 + 1) 2 (push_cell lo) (m0, s0)) with r1 in R.
    clearbody r1. destruct r1 as [m1 s1].
    cbn [fst] in R. destruct R as [L1 Z1].
    pose proof (IH (lo + 1) m1 s1) as R2. cbv zeta in R2. destruct R2 as [L2 Z2].
    split; [lia|]. intros Hz.
    assert (m1 = m0) by lia. subst m1.
    destruct (Z1 eq_refl) as [E1 K1]. inversion E1; subst s1.
    destruct (Z2 Hz) as [E2 K2]. split; [exact E2|].
    intros i k Hi Hk. destruct (Z.eq_dec i lo) as [->|Ne].
    + apply K1. exact Hk.
    + apply K2; [lia|exact Hk].
Qed.

Lemma land_1_odd i : Z.land i 1 = if Z.odd i then 1 else 0.
Proof.
  change 1 with (Z.ones 1) at 1. rewrite Z.land_ones by lia. change (2 ^ 1) with 2.
  rewrite Zmod_odd. reflexivity.
Qed.

Lemma land_1 i : Z.land i 1 = 0 \/ Z.land i 1 = 1.
Proof. rewrite land_1_odd. destruct (Z.odd i); auto. Qed.

(** The scanned cells are the passage cells inside the border. *)
Lemma scanned_passage h w i j : scanned h w i j <-> passage h w i j.
Proof.
  unfold scanned, passage. rewrite land_1_odd. split.
  - intros (Hi & k & Hk & -> & Hj). split; [lia|].
    destruct (Z.odd i) eqn:Oi.
    + split; [lia|]. replace (1 + 1 + 2 * k) with (2 * (k + 1)) by lia.
      rewrite Z.odd_mul. reflexivity.
    + split; [lia|]. replace (0 + 1 + 2 * k) with (1 + 2 * k) by lia.
      rewrite Z.odd_add_mul_2. reflexivity.
  - intros (Hi & Hj & O). split; [lia|].
    destruct (Z.odd i) eqn:Oi; cbn [negb] in O.
    + assert (E : Z.even j = true) by (rewrite <- Z.negb_odd, <- O; reflexivity).
      apply Z.even_spec in E. destruct E as [c ->]. exists (c - 1). lia.
    + assert (E : Z.odd j = true) by (destruct (Z.odd j); [reflexivity|discriminate]).
      apply Z.odd_spec in E. destruct E as [c ->]. exists c. lia.
Qed.

(** A pass of [push_mid_wall_openings] that reports zero moves left the
    state untouched and met no mid-wall opening. *)
Lemma push_zero st st' :
  push_mid_wall_openings st = (0, st') ->
  st' = st /\ forall i j, scanned (height st) (width st) i j -> mid_wall_opening st i j = false.
Proof.
  rewrite push_mid_wall_openings_eq. unfold for_range. intros H.
  pose proof (push_rows_none (Z.to_nat (2 * (height st + 1) - 1)) 1 0 st) as R.
  cbv zeta in R. rewrite H in R. cbn [fst] in R. destruct R as [_ R].
  destruct (R eq_refl) as [E K]. inversion E; subst st'. split; [reflexivity|].
  intros i j (Hi & k & Hk & -> & Hj). apply K; [lia|].
  split; [lia|].
  destruct (land_1 i) as [E1|E1]; rewrite E1 in *.
  - rewrite Z2Nat.id by (apply Z.div_pos; lia).
    assert (k + 1 <= (2 * (width st + 1) - (0 + 1) + 1) / 2)
      by (apply Z.div_le_lower_bound; lia). lia.
  - rewrite Z2Nat.id by (apply Z.div_pos; lia).
    assert (k + 1 <= (2 * (width st + 1) - (1 + 1) + 1) / 2)
      by (apply Z.div_le_lower_bound; lia). lia.
Qed.

Lemma push_moves_nonneg st : 0 <= fst (push_mid_wall_openings st).
Proof.
  rewrite push_mid_wall_openings_eq. unfold for_range.
  pose proof (push_rows_none (Z.to_nat (2 * (height st + 1) - 1)) 1 0 st) as R.
  cbv zeta in R. destruct R as [R _]. exact R.
Qed.

(** The fixed point of the normalizer. *)
Lemma push_all_fixed n :
  forall st st',
    push_all n st = Some st' ->
    push_mid_wall_openings st' = (0, st') /\
    forall i j, scanned (height st') (width st') i j -> mid_wall_opening st' i j = false.
Proof.
  induction n as [|n IH]; intros st st' H; [discriminate|].
  cbn [push_all] in H.
  destruct (push_mid_wall_openings st) as [moves s1] eqn:P.
  destruct (Z.eqb_spec moves 0) as [->|Nz]; cbn [negb] in H.
  - inversion H; subst s1. destruct (push_zero _ _ P) as [E K]. subst st'.
    split; [exact P|exact K].
  - apply IH in H. exact H.
Qed.

Lemma walk (f : Z -> Prop) lo hi :
  (forall a, lo <= a <= hi -> lo <= a + 1 <= hi -> f a -> f (a + 1)) ->
  (forall a, lo <= a <= hi -> lo <= a - 1 <= hi -> f a -> f (a - 1)) ->
  forall a0 a, lo <= a0 <= hi -> lo <= a <= hi -> f a0 -> f a.
Proof.
  intros Up Down a0 a H0 Ha F0.
  destruct (Z_le_gt_dec a0 a) as [L|L].
  - assert (G : forall k : nat, a0 + Z.of_nat k <= hi -> f (a0 + Z.of_nat k)).
    { induction k as [|k IH]; intros Hk.
      - replace (a0 + Z.of_nat 0) with a0 by lia. exact F0.
      - replace (a0 + Z.of_nat (S k)) with (a0 + Z.of_nat k + 1) by lia.
        apply Up; [lia|lia|apply IH; lia]. }
    replace a with (a0 + Z.of_nat (Z.to_nat (a - a0))) by lia. apply G. lia.
  - assert (G : forall k : nat, lo <= a0 - Z.of_nat k -> f (a0 - Z.of_nat k)).
    { induction k as [|k IH]; intros Hk.
      - replace (a0 - Z.of_nat 0) with a0 by lia. exact F0.
      - replace (a0 - Z.of_nat (S k)) with (a0 - Z.of_nat k - 1) by lia.
        apply Down; [lia|lia|apply IH; lia]. }
    replace a with (a0 - Z.of_nat (Z.to_nat (a0 - a))) by lia. apply G. lia.
Qed.

Section AllRooms.
Variables (h w : Z) (rk : Z -> Z -> Z) (n : Z) (st : state).
Hypothesis C : carving h w rk n (maze st).
Hypothesis T : no_path_start h w st.

Lemma wall_between x y dx dy :
  room h w x y -> is_step dx dy -> maze st x y = WALL ->
  maze st (x + Z.quot dx 2) (y + Z.quot dy 2) = WALL.
Proof.
  intros R S W.
  destruct (passage_interior _ _ _ _ _ _ R S) as [I1 I2].
  destruct (cv_cells _ _ _ _ _ C _ _ I1 I2) as [E|E]; [exact E|].
  destruct (cv_ends _ _ _ _ _ C _ _ _ _ R S E) as [P _]. rewrite P in W. discriminate.
Qed.

(** From a wall room [W] and a path room [P] beside it, a path room of
    higher rank beside a wall room: the corridor through [P] runs past [W];
    its end of higher rank either lies beside the next wall room, or turns
    into the room beside [W], whose rank is higher still. *)
Lemma climb x y dx dy :
  room h w x y -> maze st x y = WALL -> is_step dx dy ->
  room h w (x + dx) (y + dy) -> maze st (x + dx) (y + dy) = PATH ->
  exists x' y' dx' dy',
    room h w x' y' /\ maze st x' y' = WALL /\ is_step dx' dy' /\
    room h w (x' + dx') (y' + dy') /\ maze st (x' + dx') (y' + dy') = PATH /\
    rk (x + dx) (y + dy) < rk (x' + dx') (y' + dy').
Proof.
  intros R W S RP P.
  pose proof (wall_between x y dx dy R S W) as Wp.
  destruct (corridor h w rk n st C T x y dx dy _ _ _ _ R S W eq_refl eq_refl eq_refl eq_refl Wp P RP)
    as (A1 & A2 & A3 & A4 & R1 & R2).
  assert (Se : is_step dy dx) by (clear - S; step_cases S; unfold is_step; lia).
  assert (Se' : is_step (- dy) (- dx)) by (clear - S; step_cases S; unfold is_step; lia).
  assert (Ne : (dy, dx) <> (- dy, - dx)).
  { clear - S. intros E. inversion E. step_cases S; lia. }
  assert (Q1 : maze st (x + dx + Z.quot (- dy) 2) (y + dy + Z.quot (- dx) 2) = PATH).
  { eapply cell_at; [exact A3| |]; clear - S; step_cases S; lia. }
  pose proof (cv_parent _ _ _ _ _ C _ _ _ _ _ _ RP Se Se' Ne A1 Q1) as Par.
  pose proof (cv_distinct _ _ _ _ _ C _ _ _ _ RP Se A1) as D1.
  pose proof (cv_distinct _ _ _ _ _ C _ _ _ _ RP Se' Q1) as D2.
  replace (x + dx + - dy) with (x + dx - dy) in * by lia.
  replace (y + dy + - dx) with (y + dy - dx) in * by lia.
  assert (Hi : rk (x + dx) (y + dy) < rk (x + dx + dy) (y + dy + dx) \/
               rk (x + dx) (y + dy) < rk (x + dx - dy) (y + dy - dx)) by lia.
  pose proof (room_bounds h w _ _ R) as [Bx By].
  pose proof (room_bounds h w _ _ R1) as [B1x B1y].
  pose proof (room_bounds h w _ _ R2) as [B2x B2y].
  destruct Hi as [Hi|Hi].
  - (* the end at +e *)
    assert (RW : room h w (x + dy) (y + dx)).
    { apply room_shift; auto; clear - S Bx By B1x B1y; step_cases S; lia. }
    destruct (cv_rooms _ _ _ _ _ C _ _ RW) as [W'|P'].
    + exists (x + dy), (y + dx), dx, dy.
      replace (x + dy + dx) with (x + dx + dy) by lia.
      replace (y + dx + dy) with (y + dy + dx) by lia. auto 10.
    + pose proof (wall_between x y dy dx R Se W) as Wq.
      destruct (corridor h w rk n st C T x y dy dx _ _ _ _ R Se W eq_refl eq_refl eq_refl eq_refl Wq P' RW)
        as (E1 & E2 & E3 & E4 & _ & _).
      (* the room at +e has the passages to P and to W + e open *)
      assert (Sd' : is_step (- dx) (- dy)) by (apply step_opp; exact S).
      assert (Nd : (- dy, - dx) <> (- dx, - dy)).
      { clear - S. intros E. inversion E. step_cases S; lia. }
      assert (K1 : maze st (x + dx + dy + Z.quot (- dy) 2) (y + dy + dx + Z.quot (- dx) 2) = PATH).
      { eapply cell_at; [exact A1| |]; clear - S; step_cases S; lia. }
      assert (K2 : maze st (x + dx + dy + Z.quot (- dx) 2) (y + dy + dx + Z.quot (- dy) 2) = PATH).
      { eapply cell_at; [exact E1| |]; clear - S; step_cases S; lia. }
      pose proof (cv_parent _ _ _ _ _ C _ _ _ _ _ _ R1 Se' Sd' Nd K1 K2) as Par'.
      pose proof (cv_distinct _ _ _ _ _ C _ _ _ _ R1 Sd' K2) as D3.
      replace (x + dx + dy + - dy) with (x + dx) in * by lia.
      replace (y + dy + dx + - dx) with (y + dy) in * by lia.
      replace (x + dx + dy + - dx) with (x + dy) in * by lia.
      replace (y + dy + dx + - dy) with (y + dx) in * by lia.
      exists x, y, dy, dx. repeat apply conj; auto. lia.
  - (* the end at -e *)
    assert (RW : room h w (x + - dy) (y + - dx)).
    { apply room_shift; auto; clear - S Bx By B2x B2y; step_cases S; lia. }
    destruct (cv_rooms _ _ _ _ _ C _ _ RW) as [W'|P'].
    + exists (x + - dy), (y + - dx), dx, dy.
      replace (x + - dy + dx) with (x + dx - dy) by lia.
      replace (y + - dx + dy) with (y + dy - dx) by lia. auto 10.
    + pose proof (wall_between x y (- dy) (- dx) R Se' W) as Wq.
      destruct (corridor h w rk n st C T x y (- dy) (- dx) _ _ _ _ R Se' W
                  eq_refl eq_refl eq_refl eq_refl Wq P' RW)
        as (E1 & E2 & E3 & E4 & _ & _).
      assert (Sd' : is_step (- dx) (- dy)) by (apply step_opp; exact S).
      assert (Nd : (dy, dx) <> (- dx, - dy)).
      { clear - S. intros E. inversion E. step_cases S; lia. }
      assert (K2 : maze st (x + dx - dy + Z.quot (- dx) 2) (y + dy - dx + Z.quot (- dy) 2) = PATH).
      { eapply cell_at; [exact E3| |]; clear - S; step_cases S; lia. }
      assert (K1 : maze st (x + dx - dy + Z.quot dy 2) (y + dy - dx + Z.quot dx 2) = PATH).
      { eapply cell_at; [exact A3| |]; clear - S; step_cases S; lia. }
      pose proof (cv_parent _ _ _ _ _ C _ _ _ _ _ _ R2 Se Sd' Nd K1 K2) as Par'.
      pose proof (cv_distinct _ _ _ _ _ C _ _ _ _ R2 Sd' K2) as D3.
      replace (x + dx - dy + dy) with (x + dx) in * by lia.
      replace (y + dy - dx + dx) with (y + dy) in * by lia.
      replace (x + dx - dy + - dx) with (x + - dy) in * by lia.
      replace (y + dy - dx + - dy) with (y + - dx) in * by lia.
      exists x, y, (- dy), (- dx). repeat apply conj; auto. lia.
Qed.

(** No path room lies beside a wall room. *)
Lemma no_wall_beside_path (k : nat) :
  forall x y dx dy,
    room h w x y -> maze st x y = WALL -> is_step dx dy ->
    room h w (x + dx) (y + dy) -> maze st (x + dx) (y + dy) = PATH ->
    n - rk (x + dx) (y + dy) <= Z.of_nat k -> False.
Proof.
  induction k as [|k IH]; intros x y dx dy R W S RP P M.
  - pose proof (cv_rank _ _ _ _ _ C _ _ RP P). lia.
  - destruct (climb x y dx dy R W S RP P) as (x' & y' & dx' & dy' & R' & W' & S' & RP' & P' & Lt).
    apply (IH x' y' dx' dy'); auto. lia.
Qed.

Lemma path_spreads x y dx dy :
  room h w x y -> maze st x y = PATH -> is_step dx dy -> room h w (x + dx) (y + dy) ->
  maze st (x + dx) (y + dy) = PATH.
Proof.
  intros R P S RN.
  destruct (cv_rooms _ _ _ _ _ C _ _ RN) as [W|Q]; [|exact Q].
  exfalso.
  apply (no_wall_beside_path (Z.to_nat (n - rk x y)) (x + dx) (y + dy) (- dx) (- dy)); auto.
  - apply step_opp; exact S.
  - replace (x + dx + - dx) with x by lia. replace (y + dy + - dy) with y by lia. exact R.
  - replace (x + dx + - dx) with x by lia. replace (y + dy + - dy) with y by lia. exact P.
  - replace (x + dx + - dx) with x by lia. replace (y + dy + - dy) with y by lia.
    pose proof (cv_rank _ _ _ _ _ C _ _ R P). lia.
Qed.

(** When no path can be started any more, every room has been carved. *)
Lemma all_rooms_path x y : room h w x y -> maze st x y = PATH.
Proof.
  intros (a & b & Ha & Hb & -> & ->).
  destruct (cv_some _ _ _ _ _ C) as (x0 & y0 & (a0 & b0 & Ha0 & Hb0 & -> & ->) & P0).
  assert (Row : maze st (2 * a) (2 * b0) = PATH).
  { apply (walk (fun a => maze st (2 * a) (2 * b0) = PATH) 1 h) with (a0 := a0); auto.
    - intros c H1 H2 Pc.
      replace (2 * (c + 1)) with (2 * c + 2) by lia. replace (2 * b0) with (2 * b0 + 0) by lia.
      apply path_spreads.
      + exists c, b0; lia.
      + replace (2 * b0 + 0) with (2 * b0) in Pc |- * by lia. exact Pc.
      + unfold is_step; lia.
      + exists (c + 1), b0; lia.
    - intros c H1 H2 Pc.
      replace (2 * (c - 1)) with (2 * c + -2) by lia. replace (2 * b0) with (2 * b0 + 0) by lia.
      apply path_spreads.
      + exists c, b0; lia.
      + replace (2 * b0 + 0) with (2 * b0) in Pc |- * by lia. exact Pc.
      + unfold is_step; lia.
      + exists (c - 1), b0; lia. }
  apply (walk (fun b => maze st (2 * a) (2 * b) = PATH) 1 w) with (a0 := b0); auto.
  - intros c H1 H2 Pc.
    replace (2 * (c + 1)) with (2 * c + 2) by lia. replace (2 * a) with (2 * a + 0) by lia.
    apply path_spreads.
    + exists a, c; lia.
    + replace (2 * a + 0) with (2 * a) in Pc |- * by lia. exact Pc.
    + unfold is_step; lia.
    + exists a, (c + 1); lia.
  - intros c H1 H2 Pc.
    replace (2 * (c - 1)) with (2 * c + -2) by lia. replace (2 * a) with (2 * a + 0) by lia.
    apply path_spreads.
    + exists a, c; lia.
    + replace (2 * a + 0) with (2 * a) in Pc |- * by lia. exact Pc.
    + unfold is_step; lia.
    + exists a, (c - 1); lia.
Qed.

End AllRooms.

Lemma parity (i : Z) : (exists c, i = 2 * c) \/ (exists c, i = 2 * c + 1).
Proof.
  destruct (Z.Even_or_Odd i) as [[c ->]|[c ->]]; [left|right]; exists c; reflexivity.
Qed.

(** The ring of a carved grid is all walls. *)
Lemma carving_ring h w rk n g i j :
  1 <= h -> 1 <= w -> carving h w rk n g -> on_ring h w i j -> g i j = WALL.
Proof.
  intros Hh Hw C (Hi & Hj & E).
  destruct (parity i) as [[a ->]|[a ->]], (parity j) as [[b ->]|[b ->]].
  - (* a room cannot lie on the ring *) exfalso. lia.
  - (* a passage left or right of a room *)
    assert (R : room h w (2 * a) (2 * (if Z.eq_dec b 0 then 1 else b))).
    { exists a, (if Z.eq_dec b 0 then 1 else b). destruct (Z.eq_dec b 0); lia. }
    destruct (Z.eq_dec b 0) as [->|Nb].
    + assert (S : is_step 0 (-2)) by (unfold is_step; lia).
      pose proof (cv_edge _ _ _ _ _ C _ _ _ _ R S) as K. quot2.
      eapply cell_at; [apply K| |]; try lia.
      intros (a' & b' & ? & ? & ? & ?). lia.
    + assert (S : is_step 0 2) by (unfold is_step; lia).
      pose proof (cv_edge _ _ _ _ _ C _ _ _ _ R S) as K. quot2.
      eapply cell_at; [apply K| |]; try lia.
      intros (a' & b' & ? & ? & ? & ?). lia.
  - assert (R : room h w (2 * (if Z.eq_dec a 0 then 1 else a)) (2 * b)).
    { exists (if Z.eq_dec a 0 then 1 else a), b. destruct (Z.eq_dec a 0); lia. }
    destruct (Z.eq_dec a 0) as [->|Na].
    + assert (S : is_step (-2) 0) by (unfold is_step; lia).
      pose proof (cv_edge _ _ _ _ _ C _ _ _ _ R S) as K. quot2.
      eapply cell_at; [apply K| |]; try lia.
      intros (a' & b' & ? & ? & ? & ?). lia.
    + assert (S : is_step 2 0) by (unfold is_step; lia).
      pose proof (cv_edge _ _ _ _ _ C _ _ _ _ R S) as K. quot2.
      eapply cell_at; [apply K| |]; try lia.
      intros (a' & b' & ? & ? & ? & ?). lia.
  - apply (cv_pillar _ _ _ _ _ C); lia.
Qed.

(** The carving phase ends with a maze that is ready for the search of
    the openings: every room is carved. *)
Lemma carve_phase_ready fuel st xy st' :
  carve_phase fuel st = Some (xy, st') ->
  1 <= height st -> 1 <= width st ->
  ready (height st) (width st) st'.
Proof.
  intros H Hh Hw.
  destruct (carve_phase_post _ _ _ _ H Hh Hw)
    as (E1 & E2 & E3 & E4 & E5 & E6 & E7 & (rk & n & C) & N).
  constructor; auto.
  - apply (cv_border _ _ _ _ _ C).
  - intros i j R. apply (carving_ring (height st) (width st) rk n); auto.
  - apply (cv_cells _ _ _ _ _ C).
  - intros x y R. apply (all_rooms_path (height st) (width st) rk n st' C N x y R).
Qed.

(** A loop invariant for one pass of [push_mid_wall_openings]. *)
Lemma push_pass_inv (Q : state -> Prop) h w st :
  (forall s, Q s -> height s = h /\ width s = w) ->
  (forall m s i j, Q s -> scanned h w i j -> Q (snd (push_cell i j (m, s)))) ->
  Q st -> Q (snd (push_mid_wall_openings st)).
Proof.
  intros Hq Hstep H0. rewrite push_mid_wall_openings_eq. unfold for_range.
  destruct (Hq _ H0) as [Eh Ew]. rewrite Eh.
  apply (for_loop_inv (fun _ ms => Q (snd ms))); [exact H0|].
  intros k [m s] Hk Qs. cbn [snd] in *. unfold for_range2.
  destruct (Hq _ Qs) as [Eh' Ew']. rewrite Ew'.
  apply (for_loop_inv (fun _ ms => Q (snd ms))); [exact Qs|].
  intros k' [m' s'] Hk' Qs'. cbn [snd] in *.
  apply Hstep; [exact Qs'|].
  split; [lia|]. exists (Z.of_nat k'). split; [lia|]. split; [lia|].
  destruct (land_1 (1 + Z.of_nat k * 1)) as [E|E]; rewrite E in *.
  - assert (Z.of_nat k' + 1 <= (2 * (w + 1) - (0 + 1) + 1) / 2).
    { destruct (Z_le_gt_dec ((2 * (w + 1) - (0 + 1) + 1) / 2) 0); lia. }
    assert (2 * ((2 * (w + 1) - (0 + 1) + 1) / 2) <= 2 * (w + 1) - (0 + 1) + 1)
      by (apply Z.mul_div_le; lia).
    lia.
  - assert (Z.of_nat k' + 1 <= (2 * (w + 1) - (1 + 1) + 1) / 2).
    { destruct (Z_le_gt_dec ((2 * (w + 1) - (1 + 1) + 1) / 2) 0); lia. }
    assert (2 * ((2 * (w + 1) - (1 + 1) + 1) / 2) <= 2 * (w + 1) - (1 + 1) + 1)
      by (apply Z.mul_div_le; lia).
    lia.
Qed.

Lemma push_all_inv (Q : state -> Prop) h w n :
  (forall s, Q s -> height s = h /\ width s = w) ->
  (forall m s i j, Q s -> scanned h w i j -> Q (snd (push_cell i j (m, s)))) ->
  forall st st', push_all n st = Some st' -> Q st -> Q st'.
Proof.
  intros Hq Hstep. induction n as [|n IH]; intros st st' H H0; [discriminate|].
  cbn [push_all] in H.
  pose proof (push_pass_inv Q h w st Hq Hstep H0) as Q1.
  destruct (push_mid_wall_openings st) as [moves s1]. cbn [snd] in Q1.
  destruct (negb (moves =? 0)).
  - eapply IH; eauto.
  - inversion H; subst. exact Q1.
Qed.

Lemma mid_wall_opening_path st i j : mid_wall_opening st i j = true -> maze st i j = PATH.
Proof.
  unfold mid_wall_opening, rd. intros H.
  repeat (apply andb_true_iff in H; destruct H as [H ?]).
  apply Z.eqb_eq in H. exact H.
Qed.

Lemma is_odd_land i : is_odd i = negb (Z.land i 1 =? 0).
Proof. reflexivity. Qed.

(** Moving one opening keeps the maze ready. *)
Lemma push_cell_ready h w m s i j :
  ready h w s -> scanned h w i j -> ready h w (snd (push_cell i j (m, s))).
Proof.
  intros R (Hi & k & Hk & Ej & Hj).
  unfold push_cell. destruct (mid_wall_opening s i j) eqn:M; [|exact R].
  apply mid_wall_opening_path in M.
  assert (NR : ~ on_ring h w i j).
  { intros O. rewrite (rd_ring _ _ _ R _ _ O) in M. discriminate. }
  assert (Par : (Z.land i 1 = 1 /\ is_odd i = true /\ exists c, i = 2 * c + 1) \/
                (Z.land i 1 = 0 /\ is_odd i = false /\ exists c, i = 2 * c)).
  { rewrite is_odd_land, land_1_odd.
    destruct (Z.odd i) eqn:O; [left|right]; repeat split; auto.
    - apply Z.odd_spec in O. exact O.
    - assert (E : Z.even i = true) by (rewrite <- Z.negb_odd, O; reflexivity).
      apply Z.even_spec in E. exact E. }
  set (t := if is_odd i then (i, j + 2) else (i + 2, j)).
  assert (Et : (if is_odd i then mark_cell (mark_cell s i j WALL) i (j + 2) PATH
                else mark_cell (mark_cell s i j WALL) (i + 2) j PATH) =
               mark_cell (mark_cell s i j WALL) (fst t) (snd t) PATH).
  { unfold t. destruct (is_odd i); reflexivity. }
  rewrite Et. cbn [snd].
  assert (G : forall a b, maze (set_num_wall_push
                 (mark_cell (mark_cell s i j WALL) (fst t) (snd t) PATH)
                 (num_wall_push (mark_cell (mark_cell s i j WALL) (fst t) (snd t) PATH) + 1)) a b
              = grid_set (grid_set (maze s) i j WALL) (fst t) (snd t) PATH a b).
  { intros a b. cbn [maze set_num_wall_push]. rewrite mark_cell_maze.
    apply grid_set_ext. intros a' b'. apply mark_cell_maze. }
  assert (Tb : 2 <= fst t <= 2 * h + 2 /\ 2 <= snd t <= 2 * w + 2 /\
               ~ on_ring h w (fst t) (snd t) /\ ~ room h w (fst t) (snd t) /\
               ~ room h w i j).
  { unfold on_ring in NR. unfold t, on_ring.
    destruct Par as [(E1 & -> & c & Ec)|(E1 & -> & c & Ec)]; rewrite E1 in Ej; cbn [fst snd];
      (repeat split; try lia;
       try (intros (a' & b' & ? & ? & ? & ?); lia)). }
  destruct Tb as (T1 & T2 & T3 & T4 & T5).
  pose proof (mark_cell_geom s i j WALL) as G1.
  pose proof (mark_cell_geom (mark_cell s i j WALL) (fst t) (snd t) PATH) as G2.
  pose proof (same_geom_trans _ _ _ G1 G2) as G3. unfold same_geom, geom in G3.
  inversion G3 as [[F1 F2 F3 F4 F5 F6 F7 F8 F9 F10]].
  constructor; cbn [height width max_x max_y beg_x end_x set_num_wall_push].
  - rewrite F1. apply (rd_height _ _ _ R).
  - rewrite F2. apply (rd_width _ _ _ R).
  - rewrite F5. apply (rd_max_x _ _ _ R).
  - rewrite F6. apply (rd_max_y _ _ _ R).
  - rewrite F7. apply (rd_beg_x _ _ _ R).
  - rewrite F8. apply (rd_end_x _ _ _ R).
  - intros a b B. rewrite G.
    destruct (grid_set_cases (grid_set (maze s) i j WALL) (fst t) (snd t) PATH a b)
      as [(_ & _ & ->)|(_ & ->)]; [reflexivity|].
    rewrite grid_set_neq; [apply (rd_border _ _ _ R _ _ B)|].
    unfold on_border in B. lia.
  - intros a b O. rewrite G.
    rewrite grid_set_neq.
    + destruct (grid_set_cases (maze s) i j WALL a b) as [(_ & _ & ->)|(_ & ->)]; [reflexivity|].
      apply (rd_ring _ _ _ R _ _ O).
    + destruct (cell_dec a b (fst t) (snd t)) as [[-> ->]|N]; [contradiction|exact N].
  - intros a b Ha Hb. rewrite G.
    destruct (grid_set_cases (grid_set (maze s) i j WALL) (fst t) (snd t) PATH a b)
      as [(_ & _ & ->)|(_ & ->)]; [auto|].
    destruct (grid_set_cases (maze s) i j WALL a b) as [(_ & _ & ->)|(_ & ->)]; [auto|].
    apply (rd_cells _ _ _ R); assumption.
  - intros x y Rm. rewrite G.
    rewrite grid_set_neq.
    + rewrite grid_set_neq; [apply (rd_rooms _ _ _ R _ _ Rm)|].
      destruct (cell_dec x y i j) as [[-> ->]|N]; [contradiction|exact N].
    + destruct (cell_dec x y (fst t) (snd t)) as [[-> ->]|N]; [contradiction|exact N].
  - apply (rd_rows _ _ _ R).
  - apply (rd_cols _ _ _ R).
Qed.

Lemma push_all_ready h w n st st' :
  push_all n st = Some st' -> ready h w st -> ready h w st'.
Proof.
  apply (push_all_inv (ready h w) h w).
  - intros s R. split; [apply (rd_height _ _ _ R)|apply (rd_width _ _ _ R)].
  - intros m s i j R Sc. apply push_cell_ready; assumption.
Qed.

Lemma placed_geom h w s e st st' : same_geom st st' -> placed h w s e st -> placed h w s e st'.
Proof.
  unfold same_geom, geom, placed. intros G P. inversion G.
  repeat match goal with H : _ = _ |- _ => rewrite H end. exact P.
Qed.

Lemma on_ring_dec h w i j : on_ring h w i j \/ ~ on_ring h w i j.
Proof. unfold on_ring. lia. Qed.

Lemma off_ring_room h w x y dx dy :
  room h w x y -> is_step dx dy ->
  ~ on_ring h w (x + Z.quot dx 2) (y + Z.quot dy 2) -> room h w (x + dx) (y + dy).
Proof.
  intros (a & b & Ha & Hb & -> & ->) S N. unfold on_ring in N.
  step_cases S.
  - exists (a - 1), b. lia.
  - exists (a + 1), b. lia.
  - exists a, (b - 1). lia.
  - exists a, (b + 1). lia.
Qed.

Lemma room_not_ring h w x y : room h w x y -> ~ on_ring h w x y.
Proof. intros (a & b & Ha & Hb & -> & ->). unfold on_ring. lia. Qed.

Lemma room_in_grid h w x y : room h w x y -> in_grid h w x y.
Proof. intros (a & b & Ha & Hb & -> & ->). unfold in_grid. lia. Qed.

Lemma room_on_border h w x y : room h w x y -> ~ on_border h w x y.
Proof. intros (a & b & Ha & Hb & -> & ->). unfold on_border. lia. Qed.

Section Solver.
Variables (h w s e : Z) (g0 : grid).
Hypothesis A : arena h w s e g0.

Lemma start_on_ring : on_ring h w 1 s.
Proof. destruct (ar_start _ _ _ _ _ A) as (a & b & Ha & Hb & Ea & ->). unfold on_ring. lia. Qed.

Lemma exit_on_ring : on_ring h w (2 * h + 1) e.
Proof. destruct (ar_finish _ _ _ _ _ A) as (a & b & Ha & Hb & Ea & ->). unfold on_ring. lia. Qed.

Lemma height_pos : 1 <= h.
Proof. destruct (ar_start _ _ _ _ _ A) as (a & b & Ha & Hb & Ea & Eb). lia. Qed.

Lemma solving_ext st st' x y :
  (forall i j, maze st' i j = maze st i j) -> same_geom st st' ->
  solving h w s e g0 st x y -> solving h w s e g0 st' x y.
Proof.
  intros M G S. destruct S as [P Mk En Ex B R]. constructor.
  - eapply placed_geom; eauto.
  - intros i j. rewrite M. apply Mk.
  - rewrite M. exact En.
  - rewrite M. exact Ex.
  - intros i j Bd. rewrite M. apply B; exact Bd.
  - exact R.
Qed.

(** A step of the solver along path cells stays among the rooms, or leaves
    the maze through the exit. *)
Lemma open_step st x y dx dy :
  solving h w s e g0 st x y -> is_step dx dy ->
  maze st (x + Z.quot dx 2) (y + Z.quot dy 2) = PATH ->
  (room h w (x + dx) (y + dy) /\ ~ on_ring h w (x + Z.quot dx 2) (y + Z.quot dy 2) /\
   g0 (x + Z.quot dx 2) (y + Z.quot dy 2) = PATH) \/
  (x = 2 * h /\ y = e /\ dx = 2 /\ dy = 0).
Proof.
  intros [P Mk En Ex B R] S Op.
  assert (G0 : g0 (x + Z.quot dx 2) (y + Z.quot dy 2) = PATH).
  { destruct (Mk (x + Z.quot dx 2) (y + Z.quot dy 2)) as [E|(_ & E & _)]; congruence. }
  destruct (on_ring_dec h w (x + Z.quot dx 2) (y + Z.quot dy 2)) as [O|N].
  - destruct (ar_ring _ _ _ _ _ A _ _ O) as [[E1 E2]|[[E1 E2]|W]].
    + rewrite E1, E2, En in Op. discriminate.
    + right. destruct R as (a & b & Ha & Hb & -> & ->). clear - S E1 E2 Ha. step_cases S; lia.
    + rewrite W in G0. discriminate.
  - left. split; [|split; assumption]. eapply off_ring_room; eauto.
Qed.

(** A step back along solved cells stays among the rooms. *)
Lemma solved_step st x y dx dy :
  solving h w s e g0 st x y -> is_step dx dy ->
  maze st (x + Z.quot dx 2) (y + Z.quot dy 2) = SOLVED ->
  maze st (x + dx) (y + dy) = SOLVED ->
  room h w (x + dx) (y + dy) /\ ~ on_ring h w (x + Z.quot dx 2) (y + Z.quot dy 2) /\
  g0 (x + Z.quot dx 2) (y + Z.quot dy 2) = PATH.
Proof.
  intros [P Mk En Ex B R] S Op Ot.
  destruct (passage_interior _ _ _ _ _ _ R S) as [I1 I2].
  assert (G0 : g0 (x + Z.quot dx 2) (y + Z.quot dy 2) = PATH).
  { destruct (Mk (x + Z.quot dx 2) (y + Z.quot dy 2)) as [E|(_ & E & _)]; [|exact E].
    destruct (ar_cells _ _ _ _ _ A _ _ I1 I2) as [K|K]; rewrite K, Op in E; discriminate. }
  destruct (on_ring_dec h w (x + Z.quot dx 2) (y + Z.quot dy 2)) as [O|N].
  - exfalso. destruct (ar_ring _ _ _ _ _ A _ _ O) as [[E1 E2]|[[E1 E2]|W]].
    + assert (Bd : on_border h w (x + dx) (y + dy)).
      { destruct R as (a & b & Ha & Hb & -> & ->). unfold on_border.
        clear - S E1 E2 Ha Hb. step_cases S; lia. }
      rewrite (B _ _ Bd) in Ot. discriminate.
    + rewrite E1, E2, Ex in Op. discriminate.
    + rewrite W in G0. discriminate.
  - split; [|split; assumption]. eapply off_ring_room; eauto.
Qed.

(** Marking the passage and the room of a step. *)
Lemma mark_step st s2 x y dx dy v :
  solving h w s e g0 st x y -> is_step dx dy ->
  room h w (x + dx) (y + dy) -> ~ on_ring h w (x + Z.quot dx 2) (y + Z.quot dy 2) ->
  g0 (x + Z.quot dx 2) (y + Z.quot dy 2) = PATH ->
  v = SOLVED \/ v = TRIED ->
  (forall i j, maze s2 i j =
     grid_set (grid_set (maze st) (x + Z.quot dx 2) (y + Z.quot dy 2) v) (x + dx) (y + dy) v i j) ->
  same_geom st s2 ->
  solving h w s e g0 s2 (x + dx) (y + dy).
Proof.
  intros [P Mk En Ex B R] S Rn N G0 Hv M G.
  destruct (passage_interior _ _ _ _ _ _ R S) as [I1 I2].
  pose proof (room_not_ring _ _ _ _ Rn) as Nr.
  pose proof start_on_ring as So. pose proof exit_on_ring as Eo.
  assert (Keep : forall i j, on_ring h w i j \/ on_border h w i j ->
                 maze s2 i j = maze st i j).
  { intros i j O. rewrite M. rewrite !grid_set_neq; [reflexivity| |].
    - destruct (cell_dec i j (x + Z.quot dx 2) (y + Z.quot dy 2)) as [[-> ->]|Ne]; [|exact Ne].
      exfalso. destruct O as [O|O]; [contradiction|]. unfold on_border in O. lia.
    - destruct (cell_dec i j (x + dx) (y + dy)) as [[-> ->]|Ne]; [|exact Ne].
      exfalso. destruct O as [O|O]; [contradiction|].
      apply (room_on_border _ _ _ _ Rn O). }
  constructor.
  - eapply placed_geom; eauto.
  - intros i j. rewrite M.
    destruct (grid_set_cases (grid_set (maze st) (x + Z.quot dx 2) (y + Z.quot dy 2) v)
                (x + dx) (y + dy) v i j) as [(-> & -> & ->)|(_ & ->)].
    + right. split; [apply room_in_grid; exact Rn|]. split; [|exact Hv].
      apply (ar_rooms _ _ _ _ _ A _ _ Rn).
    + destruct (grid_set_cases (maze st) (x + Z.quot dx 2) (y + Z.quot dy 2) v i j)
        as [(-> & -> & ->)|(_ & ->)]; [|apply Mk].
      right. split; [unfold in_grid; lia|]. split; [exact G0|exact Hv].
  - rewrite Keep by auto. exact En.
  - rewrite Keep by auto. exact Ex.
  - intros i j Bd. rewrite Keep by auto. apply B; exact Bd.
  - exact Rn.
Qed.

(** Marking the room the solver stands in. *)
Lemma mark_room st s2 x y v :
  solving h w s e g0 st x y -> v = SOLVED \/ v = TRIED ->
  (forall i j, maze s2 i j = grid_set (maze st) x y v i j) ->
  same_geom st s2 ->
  solving h w s e g0 s2 x y.
Proof.
  intros [P Mk En Ex B R] Hv M G.
  pose proof (room_not_ring _ _ _ _ R) as Nr.
  pose proof start_on_ring as So. pose proof exit_on_ring as Eo.
  assert (Keep : forall i j, on_ring h w i j \/ on_border h w i j ->
                 maze s2 i j = maze st i j).
  { intros i j O. rewrite M. rewrite grid_set_neq; [reflexivity|].
    destruct (cell_dec i j x y) as [[-> ->]|Ne]; [|exact Ne].
    exfalso. destruct O as [O|O]; [contradiction|].
    apply (room_on_border _ _ _ _ R O). }
  constructor.
  - eapply placed_geom; eauto.
  - intros i j. rewrite M.
    destruct (grid_set_cases (maze st) x y v i j) as [(-> & -> & ->)|(_ & ->)]; [|apply Mk].
    right. split; [apply room_in_grid; exact R|]. split; [|exact Hv].
    apply (ar_rooms _ _ _ _ _ A _ _ R).
  - rewrite Keep by auto. exact En.
  - rewrite Keep by auto. exact Ex.
  - intros i j Bd. rewrite Keep by auto. apply B; exact Bd.
  - exact R.
Qed.

(** The step through the exit. *)
Lemma mark_exit st s2 y :
  solving h w s e g0 st (2 * h) y -> y = e ->
  (forall i j, maze s2 i j =
     grid_set (grid_set (maze st) (2 * h + 1) e SOLVED) (2 * h + 2) e SOLVED i j) ->
  same_geom st s2 ->
  finished h w s e g0 s2.
Proof.
  intros [P Mk En Ex B R] -> M G. split; [eapply placed_geom; eauto|].
  destruct (ar_finish _ _ _ _ _ A) as (a & b & Ha & Hb & Ea & Eb).
  intros i j. rewrite M.
  destruct (grid_set_cases (grid_set (maze st) (2 * h + 1) e SOLVED) (2 * h + 2) e SOLVED i j)
    as [(-> & -> & ->)|(_ & ->)].
  - right. split; [unfold in_grid; lia|]. split; [|auto].
    apply (ar_border _ _ _ _ _ A). unfold on_border. lia.
  - destruct (grid_set_cases (maze st) (2 * h + 1) e SOLVED i j)
      as [(-> & -> & ->)|(_ & ->)]; [|apply Mk].
    right. split; [unfold in_grid; lia|]. split; [|auto]. apply (ar_exit _ _ _ _ _ A).
Qed.

Lemma marks_maze s1 st px py tx ty v i j :
  (forall i j, maze s1 i j = maze st i j) ->
  maze (mark_cell (mark_cell s1 px py v) tx ty v) i j =
  grid_set (grid_set (maze st) px py v) tx ty v i j.
Proof.
  intros M. rewrite mark_cell_maze. apply grid_set_ext. clear i j. intros i j.
  rewrite mark_cell_maze. apply grid_set_ext. exact M.
Qed.

Lemma marks_geom st s1 px py tx ty v :
  same_geom st s1 -> same_geom st (mark_cell (mark_cell s1 px py v) tx ty v).
Proof.
  intros G. eapply same_geom_trans; [exact G|].
  eapply same_geom_trans; apply mark_cell_geom.
Qed.

(** [follow_path] stops at a room, or has left through the exit. *)
Lemma follow_path_loop_post fuel n :
  forall last x y st x' y' st',
    follow_path_loop fuel n last x y st = Some ((x', y'), st') ->
    solving h w s e g0 st x y ->
    solving h w s e g0 st' x' y' \/ (finished h w s e g0 st' /\ x' = 2 * h + 2).
Proof.
  induction n as [|n IH]; intros last x y st x' y' st' H Sv; [discriminate|].
  cbn [follow_path_loop] in H.
  destruct ((beg_x st <=? x) && (x <=? end_x st)); [|inversion H; subst; left; exact Sv].
  destruct (find_directions fuel x y PATH NO_SEARCH st) as [[num s1]|] eqn:F; [|discriminate].
  destruct (find_directions_post _ _ _ _ _ _ _ _ F (or_intror eq_refl))
    as ((Fr & M & N0 & V) & _).
  pose proof (frame_geom _ _ Fr) as G1.
  destruct (Z.eqb_spec num 0) as [->|Nz]; cbn [negb] in H.
  { inversion H; subst. left. eapply solving_ext; eauto. }
  destruct (V 0 ltac:(lia)) as [S [Oh Of]].
  set (d := dir_tbl s1 0) in *.
  cbv zeta in H.
  assert (K : forall last' sX,
             (forall i j, maze sX i j =
                grid_set (grid_set (maze st) (x + Z.quot (dt_x d) 2) (y + Z.quot (dt_y d) 2) SOLVED)
                         (x + dt_x d) (y + dt_y d) SOLVED i j) ->
             same_geom st sX ->
             follow_path_loop fuel n last' (x + dt_x d) (y + dt_y d) sX = Some ((x', y'), st') ->
             solving h w s e g0 st' x' y' \/ (finished h w s e g0 st' /\ x' = 2 * h + 2)).
  { intros last' sX MX GX HX.
    destruct (open_step st x y _ _ Sv S Oh) as [(Rn & Nr & Gp)|(Ex & Ey & Edx & Edy)].
    - eapply IH; [exact HX|].
      eapply (mark_step st sX x y _ _ SOLVED); eauto.
    - assert (Fin : finished h w s e g0 sX).
      { rewrite Ex in Sv. eapply (mark_exit st sX y Sv Ey); [|exact GX].
        intros i j. rewrite MX. rewrite Edx, Edy, Ex, Ey. quot2.
        replace (2 * h + 2) with (2 * h + 1 + 1) by lia.
        replace (e + 0) with e by lia.
        replace (2 * h + 1 + 1) with (2 * h + 2) by lia. reflexivity. }
      destruct n as [|n']; [discriminate|]. cbn [follow_path_loop] in HX.
      destruct Fin as [Pl Mk]. pose proof Pl as (_ & _ & _ & _ & Eb & Ee & _ & _).
      assert (Ec : (beg_x sX <=? x + dt_x d) && (x + dt_x d <=? end_x sX) = false).
      { apply andb_false_iff. right. apply Z.leb_gt. lia. }
      rewrite Ec in HX. inversion HX; subst. right. split; [split; assumption|lia]. }
  destruct (negb (last =? dt_heading d)).
  - eapply K; [| |exact H].
    + intros i j. cbn [maze set_turn_cnt set_path_len]. apply marks_maze. exact M.
    + eapply same_geom_trans; [apply (marks_geom st s1); exact G1|]. reflexivity.
  - eapply K; [| |exact H].
    + intros i j. cbn [maze set_turn_cnt set_path_len]. apply marks_maze. exact M.
    + eapply same_geom_trans; [apply (marks_geom st s1); exact G1|]. reflexivity.
Qed.

Lemma follow_path_post fuel x y st done x' y' st' :
  follow_path fuel x y st = Some (done, ((x', y'), st')) ->
  solving h w s e g0 st x y ->
  (done = false /\ solving h w s e g0 st' x' y') \/ (done = true /\ finished h w s e g0 st').
Proof.
  unfold follow_path. intros H Sv. cbv zeta in H.
  destruct (follow_path_loop fuel fuel 0 x y (mark_cell (set_path_depth st 0) x y SOLVED))
    as [[[x1 y1] s1]|] eqn:L; [|discriminate].
  inversion H; subst; clear H.
  apply follow_path_loop_post in L.
  - destruct L as [Sv'|[Fin Ex]].
    + left. split; [|exact Sv'].
      destruct Sv' as [(_ & _ & _ & _ & _ & Ee & _) _ _ _ _ (a & b & Ha & Hb & -> & ->)].
      rewrite Z.gtb_ltb. apply Z.ltb_ge. lia.
    + right. split; [|exact Fin].
      destruct Fin as [(_ & _ & _ & _ & _ & Ee & _) _].
      rewrite Z.gtb_ltb. apply Z.ltb_lt. lia.
  - eapply mark_room; [exact Sv|left; reflexivity| |].
    + intros i j. rewrite mark_cell_maze. reflexivity.
    + eapply same_geom_trans; [|apply mark_cell_geom]. reflexivity.
Qed.

Lemma back_track_path_loop_post fuel n :
  forall last x y st x' y' st',
    back_track_path_loop fuel n last x y st = Some ((x', y'), st') ->
    solving h w s e g0 st x y ->
    solving h w s e g0 st' x' y'.
Proof.
  induction n as [|n IH]; intros last x y st x' y' st' H Sv; [discriminate|].
  cbn [back_track_path_loop] in H.
  destruct (find_directions fuel x y PATH NO_SEARCH st) as [[np s1]|] eqn:F; [|discriminate].
  destruct (find_directions_post _ _ _ _ _ _ _ _ F (or_intror eq_refl))
    as ((Fr & M & _ & _) & _).
  pose proof (frame_geom _ _ Fr) as G1.
  assert (Sv1 : solving h w s e g0 s1 x y) by (eapply solving_ext; eauto).
  destruct (np =? 0); [|inversion H; subst; exact Sv1].
  destruct (find_directions fuel x y SOLVED NO_SEARCH s1) as [[ns s2]|] eqn:F2; [|discriminate].
  destruct (find_directions_post _ _ _ _ _ _ _ _ F2 (or_intror eq_refl))
    as ((Fr2 & M2 & N0 & V) & _).
  pose proof (frame_geom _ _ Fr2) as G2.
  destruct (Z.eqb_spec ns 0) as [->|Nz]; cbn [negb] in H.
  { inversion H; subst. eapply solving_ext; eauto. }
  destruct (V 0 ltac:(lia)) as [S [Oh Of]].
  set (d := dir_tbl s2 0) in *.
  cbv zeta in H.
  destruct (solved_step s1 x y _ _ Sv1 S Oh Of) as (Rn & Nr & Gp).
  assert (K : forall last' sX,
             (forall i j, maze sX i j =
                grid_set (grid_set (maze s1) (x + Z.quot (dt_x d) 2) (y + Z.quot (dt_y d) 2) TRIED)
                         (x + dt_x d) (y + dt_y d) TRIED i j) ->
             same_geom s1 sX ->
             back_track_path_loop fuel n last' (x + dt_x d) (y + dt_y d) sX = Some ((x', y'), st') ->
             solving h w s e g0 st' x' y').
  { intros last' sX MX GX HX.
    eapply IH; [exact HX|].
    eapply (mark_step s1 sX x y _ _ TRIED); eauto. }
  destruct (negb (last =? dt_heading d)).
  - eapply K; [| |exact H].
    + intros i j. cbn [maze set_turn_cnt set_path_len]. apply marks_maze. exact M2.
    + eapply same_geom_trans; [apply (marks_geom s1 s2); exact G2|]. reflexivity.
  - eapply K; [| |exact H].
    + intros i j. cbn [maze set_turn_cnt set_path_len]. apply marks_maze. exact M2.
    + eapply same_geom_trans; [apply (marks_geom s1 s2); exact G2|]. reflexivity.
Qed.

Lemma back_track_path_post fuel x y st x' y' st' :
  back_track_path fuel x y st = Some ((x', y'), st') ->
  solving h w s e g0 st x y ->
  solving h w s e g0 st' x' y'.
Proof.
  unfold back_track_path. intros H Sv. cbv zeta in H.
  apply back_track_path_loop_post in H; [exact H|].
  eapply mark_room; [exact Sv|right; reflexivity| |].
  - intros i j. rewrite mark_cell_maze. reflexivity.
  - eapply same_geom_trans; [|apply mark_cell_geom]. reflexivity.
Qed.

Lemma solve_maze_loop_post fuel n :
  forall x y st x' y' st',
    solve_maze_loop fuel n x y st = Some ((x', y'), st') ->
    solving h w s e g0 st x y ->
    finished h w s e g0 st'.
Proof.
  induction n as [|n IH]; intros x y st x' y' st' H Sv; [discriminate|].
  cbn [solve_maze_loop] in H.
  destruct (follow_path fuel x y st) as [[done [[x1 y1] s1]]|] eqn:F; [|discriminate].
  destruct (follow_path_post _ _ _ _ _ _ _ _ F Sv) as [[-> Sv1]|[-> Fin]].
  - destruct (back_track_path fuel x1 y1 s1) as [[[x2 y2] s2]|] eqn:B; [|discriminate].
    eapply IH; [exact H|]. eapply back_track_path_post; eauto.
  - inversion H; subst. exact Fin.
Qed.

(** [solve_maze] only marks path cells of the grid it starts from. *)
Lemma solve_maze_post fuel st x' y' st' :
  placed h w s e st -> (forall i j, maze st i j = g0 i j) ->
  solve_maze fuel 2 s st = Some ((x', y'), st') ->
  finished h w s e g0 st'.
Proof.
  intros P M H. unfold solve_maze in H. cbv zeta in H.
  cbn [beg_x beg_y end_x end_y set_turn_cnt set_path_len] in H.
  set (s1 := wr _ _ _ SOLVED) in H.
  destruct (solve_maze_loop fuel fuel 2 s s1) as [[[x2 y2] s2]|] eqn:L; [|discriminate].
  inversion H; subst; clear H.
  pose proof P as (_ & _ & _ & _ & Eb & Ee & Es & Ef).
  pose proof height_pos as Hh.
  pose proof (ar_start _ _ _ _ _ A) as Rs.
  assert (Sv : solving h w s e g0 s1 2 s).
  { assert (M1 : forall i j, maze s1 i j = grid_set g0 1 s SOLVED i j).
    { intros i j. unfold s1, wr. cbn [maze set_maze set_turn_cnt set_path_len].
      rewrite Eb, Es. replace (2 - 1) with 1 by lia. apply grid_set_ext. exact M. }
    destruct Rs as (a & b & Ha & Hb & Ea & Eb').
    constructor.
    - eapply placed_geom; [|exact P]. reflexivity.
    - intros i j. rewrite M1.
      destruct (grid_set_cases g0 1 s SOLVED i j) as [(-> & -> & ->)|(_ & ->)]; [|auto].
      right. split; [unfold in_grid; lia|]. split; [apply (ar_entry _ _ _ _ _ A)|auto].
    - rewrite M1. apply grid_set_eq.
    - rewrite M1, grid_set_neq by lia. apply (ar_exit _ _ _ _ _ A).
    - intros i j Bd. rewrite M1, grid_set_neq; [apply (ar_border _ _ _ _ _ A _ _ Bd)|].
      unfold on_border in Bd. lia.
    - exists a, b. auto. }
  destruct (solve_maze_loop_post _ _ _ _ _ _ _ _ L Sv) as [P2 Mk2].
  pose proof P2 as (_ & _ & _ & _ & _ & Ee2 & _ & Ef2).
  split.
  - eapply placed_geom; [|exact P2]. reflexivity.
  - intros i j. unfold wr. cbn [maze set_solves set_maze]. rewrite Ee2, Ef2.
    destruct (grid_set_cases (maze s2) (2 * h + 1) e SOLVED i j) as [(-> & -> & ->)|(_ & ->)];
      [|apply Mk2].
    destruct (ar_finish _ _ _ _ _ A) as (a & b & Ha & Hb & Ea & Eb').
    right. split; [unfold in_grid; lia|]. split; [apply (ar_exit _ _ _ _ _ A)|auto].
Qed.

End Solver.

Lemma lift_same f s : f (maze s) = maze s -> lift f s = s.
Proof. unfold lift. intros ->. destruct s; reflexivity. Qed.

Lemma restore_cell_at i j g a b :
  restore_cell i j g a b =
  if (a =? i) && (b =? j) && is_mark (g a b) then PATH else g a b.
Proof.
  unfold restore_cell, is_mark.
  destruct (Z.eqb_spec a i) as [->|Na]; cbn [andb].
  - destruct (Z.eqb_spec b j) as [->|Nb]; cbn [andb].
    + destruct ((g i j =? SOLVED) || (g i j =? TRIED)); [apply grid_set_eq|reflexivity].
    + destruct ((g i j =? SOLVED) || (g i j =? TRIED)); [|reflexivity].
      apply grid_set_neq. auto.
  - destruct ((g i j =? SOLVED) || (g i j =? TRIED)); [|reflexivity].
    apply grid_set_neq. auto.
Qed.

Lemma restore_row n : forall lo i g a b,
  for_loop n lo 1 (restore_cell i) g a b =
  if (a =? i) && (lo <=? b) && (b <? lo + Z.of_nat n) && is_mark (g a b) then PATH else g a b.
Proof.
  induction n as [|n IH]; intros lo i g a b.
  - cbn [for_loop].
    destruct (a =? i); cbn [andb]; [|reflexivity].
    destruct (Z.leb_spec lo b); cbn [andb]; [|reflexivity].
    destruct (Z.ltb_spec b (lo + Z.of_nat 0)); [lia|reflexivity].
  - cbn [for_loop]. rewrite IH, restore_cell_at.
    destruct (Z.eqb_spec a i) as [->|Na]; cbn [andb]; [|reflexivity].
    destruct (Z.eqb_spec b lo) as [->|Nb]; cbn [andb].
    + destruct (Z.leb_spec (lo + 1) lo); [lia|]. cbn [andb].
      destruct (Z.leb_spec lo lo); [|lia]. cbn [andb].
      destruct (Z.ltb_spec lo (lo + Z.of_nat (S n))); [|lia]. cbn [andb]. reflexivity.
    + destruct (Z.leb_spec (lo + 1) b), (Z.leb_spec lo b); try lia; cbn [andb]; [|reflexivity].
      destruct (Z.ltb_spec b (lo + 1 + Z.of_nat n)), (Z.ltb_spec b (lo + Z.of_nat (S n)));
        try lia; reflexivity.
Qed.

Lemma restore_rows n : forall lo m g a b,
  for_loop n lo 1 (fun i g => for_range 0 m (restore_cell i) g) g a b =
  if (lo <=? a) && (a <? lo + Z.of_nat n) && (0 <=? b) && (b <? m) && is_mark (g a b)
  then PATH else g a b.
Proof.
  induction n as [|n IH]; intros lo m g a b.
  - cbn [for_loop].
    destruct (Z.leb_spec lo a); cbn [andb]; [|reflexivity].
    destruct (Z.ltb_spec a (lo + Z.of_nat 0)); [lia|reflexivity].
  - cbn [for_loop]. rewrite IH. unfold for_range. rewrite !restore_row.
    pose proof (to_nat_range 0 m) as Em. rewrite Em.
    destruct (Z.eqb_spec a lo) as [->|Na]; cbn [andb].
    + destruct (Z.leb_spec (lo + 1) lo); [lia|]. cbn [andb].
      destruct (Z.leb_spec lo lo); [|lia]. cbn [andb].
      destruct (Z.ltb_spec lo (lo + Z.of_nat (S n))); [|lia]. cbn [andb].
      destruct (Z.leb_spec 0 b); cbn [andb]; [|reflexivity].
      destruct (Z.ltb_spec b (0 + Z.max 0 (m - 0))), (Z.ltb_spec b m); try lia; reflexivity.
    + destruct (Z.leb_spec (lo + 1) a), (Z.leb_spec lo a); try lia; cbn [andb]; [|reflexivity].
      destruct (Z.ltb_spec a (lo + 1 + Z.of_nat n)), (Z.ltb_spec a (lo + Z.of_nat (S n)));
        try lia; reflexivity.
Qed.

Lemma restore_maze_lift st :
  restore_maze st =
  lift (for_range 0 (max_x st) (fun i g => for_range 0 (max_y st) (restore_cell i) g)) st.
Proof.
  unfold restore_maze. unfold for_range at 1 3.
  apply for_loop_lift with (I := fun t => max_y t = max_y st); auto.
  intros k t Ht. rewrite Ht. unfold for_range.
  apply for_loop_lift with (I := fun _ => True); auto.
  intros j t' _. unfold restore_cell, lift, rd, wr.
  destruct ((maze t' k j =? SOLVED) || (maze t' k j =? TRIED)); [reflexivity|].
  destruct t'; reflexivity.
Qed.

(** [restore_maze] turns the marks of the grid into paths and changes
    nothing else. *)
Lemma restore_maze_maze st a b :
  maze (restore_maze st) a b =
  if (0 <=? a) && (a <? max_x st) && (0 <=? b) && (b <? max_y st) && is_mark (maze st a b)
  then PATH else maze st a b.
Proof.
  rewrite restore_maze_lift. unfold lift. cbn [maze set_maze].
  unfold for_range at 1. rewrite restore_rows.
  pose proof (to_nat_range 0 (max_x st)) as Em. rewrite Em.
  destruct (Z.leb_spec 0 a); cbn [andb]; [|reflexivity].
  destruct (Z.ltb_spec a (0 + Z.max 0 (max_x st - 0))), (Z.ltb_spec a (max_x st));
    try lia; reflexivity.
Qed.

Lemma restore_maze_fixed st : set_maze (restore_maze st) (maze st) = st.
Proof. rewrite restore_maze_lift. unfold lift. destruct st; reflexivity. Qed.

Lemma restore_maze_geom st : same_geom st (restore_maze st).
Proof. rewrite restore_maze_lift. reflexivity. Qed.

Lemma evaluated_spec st start finish :
  evaluated st start finish = true <->
  (maze st (beg_x st) (start - 1) = WALL \/ maze st (beg_x st) (start + 1) = WALL) /\
  (maze st (end_x st) (finish - 1) = WALL \/ maze st (end_x st) (finish + 1) = WALL).
Proof.
  unfold evaluated, rd.
  destruct (Z.eqb_spec (maze st (beg_x st) (start - 1)) WALL),
           (Z.eqb_spec (maze st (beg_x st) (start + 1)) WALL),
           (Z.eqb_spec (maze st (end_x st) (finish - 1)) WALL),
           (Z.eqb_spec (maze st (end_x st) (finish + 1)) WALL); cbn;
    intuition (try discriminate; try congruence).
Qed.

(** A pair that fails the test is skipped: nothing changes. *)
Lemma search_step_skip fuel i j b st :
  evaluated st (2 * (i + 1)) (2 * (j + 1)) = false ->
  search_step fuel i j b st = Some (b, ((2 * (i + 1), 2 * (j + 1)), st)).
Proof.
  unfold evaluated, search_step. cbv zeta. intros E.
  destruct (negb (rd st (beg_x st) (2 * (i + 1) - 1) =? WALL) &&
            negb (rd st (beg_x st) (2 * (i + 1) + 1) =? WALL)); [reflexivity|].
  destruct (negb (rd st (end_x st) (2 * (j + 1) - 1) =? WALL) &&
            negb (rd st (end_x st) (2 * (j + 1) + 1) =? WALL)); [reflexivity|].
  discriminate.
Qed.

(** A pair that passes the test is opened, solved, recorded, restored and
    closed again. *)
Lemma search_step_trial fuel i j b st :
  evaluated st (2 * (i + 1)) (2 * (j + 1)) = true ->
  search_step fuel i j b st =
  match solve_maze fuel (beg_x st) (2 * (i + 1))
          (snd (create_openings (2 * (i + 1)) (2 * (j + 1)) st)) with
  | Some (xy, s1) =>
      Some (record_trial b (2 * (i + 1)) (2 * (j + 1)) (path_len s1) (turn_cnt s1),
            (xy, after_trial b s1))
  | None => None
  end.
Proof.
  unfold evaluated, search_step. cbv zeta. intros E.
  destruct (negb (rd st (beg_x st) (2 * (i + 1) - 1) =? WALL) &&
            negb (rd st (beg_x st) (2 * (i + 1) + 1) =? WALL)); [discriminate|].
  destruct (negb (rd st (end_x st) (2 * (j + 1) - 1) =? WALL) &&
            negb (rd st (end_x st) (2 * (j + 1) + 1) =? WALL)); [discriminate|].
  unfold create_openings. cbv zeta. cbn [snd fst beg_x beg_y wr set_maze set_beg_y set_end_y].
  destruct (solve_maze _ _ _ _) as [[[x y] s1]|]; [|reflexivity].
  unfold record_trial, after_trial, better. cbv zeta.
  destruct ((path_len s1 >? best_path_len b) ||
            (path_len s1 =? best_path_len b) && (turn_cnt s1 >? best_turn_cnt b)); reflexivity.
Qed.

Section Trial.
Variables (h w : Z) (st : state) (s e : Z).
Hypothesis R : ready h w st.
Hypothesis Rs : room h w 2 s.
Hypothesis Re : room h w (2 * h) e.

Lemma create_openings_maze i j :
  maze (snd (create_openings s e st)) i j =
  grid_set (grid_set (maze st) 1 s PATH) (2 * h + 1) e PATH i j.
Proof.
  unfold create_openings, wr. cbv zeta.
  cbn [snd maze set_maze beg_x beg_y end_x end_y set_beg_y set_end_y].
  rewrite (rd_beg_x _ _ _ R), (rd_end_x _ _ _ R). reflexivity.
Qed.

Lemma create_openings_placed : placed h w s e (snd (create_openings s e st)).
Proof.
  unfold create_openings, wr, placed. cbv zeta.
  cbn [snd height width max_x max_y beg_x beg_y end_x end_y set_maze set_beg_y set_end_y].
  destruct R. repeat split; assumption.
Qed.

Lemma create_openings_arena : arena h w s e (maze (snd (create_openings s e st))).
Proof.
  pose proof (rd_rows _ _ _ R) as Hh.
  destruct Rs as (a & b & Ha & Hb & Ea & Eb).
  destruct Re as (a' & b' & Ha' & Hb' & Ea' & Eb').
  assert (O1 : on_ring h w 1 s) by (unfold on_ring; lia).
  assert (O2 : on_ring h w (2 * h + 1) e) by (unfold on_ring; lia).
  constructor.
  - exact Rs.
  - exact Re.
  - intros i j B. rewrite create_openings_maze.
    rewrite !grid_set_neq; [apply (rd_border _ _ _ R _ _ B)| |];
      unfold on_border in B; lia.
  - intros i j O. rewrite create_openings_maze.
    destruct (cell_dec i j (2 * h + 1) e) as [[-> ->]|N2]; [auto|].
    destruct (cell_dec i j 1 s) as [[-> ->]|N1]; [auto|].
    right; right. rewrite !grid_set_neq by assumption. apply (rd_ring _ _ _ R _ _ O).
  - intros i j Hi Hj. rewrite create_openings_maze.
    destruct (grid_set_cases (grid_set (maze st) 1 s PATH) (2 * h + 1) e PATH i j)
      as [(_ & _ & ->)|(_ & ->)]; [auto|].
    destruct (grid_set_cases (maze st) 1 s PATH i j) as [(_ & _ & ->)|(_ & ->)]; [auto|].
    apply (rd_cells _ _ _ R); assumption.
  - intros x y Rm. rewrite create_openings_maze.
    pose proof (room_not_ring _ _ _ _ Rm) as Nr.
    rewrite !grid_set_neq; [apply (rd_rooms _ _ _ R _ _ Rm)| |].
    + destruct (cell_dec x y 1 s) as [[-> ->]|N]; [contradiction|exact N].
    + destruct (cell_dec x y (2 * h + 1) e) as [[-> ->]|N]; [contradiction|exact N].
  - rewrite create_openings_maze. rewrite grid_set_neq by lia. apply grid_set_eq.
  - rewrite create_openings_maze. apply grid_set_eq.
Qed.

(** After the trial the grid is the one before it. *)
Lemma trial_restores fuel b xy s1 :
  solve_maze fuel 2 s (snd (create_openings s e st)) = Some (xy, s1) ->
  same_maze st (after_trial b s1) /\ ready h w (after_trial b s1).
Proof.
  intros H. destruct xy as [x' y'].
  pose proof (solve_maze_post h w s e _ create_openings_arena fuel _ x' y' s1
                create_openings_placed (fun i j => eq_refl) H) as [P Mk].
  set (c := snd (create_openings s e st)) in *.
  pose proof create_openings_arena as A. fold c in A.
  set (s2 := if better b (path_len s1) (turn_cnt s1)
             then set_max_path_length s1 (path_len s1) else s1).
  assert (M2 : forall i j, maze s2 i j = maze s1 i j).
  { intros i j. unfold s2. destruct (better _ _ _); reflexivity. }
  assert (G2 : same_geom s1 s2).
  { unfold s2. destruct (better _ _ _); reflexivity. }
  pose proof (placed_geom _ _ _ _ _ _ G2 P) as P2.
  pose proof (placed_geom _ _ _ _ _ _ (restore_maze_geom s2) P2) as P3.
  pose proof P2 as (_ & _ & Emx & Emy & _).
  pose proof P3 as (Eh & Ew & Emx3 & Emy3 & Eb & Ee & Es & Ef).
  assert (M3 : forall i j, maze (restore_maze s2) i j = maze c i j).
  { intros i j. rewrite restore_maze_maze, Emx, Emy, M2.
    destruct (Mk i j) as [E|((I1 & I2) & E & Hm)].
    - rewrite E.
      destruct (Z.leb_spec 0 i); cbn [andb]; [|reflexivity].
      destruct (Z.ltb_spec i (2 * (h + 1) + 1)); cbn [andb]; [|reflexivity].
      destruct (Z.leb_spec 0 j); cbn [andb]; [|reflexivity].
      destruct (Z.ltb_spec j (2 * (w + 1) + 1)); cbn [andb]; [|reflexivity].
      assert (V : maze c i j = WALL \/ maze c i j = PATH).
      { assert (on_border h w i j \/ (1 <= i <= 2 * h + 1 /\ 1 <= j <= 2 * w + 1)) as [B|[B1 B2]]
          by (unfold on_border; lia).
        - right. apply (ar_border _ _ _ _ _ A _ _ B).
        - apply (ar_cells _ _ _ _ _ A _ _ B1 B2). }
      destruct V as [V|V]; rewrite V; reflexivity.
    - rewrite E.
      destruct (Z.leb_spec 0 i); [|lia]. destruct (Z.ltb_spec i (2 * (h + 1) + 1)); [|lia].
      destruct (Z.leb_spec 0 j); [|lia]. destruct (Z.ltb_spec j (2 * (w + 1) + 1)); [|lia].
      cbn [andb]. destruct Hm as [V|V]; rewrite V; reflexivity. }
  assert (M4 : forall i j, maze (after_trial b s1) i j = maze st i j).
  { intros i j. unfold after_trial. cbv zeta. fold s2.
    unfold delete_openings, wr. cbn [maze set_maze set_num_solves beg_x beg_y end_x end_y].
    rewrite Eb, Ee, Es, Ef. replace (2 - 1) with 1 by lia.
    destruct Rs as (a1 & b1 & Ha1 & Hb1 & Ea1 & Eb1).
    destruct Re as (a2 & b2 & Ha2 & Hb2 & Ea2 & Eb2).
    pose proof (rd_rows _ _ _ R) as Hh.
    destruct (grid_set_cases (grid_set (maze (restore_maze s2)) 1 s WALL) (2 * h + 1) e WALL i j)
      as [(-> & -> & ->)|(N2 & ->)].
    - symmetry. apply (rd_ring _ _ _ R). unfold on_ring. lia.
    - destruct (grid_set_cases (maze (restore_maze s2)) 1 s WALL i j)
        as [(-> & -> & ->)|(N1 & ->)].
      + symmetry. apply (rd_ring _ _ _ R). unfold on_ring. lia.
      + rewrite M3. unfold c. rewrite create_openings_maze.
        rewrite !grid_set_neq by assumption. reflexivity. }
  split; [exact M4|].
  assert (G4 : same_geom (restore_maze s2) (after_trial b s1)).
  { unfold after_trial. cbv zeta. fold s2. reflexivity. }
  pose proof (placed_geom _ _ _ _ _ _ G4 P3) as (F1 & F2 & F3 & F4 & F5 & F6 & _).
  constructor; auto.
  - intros i j B. rewrite M4. apply (rd_border _ _ _ R _ _ B).
  - intros i j O. rewrite M4. apply (rd_ring _ _ _ R _ _ O).
  - intros i j Hi Hj. rewrite !M4. apply (rd_cells _ _ _ R _ _ Hi Hj).
  - intros x y Rm. rewrite M4. apply (rd_rooms _ _ _ R _ _ Rm).
  - apply (rd_rows _ _ _ R).
  - apply (rd_cols _ _ _ R).
Qed.

End Trial.

Lemma better_spec b pl tc : better b pl tc = true <-> lex_lt (metrics b) (pl, tc).
Proof.
  unfold better, lex_lt, metrics. cbn [fst snd].
  rewrite orb_true_iff, andb_true_iff, !Z.gtb_ltb, !Z.ltb_lt, Z.eqb_eq. intuition lia.
Qed.

Lemma better_false b pl tc : better b pl tc = false <-> lex_le (pl, tc) (metrics b).
Proof.
  unfold better, lex_le, metrics. cbn [fst snd].
  rewrite orb_false_iff, andb_false_iff, !Z.gtb_ltb, !Z.ltb_ge, Z.eqb_neq. intuition lia.
Qed.

Lemma lex_le_refl a : lex_le a a.
Proof. unfold lex_le. lia. Qed.

Lemma lex_le_trans a b c : lex_le a b -> lex_le b c -> lex_le a c.
Proof. unfold lex_le. lia. Qed.

Lemma lex_lt_le a b : lex_lt a b -> lex_le a b.
Proof. unfold lex_lt, lex_le. lia. Qed.

Lemma record_trial_spec b s f pl tc :
  let b' := record_trial b s f pl tc in
  lex_le (metrics b) (metrics b') /\ lex_le (pl, tc) (metrics b') /\
  ((b' = b /\ lex_le (pl, tc) (metrics b)) \/
   (b' = mkBest pl tc s f /\ lex_lt (metrics b) (pl, tc))).
Proof.
  cbv zeta. unfold record_trial. destruct (better b pl tc) eqn:E.
  - apply better_spec in E. split; [apply lex_lt_le; exact E|].
    split; [apply lex_le_refl|]. right. auto.
  - apply better_false in E. split; [apply lex_le_refl|]. split; [exact E|]. left. auto.
Qed.

Lemma after_trial_metrics b s1 :
  path_len (after_trial b s1) = path_len s1 /\ turn_cnt (after_trial b s1) = turn_cnt s1.
Proof.
  unfold after_trial. cbv zeta. unfold delete_openings, wr.
  cbn [path_len turn_cnt set_num_solves set_maze].
  rewrite restore_maze_lift. unfold lift. cbn [path_len turn_cnt set_maze].
  destruct (better _ _ _); split; reflexivity.
Qed.

(** One iteration of the search keeps the grid, and records the pair if it
    is better than the best so far. *)
Lemma search_step_post h w fuel i j b st b' xy st' :
  ready h w st -> 0 <= i < w -> 0 <= j < w ->
  search_step fuel i j b st = Some (b', (xy, st')) ->
  same_maze st st' /\ ready h w st'.
Proof.
  intros R Hi Hj H.
  destruct (evaluated st (2 * (i + 1)) (2 * (j + 1))) eqn:E.
  - rewrite (search_step_trial _ _ _ _ _ E) in H.
    rewrite (rd_beg_x _ _ _ R) in H.
    destruct (solve_maze _ _ _ _) as [[xy1 s1]|] eqn:Sv; [|discriminate].
    inversion H; subst; clear H.
    pose proof (rd_rows _ _ _ R) as Hh.
    eapply trial_restores; eauto.
    + exists 1, (i + 1). lia.
    + exists h, (j + 1). lia.
  - rewrite (search_step_skip _ _ _ _ _ E) in H. inversion H; subst.
    split; [apply same_maze_refl|exact R].
Qed.

Lemma search_loop_cons fuel i j rest b x y st :
  search_loop fuel ((i, j) :: rest) b x y st =
  match search_step fuel i j b st with
  | Some (b', ((x', y'), st')) => search_loop fuel rest b' x' y' st'
  | None => None
  end.
Proof.
  cbn [search_loop]. destruct (search_step fuel i j b st) as [[b' [[x' y'] st']]|]; reflexivity.
Qed.

(** The search loop returns to the grid it started from. *)
Lemma search_loop_ready h w fuel pairs :
  forall b x y st b' xy st',
    ready h w st -> in_range w pairs ->
    search_loop fuel pairs b x y st = Some (b', (xy, st')) ->
    same_maze st st' /\ ready h w st'.
Proof.
  induction pairs as [|[i j] rest IH]; intros b x y st b' xy st' R Hr H.
  - inversion H; subst. split; [apply same_maze_refl|exact R].
  - rewrite search_loop_cons in H.
    destruct (search_step fuel i j b st) as [[b1 [[x1 y1] s1]]|] eqn:St; [|discriminate].
    destruct (Hr i j (or_introl eq_refl)) as [Hi Hj].
    destruct (search_step_post _ _ _ _ _ _ _ _ _ _ R Hi Hj St) as [M1 R1].
    destruct (IH _ _ _ _ _ _ _ R1 ltac:(intros a c Hin; apply Hr; right; exact Hin) H) as [M2 R2].
    split; [eapply same_maze_trans; eauto|exact R2].
Qed.

Lemma search_step_record fuel i j b st b' xy st' :
  search_step fuel i j b st = Some (b', (xy, st')) ->
  lex_le (metrics b) (metrics b') /\
  (evaluated st (2 * (i + 1)) (2 * (j + 1)) = true ->
   lex_le (path_len st', turn_cnt st') (metrics b') /\
   ((b' = b /\ lex_le (path_len st', turn_cnt st') (metrics b)) \/
    (entry b' = ((2 * (i + 1), 2 * (j + 1)), (path_len st', turn_cnt st')) /\
     lex_lt (metrics b) (metrics b')))) /\
  (evaluated st (2 * (i + 1)) (2 * (j + 1)) = false -> b' = b).
Proof.
  intros H.
  destruct (evaluated st (2 * (i + 1)) (2 * (j + 1))) eqn:E.
  - rewrite (search_step_trial _ _ _ _ _ E) in H.
    destruct (solve_maze _ _ _ _) as [[xy1 s1]|] eqn:Sv; [|discriminate].
    injection H as Hb Hx Hs. subst b' xy st'.
    change (match i + 1 with 0 => 0 | Z.pos p => Z.pos p~0 | Z.neg p => Z.neg p~0 end)
      with (2 * (i + 1)) in *.
    change (match j + 1 with 0 => 0 | Z.pos p => Z.pos p~0 | Z.neg p => Z.neg p~0 end)
      with (2 * (j + 1)) in *.
    destruct (after_trial_metrics b s1) as [-> ->].
    destruct (record_trial_spec b (2 * (i + 1)) (2 * (j + 1)) (path_len s1) (turn_cnt s1))
      as (L1 & L2 & [[Eb L3]|[Eb L3]]).
    + rewrite Eb in *. split; [exact L1|].
      split; [|discriminate]. intros _. split; [exact L2|]. left. split; [reflexivity|exact L3].
    + rewrite Eb in *. split; [exact L1|].
      split; [|discriminate]. intros _. split; [exact L2|]. right. split; [reflexivity|exact L3].
  - rewrite (search_step_skip _ _ _ _ _ E) in H. inversion H; subst.
    split; [apply lex_le_refl|]. split; [discriminate|reflexivity].
Qed.

(** The loop keeps the lexicographically greatest trial, the first one
    among equals. *)
Lemma search_loop_max fuel pairs :
  forall b x y st b' xy st',
    search_loop fuel pairs b x y st = Some (b', (xy, st')) ->
    lex_le (metrics b) (metrics b') /\
    (forall t, In t (search_log fuel pairs b st) -> lex_le (snd t) (metrics b')) /\
    ((b' = b) \/
     (lex_lt (metrics b) (metrics b') /\
      exists l1 l2, search_log fuel pairs b st = l1 ++ entry b' :: l2 /\
        forall t, In t l1 -> lex_lt (snd t) (metrics b'))).
Proof.
  induction pairs as [|[i j] rest IH]; intros b x y st b' xy st' H.
  - inversion H; subst. cbn [search_log].
    split; [apply lex_le_refl|]. split; [intros t []|left; reflexivity].
  - rewrite search_loop_cons in H. cbn [search_log].
    destruct (search_step fuel i j b st) as [[b1 [[x1 y1] s1]]|] eqn:St; [|discriminate].
    destruct (search_step_record _ _ _ _ _ _ _ _ St) as (L1 & Ev & Sk).
    destruct (IH _ _ _ _ _ _ _ H) as (L2 & All & Win).
    split; [eapply lex_le_trans; eauto|].
    destruct (evaluated st (2 * (i + 1)) (2 * (j + 1))) eqn:E.
    + destruct (Ev eq_refl) as (L3 & Rec). split.
      * intros t [<-|Hin]; [cbn [snd]; eapply lex_le_trans; eauto|apply All; exact Hin].
      * destruct Win as [->|(Lt & l1 & l2 & El & Hl)].
        -- destruct Rec as [[-> _]|[En Lt]]; [left; reflexivity|].
           right. split; [exact Lt|]. exists [], (search_log fuel rest b1 s1).
           split; [rewrite En; reflexivity|intros t []].
        -- right. split.
           ++ unfold lex_lt, lex_le in *. lia.
           ++ exists (((2 * (i + 1), 2 * (j + 1)), (path_len s1, turn_cnt s1)) :: l1), l2.
              split; [rewrite El; reflexivity|].
              intros t [<-|Hin]; [|apply Hl; exact Hin]. cbn [snd].
              unfold lex_lt, lex_le in *. lia.
    + rewrite (Sk eq_refl) in *. cbn [app]. split; [exact All|exact Win].
Qed.

Lemma search_step_names w fuel i j b st b' xy st' :
  0 <= i < w -> 0 <= j < w -> names_rooms w b ->
  search_step fuel i j b st = Some (b', (xy, st')) -> names_rooms w b'.
Proof.
  intros Hi Hj Nb H.
  destruct (evaluated st (2 * (i + 1)) (2 * (j + 1))) eqn:E.
  - rewrite (search_step_trial _ _ _ _ _ E) in H.
    destruct (solve_maze _ _ _ _) as [[xy1 s1]|] eqn:Sv; [|discriminate].
    injection H as Hb Hx Hs. subst b'.
    unfold record_trial. destruct (better _ _ _); [|exact Nb].
    exists i, j. cbn. auto.
  - rewrite (search_step_skip _ _ _ _ _ E) in H. inversion H; subst. exact Nb.
Qed.

Lemma search_loop_names w fuel pairs :
  forall b x y st b' xy st',
    in_range w pairs -> names_rooms w b ->
    search_loop fuel pairs b x y st = Some (b', (xy, st')) -> names_rooms w b'.
Proof.
  induction pairs as [|[i j] rest IH]; intros b x y st b' xy st' Hr Nb H.
  - inversion H; subst. exact Nb.
  - rewrite search_loop_cons in H.
    destruct (search_step fuel i j b st) as [[b1 [[x1 y1] s1]]|] eqn:St; [|discriminate].
    destruct (Hr i j (or_introl eq_refl)) as [Hi Hj].
    pose proof (search_step_names _ _ _ _ _ _ _ _ _ Hi Hj Nb St) as N1.
    eapply IH; [|exact N1|exact H]. intros a c Hin. apply Hr. right. exact Hin.
Qed.

Lemma names_rooms_init w : 1 <= w -> names_rooms w (mkBest 0 0 2 2).
Proof. intros H. exists 0, 0. cbn. lia. Qed.

Lemma in_range_index_pairs w : in_range w (index_pairs w w).
Proof. intros i j H. apply in_index_pairs in H. exact H. Qed.

Lemma names_rooms_rooms h w b :
  1 <= h -> names_rooms w b ->
  room h w 2 (best_start b) /\ room h w (2 * h) (best_finish b).
Proof.
  intros Hh (i & j & Hi & Hj & -> & ->). split.
  - exists 1, (i + 1). lia.
  - exists h, (j + 1). lia.
Qed.

(** [search_best_openings] returns the maze it was given with the two
    openings of the best pair. *)
Lemma search_best_openings_post h w fuel x y st xy st' :
  ready h w st ->
  search_best_openings fuel x y st = Some (xy, st') ->
  exists b,
    names_rooms w b /\
    xy = (2, best_start b) /\
    placed h w (best_start b) (best_finish b) st' /\
    arena h w (best_start b) (best_finish b) (maze st') /\
    (forall i j, maze st' i j =
       grid_set (grid_set (maze st) 1 (best_start b) PATH) (2 * h + 1) (best_finish b) PATH i j).
Proof.
  intros R H. unfold search_best_openings in H.
  rewrite (rd_width _ _ _ R) in H.
  destruct (search_loop fuel (index_pairs w w) (mkBest 0 0 2 2) x y st)
    as [[b [xy1 s1]]|] eqn:L; [|discriminate].
  injection H as Hxy Hst.
  destruct (search_loop_ready h w _ _ _ _ _ _ _ _ _ R (in_range_index_pairs w) L) as [M R1].
  pose proof (search_loop_names w _ _ _ _ _ _ _ _ _ (in_range_index_pairs w)
                (names_rooms_init w (rd_cols _ _ _ R)) L) as Nb.
  destruct (names_rooms_rooms h w b (rd_rows _ _ _ R) Nb) as [Rs Re].
  exists b. split; [exact Nb|].
  assert (Es : st' = snd (create_openings (best_start b) (best_finish b) s1))
    by (rewrite <- Hst; reflexivity).
  split.
  { rewrite <- Hxy. unfold create_openings. cbv zeta.
    cbn [fst beg_x beg_y wr set_maze set_beg_y set_end_y].
    rewrite (rd_beg_x _ _ _ R1). reflexivity. }
  rewrite Es. split; [apply create_openings_placed; exact R1|].
  split; [apply create_openings_arena; assumption|].
  intros i j. rewrite (create_openings_maze h w s1 _ _ R1).
  apply grid_set_ext. clear i j. intros i j. apply grid_set_ext. exact M.
Qed.

(** The maze [create_maze] returns. *)
Lemma create_maze_post fuel st xy st' :
  create_maze fuel st = Some (xy, st') ->
  1 <= height st -> 1 <= width st ->
  exists s e,
    xy = (2, s) /\
    placed (height st) (width st) s e st' /\
    arena (height st) (width st) s e (maze st').
Proof.
  unfold create_maze. intros H Hh Hw.
  destruct (carve_phase fuel st) as [[[x y] s1]|] eqn:C; [|discriminate].
  destruct (push_all fuel s1) as [s2|] eqn:P; [|discriminate].
  pose proof (carve_phase_ready _ _ _ _ C Hh Hw) as R1.
  pose proof (push_all_ready _ _ _ _ _ P R1) as R2.
  destruct (search_best_openings_post _ _ _ _ _ _ _ _ R2 H) as (b & Nb & E & Pl & A & _).
  exists (best_start b), (best_finish b). auto.
Qed.

Lemma main_loop_S fuel n draws k st :
  main_loop fuel (S n) draws k st =
  match round fuel (draws k) st with
  | Some st1 =>
      if max_path_length st1 >=? min_len st1 then Some st1
      else main_loop fuel n draws (S k) st1
  | None => None
  end.
Proof.
  cbn [main_loop]. unfold round. cbv zeta.
  destruct (create_maze fuel _) as [[[x y] s1]|]; [|reflexivity].
  destruct (solve_maze fuel x y s1) as [[xy s2]|]; reflexivity.
Qed.

(** A round on a 2 by 3 maze with the comb draws and minimum length 5. *)
Lemma comb_round st :
  height st = 2 -> width st = 3 -> depth st = 0 -> min_len st = 5 ->
  exists st1, round 40 comb_draws st = Some st1 /\
    height st1 = 2 /\ width st1 = 3 /\ depth st1 = 0 /\ min_len st1 = 5 /\
    max_path_length st1 = 4.
Proof.
  destruct st; cbn [height width depth min_len]; intros -> -> -> ->.
  vm_compute. eexists. split; [reflexivity|]. repeat split.
Qed.

Lemma comb_never n :
  forall k st, height st = 2 -> width st = 3 -> depth st = 0 -> min_len st = 5 ->
  main_loop 40 n (fun _ => comb_draws) k st = None.
Proof.
  induction n as [|n IH]; intros k st Hh Hw Hd Hm; [reflexivity|].
  rewrite main_loop_S.
  destruct (comb_round st Hh Hw Hd Hm) as (s1 & -> & Hh1 & Hw1 & Hd1 & Hm1 & Hp).
  rewrite Hp, Hm1. cbn. apply IH; assumption.
Qed.

Lemma carved_state_ready fuel st0 xy s s' :
  carve_phase fuel st0 = Some (xy, s) -> push_all fuel s = Some s' ->
  1 <= height st0 -> 1 <= width st0 ->
  carved_state fuel st0 = s' /\ ready (height st0) (width st0) s'.
Proof.
  intros C P Hh Hw. unfold carved_state. rewrite C, P. split; [reflexivity|].
  eapply push_all_ready; [exact P|]. eapply carve_phase_ready; eauto.
Qed.







Lemma filter_same {A : Type} (f f' : A -> bool) (l : list A) :
  (forall b, In b l -> f' b = f b) -> filter f' l = filter f l.
Proof.
  induction l as [|c l IH]; intros H; [reflexivity|].
  cbn [filter]. rewrite (H c (or_introl eq_refl)), IH; [reflexivity|].
  intros b Hb. apply H. right. exact Hb.
Qed.

(** Switching the test on at one element of a list without repeats. *)
Lemma filter_switch_on {A : Type} (f f' : A -> bool) (a : A) (l : list A) :
  NoDup l -> In a l -> f a = false -> f' a = true ->
  (forall b, In b l -> b <> a -> f' b = f b) ->
  length (filter f' l) = S (length (filter f l)).
Proof.
  induction l as [|c l IH]; intros Nd Hin Fa Fa' Hs; [destruct Hin|].
  inversion Nd as [|c' l' Nc Nd']; subst.
  cbn [filter]. destruct Hin as [->|Hin].
  - rewrite Fa, Fa'. cbn [length]. f_equal. f_equal. apply filter_same.
    intros b Hb. apply Hs; [right; exact Hb|]. intros ->. contradiction.
  - assert (Ne : c <> a) by (intros ->; contradiction).
    rewrite (Hs c (or_introl eq_refl) Ne).
    assert (E : length (filter f' l) = S (length (filter f l))).
    { apply IH; auto. intros b Hb Hn. apply Hs; [right; exact Hb|exact Hn]. }
    destruct (f c); cbn [length]; rewrite E; reflexivity.
Qed.

Lemma NoDup_map_inj {A B : Type} (f : A -> B) (l : list A) :
  (forall a b, f a = f b -> a = b) -> NoDup l -> NoDup (map f l).
Proof.
  intros Inj Nd. induction Nd as [|a l Na Nd IH]; cbn [map]; constructor; [|exact IH].
  intros H. apply in_map_iff in H. destruct H as (b & E & Hb).
  apply Inj in E. subst. contradiction.
Qed.

Lemma NoDup_zrange n : NoDup (zrange n).
Proof.
  unfold zrange. apply NoDup_map_inj; [|apply seq_NoDup].
  intros a b. apply Nat2Z.inj.
Qed.

Lemma NoDup_index_pairs h w : NoDup (index_pairs h w).
Proof.
  unfold index_pairs. pose proof (NoDup_zrange h) as Nh. pose proof (NoDup_zrange w) as Nw.
  induction (zrange h) as [|i l IH]; cbn [flat_map]; [constructor|].
  inversion Nh as [|i' l' Ni Nl]; subst.
  apply NoDup_app.
  - apply NoDup_map_inj; [|exact Nw]. intros a b E. inversion E. reflexivity.
  - apply IH. exact Nl.
  - intros [a b] H1 H2. apply in_map_iff in H1. destruct H1 as (j & E & _). inversion E; subst.
    apply in_flat_map in H2. destruct H2 as (i' & Hi' & H2).
    apply in_map_iff in H2. destruct H2 as (j' & E' & _). inversion E'; subst. contradiction.
Qed.

Lemma room_index h w x y :
  room h w x y <->
  exists ij, In ij (index_pairs h w) /\ x = 2 * (fst ij + 1) /\ y = 2 * (snd ij + 1).
Proof.
  split.
  - intros (a & b & Ha & Hb & -> & ->). exists (a - 1, b - 1). cbn [fst snd]. split.
    + apply in_index_pairs. lia.
    + lia.
  - intros ([a b] & Hin & -> & ->). apply in_index_pairs in Hin. cbn [fst snd].
    exists (a + 1), (b + 1). lia.
Qed.

Lemma count_rooms_ext h w g g' v :
  (forall x y, room h w x y -> g' x y = g x y) -> count_rooms h w g' v = count_rooms h w g v.
Proof.
  intros H. unfold count_rooms. f_equal. f_equal. apply filter_same.
  intros [a b] Hin. cbn [fst snd]. rewrite H; [reflexivity|].
  apply room_index. exists (a, b). auto.
Qed.

(** One more room holds [v]. *)
Lemma count_rooms_set h w g g' v x y :
  room h w x y -> g x y <> v -> g' x y = v ->
  (forall x' y', room h w x' y' -> (x' <> x \/ y' <> y) -> g' x' y' = g x' y') ->
  count_rooms h w g' v = count_rooms h w g v + 1.
Proof.
  intros R Ng Eg' Hs. unfold count_rooms.
  apply room_index in R. destruct R as ([a b] & Hin & -> & ->). cbn [fst snd] in *.
  rewrite (filter_switch_on
             (fun ij => g (2 * (fst ij + 1)) (2 * (snd ij + 1)) =? v)
             (fun ij => g' (2 * (fst ij + 1)) (2 * (snd ij + 1)) =? v)
             (a, b) (index_pairs h w) (NoDup_index_pairs h w) Hin).
  - lia.
  - cbn [fst snd]. apply Z.eqb_neq. exact Ng.
  - cbn [fst snd]. apply Z.eqb_eq. exact Eg'.
  - intros [a' b'] Hin' Ne. cbn [fst snd]. rewrite Hs; [reflexivity| |].
    + apply room_index. exists (a', b'). auto.
    + destruct (Z.eq_dec a' a), (Z.eq_dec b' b); subst; try lia. elim Ne. reflexivity.
Qed.

(** One room less holds [v]. *)
Lemma count_rooms_unset h w g g' v x y :
  room h w x y -> g x y = v -> g' x y <> v ->
  (forall x' y', room h w x' y' -> (x' <> x \/ y' <> y) -> g' x' y' = g x' y') ->
  count_rooms h w g' v = count_rooms h w g v - 1.
Proof.
  intros R Eg Ng' Hs.
  rewrite (count_rooms_set h w g' g v x y R Ng' Eg); [lia|].
  intros x' y' R' Ne. symmetry. apply Hs; assumption.
Qed.

Lemma count_rooms_nonneg h w g v : 0 <= count_rooms h w g v.
Proof. unfold count_rooms. lia. Qed.

Lemma count_rooms_pos h w g v x y : room h w x y -> g x y = v -> 1 <= count_rooms h w g v.
Proof.
  intros R E. unfold count_rooms.
  apply room_index in R. destruct R as ([a b] & Hin & -> & ->). cbn [fst snd] in *.
  assert (F : In (a, b) (filter (fun ij => g (2 * (fst ij + 1)) (2 * (snd ij + 1)) =? v)
                           (index_pairs h w))).
  { apply filter_In. split; [exact Hin|]. cbn [fst snd]. apply Z.eqb_eq. exact E. }
  destruct (filter _ _); [destruct F|cbn [length]; lia].
Qed.

Lemma count_rooms_zero h w g v :
  (forall x y, room h w x y -> g x y <> v) -> count_rooms h w g v = 0.
Proof.
  intros H. unfold count_rooms.
  assert (E : filter (fun ij => g (2 * (fst ij + 1)) (2 * (snd ij + 1)) =? v) (index_pairs h w)
              = []).
  { rewrite (filter_same (fun _ => false)).
    - induction (index_pairs h w) as [|c l IH]; [reflexivity|exact IH].
    - intros [a b] Hin. cbn [fst snd]. apply Z.eqb_neq. apply H.
      apply room_index. exists (a, b). auto. }
  rewrite E. reflexivity.
Qed.

Lemma frame_path_len st st' : frame st st' -> path_len st' = path_len st.
Proof.
  intros F. change (path_len (fixed st') = path_len (fixed st)). rewrite F. reflexivity.
Qed.

Lemma mark_cell_path_len st x y v : path_len (mark_cell st x y v) = path_len st.
Proof. unfold mark_cell. destruct (negb _); reflexivity. Qed.

Section Count.
Variables (h w s e : Z) (g0 : grid).
Hypothesis A : arena h w s e g0.

(** Marking the passage and the room of a step changes one room. *)
Lemma step_rooms g x y dx dy v x' y' :
  room h w x y -> is_step dx dy -> room h w x' y' ->
  (x' <> x + dx \/ y' <> y + dy) ->
  grid_set (grid_set g (x + Z.quot dx 2) (y + Z.quot dy 2) v) (x + dx) (y + dy) v x' y' = g x' y'.
Proof.
  intros R S R' Ne. rewrite grid_set_neq by exact Ne. apply grid_set_neq.
  destruct (cell_dec x' y' (x + Z.quot dx 2) (y + Z.quot dy 2)) as [[E1 E2]|N]; [|exact N].
  exfalso. eapply (passage_not_room h w x y dx dy x' y'); eauto.
Qed.

Lemma follow_path_loop_count fuel n :
  forall last x y st x' y' st',
    follow_path_loop fuel n last x y st = Some ((x', y'), st') ->
    solving h w s e g0 st x y -> maze st x y = SOLVED ->
    path_len st = count_rooms h w (maze st) SOLVED - 1 ->
    (room h w x' y' ->
     maze st' x' y' = SOLVED /\ path_len st' = count_rooms h w (maze st') SOLVED - 1) /\
    (x' = 2 * h + 2 ->
     path_len st' = count_rooms h w (maze st') SOLVED /\
     1 <= count_rooms h w (maze st') SOLVED).
Proof.
  induction n as [|n IH]; intros last x y st x' y' st' H Sv Ps Pl; [discriminate|].
  pose proof (sv_room _ _ _ _ _ _ _ _ Sv) as R.
  assert (Stay : forall s1, (forall i j, maze s1 i j = maze st i j) -> path_len s1 = path_len st ->
            (room h w x y ->
             maze s1 x y = SOLVED /\ path_len s1 = count_rooms h w (maze s1) SOLVED - 1) /\
            (x = 2 * h + 2 ->
             path_len s1 = count_rooms h w (maze s1) SOLVED /\
             1 <= count_rooms h w (maze s1) SOLVED)).
  { intros s1 M1 L1. split.
    - intros _. rewrite M1, L1, (count_rooms_ext h w (maze st) (maze s1)); auto.
    - intros Ex. exfalso. destruct R as (a & b & Ha & Hb & Ea & Eb). lia. }
  cbn [follow_path_loop] in H.
  destruct ((beg_x st <=? x) && (x <=? end_x st));
    [|injection H as <- <- <-; apply Stay; auto].
  destruct (find_directions fuel x y PATH NO_SEARCH st) as [[num s1]|] eqn:F; [|discriminate].
  destruct (find_directions_post _ _ _ _ _ _ _ _ F (or_intror eq_refl))
    as ((Fr & M & N0 & V) & _).
  pose proof (frame_geom _ _ Fr) as G1.
  pose proof (frame_path_len _ _ Fr) as L1.
  destruct (Z.eqb_spec num 0) as [->|Nz]; cbn [negb] in H.
  { injection H as <- <- <-. apply Stay; auto. }
  destruct (V 0 ltac:(lia)) as [S [Oh Of]].
  set (d := dir_tbl s1 0) in *.
  cbv zeta in H.
  assert (K : forall last' sX,
             (forall i j, maze sX i j =
                grid_set (grid_set (maze st) (x + Z.quot (dt_x d) 2) (y + Z.quot (dt_y d) 2) SOLVED)
                         (x + dt_x d) (y + dt_y d) SOLVED i j) ->
             same_geom st sX -> path_len sX = path_len st + 1 ->
             follow_path_loop fuel n last' (x + dt_x d) (y + dt_y d) sX = Some ((x', y'), st') ->
             (room h w x' y' ->
              maze st' x' y' = SOLVED /\ path_len st' = count_rooms h w (maze st') SOLVED - 1) /\
             (x' = 2 * h + 2 ->
              path_len st' = count_rooms h w (maze st') SOLVED /\
              1 <= count_rooms h w (maze st') SOLVED)).
  { intros last' sX MX GX LX HX.
    destruct (open_step h w s e g0 A st x y _ _ Sv S Oh) as [(Rn & Nr & Gp)|(Ex & Ey & Edx & Edy)].
    - eapply IH; [exact HX| | |].
      + eapply (mark_step h w s e g0 A st sX x y _ _ SOLVED); eauto.
      + rewrite MX. apply grid_set_eq.
      + rewrite LX, Pl.
        rewrite (count_rooms_set h w (maze st) (maze sX) SOLVED (x + dt_x d) (y + dt_y d));
          [lia|exact Rn|rewrite Of; discriminate|rewrite MX; apply grid_set_eq|].
        intros a b Rab Ne. rewrite MX. apply step_rooms; assumption.
    - assert (Fin : finished h w s e g0 sX).
      { rewrite Ex in Sv. eapply (mark_exit h w s e g0 A st sX y Sv Ey); [|exact GX].
        intros i j. rewrite MX. rewrite Edx, Edy, Ex, Ey. quot2.
        replace (2 * h + 2) with (2 * h + 1 + 1) by lia.
        replace (e + 0) with e by lia.
        replace (2 * h + 1 + 1) with (2 * h + 2) by lia. reflexivity. }
      destruct n as [|n']; [discriminate|]. cbn [follow_path_loop] in HX.
      destruct Fin as [Pl' Mk]. pose proof Pl' as (_ & _ & _ & _ & Eb & Ee & _ & _).
      assert (Ec : (beg_x sX <=? x + dt_x d) && (x + dt_x d <=? end_x sX) = false).
      { apply andb_false_iff. right. apply Z.leb_gt. lia. }
      rewrite Ec in HX. injection HX as <- <- <-.
      assert (Cx : count_rooms h w (maze sX) SOLVED = count_rooms h w (maze st) SOLVED).
      { apply count_rooms_ext. intros a b Rab. rewrite MX.
        apply step_rooms; auto. rewrite Ex, Edx.
        destruct Rab as (a' & b' & Ha' & Hb' & -> & ->). lia. }
      split.
      + intros (a' & b' & Ha' & Hb' & Ea' & Eb'). exfalso. lia.
      + intros _. rewrite Cx, LX, Pl. split; [lia|].
        apply (count_rooms_pos h w (maze st) SOLVED x y R Ps). }
  destruct (negb (last =? dt_heading d)).
  - eapply K; [| | |exact H].
    + intros i j. cbn [maze set_turn_cnt set_path_len]. apply marks_maze. exact M.
    + eapply same_geom_trans; [apply (marks_geom st s1); exact G1|]. reflexivity.
    + cbn [path_len set_turn_cnt set_path_len]. rewrite !mark_cell_path_len, L1. reflexivity.
  - eapply K; [| | |exact H].
    + intros i j. cbn [maze set_turn_cnt set_path_len]. apply marks_maze. exact M.
    + eapply same_geom_trans; [apply (marks_geom st s1); exact G1|]. reflexivity.
    + cbn [path_len set_turn_cnt set_path_len]. rewrite !mark_cell_path_len, L1. reflexivity.
Qed.

Lemma back_track_path_loop_count fuel n :
  forall last x y st x' y' st',
    back_track_path_loop fuel n last x y st = Some ((x', y'), st') ->
    solving h w s e g0 st x y -> maze st x y = TRIED ->
    path_len st = count_rooms h w (maze st) SOLVED ->
    maze st' x' y' = TRIED /\ path_len st' = count_rooms h w (maze st') SOLVED.
Proof.
  induction n as [|n IH]; intros last x y st x' y' st' H Sv Ps Pl; [discriminate|].
  pose proof (sv_room _ _ _ _ _ _ _ _ Sv) as R.
  assert (Stay : forall s1, (forall i j, maze s1 i j = maze st i j) -> path_len s1 = path_len st ->
            maze s1 x y = TRIED /\ path_len s1 = count_rooms h w (maze s1) SOLVED).
  { intros s1 M1 L1. rewrite M1, L1, (count_rooms_ext h w (maze st) (maze s1)); auto. }
  cbn [back_track_path_loop] in H.
  destruct (find_directions fuel x y PATH NO_SEARCH st) as [[np s1]|] eqn:F; [|discriminate].
  destruct (find_directions_post _ _ _ _ _ _ _ _ F (or_intror eq_refl))
    as ((Fr & M & _ & _) & _).
  pose proof (frame_geom _ _ Fr) as G1.
  pose proof (frame_path_len _ _ Fr) as L1.
  assert (Sv1 : solving h w s e g0 s1 x y) by (eapply solving_ext; eauto).
  destruct (np =? 0); [|injection H as <- <- <-; apply Stay; auto].
  destruct (find_directions fuel x y SOLVED NO_SEARCH s1) as [[ns s2]|] eqn:F2; [|discriminate].
  destruct (find_directions_post _ _ _ _ _ _ _ _ F2 (or_intror eq_refl))
    as ((Fr2 & M2 & N0 & V) & _).
  pose proof (frame_geom _ _ Fr2) as G2.
  pose proof (frame_path_len _ _ Fr2) as L2.
  destruct (Z.eqb_spec ns 0) as [->|Nz]; cbn [negb] in H.
  { injection H as <- <- <-. apply Stay.
    - intros i j. rewrite M2. apply M.
    - congruence. }
  destruct (V 0 ltac:(lia)) as [S [Oh Of]].
  set (d := dir_tbl s2 0) in *.
  cbv zeta in H.
  destruct (solved_step h w s e g0 A s1 x y _ _ Sv1 S Oh Of) as (Rn & Nr & Gp).
  assert (K : forall last' sX,
             (forall i j, maze sX i j =
                grid_set (grid_set (maze s1) (x + Z.quot (dt_x d) 2) (y + Z.quot (dt_y d) 2) TRIED)
                         (x + dt_x d) (y + dt_y d) TRIED i j) ->
             same_geom s1 sX -> path_len sX = path_len st - 1 ->
             back_track_path_loop fuel n last' (x + dt_x d) (y + dt_y d) sX = Some ((x', y'), st') ->
             maze st' x' y' = TRIED /\ path_len st' = count_rooms h w (maze st') SOLVED).
  { intros last' sX MX GX LX HX.
    eapply IH; [exact HX| | |].
    - eapply (mark_step h w s e g0 A s1 sX x y _ _ TRIED); eauto.
    - rewrite MX. apply grid_set_eq.
    - rewrite LX, Pl.
      rewrite (count_rooms_unset h w (maze s1) (maze sX) SOLVED (x + dt_x d) (y + dt_y d));
        [|exact Rn|exact Of|rewrite MX, grid_set_eq; discriminate|].
      + rewrite (count_rooms_ext h w (maze st) (maze s1)); auto.
      + intros a b Rab Ne. rewrite MX. apply step_rooms; assumption. }
  destruct (negb (last =? dt_heading d)).
  - eapply K; [| | |exact H].
    + intros i j. cbn [maze set_turn_cnt set_path_len]. apply marks_maze. exact M2.
    + eapply same_geom_trans; [apply (marks_geom s1 s2); exact G2|]. reflexivity.
    + cbn [path_len set_turn_cnt set_path_len]. rewrite !mark_cell_path_len, L2, L1. reflexivity.
  - eapply K; [| | |exact H].
    + intros i j. cbn [maze set_turn_cnt set_path_len]. apply marks_maze. exact M2.
    + eapply same_geom_trans; [apply (marks_geom s1 s2); exact G2|]. reflexivity.
    + cbn [path_len set_turn_cnt set_path_len]. rewrite !mark_cell_path_len, L2, L1. reflexivity.
Qed.

Lemma mark_room_count st x y v :
  room h w x y ->
  forall a b, room h w a b -> (a <> x \/ b <> y) ->
    maze (mark_cell st x y v) a b = maze st a b.
Proof. intros R a b Rab Ne. rewrite mark_cell_maze. apply grid_set_neq. exact Ne. Qed.

Lemma follow_path_count fuel x y st done x' y' st' :
  follow_path fuel x y st = Some (done, ((x', y'), st')) ->
  solving h w s e g0 st x y -> maze st x y <> SOLVED ->
  path_len st = count_rooms h w (maze st) SOLVED ->
  (done = false ->
   maze st' x' y' = SOLVED /\ path_len st' = count_rooms h w (maze st') SOLVED - 1) /\
  (done = true ->
   path_len st' = count_rooms h w (maze st') SOLVED /\
   1 <= count_rooms h w (maze st') SOLVED).
Proof.
  unfold follow_path. intros H Sv Ns Pl. cbv zeta in H.
  pose proof (sv_room _ _ _ _ _ _ _ _ Sv) as R.
  set (s1 := mark_cell (set_path_depth st 0) x y SOLVED) in *.
  destruct (follow_path_loop fuel fuel 0 x y s1) as [[[x1 y1] s2]|] eqn:L; [|discriminate].
  injection H as <- <- <- <-.
  assert (Sv1 : solving h w s e g0 s1 x y).
  { eapply mark_room; [exact A|exact Sv|left; reflexivity| |].
    - intros i j. unfold s1. rewrite mark_cell_maze. reflexivity.
    - eapply same_geom_trans; [|apply mark_cell_geom]. reflexivity. }
  assert (P1 : maze s1 x y = SOLVED) by (unfold s1; rewrite mark_cell_maze; apply grid_set_eq).
  assert (C1 : path_len s1 = count_rooms h w (maze s1) SOLVED - 1).
  { unfold s1 at 1. rewrite mark_cell_path_len. cbn [path_len set_path_depth]. rewrite Pl.
    rewrite (count_rooms_set h w (maze st) (maze s1) SOLVED x y R Ns P1); [lia|].
    intros a b Rab Ne. unfold s1. rewrite mark_cell_maze. apply grid_set_neq. exact Ne. }
  destruct (follow_path_loop_count _ _ _ _ _ _ _ _ _ L Sv1 P1 C1) as [Kr Ke].
  destruct (follow_path_loop_post h w s e g0 A _ _ _ _ _ _ _ _ _ L Sv1) as [Sv2|[Fin Ex]].
  - pose proof (sv_room _ _ _ _ _ _ _ _ Sv2) as R2.
    destruct Sv2 as [(_ & _ & _ & _ & _ & Ee & _) _ _ _ _ (a & b & Ha & Hb & Ea & Eb)].
    split; [intros _; apply Kr; exact R2|].
    intros D. exfalso. rewrite Z.gtb_ltb in D. apply Z.ltb_lt in D. lia.
  - split; [|intros _; apply Ke; exact Ex].
    intros D. exfalso. destruct Fin as [(_ & _ & _ & _ & _ & Ee & _) _].
    rewrite Z.gtb_ltb in D. apply Z.ltb_ge in D. lia.
Qed.

Lemma back_track_path_count fuel x y st x' y' st' :
  back_track_path fuel x y st = Some ((x', y'), st') ->
  solving h w s e g0 st x y -> maze st x y = SOLVED ->
  path_len st = count_rooms h w (maze st) SOLVED - 1 ->
  maze st' x' y' = TRIED /\ path_len st' = count_rooms h w (maze st') SOLVED.
Proof.
  unfold back_track_path. intros H Sv Ps Pl. cbv zeta in H.
  pose proof (sv_room _ _ _ _ _ _ _ _ Sv) as R.
  set (s1 := mark_cell (set_path_depth st 0) x y TRIED) in *.
  assert (Sv1 : solving h w s e g0 s1 x y).
  { eapply mark_room; [exact A|exact Sv|right; reflexivity| |].
    - intros i j. unfold s1. rewrite mark_cell_maze. reflexivity.
    - eapply same_geom_trans; [|apply mark_cell_geom]. reflexivity. }
  assert (P1 : maze s1 x y = TRIED) by (unfold s1; rewrite mark_cell_maze; apply grid_set_eq).
  apply (back_track_path_loop_count _ _ _ _ _ _ _ _ _ H Sv1 P1).
  unfold s1 at 1. rewrite mark_cell_path_len. cbn [path_len set_path_depth]. rewrite Pl.
  rewrite (count_rooms_unset h w (maze st) (maze s1) SOLVED x y R Ps); [lia| |].
  - rewrite P1. discriminate.
  - intros a b Rab Ne. unfold s1. rewrite mark_cell_maze. apply grid_set_neq. exact Ne.
Qed.

Lemma solve_maze_loop_count fuel n :
  forall x y st x' y' st',
    solve_maze_loop fuel n x y st = Some ((x', y'), st') ->
    solving h w s e g0 st x y -> maze st x y <> SOLVED ->
    path_len st = count_rooms h w (maze st) SOLVED ->
    path_len st' = count_rooms h w (maze st') SOLVED /\
    1 <= count_rooms h w (maze st') SOLVED.
Proof.
  induction n as [|n IH]; intros x y st x' y' st' H Sv Ns Pl; [discriminate|].
  cbn [solve_maze_loop] in H.
  destruct (follow_path fuel x y st) as [[done [[x1 y1] s1]]|] eqn:F; [|discriminate].
  destruct (follow_path_count _ _ _ _ _ _ _ _ F Sv Ns Pl) as [Kf Kt].
  destruct (follow_path_post h w s e g0 A _ _ _ _ _ _ _ _ F Sv) as [[-> Sv1]|[-> Fin]].
  - destruct (Kf eq_refl) as [P1 C1].
    destruct (back_track_path fuel x1 y1 s1) as [[[x2 y2] s2]|] eqn:B; [|discriminate].
    destruct (back_track_path_count _ _ _ _ _ _ _ B Sv1 P1 C1) as [P2 C2].
    eapply IH; [exact H| | |exact C2].
    + eapply back_track_path_post; eauto.
    + rewrite P2. discriminate.
  - injection H as <- <- <-. apply Kt. reflexivity.
Qed.

(** When [solve_maze] returns, [path_len] is the number of rooms that are
    Solved, and there is one at least. *)
Lemma solve_maze_count fuel st x' y' st' :
  placed h w s e st -> (forall i j, maze st i j = g0 i j) ->
  solve_maze fuel 2 s st = Some ((x', y'), st') ->
  path_len st' = count_rooms h w (maze st') SOLVED /\ 1 <= path_len st'.
Proof.
  intros P M H. unfold solve_maze in H. cbv zeta in H.
  cbn [beg_x beg_y end_x end_y set_turn_cnt set_path_len] in H.
  set (s1 := wr _ _ _ SOLVED) in H.
  destruct (solve_maze_loop fuel fuel 2 s s1) as [[[x2 y2] s2]|] eqn:L; [|discriminate].
  injection H as <- <- <-.
  pose proof P as (_ & _ & _ & _ & Eb & Ee & Es & Ef).
  pose proof (height_pos h w s e g0 A) as Hh.
  pose proof (ar_start _ _ _ _ _ A) as Rs.
  assert (M1 : forall i j, maze s1 i j = grid_set g0 1 s SOLVED i j).
  { intros i j. unfold s1, wr. cbn [maze set_maze set_turn_cnt set_path_len].
    rewrite Eb, Es. replace (2 - 1) with 1 by lia. apply grid_set_ext. exact M. }
  assert (Sv : solving h w s e g0 s1 2 s).
  { destruct Rs as (a & b & Ha & Hb & Ea & Eb').
    constructor.
    - eapply placed_geom; [|exact P]. reflexivity.
    - intros i j. rewrite M1.
      destruct (grid_set_cases g0 1 s SOLVED i j) as [(-> & -> & ->)|(_ & ->)]; [|auto].
      right. split; [unfold in_grid; lia|]. split; [apply (ar_entry _ _ _ _ _ A)|auto].
    - rewrite M1. apply grid_set_eq.
    - rewrite M1, grid_set_neq by lia. apply (ar_exit _ _ _ _ _ A).
    - intros i j Bd. rewrite M1, grid_set_neq; [apply (ar_border _ _ _ _ _ A _ _ Bd)|].
      unfold on_border in Bd. lia.
    - exists a, b. auto. }
  assert (Rm : forall a b, room h w a b -> maze s1 a b = PATH).
  { intros a b Rab. rewrite M1, grid_set_neq; [apply (ar_rooms _ _ _ _ _ A _ _ Rab)|].
    destruct Rab as (a' & b' & _ & _ & -> & ->). lia. }
  assert (N1 : maze s1 2 s <> SOLVED) by (rewrite (Rm _ _ Rs); discriminate).
  assert (Z1 : path_len s1 = count_rooms h w (maze s1) SOLVED).
  { unfold s1 at 1. unfold wr. cbn [path_len set_maze set_turn_cnt set_path_len].
    symmetry. apply count_rooms_zero. intros a b Rab. rewrite (Rm _ _ Rab). discriminate. }
  destruct (solve_maze_loop_count _ _ _ _ _ _ _ _ L Sv N1 Z1) as [C2 Q2].
  - destruct (solve_maze_loop_post h w s e g0 A _ _ _ _ _ _ _ _ L Sv) as [P2 _].
    pose proof P2 as (_ & _ & _ & _ & _ & Ee2 & _ & Ef2).
    split.
    + cbn [path_len set_solves]. unfold wr. cbn [path_len set_maze maze set_solves].
      rewrite C2. apply count_rooms_ext. intros a b Rab. symmetry.
      apply grid_set_neq. rewrite Ee2. destruct Rab as (a' & b' & _ & _ & -> & ->). lia.
    + cbn [path_len set_solves]. unfold wr. cbn [path_len set_maze]. lia.
Qed.

End Count.

(** A trial records a path of one room at least. *)
Lemma search_step_length h w fuel i j b st b' xy st' :
  ready h w st -> 0 <= i < w -> 0 <= j < w ->
  evaluated st (2 * (i + 1)) (2 * (j + 1)) = true ->
  search_step fuel i j b st = Some (b', (xy, st')) ->
  1 <= path_len st'.
Proof.
  intros R Hi Hj E H.
  rewrite (search_step_trial _ _ _ _ _ E) in H.
  rewrite (rd_beg_x _ _ _ R) in H.
  destruct (solve_maze _ _ _ _) as [[[x1 y1] s1]|] eqn:Sv; [|discriminate].
  inversion H; subst; clear H.
  pose proof (rd_rows _ _ _ R) as Hh.
  assert (Rs : room h w 2 (2 * (i + 1))) by (exists 1, (i + 1); lia).
  assert (Re : room h w (2 * h) (2 * (j + 1))) by (exists h, (j + 1); lia).
  destruct (after_trial_metrics b s1) as [-> _].
  eapply (solve_maze_count h w (2 * (i + 1)) (2 * (j + 1)) _
            (create_openings_arena h w st _ _ R Rs Re) fuel _ x1 y1 s1
            (create_openings_placed h w st _ _ R) (fun a c => eq_refl) Sv).
Qed.

Lemma search_log_lengths h w fuel pairs :
  forall b st, ready h w st -> in_range w pairs ->
    forall t, In t (search_log fuel pairs b st) -> 1 <= fst (snd t).
Proof.
  induction pairs as [|[i j] rest IH]; intros b st R Hr t Hin; [destruct Hin|].
  cbn [search_log] in Hin.
  destruct (search_step fuel i j b st) as [[b1 [xy1 s1]]|] eqn:St; [|destruct Hin].
  destruct (Hr i j (or_introl eq_refl)) as [Hi Hj].
  destruct (search_step_post _ _ _ _ _ _ _ _ _ _ R Hi Hj St) as [_ R1].
  apply in_app_or in Hin. destruct Hin as [Hin|Hin].
  - destruct (evaluated st (2 * (i + 1)) (2 * (j + 1))) eqn:E; [|destruct Hin].
    destruct Hin as [<-|[]]. cbn [fst snd].
    exact (search_step_length h w fuel i j b st b1 xy1 s1 R Hi Hj E St).
  - eapply (IH b1 s1 R1); [|exact Hin].
    intros a c Hac. apply Hr. right. exact Hac.
Qed.

Lemma index_pairs_head w : 1 <= w -> exists rest, index_pairs w w = (0, 0) :: rest.
Proof.
  intros Hw. unfold index_pairs, zrange.
  destruct (Z.to_nat w) as [|k] eqn:E; [lia|].
  cbn [seq map flat_map app]. eexists. reflexivity.
Qed.

(** In a finished maze the search ends on a pair it has tried, whose path
    has one room at least: the initial record (0, 0) is always beaten. *)
Lemma search_loop_winner h w fuel b' x y st xy st' :
  ready h w st ->
  search_loop fuel (index_pairs w w) (mkBest 0 0 2 2) x y st = Some (b', (xy, st')) ->
  1 <= best_path_len b' /\
  exists l1 l2,
    search_log fuel (index_pairs w w) (mkBest 0 0 2 2) st = l1 ++ entry b' :: l2 /\
    forall t, In t l1 -> lex_lt (snd t) (metrics b').
Proof.
  intros R L.
  destruct (search_loop_max _ _ _ _ _ _ _ _ _ L) as (_ & All & Win).
  pose proof (search_log_lengths h w fuel (index_pairs w w) (mkBest 0 0 2 2) st R
                (in_range_index_pairs w)) as Len.
  destruct (index_pairs_head w (rd_cols _ _ _ R)) as [rest Er].
  assert (Ne : exists t, In t (search_log fuel (index_pairs w w) (mkBest 0 0 2 2) st)).
  { rewrite Er in *. rewrite search_loop_cons in L. cbn [search_log].
    destruct (search_step fuel 0 0 (mkBest 0 0 2 2) st) as [[b1 [[x1 y1] s1]]|]; [|discriminate].
    assert (E : evaluated st (2 * (0 + 1)) (2 * (0 + 1)) = true).
    { change (2 * (0 + 1)) with 2. apply evaluated_spec.
      rewrite (rd_beg_x _ _ _ R), (rd_end_x _ _ _ R).
      pose proof (rd_rows _ _ _ R). pose proof (rd_cols _ _ _ R).
      split; left; apply (rd_ring _ _ _ R); unfold on_ring; lia. }
    rewrite E. eexists. left. reflexivity. }
  destruct Ne as [t Ht].
  pose proof (Len t Ht) as L1. pose proof (All t Ht) as L2.
  assert (B : 1 <= best_path_len b').
  { unfold lex_le, metrics in L2. cbn [fst snd] in L2. lia. }
  split; [exact B|].
  destruct Win as [->|(_ & l1 & l2 & El & Hl)]; [cbn [best_path_len] in B; lia|eauto].
Qed.

Lemma sf_frame st s1 : frame st s1 -> solver_fixed s1 = solver_fixed st.
Proof. unfold frame, solver_fixed. intros ->. reflexivity. Qed.

Lemma sf_path_len s v : solver_fixed (set_path_len s v) = solver_fixed s.
Proof. destruct s; reflexivity. Qed.

Lemma sf_turn_cnt s v : solver_fixed (set_turn_cnt s v) = solver_fixed s.
Proof. destruct s; reflexivity. Qed.

Lemma sf_solves s v : solver_fixed (set_solves s v) = solver_fixed s.
Proof. destruct s; reflexivity. Qed.

Lemma sf_path_depth s v : solver_fixed (set_path_depth s v) = solver_fixed s.
Proof. destruct s; reflexivity. Qed.

Lemma sf_wr s x y v : solver_fixed (wr s x y v) = solver_fixed s.
Proof. destruct s; reflexivity. Qed.

Lemma sf_mark_cell s x y v : solver_fixed (mark_cell s x y v) = solver_fixed s.
Proof. unfold mark_cell. destruct (negb _); [apply sf_wr|reflexivity]. Qed.

Ltac sf_simpl :=
  repeat first [rewrite sf_path_len | rewrite sf_turn_cnt | rewrite sf_solves
               | rewrite sf_path_depth | rewrite sf_wr | rewrite sf_mark_cell].

Lemma sf_max_path_length st st' :
  solver_fixed st' = solver_fixed st -> max_path_length st' = max_path_length st.
Proof.
  intros E. change (max_path_length (solver_fixed st') = max_path_length (solver_fixed st)).
  rewrite E. reflexivity.
Qed.

Lemma follow_path_loop_fixed fuel n :
  forall last x y st xy st',
    follow_path_loop fuel n last x y st = Some (xy, st') ->
    solver_fixed st' = solver_fixed st.
Proof.
  induction n as [|n IH]; intros last x y st xy st' H; [discriminate|].
  cbn [follow_path_loop] in H.
  destruct ((beg_x st <=? x) && (x <=? end_x st)); [|injection H as <- <-; reflexivity].
  destruct (find_directions fuel x y PATH NO_SEARCH st) as [[num s1]|] eqn:F; [|discriminate].
  destruct (find_directions_post _ _ _ _ _ _ _ _ F (or_intror eq_refl)) as ((Fr & _) & _).
  apply sf_frame in Fr.
  destruct (negb (num =? 0)); [|injection H as <- <-; exact Fr].
  cbv zeta in H.
  destruct (negb (last =? dt_heading (dir_tbl s1 0)));
    apply IH in H; rewrite H; sf_simpl; exact Fr.
Qed.

Lemma back_track_path_loop_fixed fuel n :
  forall last x y st xy st',
    back_track_path_loop fuel n last x y st = Some (xy, st') ->
    solver_fixed st' = solver_fixed st.
Proof.
  induction n as [|n IH]; intros last x y st xy st' H; [discriminate|].
  cbn [back_track_path_loop] in H.
  destruct (find_directions fuel x y PATH NO_SEARCH st) as [[np s1]|] eqn:F; [|discriminate].
  destruct (find_directions_post _ _ _ _ _ _ _ _ F (or_intror eq_refl)) as ((Fr & _) & _).
  apply sf_frame in Fr.
  destruct (np =? 0); [|injection H as <- <-; exact Fr].
  destruct (find_directions fuel x y SOLVED NO_SEARCH s1) as [[ns s2]|] eqn:F2; [|discriminate].
  destruct (find_directions_post _ _ _ _ _ _ _ _ F2 (or_intror eq_refl)) as ((Fr2 & _) & _).
  apply sf_frame in Fr2.
  destruct (negb (ns =? 0)); [|injection H as <- <-; congruence].
  cbv zeta in H.
  destruct (negb (last =? dt_heading (dir_tbl s2 0)));
    apply IH in H; rewrite H; sf_simpl; congruence.
Qed.

Lemma follow_path_fixed fuel x y st done xy st' :
  follow_path fuel x y st = Some (done, (xy, st')) -> solver_fixed st' = solver_fixed st.
Proof.
  unfold follow_path. cbv zeta. intros H.
  destruct (follow_path_loop _ _ _ _ _ _) as [[[x1 y1] s1]|] eqn:L; [|discriminate].
  injection H as _ _ <-.
  apply follow_path_loop_fixed in L. rewrite L. sf_simpl. reflexivity.
Qed.

Lemma back_track_path_fixed fuel x y st xy st' :
  back_track_path fuel x y st = Some (xy, st') -> solver_fixed st' = solver_fixed st.
Proof.
  unfold back_track_path. cbv zeta. intros H.
  apply back_track_path_loop_fixed in H. rewrite H. sf_simpl. reflexivity.
Qed.

Lemma solve_maze_loop_fixed fuel n :
  forall x y st xy st',
    solve_maze_loop fuel n x y st = Some (xy, st') -> solver_fixed st' = solver_fixed st.
Proof.
  induction n as [|n IH]; intros x y st xy st' H; [discriminate|].
  cbn [solve_maze_loop] in H.
  destruct (follow_path fuel x y st) as [[done [[x1 y1] s1]]|] eqn:F; [|discriminate].
  apply follow_path_fixed in F.
  destruct done; [injection H as <- <-; exact F|].
  destruct (back_track_path fuel x1 y1 s1) as [[[x2 y2] s2]|] eqn:B; [|discriminate].
  apply back_track_path_fixed in B. apply IH in H. congruence.
Qed.

(** The solver writes the grid, the look-ahead counters, [path_len],
    [turn_cnt] and [solves], and nothing else. *)
Lemma solve_maze_fixed fuel x y st xy st' :
  solve_maze fuel x y st = Some (xy, st') -> solver_fixed st' = solver_fixed st.
Proof.
  unfold solve_maze. cbv zeta. intros H.
  destruct (solve_maze_loop _ _ _ _ _) as [[[x1 y1] s1]|] eqn:L; [|discriminate].
  injection H as _ <-. apply solve_maze_loop_fixed in L.
  sf_simpl. rewrite L. sf_simpl. reflexivity.
Qed.

(** The rooms of the maze are [h * w]. *)
Lemma length_index_pairs h w :
  length (index_pairs h w) = (Z.to_nat h * Z.to_nat w)%nat.
Proof.
  unfold index_pairs.
  assert (Lw : length (zrange w) = Z.to_nat w).
  { unfold zrange. rewrite length_map, length_seq. reflexivity. }
  assert (Lh : length (zrange h) = Z.to_nat h).
  { unfold zrange. rewrite length_map, length_seq. reflexivity. }
  rewrite <- Lh. clear Lh.
  induction (zrange h) as [|i l IH]; [reflexivity|].
  cbn [flat_map length]. rewrite length_app, length_map, IH, Lw. reflexivity.
Qed.

Lemma count_rooms_le h w g v : 0 <= h -> 0 <= w -> count_rooms h w g v <= h * w.
Proof.
  intros Hh Hw. unfold count_rooms.
  pose proof (filter_length_le (fun ij => g (2 * (fst ij + 1)) (2 * (snd ij + 1)) =? v)
                (index_pairs h w)) as L.
  rewrite length_index_pairs in L. nia.
Qed.

Lemma create_openings_max_path_length s e st :
  max_path_length (snd (create_openings s e st)) = max_path_length st.
Proof. reflexivity. Qed.

Lemma after_trial_max_path_length b s1 :
  max_path_length (after_trial b s1) =
  if better b (path_len s1) (turn_cnt s1) then path_len s1 else max_path_length s1.
Proof.
  unfold after_trial. cbv zeta. unfold delete_openings, wr.
  cbn [max_path_length set_num_solves set_maze].
  rewrite restore_maze_lift. unfold lift. cbn [max_path_length set_maze].
  destruct (better _ _ _); reflexivity.
Qed.

(** A trial records a path of at most [h * w] rooms, and leaves its length
    in [max_path_length] when it becomes the best. *)
Lemma search_step_recorded h w fuel i j b st b' xy st' :
  ready h w st -> 0 <= i < w -> 0 <= j < w ->
  search_step fuel i j b st = Some (b', (xy, st')) ->
  best_recorded b st -> best_path_len b <= h * w ->
  best_recorded b' st' /\ best_path_len b' <= h * w.
Proof.
  intros R Hi Hj H Inv Le.
  destruct (evaluated st (2 * (i + 1)) (2 * (j + 1))) eqn:E.
  - rewrite (search_step_trial _ _ _ _ _ E) in H.
    rewrite (rd_beg_x _ _ _ R) in H.
    destruct (solve_maze _ _ _ _) as [[[x1 y1] s1]|] eqn:Sv; [|discriminate].
    inversion H; subst; clear H.
    pose proof (rd_rows _ _ _ R) as Hh. pose proof (rd_cols _ _ _ R) as Hw.
    assert (Rs : room h w 2 (2 * (i + 1))) by (exists 1, (i + 1); lia).
    assert (Re : room h w (2 * h) (2 * (j + 1))) by (exists h, (j + 1); lia).
    destruct (solve_maze_count h w (2 * (i + 1)) (2 * (j + 1)) _
                (create_openings_arena h w st _ _ R Rs Re) fuel _ x1 y1 s1
                (create_openings_placed h w st _ _ R) (fun a c => eq_refl) Sv) as [Cn _].
    pose proof (count_rooms_le h w (maze s1) SOLVED ltac:(lia) ltac:(lia)) as Up.
    pose proof (sf_max_path_length _ _ (solve_maze_fixed _ _ _ _ _ _ Sv)) as Mx.
    rewrite create_openings_max_path_length in Mx.
    unfold best_recorded, record_trial. rewrite after_trial_max_path_length.
    destruct (better b (path_len s1) (turn_cnt s1)); cbn [best_path_len].
    + split; [right; reflexivity|lia].
    + split; [|exact Le]. destruct Inv as [->|Inv]; [left; reflexivity|right; congruence].
  - rewrite (search_step_skip _ _ _ _ _ E) in H. inversion H; subst. auto.
Qed.

Lemma search_loop_recorded h w fuel pairs :
  forall b x y st b' xy st',
    ready h w st -> in_range w pairs ->
    search_loop fuel pairs b x y st = Some (b', (xy, st')) ->
    best_recorded b st -> best_path_len b <= h * w ->
    best_recorded b' st' /\ best_path_len b' <= h * w.
Proof.
  induction pairs as [|[i j] rest IH]; intros b x y st b' xy st' R Hr H Inv Le.
  - inversion H; subst. auto.
  - rewrite search_loop_cons in H.
    destruct (search_step fuel i j b st) as [[b1 [[x1 y1] s1]]|] eqn:St; [|discriminate].
    destruct (Hr i j (or_introl eq_refl)) as [Hi Hj].
    destruct (search_step_post _ _ _ _ _ _ _ _ _ _ R Hi Hj St) as [_ R1].
    destruct (search_step_recorded _ _ _ _ _ _ _ _ _ _ R Hi Hj St Inv Le) as [Inv1 Le1].
    eapply (IH b1 x1 y1 s1); eauto.
    intros a c Hin. apply Hr. right. exact Hin.
Qed.

(** In a finished maze, [search_best_openings] leaves in [max_path_length]
    the path length of the pair it commits, between 1 and [h * w]. *)
Lemma search_best_openings_length h w fuel x y st xy st' :
  ready h w st ->
  search_best_openings fuel x y st = Some (xy, st') ->
  exists b l1 l2,
    search_log fuel (index_pairs w w) (mkBest 0 0 2 2) st = l1 ++ entry b :: l2 /\
    (forall t, In t l1 -> lex_lt (snd t) (metrics b)) /\
    (forall t, In t (search_log fuel (index_pairs w w) (mkBest 0 0 2 2) st) ->
               lex_le (snd t) (metrics b)) /\
    beg_y st' = best_start b /\ end_y st' = best_finish b /\
    max_path_length st' = best_path_len b /\
    1 <= best_path_len b <= h * w.
Proof.
  intros R H. unfold search_best_openings in H.
  rewrite (rd_width _ _ _ R) in H.
  destruct (search_loop fuel (index_pairs w w) (mkBest 0 0 2 2) x y st)
    as [[b [xy1 s1]]|] eqn:L; [|discriminate].
  apply (f_equal (fun o => match o with Some p => snd p | None => st end)) in H.
  change (snd (create_openings (best_start b) (best_finish b) s1) = st') in H.
  pose proof (rd_rows _ _ _ R) as Hh. pose proof (rd_cols _ _ _ R) as Hw.
  destruct (search_loop_winner _ _ _ _ _ _ _ _ _ R L) as (B1 & l1 & l2 & El & Hl).
  destruct (search_loop_max _ _ _ _ _ _ _ _ _ L) as (_ & All & _).
  destruct (search_loop_recorded h w fuel _ _ _ _ _ _ _ _ R (in_range_index_pairs w) L
              (or_introl eq_refl) ltac:(cbn [best_path_len]; nia)) as [Inv Le].
  exists b, l1, l2. subst st'.
  split; [exact El|]. split; [exact Hl|]. split; [exact All|].
  split; [reflexivity|]. split; [reflexivity|].
  rewrite create_openings_max_path_length.
  split; [|lia]. destruct Inv as [->|Inv]; [cbn [best_path_len] in B1; lia|exact Inv].
Qed.

Lemma carve_phase_min_len fuel st xy st' :
  carve_phase fuel st = Some (xy, st') ->
  1 <= height st -> 1 <= width st ->
  min_len st' = min_len st.
Proof.
  unfold carve_phase. intros H Hh Hw.
  set (s0 := set_num_paths (set_maze_len (set_max_checks st 0) 0) 0) in H.
  pose proof (initialize_maze_fields s0) as F.
  pose proof (initialize_maze_room s0 Hh Hw) as R.
  pose proof (initialize_maze_blank s0 ltac:(simpl; lia) ltac:(simpl; lia)) as B.
  destruct (initialize_maze s0) as [[x y] s1]. cbn [fst snd] in *.
  cbv zeta in F. destruct F as (F1 & F2 & F3 & F4 & F5 & F6 & F7 & F8 & F9).
  change (height s0) with (height st) in *. change (width s0) with (width st) in *.
  change (min_len s0) with (min_len st) in *.
  apply carve_all_post in H; rewrite ?F1, ?F2 in *; auto.
  destruct H as (G & C & N).
  unfold same_geom, geom in G. inversion G. congruence.
Qed.

Lemma push_cell_min_len m s i j : min_len (snd (push_cell i j (m, s))) = min_len s.
Proof.
  unfold push_cell. destruct (mid_wall_opening s i j); [|reflexivity].
  cbn [snd min_len set_num_wall_push].
  assert (G : forall t x y v, min_len (mark_cell t x y v) = min_len t).
  { intros t x y v. unfold mark_cell. destruct (negb _); reflexivity. }
  destruct (is_odd i); rewrite !G; reflexivity.
Qed.

Lemma push_all_min_len h w n st st' :
  push_all n st = Some st' -> ready h w st -> min_len st' = min_len st.
Proof.
  intros P R.
  apply (push_all_inv (fun s => ready h w s /\ min_len s = min_len st) h w n) with (st := st);
    auto.
  - intros s [Rs _]. split; [apply (rd_height _ _ _ Rs)|apply (rd_width _ _ _ Rs)].
  - intros m s i j [Rs Ms] Sc. split; [apply push_cell_ready; assumption|].
    rewrite push_cell_min_len. exact Ms.
Qed.

Lemma after_trial_min_len b s1 : min_len (after_trial b s1) = min_len s1.
Proof.
  unfold after_trial. cbv zeta. unfold delete_openings, wr.
  cbn [min_len set_num_solves set_maze].
  rewrite restore_maze_lift. unfold lift. cbn [min_len set_maze].
  destruct (better _ _ _); reflexivity.
Qed.

Lemma sf_min_len st st' : solver_fixed st' = solver_fixed st -> min_len st' = min_len st.
Proof.
  intros E. change (min_len (solver_fixed st') = min_len (solver_fixed st)).
  rewrite E. reflexivity.
Qed.

Lemma search_step_min_len fuel i j b st b' xy st' :
  search_step fuel i j b st = Some (b', (xy, st')) -> min_len st' = min_len st.
Proof.
  intros H.
  destruct (evaluated st (2 * (i + 1)) (2 * (j + 1))) eqn:E.
  - rewrite (search_step_trial _ _ _ _ _ E) in H.
    destruct (solve_maze _ _ _ _) as [[xy1 s1]|] eqn:Sv; [|discriminate].
    inversion H; subst; clear H.
    rewrite after_trial_min_len.
    apply (sf_min_len _ _ (solve_maze_fixed _ _ _ _ _ _ Sv)).
  - rewrite (search_step_skip _ _ _ _ _ E) in H. inversion H; subst. reflexivity.
Qed.

Lemma search_loop_min_len fuel pairs :
  forall b x y st b' xy st',
    search_loop fuel pairs b x y st = Some (b', (xy, st')) -> min_len st' = min_len st.
Proof.
  induction pairs as [|[i j] rest IH]; intros b x y st b' xy st' H.
  - inversion H; subst. reflexivity.
  - rewrite search_loop_cons in H.
    destruct (search_step fuel i j b st) as [[b1 [[x1 y1] s1]]|] eqn:St; [|discriminate].
    apply search_step_min_len in St. apply IH in H. congruence.
Qed.

Lemma search_best_openings_min_len fuel x y st xy st' :
  search_best_openings fuel x y st = Some (xy, st') -> min_len st' = min_len st.
Proof.
  unfold search_best_openings. intros H.
  destruct (search_loop _ _ _ _ _ _) as [[b [xy1 s1]]|] eqn:L; [|discriminate].
  apply (f_equal (fun o => match o with Some p => snd p | None => st end)) in H.
  change (snd (create_openings (best_start b) (best_finish b) s1) = st') in H.
  subst st'. apply search_loop_min_len in L. exact L.
Qed.

(** What a round of the loop of [main] leaves: the sizes and the minimum
    length it found, and a [max_path_length] between 1 and height * width. *)
Lemma round_post fuel r st st1 :
  round fuel r st = Some st1 ->
  1 <= height st -> 1 <= width st ->
  height st1 = height st /\ width st1 = width st /\ min_len st1 = min_len st /\
  1 <= max_path_length st1 <= height st * width st.
Proof.
  unfold round. cbv zeta. intros H Hh Hw.
  set (s0 := set_rand_pos _ _) in H.
  destruct (create_maze fuel s0) as [[[x y] s1]|] eqn:C; [|discriminate].
  destruct (solve_maze fuel x y s1) as [[xy s2]|] eqn:S; [|discriminate].
  injection H as <-.
  change (height st) with (height s0) in *. change (width st) with (width s0) in *.
  change (min_len st) with (min_len s0).
  pose proof (solve_maze_fixed _ _ _ _ _ _ S) as Fx.
  assert (M : min_len s1 = min_len s0 /\ height s1 = height s0 /\ width s1 = width s0 /\
              1 <= max_path_length s1 <= height s0 * width s0).
  { pose proof C as C'. unfold create_maze in C'.
    destruct (carve_phase fuel s0) as [[[x0 y0] c1]|] eqn:Cp; [|discriminate].
    destruct (push_all fuel c1) as [c2|] eqn:P; [|discriminate].
    pose proof (carve_phase_ready _ _ _ _ Cp Hh Hw) as R1.
    pose proof (push_all_ready _ _ _ _ _ P R1) as R2.
    pose proof (carve_phase_min_len _ _ _ _ Cp Hh Hw) as M1.
    pose proof (push_all_min_len _ _ _ _ _ P R1) as M2.
    pose proof (search_best_openings_min_len _ _ _ _ _ _ C') as M3.
    destruct (search_best_openings_length _ _ _ _ _ _ _ _ R2 C')
      as (b & _ & _ & _ & _ & _ & _ & _ & Em & Bd).
    destruct (search_best_openings_post _ _ _ _ _ _ _ _ R2 C') as (b2 & _ & _ & Pl & _).
    destruct Pl as (Ph & Pw & _).
    repeat split; try congruence; rewrite Em; lia. }
  destruct M as (M1 & M2 & M3 & M4).
  assert (Eh : height s2 = height s1).
  { change (height (solver_fixed s2) = height (solver_fixed s1)). rewrite Fx. reflexivity. }
  assert (Ew : width s2 = width s1).
  { change (width (solver_fixed s2) = width (solver_fixed s1)). rewrite Fx. reflexivity. }
  rewrite (sf_min_len _ _ Fx), (sf_max_path_length _ _ Fx).
  repeat split; try congruence; lia.
Qed.

(** The loop of [main] returns a state only from a round whose best path
    is long enough; the sizes and the minimum are the ones it began with. *)
Lemma main_loop_post fuel n draws :
  forall k st st',
    main_loop fuel n draws k st = Some st' ->
    1 <= height st -> 1 <= width st ->
    height st' = height st /\ width st' = width st /\ min_len st' = min_len st /\
    min_len st <= max_path_length st' /\
    1 <= max_path_length st' <= height st * width st.
Proof.
  induction n as [|n IH]; intros k st st' H Hh Hw; [discriminate|].
  rewrite main_loop_S in H.
  destruct (round fuel (draws k) st) as [s1|] eqn:Rd; [|discriminate].
  destruct (round_post _ _ _ _ Rd Hh Hw) as (E1 & E2 & E3 & B).
  destruct (Z.geb_spec (max_path_length s1) (min_len s1)) as [Ge|Lt].
  - injection H as <-. repeat split; try assumption; lia.
  - apply IH in H; [|lia|lia].
    destruct H as (F1 & F2 & F3 & F4 & F5).
    rewrite E1, E2, E3 in *. repeat split; try congruence; lia.
Qed.

(** The clamps of [main]. *)
Lemma min_spec x y : min x y = Z.min x y.
Proof. unfold min. destruct (Z.ltb_spec x y); lia. Qed.

Lemma clamp_flags_post rows cols f :
  5 <= rows -> 5 <= cols ->
  let f' := clamp_flags rows cols f in
  0 <= flag_depth f' <= 100 /\
  1 <= flag_height f' <= MAX_HEIGHT /\ flag_height f' <= Z.quot (rows - 3) 2 /\
  1 <= flag_width f' <= MAX_WIDTH /\ flag_width f' <= Z.quot (cols - 1) 4 /\
  0 <= flag_min_len f' < flag_height f' * flag_width f'.
Proof.
  intros Hr Hc. cbv zeta. unfold clamp_flags. cbv zeta. cbn [flag_depth flag_height flag_width flag_min_len].
  rewrite !min_spec. unfold MAX_HEIGHT, MAX_WIDTH.
  assert (Q1 : 1 <= Z.quot (rows - 3) 2).
  { rewrite Z.quot_div_nonneg by lia. apply Z.div_le_lower_bound; lia. }
  assert (Q2 : 1 <= Z.quot (cols - 1) 4).
  { rewrite Z.quot_div_nonneg by lia. apply Z.div_le_lower_bound; lia. }
  set (mh := Z.min 100 (Z.quot (rows - 3) 2)).
  set (mw := Z.min 300 (Z.quot (cols - 1) 4)).
  assert (Hmh : 1 <= mh <= 100 /\ mh <= Z.quot (rows - 3) 2) by (unfold mh; lia).
  assert (Hmw : 1 <= mw <= 300 /\ mw <= Z.quot (cols - 1) 4) by (unfold mw; lia).
  clearbody mh mw.
  set (h := if (flag_height f <=? 0) || (flag_height f >? mh) then mh else flag_height f).
  set (w := if (flag_width f <=? 0) || (flag_width f >? mw) then mw else flag_width f).
  assert (Hh : 1 <= h <= mh).
  { unfold h. rewrite Z.gtb_ltb.
    destruct (Z.leb_spec (flag_height f) 0), (Z.ltb_spec mh (flag_height f)); cbn [orb]; lia. }
  assert (Hw : 1 <= w <= mw).
  { unfold w. rewrite Z.gtb_ltb.
    destruct (Z.leb_spec (flag_width f) 0), (Z.ltb_spec mw (flag_width f)); cbn [orb]; lia. }
  clearbody h w.
  split.
  { rewrite Z.gtb_ltb.
    destruct (Z.ltb_spec (flag_depth f) 0), (Z.ltb_spec 100 (flag_depth f)); cbn [orb]; lia. }
  split; [lia|]. split; [lia|]. split; [lia|]. split; [lia|].
  assert (Hp : 1 <= h * w) by nia.
  assert (Hd : 0 <= Z.quot (h * w) 2 < h * w).
  { rewrite Z.quot_div_nonneg by lia. split; [apply Z.div_pos; lia|].
    apply Z.div_lt_upper_bound; lia. }
  pose proof (Z.sqrt_nonneg (h * w)) as Hs.
  rewrite Z.geb_leb.
  destruct (Z.ltb_spec (flag_min_len f) 0), (Z.leb_spec (h * w) (flag_min_len f)); cbn [orb];
    try (change (0 =? 0) with true; cbv iota; lia).
  destruct (Z.eqb_spec (flag_min_len f) 0); lia.
Qed.

End GoProofs.

Module MTProofs.
Import MazeMT MTSpec.

Lemma mt_same_maze_refl st : same_maze st st.
Proof. intros i j; reflexivity. Qed.

Lemma mt_same_maze_trans st1 st2 st3 :
  same_maze st1 st2 -> same_maze st2 st3 -> same_maze st1 st3.
Proof. intros H1 H2 i j. now rewrite H2, H1. Qed.

Lemma mt_frame_refl st : frame st st.
Proof. reflexivity. Qed.

Lemma mt_frame_trans st1 st2 st3 : frame st1 st2 -> frame st2 st3 -> frame st1 st3.
Proof. unfold frame. congruence. Qed.

Lemma mt_frame_depth st st' : frame st st' -> depth st' = depth st.
Proof. intros H. change (depth (fixed st') = depth (fixed st)). now rewrite H. Qed.

(** [setCell] in one piece: it writes exactly when the cell holds neither
    [check] nor the value. *)
Lemma setCell_spec x y value st :
  setCell x y value st =
  if (maze st x y =? check) || (maze st x y =? value) then (false, st)
  else (true, set_maze st (grid_set (maze st) x y value)).
Proof.
  unfold setCell, setCell_swap, setMaze, getMaze.
  destruct (Z.eqb_spec (maze st x y) check) as [E1|E1]; simpl; [reflexivity|].
  destruct (Z.eqb_spec (maze st x y) value) as [E2|E2]; simpl; reflexivity.
Qed.

Lemma try_dirs_spec {A : Type} (P : A -> Prop) (f : dirTable -> A -> option (bool * A)) ds :
  forall a m a',
    try_dirs f ds a = Some (m, a') ->
    P a ->
    (forall d a m a', f d a = Some (m, a') -> P a -> P a') ->
    P a' /\ (m = true -> exists d a1, P a1 /\ f d a1 = Some (true, a')).
Proof.
  induction ds as [|d ds IH]; intros a m a' H Pa Hf; simpl in H.
  - inversion H; subst. split; [exact Pa|discriminate].
  - destruct (f d a) as [[[] a1]|] eqn:E; try discriminate.
    + inversion H; subst. split; [eapply Hf; eauto|]. intros _. exists d, a. auto.
    + eapply IH; eauto.
Qed.

Lemma checkDirections_eq fuel x y dx dy limit value p st :
  checkDirections fuel x y dx dy limit value p st =
  if p_length p <? 0 then Some (true, (p, st))
  else if p_checks p >=? limit then
    Some (false, (p, set_numCheckExceeded st (numCheckExceeded st + 1)))
  else if (x + dx <? 0) || (y + dy <? 0) || negb (getMaze st (x + dx) (y + dy) =? value)
  then Some (false, (p, st))
  else
    let '(ok, st) := setCell (x + Z.quot dx 2) (y + Z.quot dy 2) check st in
    if negb ok then Some (false, (p, st))
    else
      let '(ok, st) := setCell (x + dx) (y + dy) check st in
      if negb ok then
        let '(_, st) := setMaze (x + Z.quot dx 2) (y + Z.quot dy 2) value st in
        Some (false, (p, st))
      else
        match fuel with
        | O => None
        | S fuel' =>
            let p := mkProbe (p_length p - 1) (p_minLength p) (p_checks p + 1)
                             (p_numChecks p + 1) in
            let '(offset, st) := rand_Intn 4 st in
            match
              try_dirs
                (probe_dir (fun dx' dy' p st =>
                              checkDirections fuel' (x + dx) (y + dy) dx' dy' limit value p st)
                           (x + dx) (y + dy) value)
                (rotated offset) (p, st)
            with
            | Some (match_, (p, st)) =>
                let p := if p_minLength p >? p_length p
                         then mkProbe (p_length p) (p_length p) (p_checks p) (p_numChecks p)
                         else p in
                let p := mkProbe (p_length p + 1) (p_minLength p) (p_checks p) (p_numChecks p) in
                let '(_, st) := setMaze (x + dx) (y + dy) value st in
                let '(_, st) := setMaze (x + Z.quot dx 2) (y + Z.quot dy 2) value st in
                Some (match_, (p, st))
            | None => None
            end
        end.
Proof. destruct fuel; reflexivity. Qed.

Lemma cd_post_same limit p st m :
  (m = false \/ p_length p < 0) -> cd_post limit p st m p st.
Proof.
  intros Hm. constructor.
  - reflexivity.
  - reflexivity.
  - lia.
  - lia.
  - lia.
  - lia.
  - lia.
  - intros H; exfalso; lia.
  - intros H1 H2. destruct Hm; [assumption|lia].
Qed.

Lemma setCell_check x y st :
  setCell x y check st =
  if maze st x y =? check then (false, st)
  else (true, set_maze st (grid_set (maze st) x y check)).
Proof. rewrite setCell_spec. rewrite orb_diag. reflexivity. Qed.

Lemma cd_post_exceeded limit p st :
  limit <= p_checks p -> 0 <= p_length p ->
  cd_post limit p st false p (set_numCheckExceeded st (numCheckExceeded st + 1)).
Proof.
  intros Hc Hl. constructor.
  - reflexivity.
  - reflexivity.
  - lia.
  - lia.
  - lia.
  - lia.
  - simpl. lia.
  - intros _. repeat split; assumption.
  - reflexivity.
Qed.

Lemma cd_post_frame limit p st st' :
  frame st st' -> numCheckExceeded st' = numCheckExceeded st ->
  cd_post limit p st false p st'.
Proof.
  intros F E. constructor.
  - exact F.
  - reflexivity.
  - lia.
  - lia.
  - lia.
  - lia.
  - lia.
  - intros H; exfalso; lia.
  - reflexivity.
Qed.

(** The exits of [checkDirections] before its direction loop. *)
Ltac cd_guards H x y dx dy limit value p st :=
  rewrite checkDirections_eq in H;
  destruct (Z.ltb_spec (p_length p) 0) as [Hl|Hl];
  [inversion H; subst; split; [apply cd_post_same; auto|intros ? i j; reflexivity]|];
  destruct (Z.geb_spec (p_checks p) limit) as [Hc|Hc];
  [inversion H; subst; split; [apply cd_post_exceeded; lia|intros ? i j; reflexivity]|];
  destruct ((x + dx <? 0) || (y + dy <? 0) || negb (getMaze st (x + dx) (y + dy) =? value)) eqn:Hg;
  [inversion H; subst; split; [apply cd_post_same; auto|intros ? i j; reflexivity]|];
  rewrite setCell_check in H;
  destruct (Z.eqb_spec (maze st (x + Z.quot dx 2) (y + Z.quot dy 2)) check) as [Hs1|Hs1];
  [cbn [negb] in H; inversion H; subst; split;
   [apply cd_post_same; auto|intros ? i j; reflexivity]|];
  cbn [negb] in H; rewrite setCell_check in H;
  set (st1 := set_maze st (grid_set (maze st) (x + Z.quot dx 2) (y + Z.quot dy 2) check)) in *;
  destruct (Z.eqb_spec (maze st1 (x + dx) (y + dy)) check) as [Hs2|Hs2];
  [cbn [negb setMaze] in H; inversion H; subst; split;
   [apply cd_post_frame; reflexivity
   |intros Hp i j; unfold st1; cbn [maze set_maze];
    destruct (grid_set_cases
                (grid_set (maze st) (x + Z.quot dx 2) (y + Z.quot dy 2) check)
                (x + Z.quot dx 2) (y + Z.quot dy 2) value i j)
      as [(-> & -> & ->)|(Hn & ->)];
    [symmetry; exact Hp|apply grid_set_neq; exact Hn]]|];
  cbn [negb] in H.

Lemma probe_dir_inv limit value p st s2 cx cy
    (rec : Z -> Z -> probe -> state -> option (bool * (probe * state))) d a m a' :
  (forall dx' dy' q s m q' s', rec dx' dy' q s = Some (m, (q', s')) ->
     cd_post limit q s m q' s' /\
     (maze s (cx + Z.quot dx' 2) (cy + Z.quot dy' 2) = value -> same_maze s s')) ->
  probe_dir rec cx cy value d a = Some (m, a') ->
  cd_loop_inv limit p st s2 a -> cd_loop_inv limit p st s2 a'.
Proof.
  intros Hrec H (F & M & L & Mn & Ck & B & Ct & E & X).
  destruct a as [q s]. unfold probe_dir in H. cbn [fst snd] in *.
  unfold getMaze in H.
  destruct (Z.eqb_spec (maze s (cx + Z.quot (dt_x d) 2) (cy + Z.quot (dt_y d) 2)) value) as [Ep|Ep];
    cbn [andb] in H.
  2:{ inversion H; subst. unfold cd_loop_inv; cbn [fst snd]; repeat apply conj; assumption. }
  destruct (maze s (cx + dt_x d) (cy + dt_y d) =? value).
  2:{ inversion H; subst. unfold cd_loop_inv; cbn [fst snd]; repeat apply conj; assumption. }
  destruct (rec (dt_x d) (dt_y d) q s) as [[m1 [q1 s1]]|] eqn:R; [|discriminate].
  destruct (Hrec _ _ _ _ _ _ _ R) as [[F1 L1 Mn1 Ck1 B1 Ct1 E1 X1 S1] M1].
  specialize (M1 Ep).
  assert (cd_loop_inv limit p st s2
            (mkProbe (p_length q) (p_minLength q1) (p_checks q1) (p_numChecks q1), s1)).
  { unfold cd_loop_inv. cbn [fst snd p_length p_minLength p_checks p_numChecks].
    repeat apply conj; try lia;
      try (eapply mt_frame_trans; eassumption);
      try (eapply mt_same_maze_trans; eassumption);
      try (intros Hb; specialize (B Hb); lia);
      try (intros Hx;
           destruct (Z_lt_dec (numCheckExceeded s) (numCheckExceeded s1)) as [Hi|Hi];
           [destruct (X1 Hi) as (_ & ? & ?); lia|destruct (X ltac:(lia)); lia]). }
  destruct m1; inversion H; subst; [|assumption].
  destruct H0 as (F' & M' & L' & Mn' & Ck' & B' & Ct' & E' & X'). cbn [fst snd] in *.
  cbn [p_length p_minLength p_checks p_numChecks] in *.
  unfold cd_loop_inv. cbn [fst snd]. repeat apply conj; auto; lia.
Qed.

Lemma checkDirections_post fuel :
  forall x y dx dy limit value p st m p' st',
    checkDirections fuel x y dx dy limit value p st = Some (m, (p', st')) ->
    cd_post limit p st m p' st' /\
    (maze st (x + Z.quot dx 2) (y + Z.quot dy 2) = value -> same_maze st st').
Proof.
  induction fuel as [|fuel IH]; intros x y dx dy limit value p st m p' st' H.
  - cd_guards H x y dx dy limit value p st. discriminate.
  - cd_guards H x y dx dy limit value p st.
    cbv zeta in H. unfold rand_Intn in H.
    set (st2 := set_maze st1 (grid_set (maze st1) (x + dx) (y + dy) check)) in *.
    set (s2 := set_rand_pos st2 (S (rand_pos st2))) in *.
    set (p2 := mkProbe (p_length p - 1) (p_minLength p) (p_checks p + 1) (p_numChecks p + 1)) in *.
    match type of H with
    | match ?t with _ => _ end = _ => destruct t as [[mt [q s]]|] eqn:TD; [|discriminate]
    end.
    apply (try_dirs_spec (cd_loop_inv limit p st s2)) in TD;
      [| unfold cd_loop_inv, p2; cbn [fst snd p_length p_minLength p_checks p_numChecks];
         repeat apply conj; try lia; try reflexivity; try (intros i j; reflexivity);
         try (cbn; lia)
       | intros d a m0 a' Hp Ha; eapply probe_dir_inv; [|exact Hp|exact Ha];
         intros dx' dy' q0 s0 m1 q1 s1 Hr; apply IH with (1 := Hr) ].
    destruct TD as [(F & M & L & Mn & Ck & B & Ct & E & X) Tt]. cbn [fst snd] in *.
    apply orb_false_iff in Hg; destruct Hg as [_ Hg]; apply negb_false_iff in Hg;
      apply Z.eqb_eq in Hg; unfold getMaze in Hg.
    cbn [setMaze] in H.
    assert (Hm : numCheckExceeded st < numCheckExceeded s -> mt = false).
    { intros Hx. destruct mt; [exfalso|reflexivity].
      destruct (Tt eq_refl) as (d & [q1 s1] & (F1 & M1 & L1 & Mn1 & Ck1 & B1 & Ct1 & E1 & X1) & Pd).
      cbn [fst snd] in *. unfold probe_dir in Pd.
      destruct ((getMaze s1 (x + dx + Z.quot (dt_x d) 2) (y + dy + Z.quot (dt_y d) 2) =? value) &&
                (getMaze s1 (x + dx + dt_x d) (y + dy + dt_y d) =? value)); [|discriminate].
      destruct (checkDirections fuel (x + dx) (y + dy) (dt_x d) (dt_y d) limit value q1 s1)
        as [[m1 [q' s']]|] eqn:R; [|discriminate].
      destruct m1; [|discriminate]. inversion Pd; subst q' s'.
      destruct (IH _ _ _ _ _ _ _ _ _ _ _ R) as [[_ _ _ _ _ _ _ Xr Sr] _].
      destruct (Z_lt_dec (numCheckExceeded s1) (numCheckExceeded s)) as [Hi|Hi].
      - destruct (Xr Hi); discriminate.
      - destruct (X1 ltac:(lia)). assert (true = false) by (apply Sr; lia). discriminate. }
    inversion H; subst m p' st'; clear H. split.
    + constructor.
      * eapply mt_frame_trans; [exact F|]. reflexivity.
      * cbn. destruct (p_minLength q >? p_length q); cbn; lia.
      * cbn. destruct (Z.gtb_spec (p_minLength q) (p_length q)); cbn; lia.
      * cbn. destruct (p_minLength q >? p_length q); cbn; lia.
      * cbn. destruct (p_minLength q >? p_length q); cbn; lia.
      * cbn. destruct (p_minLength q >? p_length q); cbn; lia.
      * cbn. lia.
      * cbn. intros Hx. split; [apply Hm; exact Hx|].
        destruct (X Hx). destruct (p_minLength q >? p_length q); cbn; lia.
      * intros; lia.
    + intros Hp i j. cbn [maze set_maze].
      destruct (grid_set_cases (grid_set (maze s) (x + dx) (y + dy) value)
                  (x + Z.quot dx 2) (y + Z.quot dy 2) value i j) as [(-> & -> & ->)|(N1 & ->)];
        [symmetry; exact Hp|].
      destruct (grid_set_cases (maze s) (x + dx) (y + dy) value i j)
        as [(-> & -> & ->)|(N2 & ->)]; [symmetry; exact Hg|].
      rewrite M. unfold s2, st2, st1. cbn [maze set_maze set_rand_pos].
      rewrite !grid_set_neq by assumption. reflexivity.
Qed.

(** [checkDirections] returns once its fuel exceeds the requested length. *)
Lemma checkDirections_total fuel :
  forall x y dx dy limit value p st,
    p_length p < Z.of_nat fuel ->
    exists r, checkDirections fuel x y dx dy limit value p st = Some r.
Proof.
  induction fuel as [|fuel IH]; intros x y dx dy limit value p st Hf;
    rewrite checkDirections_eq.
  - destruct (Z.ltb_spec (p_length p) 0); [eauto|lia].
  - destruct (p_length p <? 0) eqn:El; [eauto|].
    destruct (p_checks p >=? limit); [eauto|].
    destruct ((x + dx <? 0) || (y + dy <? 0) || negb (getMaze st (x + dx) (y + dy) =? value));
      [eauto|].
    destruct (setCell (x + Z.quot dx 2) (y + Z.quot dy 2) check st) as [[] s1]; cbn [negb];
      [|eauto].
    destruct (setCell (x + dx) (y + dy) check s1) as [[] s2]; cbn [negb];
      [|destruct (setMaze _ _ _ s2); eauto].
    cbv zeta. destruct (rand_Intn 4 s2) as [offset s3].
    set (p2 := mkProbe (p_length p - 1) (p_minLength p) (p_checks p + 1) (p_numChecks p + 1)).
    assert (T : forall ds a, p_length (fst a) = p_length p - 1 ->
              exists r, try_dirs
                (probe_dir (fun dx' dy' p st =>
                   checkDirections fuel (x + dx) (y + dy) dx' dy' limit value p st)
                   (x + dx) (y + dy) value) ds a = Some r /\
                p_length (fst (snd r)) = p_length p - 1).
    { induction ds as [|d ds IHd]; intros [q s] Hq; cbn [fst snd] in *.
      - eexists; split; [reflexivity|exact Hq].
      - cbn [try_dirs]. unfold probe_dir at 1.
        destruct (_ && _).
        + destruct (IH (x + dx) (y + dy) (dt_x d) (dt_y d) limit value q s ltac:(lia))
            as [[m1 [q1 s1']] R].
          rewrite R.
          destruct (checkDirections_post _ _ _ _ _ _ _ _ _ _ _ _ R) as [[_ Lr _ _ _ _ _ _ _] _].
          destruct m1.
          * eexists; split; [reflexivity|]. cbn. lia.
          * apply IHd. cbn. exact Hq.
        + apply IHd. exact Hq. }
    destruct (T (rotated offset) (p2, s3) eq_refl) as [[mt [q s]] [-> _]].
    cbn [setMaze]. eauto.
Qed.

(** [checkOrphan] puts back the two walls it turns into paths. *)
Lemma checkOrphan_post x y dx dy length st o st' :
  checkOrphan x y dx dy length st = (o, st') ->
  frame st st' /\ numCheckExceeded st' = numCheckExceeded st /\
  (Z.quot dx 2 <> dx \/ Z.quot dy 2 <> dy -> same_maze st st').
Proof.
  unfold checkOrphan, getMaze. intros H.
  destruct ((x >? 1) && (y >? 1) && (length >? 0) && (length =? depth st)); cbn [andb] in H.
  2:{ inversion H; subst. repeat split. }
  destruct (Z.eqb_spec (maze st (x + dx) (y + dy)) wall) as [Er|Er]; cbn [andb] in H.
  2:{ inversion H; subst. repeat split. }
  destruct (Z.eqb_spec (maze st (x + Z.quot dx 2) (y + Z.quot dy 2)) wall) as [Ep|Ep].
  2:{ inversion H; subst. repeat split. }
  rewrite setCell_spec in H. rewrite Er in H. cbn [Z.eqb orb wall check path Pos.eqb] in H.
  rewrite setCell_spec in H. cbn [maze set_maze] in H.
  destruct (cell_dec (x + Z.quot dx 2) (y + Z.quot dy 2) (x + dx) (y + dy)) as [[E1 E2]|N].
  - rewrite E1, E2, grid_set_eq in H. cbn in H. inversion H; subst.
    repeat split. intros [Q|Q]; lia.
  - rewrite grid_set_neq, Ep in H by exact N. cbn [Z.eqb orb wall check path Pos.eqb] in H.
    cbn [setMaze maze set_maze] in H. inversion H; subst; clear H.
    repeat split. intros _ i j. cbn [maze set_maze].
    destruct (grid_set_cases
      (grid_set (grid_set (grid_set (maze st) (x + dx) (y + dy) path)
         (x + Z.quot dx 2) (y + Z.quot dy 2) path) (x + dx) (y + dy) wall)
      (x + Z.quot dx 2) (y + Z.quot dy 2) wall i j) as [(-> & -> & ->)|(N1 & ->)];
      [symmetry; exact Ep|].
    destruct (grid_set_cases
      (grid_set (grid_set (maze st) (x + dx) (y + dy) path)
         (x + Z.quot dx 2) (y + Z.quot dy 2) path) (x + dx) (y + dy) wall i j)
      as [(-> & -> & ->)|(N2 & ->)]; [symmetry; exact Er|].
    rewrite !grid_set_neq by assumption. reflexivity.
Qed.

Lemma mt_frame_exceeded st st' v :
  frame st (set_numCheckExceeded st' v) <-> frame st st'.
Proof. unfold frame. split; intros H; exact H. Qed.

(** What one call of [look] does: the grid is as before, the probes it
    counts stay within the budget, and a spent budget makes it fail. *)
Lemma mt_look_post fuel heading x y dx dy num value directions length minLength numChecks st
    r dirs' l' m' nc' st' :
  look fuel heading x y dx dy num value directions length minLength numChecks st =
    Some (r, (dirs', (l', m', nc'), st')) ->
  frame st st' /\
  numCheckExceeded st <= numCheckExceeded st' /\
  (numCheckExceeded st < numCheckExceeded st' -> r = 0) /\
  l' = length /\ m' <= minLength /\ numChecks <= nc' /\
  (-1 <= depth st -> nc' - numChecks <= 10 * (depth st + 1)) /\
  (Z.quot dx 2 <> dx \/ Z.quot dy 2 <> dy -> same_maze st st') /\
  ((r = 0 /\ dirs' = directions) \/
   (r = 1 /\ dirs' = tbl_set directions num (mkDir dx dy heading) /\
    maze st (x + Z.quot dx 2) (y + Z.quot dy 2) = value /\ maze st (x + dx) (y + dy) = value)).
Proof.
  unfold look, getMaze. intros H.
  destruct ((x >? 1) && (y >? 1)); cbn [andb] in H.
  2:{ inversion H; subst. repeat split; try lia; try (left; auto). }
  destruct (Z.eqb_spec (maze st (x + Z.quot dx 2) (y + Z.quot dy 2)) value) as [Ep|Ep];
    cbn [andb] in H.
  2:{ inversion H; subst. repeat split; try lia; try (left; auto). }
  destruct (Z.eqb_spec (maze st (x + dx) (y + dy)) value) as [Er|Er].
  2:{ inversion H; subst. repeat split; try lia; try (left; auto). }
  destruct (checkOrphan x y dx dy length st) as [o s1] eqn:Eo.
  destruct (checkOrphan_post _ _ _ _ _ _ _ _ Eo) as (Fo & Xo & Mo).
  destruct o; cbn [negb] in H.
  { inversion H; subst. repeat split; try lia; auto; try (left; auto). }
  destruct (checkDirections fuel x y dx dy (10 * (depth s1 + 1)) value
              (mkProbe length minLength 0 numChecks) s1) as [[m [p s2]]|] eqn:Ec; [|discriminate].
  destruct (checkDirections_post _ _ _ _ _ _ _ _ _ _ _ _ Ec)
    as [[Fc Lc Mc Cc Bc Nc Xc Fl Sp] Sm].
  cbn [p_length p_minLength p_checks p_numChecks] in *.
  pose proof (mt_frame_depth _ _ Fo) as Ed.
  assert (common :
    frame st s2 /\ numCheckExceeded st <= numCheckExceeded s2 /\
    p_length p = length /\ p_minLength p <= minLength /\ numChecks <= p_numChecks p /\
    (-1 <= depth st -> p_numChecks p - numChecks <= 10 * (depth st + 1)) /\
    (Z.quot dx 2 <> dx \/ Z.quot dy 2 <> dy -> same_maze st s2)).
  { repeat apply conj; try lia.
    - eapply mt_frame_trans; eauto.
    - intros Hs. eapply mt_same_maze_trans; [apply Mo; exact Hs|].
      apply Sm. rewrite (Mo Hs). exact Ep. }
  destruct common as (F & X & L & Mn & Nn & B & Sg).
  destruct m; inversion H; subst; clear H.
  - repeat split; auto; try (right; auto; fail).
    intros Hx. destruct (Fl ltac:(lia)); discriminate.
  - repeat split; auto; try (left; auto; fail).
Qed.

Lemma std_step i :
  Z.quot (dt_x (stdDirection i)) 2 <> dt_x (stdDirection i) \/
  Z.quot (dt_y (stdDirection i)) 2 <> dt_y (stdDirection i).
Proof.
  unfold stdDirection.
  destruct (i =? 0); [left; discriminate|].
  destruct (i =? 1); [left; discriminate|].
  destruct (i =? 2); right; discriminate.
Qed.

Lemma look_all_post fuel x y value len offset idx :
  forall num directions mins numChecks st num' dirs' mins' nc' st',
    look_all fuel x y value len offset idx num directions mins numChecks st =
      Some (num', (dirs', mins', nc', st')) ->
    frame st st' /\ same_maze st st' /\
    numCheckExceeded st <= numCheckExceeded st' /\
    num <= num' <= num + Z.of_nat (List.length idx) /\ numChecks <= nc' /\
    (-1 <= depth st ->
     nc' - numChecks <= Z.of_nat (List.length idx) * (10 * (depth st + 1))).
Proof.
  induction idx as [|i rest IH]; intros num directions mins numChecks st num' dirs' mins' nc' st' H.
  - cbn in H. inversion H; subst. repeat split; try lia. cbn. lia.
  - cbn [look_all] in H.
    match type of H with
    | context [look ?a ?b ?c ?d ?e ?f ?g ?h ?i ?j ?k ?l ?m] =>
        destruct (look a b c d e f g h i j k l m) as [[r [[dirs1 [[l1 m1] nc1]] s1]]|] eqn:El;
          [|discriminate]
    end.
    destruct (mt_look_post _ _ _ _ _ _ _ _ _ _ _ _ _ _ _ _ _ _ _ El)
      as (F & X & _ & _ & _ & N & B & Sm & R).
    specialize (Sm (std_step _)).
    apply IH in H. destruct H as (F' & M' & X' & Nm & N' & B').
    rewrite (mt_frame_depth _ _ F) in B'.
    repeat split.
    + eapply mt_frame_trans; eauto.
    + eapply mt_same_maze_trans; eauto.
    + lia.
    + destruct R as [[-> _]|[-> _]]; lia.
    + cbn [List.length]. destruct R as [[-> _]|[-> _]]; lia.
    + lia.
    + intros Hd. specialize (B Hd). specialize (B' Hd). cbn [List.length]. lia.
Qed.

Lemma findDirections_loop_post fuel n :
  forall x y value len num directions mins numChecks st num' len' dirs' nc' st',
    findDirections_loop fuel n x y value len num directions mins numChecks st =
      Some (num', len', (dirs', nc', st')) ->
    frame st st' /\ same_maze st st' /\
    numCheckExceeded st <= numCheckExceeded st' /\ len' <= len /\ num <= num'.
Proof.
  induction n as [|n IH];
    intros x y value len num directions mins numChecks st num' len' dirs' nc' st' H;
    [discriminate|].
  cbn [findDirections_loop] in H. unfold rand_Intn in H.
  match type of H with
  | context [look_all ?a ?b ?c ?d ?e ?f ?g ?h ?i ?j ?k ?l] =>
      destruct (look_all a b c d e f g h i j k l) as [[n1 [[[d1 m1] c1] s1]]|] eqn:El;
        [|discriminate]
  end.
  apply look_all_post in El. destruct El as (F & M & X & Nn & _ & _).
  assert (F0 : frame st s1) by (eapply mt_frame_trans; [|exact F]; reflexivity).
  assert (M0 : same_maze st s1) by (intros i j; apply M).
  destruct ((n1 >? 0) || (len <? 0)).
  - inversion H; subst. repeat split; auto; try lia; try exact X.
  - apply IH in H. destruct H as (F' & M' & X' & L' & N').
    repeat split.
    + eapply mt_frame_trans; eauto.
    + eapply mt_same_maze_trans; eauto.
    + cbn in X. lia.
    + match type of L' with context [?a <=? 0] => destruct (Z.leb_spec a 0) end; lia.
    + lia.
Qed.

(** [findDirections] leaves the grid as it found it. *)
Lemma findDirections_post fuel x y length value directions st num length' dirs' st' :
  findDirections fuel x y length value directions st = Some (num, length', (dirs', st')) ->
  (value <> wall -> maze st x y <> check) ->
  frame st st' /\ same_maze st st' /\ numCheckExceeded st <= numCheckExceeded st'.
Proof.
  unfold findDirections, getMaze. intros H Hc.
  destruct (Z.eqb_spec value wall) as [Ew|Ew]; cbn [negb] in H.
  - destruct (Z.eqb_spec (maze st x y) path) as [Ep|Ep].
    + rewrite setCell_check, Ep in H. cbn [Z.eqb path check] in H.
      destruct (findDirections_loop fuel fuel x y value length 0 directions (fun _ => length) 0
                  (set_maze st (grid_set (maze st) x y check)))
        as [[[n1 l1] [[d1 c1] s1]]|] eqn:El; [|discriminate].
      apply findDirections_loop_post in El. destruct El as (F & M & X & _ & _).
      cbv zeta in H. cbn [setMaze snd] in H.
      assert (Es : maze s1 x y = check) by (rewrite M; cbn; apply grid_set_eq).
      rewrite Es in H. cbn [Z.eqb check Pos.eqb] in H.
      inversion H; subst; clear H.
      repeat split.
      * destruct (_ <? _); (eapply mt_frame_trans; [|reflexivity]);
          (eapply mt_frame_trans; [|exact F]); reflexivity.
      * intros i j.
        transitivity (grid_set (maze s1) x y path i j);
          [destruct (_ <? _); reflexivity|].
        destruct (grid_set_cases (maze s1) x y path i j) as [(-> & -> & ->)|(N & ->)];
          [symmetry; exact Ep|].
        rewrite M. cbn. apply grid_set_neq; exact N.
      * destruct (_ <? _); cbn in *; lia.
    + cbv zeta in H. inversion H; subst.
      destruct (maxChecks st <? 0); repeat split; cbn; lia.
  - destruct (findDirections_loop fuel fuel x y value length 0 directions (fun _ => length) 0 st)
      as [[[n1 l1] [[d1 c1] s1]]|] eqn:El; [|discriminate].
    apply findDirections_loop_post in El. destruct El as (F & M & X & _ & _).
    cbv zeta in H.
    assert (Es : maze s1 x y <> check) by (rewrite M; auto).
    apply Z.eqb_neq in Es. rewrite Es in H.
    inversion H; subst; clear H.
    destruct (_ <? _); repeat split; auto; try (cbn; lia);
      try (eapply mt_frame_trans; [exact F|]; reflexivity);
      try (intros i j; apply M).
Qed.



End MTProofs.

Import MazeGo GoSpec GoProofs.

(** * The claims *)

Lemma not_none_some {A : Type} (o : option A) : o <> None -> exists a, o = Some a.
Proof. destruct o as [a|]; [eauto|congruence]. Qed.

(** ** C1: no 1x1 orphan after carving *)

(** C1, counterexample: in a maze of one room the carving phase of
    [create_maze] ends with that room walled in on all four sides and the
    border, which is Path, behind the walls: [orphan_1x1] holds at the
    room (2, 2). *)
Lemma orphan_in_one_room_maze :
  match carve_phase 20 (init_state 1 1 0 0 zero_draws) with
  | Some (_, st) => orphan_1x1 st 2 2
  | None => false
  end = true.
Proof. vm_compute. reflexivity. Qed.

(** C1, amended: when the carving phase of [create_maze] returns on a maze
    with more than one room, [orphan_1x1] is false at every room, whatever
    the depth and the random draws. *)
Theorem no_orphan_after_carving fuel st xy st' :
  carve_phase fuel st = Some (xy, st') ->
  1 <= height st -> 1 <= width st -> ~ (height st = 1 /\ width st = 1) ->
  forall x y, room (height st) (width st) x y -> orphan_1x1 st' x y = false.
Proof.
  intros H Hh Hw Hn x y R.
  destruct (carve_phase_post _ _ _ _ H Hh Hw)
    as (_ & _ & _ & _ & _ & _ & _ & (rk & n & C) & T).
  destruct (orphan_1x1 st' x y) eqn:E; [|reflexivity].
  exfalso. apply orphan_1x1_at in E.
  exact (no_orphan (height st) (width st) rk n st' C T x y Hh Hw Hn R E).
Qed.

Lemma no_orphan_after_carving_witness :
  exists xy st',
    carve_phase 20 (init_state 2 3 1 0 zero_draws) = Some (xy, st') /\
    forall x y, room 2 3 x y -> orphan_1x1 st' x y = false.
Proof.
  destruct (carve_phase 20 (init_state 2 3 1 0 zero_draws)) as [[xy st']|] eqn:E.
  - exists xy, st'. split; [reflexivity|].
    apply (no_orphan_after_carving 20 _ xy st' E); cbn; lia.
  - exfalso. vm_compute in E. discriminate.
Defined.

(** ** C2: the pairs the optimizer tries, and what a trial leaves *)




(** ** C3: the optimizer keeps the best pair and commits it *)



(** ** C4: the look ahead leaves no Checking cell behind *)

(** C4: a call of the look ahead returns with the grid it was given.  In
    maze.go: [check_directions], called on a cell that holds [val] (as
    [look] and its own recursion do), and [find_directions], called for
    walls or without search (as every caller does).  In Rev 2.3:
    [checkDirections], called across a passage that holds [value], and
    [findDirections], when the cell is not already Checking.  So a grid
    without Checking cells has none afterwards, whether the probe matched,
    failed or ran out of budget. *)
Theorem lookahead_restores_grid :
  (forall fuel x y val depth checks st m c st',
     check_directions fuel x y val depth checks st = Some (m, (c, st')) ->
     maze st x y = val -> forall i j, maze st' i j = maze st i j) /\
  (forall fuel x y val search st num st',
     find_directions fuel x y val search st = Some (num, st') ->
     val = WALL \/ search = false -> forall i j, maze st' i j = maze st i j) /\
  (forall fuel x y dx dy limit value p st m p' st',
     MazeMT.checkDirections fuel x y dx dy limit value p st = Some (m, (p', st')) ->
     MazeMT.maze st (x + Z.quot dx 2) (y + Z.quot dy 2) = value ->
     forall i j, MazeMT.maze st' i j = MazeMT.maze st i j) /\
  (forall fuel x y length value directions st num length' dirs' st',
     MazeMT.findDirections fuel x y length value directions st
       = Some (num, length', (dirs', st')) ->
     (value <> MazeMT.wall -> MazeMT.maze st x y <> MazeMT.check) ->
     forall i j, MazeMT.maze st' i j = MazeMT.maze st i j).
Proof.
  repeat apply conj.
  - intros fuel x y val depth checks st m c st' H E.
    apply (cd_maze _ _ _ _ _ (check_directions_post _ _ _ _ _ _ _ _ _ _ H) E).
  - intros fuel x y val search st num st' H Hv.
    destruct (find_directions_post _ _ _ _ _ _ _ _ H Hv) as ((_ & M & _) & _). exact M.
  - intros fuel x y dx dy limit value p st m p' st' H E.
    destruct (MTProofs.checkDirections_post _ _ _ _ _ _ _ _ _ _ _ _ H) as [_ M]. exact (M E).
  - intros fuel x y length value directions st num length' dirs' st' H Hc.
    destruct (MTProofs.findDirections_post _ _ _ _ _ _ _ _ _ _ _ H Hc) as (_ & M & _).
    exact M.
Qed.

Lemma lookahead_restores_grid_witness :
  exists num st',
    find_directions 5 2 2 WALL SEARCH
      (set_path_depth (snd (initialize_maze (init_state 2 3 3 0 zero_draws))) 3)
      = Some (num, st') /\
    forall i j, maze st' i j =
      maze (set_path_depth (snd (initialize_maze (init_state 2 3 3 0 zero_draws))) 3) i j.
Proof.
  destruct (find_directions 5 2 2 WALL SEARCH
              (set_path_depth (snd (initialize_maze (init_state 2 3 3 0 zero_draws))) 3))
    as [[num st']|] eqn:E.
  - exists num, st'. split; [reflexivity|].
    exact (proj1 (proj2 lookahead_restores_grid) _ _ _ _ _ _ _ _ E (or_introl eq_refl)).
  - exfalso. vm_compute in E. discriminate.
Defined.

(** ** C5: the border *)

(** C5, counterexample: on the maze of one room, after [create_maze] and
    [solve_maze] the border cell (4, 2) below the exit holds Solved:
    [follow_path] marks the cell it steps on when it leaves the maze. *)
Lemma border_cell_solved :
  match create_maze 20 (init_state 1 1 0 0 zero_draws) with
  | Some ((x, y), st) =>
      match solve_maze 20 x y st with
      | Some (_, st') => maze st' 4 2
      | None => PATH
      end
  | None => PATH
  end = SOLVED.
Proof. vm_compute. reflexivity. Qed.

(** C5, amended: every cell of the outermost ring holds Path when
    [initialize_maze] returns, and in a run of [create_maze] when the
    carving phase returns, when the normalization of the wall openings
    returns and when [search_best_openings] returns. *)
Theorem border_is_path_until_solving fuel st xy s3 :
  create_maze fuel st = Some (xy, s3) ->
  1 <= height st -> 1 <= width st ->
  border_path (height st) (width st) (maze (snd (initialize_maze st))) /\
  exists xy1 s1 s2,
    carve_phase fuel st = Some (xy1, s1) /\ push_all fuel s1 = Some s2 /\
    search_best_openings fuel (fst xy1) (snd xy1) s2 = Some (xy, s3) /\
    border_path (height st) (width st) (maze s1) /\
    border_path (height st) (width st) (maze s2) /\
    border_path (height st) (width st) (maze s3).
Proof.
  unfold create_maze. intros H Hh Hw.
  split; [apply initialize_maze_blank; lia|].
  destruct (carve_phase fuel st) as [[[x y] s1]|] eqn:C; [|discriminate].
  destruct (push_all fuel s1) as [s2|] eqn:P; [|discriminate].
  pose proof (carve_phase_ready _ _ _ _ C Hh Hw) as R1.
  pose proof (push_all_ready _ _ _ _ _ P R1) as R2.
  destruct (search_best_openings_post _ _ _ _ _ _ _ _ R2 H) as (b & _ & _ & _ & A & _).
  exists (x, y), s1, s2. repeat apply conj; auto.
  - apply (rd_border _ _ _ R1).
  - apply (rd_border _ _ _ R2).
  - apply (ar_border _ _ _ _ _ A).
Qed.

Lemma border_is_path_until_solving_witness :
  exists xy st3,
    create_maze 20 (init_state 2 3 0 0 zero_draws) = Some (xy, st3) /\
    border_path 2 3 (maze st3).
Proof.
  destruct (create_maze 20 (init_state 2 3 0 0 zero_draws)) as [[xy3 st3]|] eqn:E.
  - exists xy3, st3. split; [reflexivity|].
    destruct (border_is_path_until_solving 20 _ xy3 st3 E) as (_ & xy1 & s1 & s2 & _ & _ & _ & _ & _ & B);
      [cbn; lia|cbn; lia|exact B].
  - exfalso. vm_compute in E. discriminate.
Defined.

(** ** C6: the fixed point of the normalizer *)

(** C6: when the loop over [push_mid_wall_openings] ends, no passage cell
    inside the border is a mid-wall opening, one more pass makes zero moves
    and leaves the state as it is, and so does the whole loop. *)
Theorem push_all_fixed_point n st st' :
  push_all n st = Some st' ->
  (forall i j, passage (height st') (width st') i j -> mid_wall_opening st' i j = false) /\
  push_mid_wall_openings st' = (0, st') /\
  forall m, push_all (S m) st' = Some st'.
Proof.
  intros H. destruct (push_all_fixed _ _ _ H) as [P K].
  split; [|split].
  - intros i j Ps. apply K. apply scanned_passage. exact Ps.
  - exact P.
  - intros m. cbn [push_all]. rewrite P. reflexivity.
Qed.

Lemma push_all_fixed_point_witness :
  exists s st', carve_phase 20 (init_state 3 3 0 0 comb_draws) = Some (s, st') /\
    exists st'', push_all 20 st' = Some st'' /\ push_mid_wall_openings st'' = (0, st'').
Proof.
  set (st0 := init_state 3 3 0 0 comb_draws).
  destruct (carve_phase 20 st0) as [[xy0 s]|] eqn:C;
    [|exfalso; vm_compute in C; discriminate].
  assert (N : match carve_phase 20 st0 with
              | Some (_, s) => push_all 20 s
              | None => None
              end <> None) by (vm_compute; discriminate).
  rewrite C in N. destruct (push_all 20 s) as [s'|] eqn:P; [|contradiction].
  exists xy0, s. split; [reflexivity|]. exists s'. split; [exact P|].
  exact (proj1 (proj2 (push_all_fixed_point 20 s s' P))).
Defined.

(** ** C7: the budget of one look ahead *)



(** ** C8: the loop of main *)

(** C8, counterexample: a 2 by 3 maze with minimum path length 5 (a legal
    setting: 5 < 2 * 3) and a seed whose draws carve a comb, round after
    round.  Every round completes with best path length 4, and the loop of
    [main] has not stopped after any number of rounds: there is no
    ceiling. *)
Lemma main_loop_has_no_ceiling :
  (forall n, main_loop 40 n (fun _ => comb_draws) 0 (init_state 2 3 0 5 zero_draws) = None) /\
  (forall m, exists s, rounds 40 m (fun _ => comb_draws) 0 (init_state 2 3 0 5 zero_draws)
                       = Some s).
Proof.
  split.
  - intros n. apply comb_never; reflexivity.
  - intros m.
    assert (G : forall k st, height st = 2 -> width st = 3 -> depth st = 0 -> min_len st = 5 ->
                exists s, rounds 40 m (fun _ => comb_draws) k st = Some s).
    { induction m as [|m IH]; intros k st Hh Hw Hd Hm; cbn [rounds]; [eauto|].
      destruct (comb_round st Hh Hw Hd Hm) as (s1 & -> & Hh1 & Hw1 & Hd1 & Hm1 & _).
      apply IH; assumption. }
    apply G; reflexivity.
Qed.

(** C8, amended: the loop of [main] has one way out, a round whose best
    path length reaches the minimum: when it returns, the minimum is met, it
    returns the state of the first such round, and every earlier round
    fell short. *)
Theorem main_loop_stops_when_long_enough fuel n :
  forall draws k st st',
    main_loop fuel n draws k st = Some st' ->
    min_len st' <= max_path_length st' /\
    exists m, (m < n)%nat /\ rounds fuel (S m) draws k st = Some st' /\
      forall m' s, (m' <= m)%nat -> (0 < m')%nat -> rounds fuel m' draws k st = Some s ->
        max_path_length s < min_len s.
Proof.
  induction n as [|n IH]; intros draws k st st' H; [discriminate|].
  rewrite main_loop_S in H.
  destruct (round fuel (draws k) st) as [s1|] eqn:Rd; [|discriminate].
  destruct (Z.geb_spec (max_path_length s1) (min_len s1)) as [Ge|Lt].
  - injection H as <-. split; [lia|]. exists O. split; [lia|]. split.
    + cbn [rounds]. rewrite Rd. reflexivity.
    + intros m' s Hm Hp. lia.
  - destruct (IH _ _ _ _ H) as (Ok & m & Hm & Rs & Before).
    split; [exact Ok|]. exists (S m). split; [lia|]. split.
    + cbn [rounds] in *. rewrite Rd. exact Rs.
    + intros m' s Hm' Hp Rm'. destruct m' as [|m']; [lia|].
      cbn [rounds] in Rm'. rewrite Rd in Rm'.
      destruct m' as [|m'].
      * cbn [rounds] in Rm'. injection Rm' as <-. exact Lt.
      * apply (Before (S m') s); [lia|lia|exact Rm'].
Qed.

Lemma main_loop_stops_when_long_enough_witness :
  exists st',
    main_loop 40 3 (fun _ => zero_draws) 0 (init_state 2 3 0 5 zero_draws) = Some st' /\
    min_len st' <= max_path_length st'.
Proof.
  destruct (main_loop 40 3 (fun _ => zero_draws) 0 (init_state 2 3 0 5 zero_draws))
    as [st'|] eqn:E.
  - exists st'. split; [reflexivity|].
    exact (proj1 (main_loop_stops_when_long_enough _ _ _ _ _ _ E)).
  - exfalso. vm_compute in E. discriminate.
Defined.

(** ** C10: setCell *)


(** * Further properties of the code *)

(** ** Carving *)

(** X1: [initialize_maze] leaves the border Path and every cell inside it
    Wall, touches no cell outside the grid, returns a room as the start of
    the first path and sets the geometry. *)
Theorem initialize_maze_grid st :
  1 <= height st -> 1 <= width st ->
  room (height st) (width st)
    (fst (fst (initialize_maze st))) (snd (fst (initialize_maze st))) /\
  blank (height st) (width st) (maze (snd (initialize_maze st))) /\
  (forall a b, ~ (0 <= a <= 2 * (height st + 1) /\ 0 <= b <= 2 * (width st + 1)) ->
     maze (snd (initialize_maze st)) a b = maze st a b) /\
  max_x (snd (initialize_maze st)) = 2 * (height st + 1) + 1 /\
  max_y (snd (initialize_maze st)) = 2 * (width st + 1) + 1 /\
  beg_x (snd (initialize_maze st)) = 2 /\
  end_x (snd (initialize_maze st)) = 2 * height st.
Proof.
  intros Hh Hw.
  destruct (initialize_maze_maze st ltac:(lia) ltac:(lia)) as (B & W & O).
  pose proof (initialize_maze_fields st) as F. cbv zeta in F.
  destruct F as (_ & _ & _ & _ & F5 & F6 & F7 & F8 & _).
  split; [apply initialize_maze_room; assumption|].
  split; [split; assumption|]. auto.
Qed.

Lemma initialize_maze_grid_witness :
  blank 2 3 (maze (snd (initialize_maze (init_state 2 3 0 0 zero_draws)))).
Proof.
  exact (proj1 (proj2 (initialize_maze_grid (init_state 2 3 0 0 zero_draws)
           ltac:(cbn; lia) ltac:(cbn; lia)))).
Defined.

(** X2: when the carving phase returns, every room of the maze has been
    carved. *)
Theorem carving_reaches_every_room fuel st xy st' :
  carve_phase fuel st = Some (xy, st') ->
  1 <= height st -> 1 <= width st ->
  forall x y, room (height st) (width st) x y -> maze st' x y = PATH.
Proof.
  intros H Hh Hw. apply (rd_rooms _ _ _ (carve_phase_ready _ _ _ _ H Hh Hw)).
Qed.

Lemma carving_reaches_every_room_witness :
  exists xy st',
    carve_phase 20 (init_state 2 3 1 0 comb_draws) = Some (xy, st') /\ maze st' 4 6 = PATH.
Proof.
  destruct (carve_phase 20 (init_state 2 3 1 0 comb_draws)) as [[xy st']|] eqn:E.
  - exists xy, st'. split; [reflexivity|].
    apply (carving_reaches_every_room 20 _ xy st' E); [cbn; lia|cbn; lia|].
    exists 2, 3. cbn. lia.
  - exfalso. vm_compute in E. discriminate.
Defined.

(** X3: carving leaves the outer wall whole: when the carving phase
    returns, the cells just inside the border are all Wall, the cells with
    two odd coordinates are Wall, every cell inside the border is Wall or
    Path, and a passage that is Path has Path rooms at both ends. *)
Theorem carving_keeps_outer_wall fuel st xy st' :
  carve_phase fuel st = Some (xy, st') ->
  1 <= height st -> 1 <= width st ->
  (forall i j, on_ring (height st) (width st) i j -> maze st' i j = WALL) /\
  (forall a b, 0 <= a <= height st -> 0 <= b <= width st ->
     maze st' (2 * a + 1) (2 * b + 1) = WALL) /\
  (forall i j, 1 <= i <= 2 * height st + 1 -> 1 <= j <= 2 * width st + 1 ->
     maze st' i j = WALL \/ maze st' i j = PATH) /\
  (forall x y dx dy, room (height st) (width st) x y -> is_step dx dy ->
     maze st' (x + Z.quot dx 2) (y + Z.quot dy 2) = PATH ->
     maze st' x y = PATH /\ maze st' (x + dx) (y + dy) = PATH /\
     room (height st) (width st) (x + dx) (y + dy)).
Proof.
  intros H Hh Hw.
  pose proof (carve_phase_ready _ _ _ _ H Hh Hw) as R.
  destruct (carve_phase_post _ _ _ _ H Hh Hw)
    as (_ & _ & _ & _ & _ & _ & _ & (rk & n & C) & _).
  split; [apply (rd_ring _ _ _ R)|]. split; [apply (cv_pillar _ _ _ _ _ C)|].
  split; [apply (cv_cells _ _ _ _ _ C)|].
  intros x y dx dy Rm S P.
  destruct (cv_ends _ _ _ _ _ C _ _ _ _ Rm S P) as [P1 P2].
  split; [exact P1|]. split; [exact P2|].
  destruct (room_dec (height st) (width st) (x + dx) (y + dy)) as [|N]; [assumption|].
  rewrite (cv_edge _ _ _ _ _ C _ _ _ _ Rm S N) in P. discriminate.
Qed.

Lemma carving_keeps_outer_wall_witness :
  exists xy st',
    carve_phase 20 (init_state 2 3 1 0 comb_draws) = Some (xy, st') /\ maze st' 1 4 = WALL.
Proof.
  destruct (carve_phase 20 (init_state 2 3 1 0 comb_draws)) as [[xy st']|] eqn:E.
  - exists xy, st'. split; [reflexivity|].
    apply (proj1 (carving_keeps_outer_wall 20 _ xy st' E ltac:(cbn; lia) ltac:(cbn; lia))).
    unfold on_ring. cbn. lia.
  - exfalso. vm_compute in E. discriminate.
Defined.

(** X4: the carved maze has no cycle: when the carving phase returns, the
    rooms can be numbered so that two rooms joined by an open passage have
    different numbers and no room has open passages to two rooms of lower
    number (on a cycle, the room of highest number would have two). *)
Theorem carving_leaves_no_cycle fuel st xy st' :
  carve_phase fuel st = Some (xy, st') ->
  1 <= height st -> 1 <= width st ->
  exists rk : Z -> Z -> Z,
    forall x y, room (height st) (width st) x y ->
      (forall dx dy, is_step dx dy ->
         maze st' (x + Z.quot dx 2) (y + Z.quot dy 2) = PATH ->
         rk x y <> rk (x + dx) (y + dy)) /\
      (forall dx dy ex ey, is_step dx dy -> is_step ex ey -> (dx, dy) <> (ex, ey) ->
         maze st' (x + Z.quot dx 2) (y + Z.quot dy 2) = PATH ->
         maze st' (x + Z.quot ex 2) (y + Z.quot ey 2) = PATH ->
         ~ (rk (x + dx) (y + dy) < rk x y /\ rk (x + ex) (y + ey) < rk x y)).
Proof.
  intros H Hh Hw.
  destruct (carve_phase_post _ _ _ _ H Hh Hw)
    as (_ & _ & _ & _ & _ & _ & _ & (rk & n & C) & _).
  exists rk. intros x y R. split.
  - intros dx dy S P. eapply cv_distinct; eauto.
  - intros dx dy ex ey S S' N P P'. eapply cv_parent; eauto.
Qed.

Lemma carving_leaves_no_cycle_witness :
  exists xy st' (rk : Z -> Z -> Z),
    carve_phase 20 (init_state 2 3 1 0 comb_draws) = Some (xy, st') /\
    (maze st' 2 3 = PATH -> rk 2 2 <> rk 2 4).
Proof.
  destruct (carve_phase 20 (init_state 2 3 1 0 comb_draws)) as [[xy st']|] eqn:E.
  - destruct (carving_leaves_no_cycle 20 _ xy st' E ltac:(cbn; lia) ltac:(cbn; lia)) as [rk K].
    exists xy, st', rk. split; [reflexivity|].
    assert (R : room 2 3 2 2) by (exists 1, 1; lia).
    assert (S : is_step 0 2) by (unfold is_step; lia).
    exact (proj1 (K 2 2 R) 0 2 S).
  - exfalso. vm_compute in E. discriminate.
Defined.

(** X5: [find_path_start] leaves the grid as it is.  If it returns true,
    the cell it returns is a room that is Path; if it returns false, no
    room that is Path and not straight through has a wall passage with a
    wall room behind it. *)
Theorem find_path_start_result fuel x y st found x' y' st' :
  find_path_start fuel x y st = Some (found, ((x', y'), st')) ->
  1 <= height st -> 1 <= width st ->
  (forall i j, maze st' i j = maze st i j) /\
  (found = true -> room (height st) (width st) x' y' /\ maze st x' y' = PATH) /\
  (found = false ->
   forall a b, room (height st) (width st) a b -> maze st a b = PATH ->
     straight_thru st a b PATH = false ->
     forall dx dy, is_step dx dy ->
       ~ (maze st (a + Z.quot dx 2) (b + Z.quot dy 2) = WALL /\
          maze st (a + dx) (b + dy) = WALL)).
Proof.
  intros H Hh Hw.
  destruct (find_path_start_post _ _ _ _ _ _ _ _ H Hh Hw) as (M & _ & T & F).
  split; [exact M|]. split; [exact T|]. intros E. exact (F E).
Qed.

Lemma find_path_start_result_witness :
  exists found xy st',
    find_path_start 20 2 2 (snd (initialize_maze (init_state 2 3 0 0 zero_draws)))
      = Some (found, (xy, st')) /\
    forall i j, maze st' i j = maze (snd (initialize_maze (init_state 2 3 0 0 zero_draws))) i j.
Proof.
  destruct (find_path_start 20 2 2 (snd (initialize_maze (init_state 2 3 0 0 zero_draws))))
    as [[found [[x' y'] st']]|] eqn:E.
  - exists found, (x', y'), st'. split; [reflexivity|].
    exact (proj1 (find_path_start_result _ _ _ _ _ _ _ _ E
                    ltac:(vm_compute; discriminate) ltac:(vm_compute; discriminate))).
  - exfalso. vm_compute in E. discriminate.
Defined.

(** ** The look ahead of maze.go *)

(** X6: the table [find_directions] fills is sound: it counts at most four
    directions, each entry below the count is one of the four steps, and
    the passage and the room of that step hold [val] in the grid.  Without
    search the count is zero exactly when no step is open. *)
Theorem find_directions_table fuel x y val search st num st' :
  find_directions fuel x y val search st = Some (num, st') ->
  val = WALL \/ search = false ->
  0 <= num <= 4 /\
  (forall k, 0 <= k < num ->
     is_step (dt_x (dir_tbl st' k)) (dt_y (dir_tbl st' k)) /\
     maze st (x + Z.quot (dt_x (dir_tbl st' k)) 2) (y + Z.quot (dt_y (dir_tbl st' k)) 2) = val /\
     maze st (x + dt_x (dir_tbl st' k)) (y + dt_y (dir_tbl st' k)) = val) /\
  (search = false ->
   (num = 0 <-> forall dx dy, is_step dx dy ->
      ~ (maze st (x + Z.quot dx 2) (y + Z.quot dy 2) = val /\ maze st (x + dx) (y + dy) = val))).
Proof.
  intros H Hv.
  destruct (find_directions_post _ _ _ _ _ _ _ _ H Hv) as ((_ & _ & N0 & V) & N4 & _ & C).
  split; [lia|]. split.
  - intros k Hk. destruct (V k Hk) as [S [O1 O2]]. auto.
  - intros Hs. split.
    + intros Hz. exact (C Hs Hz).
    + intros No. destruct (Z.eq_dec num 0) as [|Nz]; [assumption|].
      exfalso. destruct (V 0 ltac:(lia)) as [S O]. exact (No _ _ S O).
Qed.

Lemma find_directions_table_witness :
  exists num st',
    find_directions 5 2 2 WALL NO_SEARCH (snd (initialize_maze (init_state 2 3 0 0 zero_draws)))
      = Some (num, st') /\ 0 <= num <= 4.
Proof.
  destruct (find_directions 5 2 2 WALL NO_SEARCH
              (snd (initialize_maze (init_state 2 3 0 0 zero_draws))))
    as [[num st']|] eqn:E.
  - exists num, st'. split; [reflexivity|].
    exact (proj1 (find_directions_table _ _ _ _ _ _ _ _ E (or_introl eq_refl))).
  - exfalso. vm_compute in E. discriminate.
Defined.



(** X8: [check_orphan] puts back the two walls it opened: called on a
    wall passage with a wall room behind it, it returns with the grid it
    was given; with depth 0 it does nothing and reports no orphan. *)
Theorem check_orphan_restores x y dx dy depth st :
  (maze st (x + Z.quot dx 2) (y + Z.quot dy 2) = WALL -> maze st (x + dx) (y + dy) = WALL ->
   forall i j, maze (snd (check_orphan x y dx dy depth st)) i j = maze st i j) /\
  (depth = 0 -> check_orphan x y dx dy depth st = (false, st)).
Proof.
  destruct (check_orphan x y dx dy depth st) as [o s] eqn:E.
  destruct (check_orphan_post _ _ _ _ _ _ _ _ E) as (_ & _ & _ & Z0 & M).
  split.
  - intros W1 W2. apply M. split; assumption.
  - intros D. destruct (Z0 D) as [-> ->]. reflexivity.
Qed.

(** ** Normalizing the wall openings *)

(** X9: one pass of [push_mid_wall_openings] counts its moves from zero
    up, and a pass that reports zero moves has changed nothing. *)
Theorem push_pass_without_moves st :
  0 <= fst (push_mid_wall_openings st) /\
  (fst (push_mid_wall_openings st) = 0 -> snd (push_mid_wall_openings st) = st).
Proof.
  split; [apply push_moves_nonneg|].
  destruct (push_mid_wall_openings st) as [m s] eqn:E. cbn [fst snd]. intros ->.
  apply (proj1 (push_zero _ _ E)).
Qed.

(** X10: normalizing keeps the shape of the maze: after the loop over
    [push_mid_wall_openings] the border is still Path, the outer wall is
    whole, every room is Path and every cell inside the border is Wall or
    Path. *)
Theorem push_all_keeps_shape fuel n st xy s1 s2 :
  carve_phase fuel st = Some (xy, s1) -> push_all n s1 = Some s2 ->
  1 <= height st -> 1 <= width st ->
  ready (height st) (width st) s2.
Proof.
  intros C P Hh Hw. eapply push_all_ready; [exact P|]. eapply carve_phase_ready; eauto.
Qed.

Lemma push_all_keeps_shape_witness :
  exists xy s1 s2,
    carve_phase 20 (init_state 3 3 0 0 comb_draws) = Some (xy, s1) /\
    push_all 20 s1 = Some s2 /\ ready 3 3 s2.
Proof.
  set (st0 := init_state 3 3 0 0 comb_draws).
  destruct (carve_phase 20 st0) as [[xy0 s]|] eqn:C;
    [|exfalso; vm_compute in C; discriminate].
  assert (N : match carve_phase 20 st0 with
              | Some (_, s) => push_all 20 s
              | None => None
              end <> None) by (vm_compute; discriminate).
  rewrite C in N. destruct (push_all 20 s) as [s'|] eqn:P; [|contradiction].
  exists xy0, s, s'. split; [reflexivity|]. split; [exact P|].
  apply (push_all_keeps_shape 20 20 st0 xy0 s s' C P); cbn; lia.
Defined.

(** ** Solving and the search of the openings *)

(** X11: [restore_maze] turns every Solved and every Tried cell of the
    grid (rows below [max_x], columns below [max_y]) into Path and changes
    no other cell and no other variable. *)
Theorem restore_maze_cells st :
  (forall a b, maze (restore_maze st) a b =
     if (0 <=? a) && (a <? max_x st) && (0 <=? b) && (b <? max_y st) &&
        ((maze st a b =? SOLVED) || (maze st a b =? TRIED))
     then PATH else maze st a b) /\
  set_maze (restore_maze st) (maze st) = st.
Proof.
  split; [intros a b; apply restore_maze_maze|apply restore_maze_fixed].
Qed.

(** X12: in a finished maze, [delete_openings] undoes [create_openings]:
    the grid is the one before the openings were made. *)
Theorem openings_round_trip h w st i j :
  ready h w st -> 0 <= i < w -> 0 <= j < w ->
  forall a b,
    maze (delete_openings (snd (create_openings (2 * (i + 1)) (2 * (j + 1)) st))) a b
    = maze st a b.
Proof.
  intros R Hi Hj a b.
  pose proof (rd_rows _ _ _ R) as Hh.
  assert (Rs : room h w 2 (2 * (i + 1))) by (exists 1, (i + 1); lia).
  assert (Re : room h w (2 * h) (2 * (j + 1))) by (exists h, (j + 1); lia).
  pose proof (create_openings_placed h w st (2 * (i + 1)) (2 * (j + 1)) R)
    as (_ & _ & _ & _ & Eb & Ee & Es & Ef).
  unfold delete_openings, wr. cbn [maze set_maze beg_x end_x beg_y end_y].
  rewrite Eb, Ee, Es, Ef. replace (2 - 1) with 1 by lia.
  destruct (grid_set_cases
              (grid_set (maze (snd (create_openings (2 * (i + 1)) (2 * (j + 1)) st)))
                 1 (2 * (i + 1)) WALL) (2 * h + 1) (2 * (j + 1)) WALL a b)
    as [(-> & -> & ->)|(N2 & ->)].
  - symmetry. apply (rd_ring _ _ _ R). unfold on_ring. lia.
  - destruct (grid_set_cases (maze (snd (create_openings (2 * (i + 1)) (2 * (j + 1)) st)))
                1 (2 * (i + 1)) WALL a b) as [(-> & -> & ->)|(N1 & ->)].
    + symmetry. apply (rd_ring _ _ _ R). unfold on_ring. lia.
    + rewrite (create_openings_maze h w st (2 * (i + 1)) (2 * (j + 1)) R).
      rewrite !grid_set_neq by assumption.
      reflexivity.
Qed.

Lemma openings_round_trip_witness :
  let st := carved_state 20 (init_state 1 3 0 0 zero_draws) in
  maze (delete_openings (snd (create_openings 2 6 st))) 1 2 = maze st 1 2.
Proof.
  cbv zeta.
  set (st0 := init_state 1 3 0 0 zero_draws).
  destruct (carve_phase 20 st0) as [[xy0 s]|] eqn:C;
    [|exfalso; vm_compute in C; discriminate].
  assert (N : match carve_phase 20 st0 with
              | Some (_, s) => push_all 20 s
              | None => None
              end <> None) by (vm_compute; discriminate).
  rewrite C in N. destruct (push_all 20 s) as [s'|] eqn:P; [|contradiction].
  destruct (carved_state_ready 20 st0 xy0 s s' C P) as [E R]; [cbn; lia|cbn; lia|].
  rewrite E. cbn [height width st0 init_state] in R.
  exact (openings_round_trip 1 3 s' 0 2 R ltac:(lia) ltac:(lia) 1 2).
Defined.

(** X13: in a finished maze the first pair, entrance and exit in the
    first column, is always tried: the cells left of the corner rooms
    belong to the outer wall. *)
Theorem first_pair_is_tried h w st :
  ready h w st -> evaluated st 2 2 = true.
Proof.
  intros R. apply evaluated_spec.
  rewrite (rd_beg_x _ _ _ R), (rd_end_x _ _ _ R).
  pose proof (rd_rows _ _ _ R). pose proof (rd_cols _ _ _ R).
  split; left; apply (rd_ring _ _ _ R); unfold on_ring; lia.
Qed.

Lemma first_pair_is_tried_witness :
  evaluated (carved_state 20 (init_state 1 3 0 0 zero_draws)) 2 2 = true.
Proof.
  set (st0 := init_state 1 3 0 0 zero_draws).
  destruct (carve_phase 20 st0) as [[xy0 s]|] eqn:C;
    [|exfalso; vm_compute in C; discriminate].
  assert (N : match carve_phase 20 st0 with
              | Some (_, s) => push_all 20 s
              | None => None
              end <> None) by (vm_compute; discriminate).
  rewrite C in N. destruct (push_all 20 s) as [s'|] eqn:P; [|contradiction].
  destruct (carved_state_ready 20 st0 xy0 s s' C P) as [E R]; [cbn; lia|cbn; lia|].
  rewrite E. exact (first_pair_is_tried _ _ s' R).
Defined.

(** X14: the whole search returns to the grid it started from: when the
    loop of [search_best_openings] has run over any list of pairs of the
    maze, every cell holds what it held before, and the maze is again
    without openings. *)
Theorem search_loop_restores h w fuel pairs b x y st b' xy st' :
  ready h w st -> in_range w pairs ->
  search_loop fuel pairs b x y st = Some (b', (xy, st')) ->
  (forall i j, maze st' i j = maze st i j) /\ ready h w st'.
Proof. intros R Hr H. exact (search_loop_ready h w fuel pairs _ _ _ _ _ _ _ R Hr H). Qed.

Lemma search_loop_restores_witness :
  let st := carved_state 20 (init_state 1 3 0 0 zero_draws) in
  exists b' xy st',
    search_loop 20 [(0, 0); (1, 2)] (mkBest 0 0 2 2) 2 2 st = Some (b', (xy, st')) /\
    forall i j, maze st' i j = maze st i j.
Proof.
  cbv zeta.
  set (st0 := init_state 1 3 0 0 zero_draws).
  destruct (carve_phase 20 st0) as [[xy0 s]|] eqn:C;
    [|exfalso; vm_compute in C; discriminate].
  assert (N : match carve_phase 20 st0 with
              | Some (_, s) => push_all 20 s
              | None => None
              end <> None) by (vm_compute; discriminate).
  rewrite C in N. destruct (push_all 20 s) as [s'|] eqn:P; [|contradiction].
  destruct (carved_state_ready 20 st0 xy0 s s' C P) as [E R]; [cbn; lia|cbn; lia|].
  rewrite E. cbn [height width st0 init_state] in R.
  destruct (search_loop 20 [(0, 0); (1, 2)] (mkBest 0 0 2 2) 2 2 s') as [[b' [xy st']]|] eqn:L.
  - exists b', xy, st'. split; [reflexivity|].
    refine (proj1 (search_loop_restores 1 3 20 _ _ _ _ s' b' xy st' R _ L)).
    intros i j [Hin|[Hin|[]]]; inversion Hin; lia.
  - exfalso. rewrite <- E in L. vm_compute in L. discriminate.
Defined.

(** X15: the maze [create_maze] returns: the start it hands to
    [solve_maze] is the entrance room (2, beg_y); the border is Path, every
    room is Path, every cell inside the border is Wall or Path, and the
    outer wall is whole except for the entrance above room (2, beg_y) and
    the exit below room (2 * height, end_y), which are Path. *)
Theorem create_maze_result fuel st xy st' :
  create_maze fuel st = Some (xy, st') ->
  1 <= height st -> 1 <= width st ->
  xy = (2, beg_y st') /\
  placed (height st) (width st) (beg_y st') (end_y st') st' /\
  arena (height st) (width st) (beg_y st') (end_y st') (maze st').
Proof.
  intros H Hh Hw.
  destruct (create_maze_post _ _ _ _ H Hh Hw) as (s & e & -> & P & A).
  pose proof P as (_ & _ & _ & _ & _ & _ & Es & Ee). rewrite Es, Ee. auto.
Qed.

Lemma create_maze_result_witness :
  exists xy st',
    create_maze 20 (init_state 2 3 0 0 zero_draws) = Some (xy, st') /\ xy = (2, beg_y st').
Proof.
  destruct (create_maze 20 (init_state 2 3 0 0 zero_draws)) as [[xy st']|] eqn:E.
  - exists xy, st'. split; [reflexivity|].
    exact (proj1 (create_maze_result 20 _ xy st' E ltac:(cbn; lia) ltac:(cbn; lia))).
  - exfalso. vm_compute in E. discriminate.
Defined.

(** X16: solving the maze that [create_maze] returned only marks paths:
    when [solve_maze] returns, every cell holds what it held in the created
    maze, or it is a cell of the grid that was Path and is now Solved or
    Tried; no wall is touched and nothing outside the grid is written. *)
Theorem solve_maze_marks_paths_only fuel st x y s xy' s' :
  create_maze fuel st = Some ((x, y), s) ->
  solve_maze fuel x y s = Some (xy', s') ->
  1 <= height st -> 1 <= width st ->
  forall i j,
    maze s' i j = maze s i j \/
    (in_grid (height st) (width st) i j /\ maze s i j = PATH /\
     (maze s' i j = SOLVED \/ maze s' i j = TRIED)).
Proof.
  intros C S Hh Hw.
  destruct (create_maze_post _ _ _ _ C Hh Hw) as (bs & be & E & P & A).
  injection E as -> ->. destruct xy' as [x' y'].
  destruct (solve_maze_post _ _ _ _ _ A fuel s x' y' s' P (fun i j => eq_refl) S) as [_ M].
  exact M.
Qed.

Lemma solve_maze_marks_paths_only_witness :
  exists x y s xy' s',
    create_maze 20 (init_state 2 3 0 0 zero_draws) = Some ((x, y), s) /\
    solve_maze 20 x y s = Some (xy', s') /\
    (maze s' 1 1 = maze s 1 1 \/
     (in_grid 2 3 1 1 /\ maze s 1 1 = PATH /\ (maze s' 1 1 = SOLVED \/ maze s' 1 1 = TRIED))).
Proof.
  set (st0 := init_state 2 3 0 0 zero_draws).
  destruct (create_maze 20 st0) as [[[x y] s]|] eqn:C;
    [|exfalso; vm_compute in C; discriminate].
  assert (N : match create_maze 20 st0 with
              | Some ((x, y), s) => solve_maze 20 x y s
              | None => None
              end <> None) by (vm_compute; discriminate).
  rewrite C in N. destruct (solve_maze 20 x y s) as [[xy' s']|] eqn:S; [|contradiction].
  exists x, y, s, xy', s'. split; [reflexivity|]. split; [exact S|].
  apply (solve_maze_marks_paths_only 20 st0 x y s xy' s' C S); cbn; lia.
Defined.

(** ** The look ahead of Rev 2.3 *)

(** X17: [checkDirections] returns with [*length] as it was at the call,
    never raises [*minLength], adds to [*numChecks] what it adds to
    [*checks], keeps [*checks] within a limit it was within, and changes no
    variable but the grid, the random generator and the counters. *)
Theorem checkDirections_keeps_length fuel x y dx dy limit value p st m p' st' :
  MazeMT.checkDirections fuel x y dx dy limit value p st = Some (m, (p', st')) ->
  MazeMT.p_length p' = MazeMT.p_length p /\
  MazeMT.p_minLength p' <= MazeMT.p_minLength p /\
  MazeMT.p_numChecks p' - MazeMT.p_numChecks p = MazeMT.p_checks p' - MazeMT.p_checks p /\
  MazeMT.p_checks p <= MazeMT.p_checks p' /\
  (MazeMT.p_checks p <= limit -> MazeMT.p_checks p' <= limit) /\
  MTSpec.frame st st'.
Proof.
  intros H.
  destruct (MTProofs.checkDirections_post _ _ _ _ _ _ _ _ _ _ _ _ H) as [C _].
  destruct C. auto 10.
Qed.

Lemma checkDirections_keeps_length_witness :
  exists m p' st',
    MazeMT.checkDirections 10 4 4 2 0 40 MazeMT.wall (MazeMT.mkProbe 2 2 0 0)
      (MTSpec.all_walls 2) = Some (m, (p', st')) /\
    MazeMT.p_length p' = 2.
Proof.
  destruct (MazeMT.checkDirections 10 4 4 2 0 40 MazeMT.wall (MazeMT.mkProbe 2 2 0 0)
              (MTSpec.all_walls 2)) as [[m [p' st']]|] eqn:E.
  - exists m, p', st'. split; [reflexivity|].
    exact (proj1 (checkDirections_keeps_length _ _ _ _ _ _ _ _ _ _ _ _ E)).
  - exfalso. vm_compute in E. discriminate.
Defined.

(** X18: [checkDirections] returns: its nesting is bounded by [*length]. *)
Theorem checkDirections_returns fuel x y dx dy limit value p st :
  MazeMT.p_length p < Z.of_nat fuel ->
  exists r, MazeMT.checkDirections fuel x y dx dy limit value p st = Some r.
Proof. apply MTProofs.checkDirections_total. Qed.

Lemma checkDirections_returns_witness :
  exists r, MazeMT.checkDirections 3 4 4 2 0 40 MazeMT.wall (MazeMT.mkProbe 2 2 0 0)
              (MTSpec.all_walls 2) = Some r.
Proof.
  apply (checkDirections_returns 3 4 4 2 0 40 MazeMT.wall (MazeMT.mkProbe 2 2 0 0)
           (MTSpec.all_walls 2)).
  cbn. lia.
Defined.

(** X19: [checkOrphan] puts back what it opened: for a step (the passage
    is not the room behind it) it returns with the grid it was given, and
    it changes no counter. *)
Theorem checkOrphan_restores x y dx dy length st :
  (Z.quot dx 2 <> dx \/ Z.quot dy 2 <> dy ->
   forall i j, MazeMT.maze (snd (MazeMT.checkOrphan x y dx dy length st)) i j
               = MazeMT.maze st i j) /\
  MazeMT.numCheckExceeded (snd (MazeMT.checkOrphan x y dx dy length st))
    = MazeMT.numCheckExceeded st /\
  MTSpec.frame st (snd (MazeMT.checkOrphan x y dx dy length st)).
Proof.
  destruct (MazeMT.checkOrphan x y dx dy length st) as [o s] eqn:E.
  destruct (MTProofs.checkOrphan_post _ _ _ _ _ _ _ _ E) as (F & N & M).
  cbn [snd]. split; [exact M|]. split; [exact N|exact F].
Qed.



(** ** The length of the solution *)

(** X21: when [solve_maze] returns on the maze [create_maze] made,
    [path_len] is the number of rooms that are Solved: every step of
    [follow_path] adds one room and every step of [back_track_path] takes
    one away.  So the length is at least 1 and at most height * width. *)
Theorem solve_maze_counts_solved_rooms fuel st x y s xy' s' :
  create_maze fuel st = Some ((x, y), s) ->
  solve_maze fuel x y s = Some (xy', s') ->
  1 <= height st -> 1 <= width st ->
  path_len s' = count_rooms (height st) (width st) (maze s') SOLVED /\
  1 <= path_len s' <= height st * width st.
Proof.
  intros C S Hh Hw.
  destruct (create_maze_post _ _ _ _ C Hh Hw) as (bs & be & E & P & A).
  injection E as -> ->. destruct xy' as [x' y'].
  destruct (solve_maze_count _ _ _ _ _ A fuel s x' y' s' P (fun i j => eq_refl) S) as [Cn Lo].
  pose proof (count_rooms_le (height st) (width st) (maze s') SOLVED ltac:(lia) ltac:(lia)).
  split; [exact Cn|lia].
Qed.

Lemma solve_maze_counts_solved_rooms_witness :
  exists x y s xy' s',
    create_maze 20 (init_state 2 3 0 0 zero_draws) = Some ((x, y), s) /\
    solve_maze 20 x y s = Some (xy', s') /\
    path_len s' = count_rooms 2 3 (maze s') SOLVED /\ 1 <= path_len s' <= 2 * 3.
Proof.
  set (st0 := init_state 2 3 0 0 zero_draws).
  destruct (create_maze 20 st0) as [[[x y] s]|] eqn:C;
    [|exfalso; vm_compute in C; discriminate].
  assert (N : match create_maze 20 st0 with
              | Some ((x, y), s) => solve_maze 20 x y s
              | None => None
              end <> None) by (vm_compute; discriminate).
  rewrite C in N. destruct (solve_maze 20 x y s) as [[xy' s']|] eqn:S; [|contradiction].
  exists x, y, s, xy', s'. split; [reflexivity|]. split; [exact S|].
  apply (solve_maze_counts_solved_rooms 20 st0 x y s xy' s' C S); cbn; lia.
Defined.

(** X22: [solve_maze] writes the grid, the direction table, the counters of
    the look ahead, [path_len], [turn_cnt] and [solves], and nothing else:
    the sizes, the openings, the settings, the statistics of the search and
    the position in the random stream are the ones it was called with. *)
Theorem solve_maze_keeps_settings fuel x y st xy st' :
  solve_maze fuel x y st = Some (xy, st') ->
  height st' = height st /\ width st' = width st /\
  max_x st' = max_x st /\ max_y st' = max_y st /\
  beg_x st' = beg_x st /\ end_x st' = end_x st /\
  beg_y st' = beg_y st /\ end_y st' = end_y st /\
  depth st' = depth st /\ min_len st' = min_len st /\
  max_path_length st' = max_path_length st /\ num_solves st' = num_solves st /\
  maze_len st' = maze_len st /\ num_paths st' = num_paths st /\
  num_wall_push st' = num_wall_push st /\ num_maze_created st' = num_maze_created st /\
  rand_pos st' = rand_pos st.
Proof.
  intros H. apply solve_maze_fixed in H.
  repeat split;
    match goal with
    | |- ?f st' = ?f st => change (f (solver_fixed st') = f (solver_fixed st)); rewrite H; reflexivity
    end.
Qed.

Lemma solve_maze_keeps_settings_witness :
  exists x y s xy' s',
    create_maze 20 (init_state 2 3 0 0 zero_draws) = Some ((x, y), s) /\
    solve_maze 20 x y s = Some (xy', s') /\
    max_path_length s' = max_path_length s /\ rand_pos s' = rand_pos s.
Proof.
  set (st0 := init_state 2 3 0 0 zero_draws).
  destruct (create_maze 20 st0) as [[[x y] s]|] eqn:C;
    [|exfalso; vm_compute in C; discriminate].
  assert (N : match create_maze 20 st0 with
              | Some ((x, y), s) => solve_maze 20 x y s
              | None => None
              end <> None) by (vm_compute; discriminate).
  rewrite C in N. destruct (solve_maze 20 x y s) as [[xy' s']|] eqn:S; [|contradiction].
  exists x, y, s, xy', s'. split; [reflexivity|]. split; [exact S|].
  pose proof (solve_maze_keeps_settings 20 x y s xy' s' S) as K.
  split; [apply K|apply K].
Defined.

(** X23: in a finished maze [search_best_openings] commits a pair it has
    solved: its trial is in the log of the search, the first one with the
    greatest (path length, turn count), the openings are (beg_y, end_y),
    and [max_path_length] is left at the path length of that trial, which
    is between 1 and height * width.  The initial record (0, 0) never
    survives, because the first pair is always tried and every solved path
    has a room. *)
Theorem search_commits_a_tried_pair h w fuel x y st xy st' :
  ready h w st ->
  search_best_openings fuel x y st = Some (xy, st') ->
  exists t l1 l2,
    search_log fuel (index_pairs w w) (mkBest 0 0 2 2) st = l1 ++ t :: l2 /\
    fst t = (beg_y st', end_y st') /\
    fst (snd t) = max_path_length st' /\
    1 <= fst (snd t) <= h * w /\
    (forall t', In t' l1 -> lex_lt (snd t') (snd t)) /\
    (forall t', In t' l2 -> lex_le (snd t') (snd t)).
Proof.
  intros R H.
  destruct (search_best_openings_length _ _ _ _ _ _ _ _ R H)
    as (b & l1 & l2 & El & Hl & All & Eb & Ee & Em & Bd).
  exists (entry b), l1, l2. unfold entry at 2 3 4 5 6. cbn [fst snd]. unfold metrics at 1 2.
  cbn [fst snd].
  split; [exact El|]. split; [congruence|]. split; [congruence|]. split; [exact Bd|].
  split; [exact Hl|].
  intros t' Hin. apply All. rewrite El. apply in_or_app. right. right. exact Hin.
Qed.

Lemma search_commits_a_tried_pair_witness :
  let st := carved_state 20 (init_state 1 3 0 0 zero_draws) in
  exists xy st',
    search_best_openings 20 2 2 st = Some (xy, st') /\
    1 <= max_path_length st' <= 1 * 3.
Proof.
  cbv zeta.
  set (st0 := init_state 1 3 0 0 zero_draws).
  destruct (carve_phase 20 st0) as [[xy0 s]|] eqn:C;
    [|exfalso; vm_compute in C; discriminate].
  assert (N : match carve_phase 20 st0 with
              | Some (_, s) => push_all 20 s
              | None => None
              end <> None) by (vm_compute; discriminate).
  rewrite C in N. destruct (push_all 20 s) as [s'|] eqn:P; [|contradiction].
  destruct (carved_state_ready 20 st0 xy0 s s' C P) as [E R]; [cbn; lia|cbn; lia|].
  rewrite E. cbn [height width st0 init_state] in R.
  destruct (search_best_openings 20 2 2 s') as [[xy st']|] eqn:L.
  - exists xy, st'. split; [reflexivity|].
    destruct (search_commits_a_tried_pair 1 3 20 2 2 s' xy st' R L)
      as (t & l1 & l2 & _ & _ & Em & Bd & _).
    rewrite <- Em. exact Bd.
  - exfalso. rewrite <- E in L. vm_compute in L. discriminate.
Defined.

(** X24: the maze [create_maze] returns has [max_path_length] between 1
    and height * width: it is the length of the solution through the
    openings that were chosen, and the loop of [main] compares it with
    [min_len]. *)
Theorem create_maze_best_length fuel st xy st' :
  create_maze fuel st = Some (xy, st') ->
  1 <= height st -> 1 <= width st ->
  1 <= max_path_length st' <= height st * width st.
Proof.
  unfold create_maze. intros H Hh Hw.
  destruct (carve_phase fuel st) as [[[x y] s1]|] eqn:C; [|discriminate].
  destruct (push_all fuel s1) as [s2|] eqn:P; [|discriminate].
  pose proof (carve_phase_ready _ _ _ _ C Hh Hw) as R1.
  pose proof (push_all_ready _ _ _ _ _ P R1) as R2.
  destruct (search_best_openings_length _ _ _ _ _ _ _ _ R2 H)
    as (b & _ & _ & _ & _ & _ & _ & _ & Em & Bd).
  rewrite Em. exact Bd.
Qed.

Lemma create_maze_best_length_witness :
  exists xy st',
    create_maze 20 (init_state 2 3 0 0 zero_draws) = Some (xy, st') /\
    1 <= max_path_length st' <= 2 * 3.
Proof.
  destruct (create_maze 20 (init_state 2 3 0 0 zero_draws)) as [[xy st']|] eqn:E.
  - exists xy, st'. split; [reflexivity|].
    exact (create_maze_best_length 20 _ xy st' E ltac:(cbn; lia) ltac:(cbn; lia)).
  - exfalso. vm_compute in E. discriminate.
Defined.

(** ** The settings and the loop of [main] *)

(** X25: on a console of at least 5 rows and 5 columns the clamps of
    [main] leave a depth from 0 to 100, a height from 1 to MAX_HEIGHT, a
    width from 1 to MAX_WIDTH and a minimum path length that is not
    negative and below height * width, whatever the flags were; and the grid
    of that size fits the array maze[MAX_X][MAX_Y]. *)
Theorem clamp_flags_in_range rows cols f :
  5 <= rows -> 5 <= cols ->
  let f' := clamp_flags rows cols f in
  0 <= flag_depth f' <= 100 /\
  1 <= flag_height f' <= MAX_HEIGHT /\
  1 <= flag_width f' <= MAX_WIDTH /\
  0 <= flag_min_len f' < flag_height f' * flag_width f' /\
  2 * (flag_height f' + 1) + 1 <= MAX_X /\
  2 * (flag_width f' + 1) + 1 <= MAX_Y.
Proof.
  intros Hr Hc. cbv zeta.
  destruct (clamp_flags_post rows cols f Hr Hc) as (D & H & _ & W & _ & M).
  unfold MAX_X, MAX_Y, MAX_HEIGHT, MAX_WIDTH in *.
  repeat split; lia.
Qed.

Lemma clamp_flags_in_range_witness :
  let f' := clamp_flags 24 80 (mkFlags (-1) 0 500 70000) in
  0 <= flag_depth f' <= 100 /\
  1 <= flag_height f' <= MAX_HEIGHT /\
  1 <= flag_width f' <= MAX_WIDTH /\
  0 <= flag_min_len f' < flag_height f' * flag_width f' /\
  2 * (flag_height f' + 1) + 1 <= MAX_X /\
  2 * (flag_width f' + 1) + 1 <= MAX_Y.
Proof.
  exact (clamp_flags_in_range 24 80 (mkFlags (-1) 0 500 70000) ltac:(lia) ltac:(lia)).
Defined.

(** X26: when the loop of [main] ends, the sizes and the minimum length
    are the ones it began with, and [max_path_length] is at least the
    minimum, at least 1 and at most height * width. *)
Theorem main_loop_result fuel n draws k st st' :
  main_loop fuel n draws k st = Some st' ->
  1 <= height st -> 1 <= width st ->
  height st' = height st /\ width st' = width st /\ min_len st' = min_len st /\
  min_len st <= max_path_length st' /\
  1 <= max_path_length st' <= height st * width st.
Proof.
  intros H Hh Hw. exact (main_loop_post fuel n draws k st st' H Hh Hw).
Qed.

Lemma main_loop_result_witness :
  exists st',
    main_loop 20 3 (fun _ => zero_draws) 0 (init_state 2 3 0 3 zero_draws) = Some st' /\
    3 <= max_path_length st' /\ 1 <= max_path_length st' <= 2 * 3.
Proof.
  destruct (main_loop 20 3 (fun _ => zero_draws) 0 (init_state 2 3 0 3 zero_draws))
    as [st'|] eqn:E.
  - exists st'. split; [reflexivity|].
    exact (proj2 (proj2 (proj2
      (main_loop_result 20 3 _ 0 _ st' E ltac:(cbn; lia) ltac:(cbn; lia))))).
  - exfalso. vm_compute in E. discriminate.
Defined.

(** X27: with a minimum length of at most 1 the loop of [main] ends after
    its first round, whatever was drawn: every solution has a room. *)
Theorem main_loop_ends_in_first_round fuel n draws k st st1 :
  round fuel (draws k) st = Some st1 ->
  1 <= height st -> 1 <= width st -> min_len st <= 1 ->
  main_loop fuel (S n) draws k st = Some st1.
Proof.
  intros Rd Hh Hw Hm. rewrite main_loop_S, Rd.
  destruct (round_post _ _ _ _ Rd Hh Hw) as (E1 & E2 & E3 & B).
  destruct (Z.geb_spec (max_path_length st1) (min_len st1)) as [Ge|Lt]; [reflexivity|lia].
Qed.

Lemma main_loop_ends_in_first_round_witness :
  exists st1,
    main_loop 20 1 (fun _ => zero_draws) 0 (init_state 1 3 0 1 zero_draws) = Some st1.
Proof.
  destruct (round 20 zero_draws (init_state 1 3 0 1 zero_draws)) as [st1|] eqn:E.
  - exists st1.
    exact (main_loop_ends_in_first_round 20 0 (fun _ => zero_draws) 0 _ st1 E
             ltac:(cbn; lia) ltac:(cbn; lia) ltac:(cbn; lia)).
  - exfalso. vm_compute in E. discriminate.
Defined.
